(** * CompFinance: the Monte-Carlo simulation drivers of [mcBase.h]
  and the implied-volatility solver of [analytics.h].

  The drivers are embedded as state-passing programs over a [World]
  that holds the objects they reach through references and pointers
  (models, random generators, AAD tapes, the thread-local tape
  pointers) together with a trace of the interface calls they make.

  Conventions.
  - [double] is an abstract type [D]; the drivers only negate, add and
    multiply doubles, and no law of arithmetic is assumed unless a
    statement says so.
  - [size_t] and [long] are unbounded ([nat], [Z]); their widths are
    implementation-defined and not fixed by the sources.
  - An out-parameter that a callee fills ([nextG], [generatePath]) is
    the callee's result; the caller's buffer is overwritten with it.
  - A reference always designates a live object: lookups in the object
    stores are total. *)

From Stdlib Require Import ZArith Lia Ring.
From Stdlib Require QArith Lqa.
From stdpp Require Import base list.

(** ** Scalars *)

(** The arithmetic of [double] the drivers and the tape rely on. *)
Class Scalar (D : Type) := {
dzero : D;
dunit : D;
dadd : D → D → D;
dmul : D → D → D;
dneg : D → D
}.

#[global] Instance Scalar_inhabited `{Scalar D} : Inhabited D := populate dzero.

(** [template <class T> struct scenario { T spot; }] *)
Record scenario (T : Type) := mkScenario { spot : T }.
Arguments mkScenario {T} _.
Arguments spot {T} _.

(** ** Active numbers and their recordings *)

(** The partial derivatives of a tape node with respect to its inputs,
  each input given by the index of its node on the same tape. *)
Definition NodeArgs (D : Type) : Type := list (nat * D).

(** Modelled from the spec: [AADNumber.h] is not part of the sources.
  An active number is a value with a reference to its adjoint slot,
  the node of the tape it was recorded on. *)
Record Number (D : Type) := mkNumber { value : D; node : nat }.
Arguments mkNumber {D} _ _.
Arguments value {D} _.
Arguments node {D} _.

#[global] Instance Number_inhabited `{Inhabited D} : Inhabited (Number D) :=
  populate (mkNumber inhabitant 0).

(** Code instantiated at [T = double] computes its result and nothing
  else. *)
Definition Plain (A : Type) : Type := A.

(** Modelled from the spec: code instantiated at [T = Number] records
  on the current tape.  Every arithmetic operation appends one node,
  so a call is described by its result and the nodes it appends, given
  the index the first of them receives. *)
Definition Recorded (D : Type) (A : Type) : Type := nat → A * list (NodeArgs D).

(** ** The abstract interfaces of [mcBase.h] *)

Module Product.
(** [template <class T> class Product]: only [const] members. *)
Record t (D T : Type) (E : Type → Type) := mk {
  timeline : list D;
  payoff : list (scenario T) → E T
}.
Arguments mk {D T E} _ _.
Arguments timeline {D T E} _.
Arguments payoff {D T E} _ _.
End Product.

Module Model.
(** [template <class T> class Model]; [M] is the state of an object
    of the concrete class. *)
Class t (D T : Type) (E : Type → Type) (M : Type) := mk {
  init : M → list D → E M;
  simDim : M → nat;
  generatePath : M → list D → E (list (scenario T));
  clone : M → M;
  parameters : M → list T;
  putOnTape : M → E M
}.
End Model.

Module RNG.
(** [class RNG]; [R] is the state of an object of the concrete class.
    [skipTo] is virtual with a default body, [skipToBase] below. *)
Class t (D R : Type) := mk {
  init : R → nat → R;
  nextG : R → R * list D;
  clone : R → R;
  simDim : R → nat;
  skipTo : R → Z → R
}.

(** The generator after [n] calls of [nextG] in a row, the vectors
  they write dropped.  The closed forms of the drivers are stated with
  it. *)
Fixpoint skipLoop {D R : Type} (nextG : R → R * list D) (n : nat) (r : R) : R :=
  match n with
  | 0 => r
  | S n' => skipLoop nextG n' (nextG r).1
  end.

(** The largest value of the [int] that counts the turns of
  [RNG::skipTo], an [int] of 32 bits. *)
Definition INT_MAX : Z := 2147483647.

(** What a call of [RNG::skipTo] of the base class comes to: it
  returns, leaving the generator in a state; or it increments its
  counter [int i] at [INT_MAX], which is undefined; or its loop makes
  more turns than the fuel allows. *)
Inductive Skip (R : Type) :=
| Skipped (r : R)
| CounterOverflow
| SkipOutOfFuel.
Arguments Skipped {R} r.
Arguments CounterOverflow {R}.
Arguments SkipOutOfFuel {R}.

(** [for (int i = 0; i < b; ++i) nextG(dummy);] from the counter [i]:
  the test compares [i] with the [long b], and [++i] is an increment of
  an [int]. *)
Fixpoint skipToLoop {D R : Type} (nextG : R → R * list D) (fuel : nat) (b i : Z) (r : R)
    : Skip R :=
  match fuel with
  | 0 => SkipOutOfFuel
  | S fuel' =>
      if (i <? b)%Z then
        if (i <? INT_MAX)%Z
        then skipToLoop nextG fuel' b (i + 1) (nextG r).1
        else CounterOverflow
      else Skipped r
  end.

(** The body of [RNG::skipTo] in the base class, over the [nextG] of
  the concrete class.  The loop makes at most [b] turns, none when
  [b <= 0]: the fuel is never used up (see [skipToBase_run] and
  [skipToBase_overflow]). *)
Definition skipToBase {D R : Type} (nextG : R → R * list D) (r : R) (b : Z) : Skip R :=
  skipToLoop nextG (S (Z.to_nat b)) b 0 r.

(** The first [n] Gaussian vectors an object in state [r] produces. *)
Fixpoint draws `{t D R} (n : nat) (r : R) : list (list D) :=
  match n with
  | 0 => []
  | S n' => (nextG r).2 :: draws n' (nextG r).1
  end.
End RNG.

(** ** The tape *)

Section Tape.
Context {D : Type} `{!Scalar D}.

(** Modelled from the spec: [AADTape.h] is not part of the sources.
    A node carries the references to its inputs with the local
    partial derivatives, and its own adjoint. *)
Record Node := mkNode { nargs : NodeArgs D; adjoint : D }.

(** Modelled from the spec: the tape is a sequence of nodes with a
    saved position, the mark; a dropped mark coincides with start. *)
Record Tape := mkTape { nodes : list Node; markPos : nat }.

Definition emptyTape : Tape := mkTape [] 0.

(** Modelled from the spec: [rewind()] clears all nodes and drops the
    mark. *)
Definition rewind (t : Tape) : Tape := emptyTape.

(** Modelled from the spec: [mark()] sets mark := end. *)
Definition mark (t : Tape) : Tape := mkTape (nodes t) (length (nodes t)).

(** Modelled from the spec: [rewindToMark()] truncates to the mark;
    the nodes before it keep their adjoints. *)
Definition rewindToMark (t : Tape) : Tape :=
  mkTape (take (markPos t) (nodes t)) (markPos t).

(** Modelled from the spec: a recorded node starts with adjoint 0. *)
Definition freshNode (a : NodeArgs D) : Node := mkNode a dzero.

Definition recordNodes (new : list (NodeArgs D)) (t : Tape) : Tape :=
  mkTape (nodes t ++ map freshNode new) (markPos t).

Definition addAdjoint (j : nat) (x : D) (ns : list Node) : list Node :=
  alter (λ nd, mkNode (nargs nd) (dadd (adjoint nd) x)) j ns.

Definition setAdjoint (j : nat) (x : D) (ns : list Node) : list Node :=
  alter (λ nd, mkNode (nargs nd) x) j ns.

Definition resetAdjoints (ns : list Node) : list Node :=
  map (λ nd, mkNode (nargs nd) dzero) ns.

Definition adjointAt (ns : list Node) (j : nat) : D :=
  from_option adjoint dzero (ns !! j).

(** Modelled from the spec: visiting node [k] performs
    [adjoint(input) += partial * adjoint(output)] for each input. *)
Definition propagateNode (k : nat) (ns : list Node) : list Node :=
  match ns !! k with
  | Some nd =>
      foldl (λ acc jd, addAdjoint jd.1 (dmul jd.2 (adjoint nd)) acc) ns (nargs nd)
  | None => ns
  end.

(** Visit the [n] nodes [lo + n - 1], ..., [lo], walking backward. *)
Fixpoint propagateDown (lo n : nat) (ns : list Node) : list Node :=
  match n with
  | 0 => ns
  | S n' => propagateDown lo n' (propagateNode (lo + n') ns)
  end.

(** Modelled from the spec: [propagateToMark(node, reset)] sets the
    adjoint of the result node to 1, then walks the tape backward from
    it down to, and not past, the mark.  With [reset] all adjoints are
    cleared first. *)
Definition propagateToMark (r : nat) (reset : bool) (t : Tape) : Tape :=
  let ns0 := if reset then resetAdjoints (nodes t) else nodes t in
  let ns1 := setAdjoint r dunit ns0 in
  mkTape (propagateDown (markPos t) (S r - markPos t) ns1) (markPos t).

(** Modelled from the spec: [propagateMarkToStart()] walks from the
    mark back to start. *)
Definition propagateMarkToStart (t : Tape) : Tape :=
  mkTape (propagateDown 0 (markPos t) (nodes t)) (markPos t).

#[global] Instance Tape_inhabited : Inhabited Tape := populate emptyTape.

(** *** The derivatives a tape records *)

(** [f 0 + ... + f (n - 1)], summed in this order. *)
Fixpoint bigsum (n : nat) (f : nat → D) : D :=
  match n with
  | 0 => dzero
  | S n' => dadd (bigsum n' f) (f n')
  end.

(** The sum over the inputs of a node of [partial * ts[input]]. *)
Definition evalArgs (a : NodeArgs D) (ts : list D) : D :=
  foldr (λ jd acc, dadd (dmul jd.2 (ts !!! jd.1)) acc) dzero a.

Definition seed (q k : nat) : D := if decide (k = q) then dunit else dzero.

(** Forward differentiation along the tape: the derivative of every
    node with respect to node [q], given the derivatives [acc] of the
    nodes before [ns].  A node's derivative is the partial-weighted sum
    of those of its inputs; node [q] itself adds 1. *)
Fixpoint tangentsFrom (q : nat) (acc : list D) (ns : list (NodeArgs D)) : list D :=
  match ns with
  | [] => acc
  | a :: ns' =>
      tangentsFrom q (acc ++ [dadd (seed q (length acc)) (evalArgs a acc)]) ns'
  end.

Definition tangents (q : nat) (ns : list (NodeArgs D)) : list D :=
  tangentsFrom q [] ns.

(** The derivative of node [r] with respect to node [q] that the nodes
    [ns] record. *)
Definition derivative (ns : list (NodeArgs D)) (q r : nat) : D :=
  tangents q ns !!! r.

(** The adjoints a backward walk has yet to hand down when it stands
    at node [k]: the adjoints of the nodes below [k] weighted by their
    derivatives [ts], and what has reached node [q] itself.  A step of
    the walk keeps this quantity (see [Psi_propagateNode]). *)
Definition weight (q k : nat) (ts : list D) (i : nat) : D :=
  if decide (i < k) then ts !!! i else seed q i.

Definition Psi (q k : nat) (ns : list Node) : D :=
  bigsum (length ns)
    (λ i, dmul (adjointAt ns i) (weight q k (tangents q (map nargs ns)) i)).

(** The same for the nodes [pref] before the mark, whose inputs and
    partials are [P]. *)
Definition Phi (q : nat) (P : list (NodeArgs D)) (pref : list Node) : D :=
  bigsum (length P) (λ i, dmul (adjointAt pref i) (tangents q P !!! i)).

(** Every input of the node at index [k] is a node before it. *)
Definition wfNode (k : nat) (a : NodeArgs D) : bool :=
  forallb (λ jd, jd.1 <? k) a.

(** The same for every node of [ns], the first of which has index
    [base]. *)
Fixpoint wfNodesFrom (base : nat) (ns : list (NodeArgs D)) : bool :=
  match ns with
  | [] => true
  | a :: ns' => wfNode base a && wfNodesFrom (S base) ns'
  end.
End Tape.

Arguments Node D : clear implicits.
Arguments Tape D : clear implicits.

(** ** The world the drivers run in *)

Section Engine.
Context {D : Type} `{!Scalar D}.
Context {MD : Type} `{!Model.t D D Plain MD} `{!Inhabited MD}.
Context {MN : Type} `{!Model.t D (Number D) (Recorded D) MN} `{!Inhabited MN}.
Context {R : Type} `{!RNG.t D R} `{!Inhabited R}.

(** The calls a driver makes on the objects it holds, in program order.
    Objects and tapes are named by their index in the stores. *)
Inductive Event :=
| EvModelClone (src new : nat)
| EvRngClone (src new : nat)
| EvModelInit (m : nat)
| EvPutOnTape (m tape : nat)
| EvRngInit (r dim : nat)
| EvNextG (r : nat)
| EvSkipTo (r : nat) (b : Z)
| EvNegate
| EvGeneratePath (m : nat) (gaussVec : list D)
| EvPayoff (i : nat)
| EvTapeRewind (tape : nat)
| EvTapeMark (tape : nat)
| EvTapeRewindToMark (tape : nat)
| EvPropagateToMark (tape node : nat) (reset : bool)
| EvPropagateMarkToStart (tape : nat)
| EvSetTape (thread tape : nat)
| EvAdjointAdd (tape node : nat).

(** [models] and [amodels] hold the [Model<double>] and [Model<Number>]
    objects, [rngs] the generators, [tapes] the tapes; [tapePtr] is the
    thread-local [Number::tape] of each thread (0 is the caller of the
    driver). *)
Record World := mkWorld {
  models : list MD;
  amodels : list MN;
  rngs : list R;
  tapes : list (Tape D);
  tapePtr : nat → nat;
  trace : list Event
}.

Definition withModels (f : list MD → list MD) (w : World) : World :=
  mkWorld (f (models w)) (amodels w) (rngs w) (tapes w) (tapePtr w) (trace w).
Definition withAModels (f : list MN → list MN) (w : World) : World :=
  mkWorld (models w) (f (amodels w)) (rngs w) (tapes w) (tapePtr w) (trace w).
Definition withRngs (f : list R → list R) (w : World) : World :=
  mkWorld (models w) (amodels w) (f (rngs w)) (tapes w) (tapePtr w) (trace w).
Definition withTapes (f : list (Tape D) → list (Tape D)) (w : World) : World :=
  mkWorld (models w) (amodels w) (rngs w) (f (tapes w)) (tapePtr w) (trace w).
Definition withTapePtr (f : (nat → nat) → nat → nat) (w : World) : World :=
  mkWorld (models w) (amodels w) (rngs w) (tapes w) (f (tapePtr w)) (trace w).
Definition emit (e : Event) (w : World) : World :=
  mkWorld (models w) (amodels w) (rngs w) (tapes w) (tapePtr w) (trace w ++ [e]).

(** A driver threads the world through its statements. *)
Definition Sim (A : Type) : Type := World → A * World.

#[global] Instance Sim_ret : MRet Sim := λ A a w, (a, w).
#[global] Instance Sim_bind : MBind Sim :=
  λ A B k c w, let r := c w in k r.1 r.2.

(** [for (size_t k = i; k < i + n; k++) body], the locals the body
    assigns threaded through [s]. *)
Fixpoint forRange {St : Type} (i n : nat) (body : nat → St → Sim St) (s : St) : Sim St :=
  match n with
  | 0 => mret s
  | S n' => s' ← body i s; forRange (S i) n' body s'
  end.

(** *** Calls on [Model<double>] objects *)

Definition modelClone (m : nat) : Sim nat := λ w,
  let new := length (models w) in
  (new, emit (EvModelClone m new)
          (withModels (λ l, l ++ [Model.clone (M:=MD) (l !!! m)]) w)).

Definition modelInit (m : nat) (tl : list D) : Sim unit := λ w,
  (tt, emit (EvModelInit m)
         (withModels (λ l, <[m := (Model.init (E:=Plain) (M:=MD) (l !!! m) tl : MD)]> l) w)).

Definition modelSimDim (m : nat) : Sim nat := λ w,
  (Model.simDim (M:=MD) (models w !!! m), w).

Definition modelGeneratePath (m : nat) (g : list D) : Sim (list (scenario D)) := λ w,
  ((Model.generatePath (E:=Plain) (M:=MD) (models w !!! m) g : list (scenario D)),
   emit (EvGeneratePath m g) w).

(** [res[i] = prd.payoff(path)] *)
Definition payoffInto (prd : Product.t D D Plain) (path : list (scenario D))
    (i : nat) (res : list D) : Sim (list D) := λ w,
  (<[i := (Product.payoff prd path : D)]> res, emit (EvPayoff i) w).

(** *** Calls on [RNG] objects *)

Definition rngClone (r : nat) : Sim nat := λ w,
  let new := length (rngs w) in
  (new, emit (EvRngClone r new) (withRngs (λ l, l ++ [RNG.clone (l !!! r)]) w)).

Definition rngInit (r dim : nat) : Sim unit := λ w,
  (tt, emit (EvRngInit r dim) (withRngs (λ l, <[r := RNG.init (l !!! r) dim]> l) w)).

Definition rngNextG (r : nat) : Sim (list D) := λ w,
  ((RNG.nextG (rngs w !!! r)).2,
   emit (EvNextG r) (withRngs (λ l, <[r := (RNG.nextG (l !!! r)).1]> l) w)).

Definition rngSkipTo (r : nat) (b : Z) : Sim unit := λ w,
  (tt, emit (EvSkipTo r b) (withRngs (λ l, <[r := RNG.skipTo (l !!! r) b]> l) w)).

(** [for (auto& gauss : gaussVec) gauss = -gauss;] *)
Definition negate (gaussVec : list D) : Sim (list D) := λ w,
  (map dneg gaussVec, emit EvNegate w).

(** The block every driver runs at the head of a path: the next
    Gaussian vector, or under [antithetic] the negation of the last one
    on every other path.  It returns the new [antiPath] and the new
    contents of [gaussVec]. *)
Definition nextGaussian (antithetic : bool) (rng : nat)
    (antiPath : bool) (gaussVec : list D) : Sim (bool * list D) :=
  if negb antithetic then
    g ← rngNextG rng; mret (antiPath, g)
  else if negb antiPath then
    g ← rngNextG rng; mret (true, g)
  else
    g ← negate gaussVec; mret (false, g).

(** *** The Gaussian vectors of a run, in closed form *)

(** The Gaussian vector number [k] (0-based) that a generator in state
    [r] produces. *)
Definition nthDraw (r : R) (k : nat) : list D :=
  (RNG.nextG (RNG.skipLoop RNG.nextG k r)).2.

(** The Gaussian vector that path [i] of a loop consumes when the
    generator is in state [r] at the head of the loop: under
    [antithetic], paths [2k] and [2k + 1] share draw [k]. *)
Definition pathGauss (antithetic : bool) (r : R) (i : nat) : list D :=
  if antithetic then
    if Nat.even i then nthDraw r (i / 2) else map dneg (nthDraw r (i / 2))
  else nthDraw r i.

(** The number of draws the first [n] paths of a loop take. *)
Definition drawsUsed (antithetic : bool) (n : nat) : nat :=
  if antithetic then (n + 1) / 2 else n.

(** The calls the block [nextGaussian] makes at the head of path [i]. *)
Definition gaussEvents (antithetic : bool) (rng : nat) (i : nat) : list Event :=
  if antithetic && Nat.odd i then [EvNegate] else [EvNextG rng].

(** The contents of [gaussVec] at the head of path [i]: what path
    [i - 1] left there, [g0] before the first path. *)
Definition prevGauss (antithetic : bool) (r : R) (g0 : list D) (i : nat) : list D :=
  match i with
  | 0 => g0
  | S i' => pathGauss antithetic r i'
  end.

(** The world after the calls [es], in this order, were added to the
    trace. *)
Definition emits (es : list Event) (w : World) : World :=
  mkWorld (models w) (amodels w) (rngs w) (tapes w) (tapePtr w) (trace w ++ es).

(** *** Objects a run leaves alone *)

(** The call [e] changes one of the first [nm] models or of the first
    [nr] generators. *)
Definition mutatesAmong (nm nr : nat) (e : Event) : bool :=
  match e with
  | EvModelInit m | EvPutOnTape m _ => m <? nm
  | EvRngInit r _ | EvNextG r | EvSkipTo r _ => r <? nr
  | _ => false
  end.

(** From [base] to [w], every model and generator of [base] is what it
    was, objects were only added, and no call made since changes one of
    the first [nm] models or a generator of [base]. *)
Definition Untouched (nm : nat) (base w : World) : Prop :=
  models base `prefix_of` models w
  ∧ amodels base `prefix_of` amodels w
  ∧ rngs base `prefix_of` rngs w
  ∧ ∃ es, trace w = trace base ++ es
          ∧ forallb (λ e, negb (mutatesAmong nm (length (rngs base)) e)) es = true.

(** Wherever [c] is run after [base], it leaves the objects of [base]
    alone, and what it returns satisfies [post]. *)
Definition Keeps {A : Type} (nm : nat) (base : World) (c : Sim A) (post : A → Prop) : Prop :=
  ∀ w, Untouched nm base w → Untouched nm base (c w).2 ∧ post (c w).1.

(** ** [mcSimul] *)

(** The body of the per-path loop; the locals it assigns are
    [antiPath], [gaussVec], [path] and [res]. *)
Definition mcSimulPath (prd : Product.t D D Plain) (antithetic : bool)
    (cMdl cRng : nat) (i : nat) (s : bool * list D * list (scenario D) * list D)
    : Sim (bool * list D * list (scenario D) * list D) :=
  let '(antiPath, gaussVec, _, res) := s in
  ag ← nextGaussian antithetic cRng antiPath gaussVec;
  path ← modelGeneratePath cMdl ag.2;
  res ← payoffInto prd path i res;
  mret (ag.1, ag.2, path, res).

Definition mcSimul (prd : Product.t D D Plain) (mdl rng : nat)
    (nPath : nat) (antithetic : bool) : Sim (list D) :=
  cMdl ← modelClone mdl;
  cRng ← rngClone rng;
  let res := replicate nPath dzero in
  modelInit cMdl (Product.timeline prd);;
  dim ← modelSimDim cMdl;
  rngInit cRng dim;;
  let gaussVec := replicate dim dzero in
  let path := replicate (length (Product.timeline prd)) (mkScenario dzero) in
  s ← forRange 0 nPath (mcSimulPath prd antithetic cMdl cRng)
        (false, gaussVec, path, res);
  mret s.2.

(** *** The run of [mcSimul], in closed form *)

(** The clone of the model once it is initialised. *)
Definition setupModel (prd : Product.t D D Plain) (m : MD) : MD :=
  Model.init (E:=Plain) (Model.clone m) (Product.timeline prd).

(** The clone of the generator once it is initialised. *)
Definition setupRng (prd : Product.t D D Plain) (m : MD) (r : R) : R :=
  RNG.init (RNG.clone r) (Model.simDim (setupModel prd m)).

(** The payoff of path [i]. *)
Definition pathPayoff (prd : Product.t D D Plain) (m1 : MD)
    (antithetic : bool) (r0 : R) (i : nat) : D :=
  Product.payoff prd (Model.generatePath (E:=Plain) m1 (pathGauss antithetic r0 i)).

(** The calls of path [i], writing its payoff to [res[j]]. *)
Definition pathEvents (antithetic : bool) (cMdl cRng : nat) (r0 : R) (i j : nat)
    : list Event :=
  gaussEvents antithetic cRng i
  ++ [EvGeneratePath cMdl (pathGauss antithetic r0 i); EvPayoff j].

(** ** The worker pool *)

(** [#define BATCHSIZE 64] *)
Definition BATCHSIZE : nat := 64.

(** The [while (pathsLeft > 0)] loop of the parallel drivers: the
    [(firstPath, pathsInTask)] pair each spawned task captures, in
    spawning order.  A turn of the loop takes at least one path, so
    [fuel] = [nPath] turns always suffice (see [spawnLoop_covers]). *)
Fixpoint spawnLoop (fuel firstPath pathsLeft : nat) : list (nat * nat) :=
  match fuel with
  | 0 => []
  | S fuel' =>
      if decide (0 < pathsLeft) then
        let pathsInTask := pathsLeft `min` BATCHSIZE in
        (firstPath, pathsInTask)
          :: spawnLoop fuel' (firstPath + pathsInTask) (pathsLeft - pathsInTask)
      else []
  end.

(** Modelled from the spec: [threadPool.h] is not part of the sources.
    The pool has [numThreads] workers; a spawned task runs exactly once,
    on a thread of the pool's choice ([threadNum], 0 for the caller, who
    helps while it waits), and has run when [activeWait] on its handle
    returns.  Tasks of one run touch disjoint data, so a run is as if
    the tasks ran one after another in some order: [schedule] lists
    (index of the task in spawning order, thread that runs it). *)
Record Pool := mkPool { numThreads : nat; schedule : list (nat * nat) }.

(** Modelled from the spec: every spawned task runs once, on a thread
    of the pool. *)
Definition ValidSchedule (pool : Pool) (nTasks : nat) : Prop :=
  map fst (schedule pool) ≡ₚ seq 0 nTasks
  ∧ Forall (λ kt, kt.2 ≤ numThreads pool) (schedule pool).

(** [for (auto& future : futures) pool->activeWait(future);] once all
    tasks are spawned: the tasks run as the pool scheduled them, on the
    locals [s] they capture by reference. *)
Fixpoint runSchedule {St : Type} (tasks : list (nat → St → Sim St))
    (sched : list (nat * nat)) (s : St) : Sim St :=
  match sched with
  | [] => mret s
  | (k, threadNum) :: sched' =>
      s' ← (match tasks !! k with
            | Some task => task threadNum s
            | None => mret s
            end);
      runSchedule tasks sched' s'
  end.

(** ** [mcParallelSimul] *)

(** The locals the tasks of [mcParallelSimul] capture by reference. *)
Record ParLocals := mkParLocals {
  gaussVecs : list (list D);
  paths : list (list (scenario D));
  pres : list D
}.

(** The body of the per-path loop of a task; the locals it assigns are
    [antiPath] and, through the references the task holds, the buffers
    of its thread and [res]. *)
Definition plainTaskPath (prd : Product.t D D Plain) (antithetic : bool)
    (cMdl taskRng : nat) (firstPath threadNum : nat) (i : nat)
    (s : bool * ParLocals) : Sim (bool * ParLocals) :=
  let '(antiPath, L) := s in
  ag ← nextGaussian antithetic taskRng antiPath (gaussVecs L !!! threadNum);
  path ← modelGeneratePath cMdl ag.2;
  res ← payoffInto prd path (firstPath + i) (pres L);
  mret (ag.1, mkParLocals (<[threadNum := ag.2]> (gaussVecs L))
                          (<[threadNum := path]> (paths L)) res).

(** The lambda spawned by [mcParallelSimul]. *)
Definition plainTask (prd : Product.t D D Plain) (cMdl cRng : nat)
    (antithetic : bool) (firstPath pathsInTask : nat)
    (threadNum : nat) (L : ParLocals) : Sim ParLocals :=
  taskRng ← rngClone cRng;
  rngSkipTo taskRng
    (if antithetic then Z.of_nat (firstPath / 2) else Z.of_nat firstPath);;
  s ← forRange 0 pathsInTask
        (plainTaskPath prd antithetic cMdl taskRng firstPath threadNum) (false, L);
  mret s.2.

Definition mcParallelSimul (pool : Pool) (prd : Product.t D D Plain)
    (mdl rng : nat) (nPath : nat) (antithetic : bool) : Sim (list D) :=
  cMdl ← modelClone mdl;
  cRng ← rngClone rng;
  let res := replicate nPath dzero in
  modelInit cMdl (Product.timeline prd);;
  dim ← modelSimDim cMdl;
  rngInit cRng dim;;
  let nThread := numThreads pool in
  let gaussVecs := replicate (nThread + 1) (replicate dim dzero) in
  let paths := replicate (nThread + 1)
                 (replicate (length (Product.timeline prd)) (mkScenario dzero)) in
  let futures := map (λ b, plainTask prd cMdl cRng antithetic b.1 b.2)
                     (spawnLoop nPath 0 nPath) in
  L ← runSchedule futures (schedule pool) (mkParLocals gaussVecs paths res);
  mret (pres L).

(** *** The run of the tasks, in closed form *)

(** A generator whose [skipTo] is an exact skip-ahead: the draws of a
    clone moved to [k] are the draws of the generator from number [k]
    on. *)
Definition ExactSkipAhead : Prop :=
  ∀ (r : R) (k j : nat),
    nthDraw (RNG.skipTo (RNG.clone r) (Z.of_nat k)) j = nthDraw r (k + j).

(** [antithetic ? firstPath / 2 : firstPath] *)
Definition skipArg (antithetic : bool) (firstPath : nat) : Z :=
  if antithetic then Z.of_nat (firstPath / 2) else Z.of_nat firstPath.

(** The generator of a task once it is positioned, [r0] the generator
    the task clones. *)
Definition taskRngState (antithetic : bool) (r0 : R) (firstPath : nat) : R :=
  RNG.skipTo (RNG.clone r0) (skipArg antithetic firstPath).

(** The payoff the task that starts at [firstPath] writes to
    [res[firstPath + i]]. *)
Definition taskPayoff (prd : Product.t D D Plain) (m1 : MD) (antithetic : bool) (r0 : R)
    (firstPath i : nat) : D :=
  pathPayoff prd m1 antithetic (taskRngState antithetic r0 firstPath) i.

(** [res] once a task has written the payoffs [f firstPath i] of its
    batch [b]. *)
Definition writeBatch {A : Type} (f : nat → nat → A) (res : list A) (b : nat * nat) : list A :=
  foldl (λ res i, <[b.1 + i := f b.1 i]> res) res (seq 0 b.2).

(** The calls of the task for the batch [b], [taskRng] the clone it
    makes of the generator [cRng]. *)
Definition taskEvents (antithetic : bool) (cMdl cRng taskRng : nat) (r0 : R)
    (b : nat * nat) : list Event :=
  [EvRngClone cRng taskRng; EvSkipTo taskRng (skipArg antithetic b.1)]
  ++ flat_map (λ i, pathEvents antithetic cMdl taskRng
                      (taskRngState antithetic r0 b.1) i (b.1 + i)) (seq 0 b.2).

(** The calls of the tasks in the order [sched] runs them, [nr] the
    number of generators there are when the first one starts. *)
Definition scheduleEvents (antithetic : bool) (cMdl cRng : nat) (r0 : R)
    (batches : list (nat * nat)) (nr : nat) (sched : list (nat * nat)) : list Event :=
  concat (imap (λ pos kt, taskEvents antithetic cMdl cRng (nr + pos) r0 (batches !!! kt.1))
            sched).

(** The indices of [res] the calls [es] write a payoff to, in the
    order of the writes. *)
Definition payoffIndices (es : list Event) : list nat :=
  omap (λ e, match e with EvPayoff j => Some j | _ => None end) es.

(** The arguments of the calls of [skipTo] among [es]. *)
Definition skipCalls (es : list Event) : list Z :=
  omap (λ e, match e with EvSkipTo _ b => Some b | _ => None end) es.

(** The paths of a batch. *)
Definition batchIndices (b : nat * nat) : list nat := seq b.1 b.2.

(** *** Antithetic sampling, seen from the trace *)

(** What a call does to the Gaussian vector of a path, without the
    object it is made on: [skipTo(b)], a primary step ([nextG]), a
    negation, and [generatePath] on the vector [v]. *)
Inductive GaussStep :=
| GSkip (b : Z)
| GPrimary
| GNegate
| GPath (v : list D).

Definition gaussStep (e : Event) : option GaussStep :=
  match e with
  | EvSkipTo _ b => Some (GSkip b)
  | EvNextG _ => Some GPrimary
  | EvNegate => Some GNegate
  | EvGeneratePath _ v => Some (GPath v)
  | _ => None
  end.

(** These calls among [es], in order. *)
Definition gaussSteps (es : list Event) : list GaussStep := omap gaussStep es.

(** A loop of [n] paths that alternates from a primary step, the
    generator in state [r] at its head: path [2k] calls [nextG] and
    runs on draw [k], path [2k + 1] negates and runs on the negation. *)
Definition antitheticSteps (r : R) (n : nat) : list GaussStep :=
  flat_map (λ i, if Nat.even i
                 then [GPrimary; GPath (nthDraw r (i / 2))]
                 else [GNegate; GPath (map dneg (nthDraw r (i / 2)))])
    (seq 0 n).

(** The same for the task of batch [b], which first moves its clone of
    [r0] to [firstPath / 2]. *)
Definition antitheticTaskSteps (r0 : R) (b : nat * nat) : list GaussStep :=
  GSkip (Z.of_nat (b.1 / 2))
  :: antitheticSteps (RNG.skipTo (RNG.clone r0) (Z.of_nat (b.1 / 2))) b.2.

(** *** Parameters put on tape and additions into adjoints, seen from
    the trace *)

(** [a += b] into the adjoint of node [q] of tape [t]. *)
Definition adjointAdd (e : Event) : option (nat * nat) :=
  match e with
  | EvAdjointAdd t q => Some (t, q)
  | _ => None
  end.

(** [putOnTape] on model [m], recording on tape [t]. *)
Definition putOnTapeCall (e : Event) : option (nat * nat) :=
  match e with
  | EvPutOnTape m t => Some (m, t)
  | _ => None
  end.

(** These calls among [es], in order. *)
Definition adjointAdds (es : list Event) : list (nat * nat) := omap adjointAdd es.
Definition putOnTapes (es : list Event) : list (nat * nat) := omap putOnTapeCall es.

(** The generator a task leaves behind. *)
Definition taskRngAfter (antithetic : bool) (r0 : R) (b : nat * nat) : R :=
  RNG.skipLoop RNG.nextG (drawsUsed antithetic b.2) (taskRngState antithetic r0 b.1).

(** ** Calls that record on, or walk, a tape *)

(** The caller of a driver is thread 0 of the pool. *)
Definition mainThread : nat := 0.

(** Modelled from the spec: a default-constructed [Number]; the drivers
    overwrite it before they read it. *)
Definition defaultNumber : Number D := mkNumber dzero 0.

(** [Number::tape], read on thread [th]. *)
Definition currentTape (th : nat) : Sim nat := λ w, (tapePtr w th, w).

(** [Number::tape = &...], assigned on thread [th]. *)
Definition setCurrentTape (th tape : nat) : Sim unit := λ w,
  (tt, emit (EvSetTape th tape)
         (withTapePtr (λ p k, if decide (k = th) then tape else p k) w)).

(** [vector<Tape> tapes(n)]: [n] fresh tapes; the result names the
    first of them.  They live until the vector goes out of scope
    ([freeTapes]). *)
Definition allocTapes (n : nat) : Sim nat := λ w,
  (length (tapes w), withTapes (λ l, l ++ replicate n emptyTape) w).

(** The end of the scope of that vector: the tapes from [first] on,
    which are the last there are, are destroyed.  A [Number::tape] that
    designated one of them is left as it is. *)
Definition freeTapes (first : nat) : Sim unit := λ w,
  (tt, withTapes (take first) w).

(** The number of tapes there are. *)
Definition tapeCount : Sim nat := λ w, (length (tapes w), w).

Definition tapeRewind (tape : nat) : Sim unit := λ w,
  (tt, emit (EvTapeRewind tape) (withTapes (λ l, <[tape := rewind (l !!! tape)]> l) w)).

Definition tapeMark (tape : nat) : Sim unit := λ w,
  (tt, emit (EvTapeMark tape) (withTapes (λ l, <[tape := mark (l !!! tape)]> l) w)).

Definition tapeRewindToMark (tape : nat) : Sim unit := λ w,
  (tt, emit (EvTapeRewindToMark tape)
         (withTapes (λ l, <[tape := rewindToMark (l !!! tape)]> l) w)).

(** Run code instantiated at [Number] on thread [th]: its nodes are
    appended to the tape [Number::tape] points to. *)
Definition recordOn {A : Type} (th : nat) (c : Recorded D A) : Sim A := λ w,
  let tape := tapePtr w th in
  let r := c (length (nodes (tapes w !!! tape))) in
  (r.1, withTapes (λ l, <[tape := recordNodes r.2 (l !!! tape)]> l) w).

(** [x.propagateToMark(reset)] on thread [th]. *)
Definition numberPropagateToMark (th : nat) (x : Number D) (reset : bool) : Sim unit := λ w,
  let tape := tapePtr w th in
  (tt, emit (EvPropagateToMark tape (node x) reset)
         (withTapes (λ l, <[tape := propagateToMark (node x) reset (l !!! tape)]> l) w)).

(** [Number::propagateMarkToStart()] on thread [th]. *)
Definition numberPropagateMarkToStart (th : nat) : Sim unit := λ w,
  let tape := tapePtr w th in
  (tt, emit (EvPropagateMarkToStart tape)
         (withTapes (λ l, <[tape := propagateMarkToStart (l !!! tape)]> l) w)).

(** [x.adjoint() += y.adjoint()], [x] a number recorded on tape [tx]
    and [y] one recorded on tape [ty]. *)
Definition adjointAddFrom (tx : nat) (x : Number D) (ty : nat) (y : Number D) : Sim unit := λ w,
  let a := adjointAt (nodes (tapes w !!! ty)) (node y) in
  (tt, emit (EvAdjointAdd tx (node x))
         (withTapes (λ l, <[tx := mkTape (addAdjoint (node x) a (nodes (l !!! tx)))
                                         (markPos (l !!! tx))]> l) w)).

(** *** Calls on [Model<Number>] objects *)

Definition amodelClone (m : nat) : Sim nat := λ w,
  let new := length (amodels w) in
  (new, emit (EvModelClone m new)
          (withAModels (λ l, l ++ [Model.clone (M:=MN) (l !!! m)]) w)).

Definition amodelPutOnTape (th m : nat) : Sim unit := λ w,
  let r := recordOn th (Model.putOnTape (M:=MN) (amodels w !!! m)) w in
  (tt, emit (EvPutOnTape m (tapePtr w th)) (withAModels (λ l, <[m := r.1]> l) r.2)).

Definition amodelInit (th m : nat) (tl : list D) : Sim unit := λ w,
  let r := recordOn th (Model.init (M:=MN) (amodels w !!! m) tl) w in
  (tt, emit (EvModelInit m) (withAModels (λ l, <[m := r.1]> l) r.2)).

Definition amodelSimDim (m : nat) : Sim nat := λ w,
  (Model.simDim (M:=MN) (amodels w !!! m), w).

Definition amodelParameters (m : nat) : Sim (list (Number D)) := λ w,
  (Model.parameters (M:=MN) (amodels w !!! m), w).

Definition amodelGeneratePath (th m : nat) (g : list D) : Sim (list (scenario (Number D))) := λ w,
  let r := recordOn th (Model.generatePath (M:=MN) (amodels w !!! m) g) w in
  (r.1, emit (EvGeneratePath m g) r.2).

(** [res[i] = prd.payoff(path)] *)
Definition apayoffInto (th : nat) (prd : Product.t D (Number D) (Recorded D))
    (path : list (scenario (Number D))) (i : nat) (res : list (Number D))
    : Sim (list (Number D)) := λ w,
  let r := recordOn th (Product.payoff prd path) w in
  (<[i := r.1]> res, emit (EvPayoff i) r.2).

(** ** [mcSimulAAD] *)

(** The body of the per-path loop. *)
Definition mcSimulAADPath (prd : Product.t D (Number D) (Recorded D))
    (antithetic : bool) (tape cMdl cRng : nat) (i : nat)
    (s : bool * list D * list (scenario (Number D)) * list (Number D))
    : Sim (bool * list D * list (scenario (Number D)) * list (Number D)) :=
  let '(antiPath, gaussVec, _, res) := s in
  tapeRewindToMark tape;;
  ag ← nextGaussian antithetic cRng antiPath gaussVec;
  path ← amodelGeneratePath mainThread cMdl ag.2;
  res ← apayoffInto mainThread prd path i res;
  numberPropagateToMark mainThread (res !!! i) false;;
  mret (ag.1, ag.2, path, res).

Definition mcSimulAAD (prd : Product.t D (Number D) (Recorded D)) (mdl rng : nat)
    (nPath : nat) (antithetic : bool) : Sim (list D * nat) :=
  cMdl ← amodelClone mdl;
  cRng ← rngClone rng;
  tape ← currentTape mainThread;
  tapeRewind tape;;
  amodelPutOnTape mainThread cMdl;;
  amodelInit mainThread cMdl (Product.timeline prd);;
  tapeMark tape;;
  let res := replicate nPath defaultNumber in
  dim ← amodelSimDim cMdl;
  rngInit cRng dim;;
  let gaussVec := replicate dim dzero in
  let path := replicate (length (Product.timeline prd)) (mkScenario defaultNumber) in
  s ← forRange 0 nPath (mcSimulAADPath prd antithetic tape cMdl cRng)
        (false, gaussVec, path, res);
  numberPropagateMarkToStart mainThread;;
  mret (map value s.2, cMdl).

(** ** [initSimul] *)

(** The four reference parameters [mdlClone], [rngClone], [gaussVec]
    and [path] are returned; [th] is the thread that runs the call. *)
Definition initSimul (th : nat) (prd : Product.t D (Number D) (Recorded D))
    (mdl rng : nat) (gaussVec : list D) (path : list (scenario (Number D)))
    : Sim (nat * nat * list D * list (scenario (Number D))) :=
  mdlClone ← amodelClone mdl;
  rngClone ← rngClone rng;
  tape ← currentTape th;
  tapeRewind tape;;
  amodelPutOnTape th mdlClone;;
  amodelInit th mdlClone (Product.timeline prd);;
  tapeMark tape;;
  dim ← amodelSimDim mdlClone;
  rngInit rngClone dim;;
  mret (mdlClone, rngClone, resize dim dzero gaussVec,
        resize (length (Product.timeline prd)) (mkScenario defaultNumber) path).

(** *** The AAD set-up, in closed form *)

(** What [putOnTape] returns on the clone of [m], the tape just
    rewound. *)
Definition aadSetupPut (m : MN) : MN * list (NodeArgs D) :=
  Model.putOnTape (M:=MN) (Model.clone m) 0.

(** What [init] returns next. *)
Definition aadSetupInit (prd : Product.t D (Number D) (Recorded D)) (m : MN)
    : MN * list (NodeArgs D) :=
  Model.init (M:=MN) (aadSetupPut m).1 (Product.timeline prd)
    (length (aadSetupPut m).2).

(** The clone once it is on tape and initialised. *)
Definition aadSetupModel (prd : Product.t D (Number D) (Recorded D)) (m : MN) : MN :=
  (aadSetupInit prd m).1.

(** The nodes recorded before the mark: those of [putOnTape], then
    those of [init]. *)
Definition aadSetupNodes (prd : Product.t D (Number D) (Recorded D)) (m : MN)
    : list (NodeArgs D) :=
  (aadSetupPut m).2 ++ (aadSetupInit prd m).2.

(** The tape when the set-up is done. *)
Definition aadSetupTape (prd : Product.t D (Number D) (Recorded D)) (m : MN) : Tape D :=
  mkTape (map freshNode (aadSetupNodes prd m)) (length (aadSetupNodes prd m)).

(** The clone of the generator once it is initialised. *)
Definition aadSetupRng (prd : Product.t D (Number D) (Recorded D)) (m : MN) (r : R) : R :=
  RNG.init (RNG.clone r) (Model.simDim (aadSetupModel prd m)).

(** The calls of the set-up on tape [tape], with [cMdl] and [cRng] the
    clones it makes of [mdl] and [rng]. *)
Definition aadSetupEvents (mdl rng cMdl cRng tape dim : nat) : list Event :=
  [EvModelClone mdl cMdl; EvRngClone rng cRng; EvTapeRewind tape;
   EvPutOnTape cMdl tape; EvModelInit cMdl; EvTapeMark tape; EvRngInit cRng dim].

(** The four calls of the AAD set-up on the tape. *)
Definition isSetupCall (e : Event) : bool :=
  match e with
  | EvTapeRewind _ | EvPutOnTape _ _ | EvModelInit _ | EvTapeMark _ => true
  | _ => false
  end.

(** *** The paths of an AAD run, in closed form *)

Section AADPaths.
Variable prd : Product.t D (Number D) (Recorded D).
(** The model clone after the set-up, and the position of the mark. *)
Variables (m2 : MN) (mk : nat).
Variables (antithetic : bool) (r0 : R).

(** What [generatePath] returns on path [i]: the tape is rewound to the
    mark, so its first node has index [mk]. *)
Definition aadPathGen (i : nat) : list (scenario (Number D)) * list (NodeArgs D) :=
  Model.generatePath (M:=MN) m2 (pathGauss antithetic r0 i) mk.

(** What [payoff] returns next. *)
Definition aadPathPay (i : nat) : Number D * list (NodeArgs D) :=
  Product.payoff prd (aadPathGen i).1 (mk + length (aadPathGen i).2).

(** The payoff of path [i], an active number. *)
Definition aadPathNumber (i : nat) : Number D := (aadPathPay i).1.

(** The nodes path [i] records after the mark. *)
Definition aadPathNodes (i : nat) : list (NodeArgs D) :=
  (aadPathGen i).2 ++ (aadPathPay i).2.

(** What path [i] does to the tape. *)
Definition aadPathTape (i : nat) (t : Tape D) : Tape D :=
  propagateToMark (node (aadPathNumber i)) false
    (recordNodes (aadPathNodes i) (rewindToMark t)).

(** The tape after the first [n] paths, from the tape [t] the set-up
    left. *)
Fixpoint aadTapeAfter (n : nat) (t : Tape D) : Tape D :=
  match n with
  | 0 => t
  | S n' => aadPathTape n' (aadTapeAfter n' t)
  end.

(** The calls of path [i] on tape [tape], writing its payoff to
    [res[j]]. *)
Definition aadPathEvents (tape cMdl cRng : nat) (i j : nat) : list Event :=
  [EvTapeRewindToMark tape]
  ++ gaussEvents antithetic cRng i
  ++ [EvGeneratePath cMdl (pathGauss antithetic r0 i); EvPayoff j;
      EvPropagateToMark tape (node (aadPathNumber i)) false].
End AADPaths.

(** The recording discipline of active numbers, checked on the run
    that [mcSimulAAD] makes from model [m] and generator [r]: every
    node refers to nodes recorded before it, the payoff of each path is
    a node that path recorded, and the parameters of the clone are
    nodes recorded before the mark. *)
Definition aadRecordingOk (prd : Product.t D (Number D) (Recorded D)) (m : MN)
    (antithetic : bool) (r : R) (nPath : nat) : bool :=
  let m2 := aadSetupModel prd m in
  let P := aadSetupNodes prd m in
  let mk := length P in
  let r0 := aadSetupRng prd m r in
  forallb (λ i,
      wfNodesFrom 0 (P ++ aadPathNodes prd m2 mk antithetic r0 i)
      && (mk <=? node (aadPathNumber prd m2 mk antithetic r0 i))
      && (node (aadPathNumber prd m2 mk antithetic r0 i)
          <? mk + length (aadPathNodes prd m2 mk antithetic r0 i)))
    (seq 0 nPath)
  && wfNodesFrom 0 P
  && forallb (λ p, node p <? mk) (Model.parameters m2).

(** The derivative of the payoff of path [i] with respect to node [q],
    as the tape records it. *)
Definition aadPathDerivative (prd : Product.t D (Number D) (Recorded D)) (m : MN)
    (antithetic : bool) (r : R) (q i : nat) : D :=
  let m2 := aadSetupModel prd m in
  let P := aadSetupNodes prd m in
  let r0 := aadSetupRng prd m r in
  derivative (P ++ aadPathNodes prd m2 (length P) antithetic r0 i) q
    (node (aadPathNumber prd m2 (length P) antithetic r0 i)).

(** ** [mcParallelSimulAAD] *)

(** The locals the tasks of [mcParallelSimulAAD] capture by reference;
    a [unique_ptr] is [None] until it is assigned. *)
Record AADLocals := mkAADLocals {
  acMdl : list (option nat);
  acRng : list (option nat);
  agaussVecs : list (list D);
  apaths : list (list (scenario (Number D)));
  ainit : list bool;
  ares : list (Number D)
}.

(** The object a [unique_ptr] owns. *)
Definition deref (p : option nat) : nat := default 0 p.

(** The body of the per-path loop of a task. *)
Definition aadTaskPath (prd : Product.t D (Number D) (Recorded D))
    (antithetic : bool) (taskRng : nat) (firstPath threadNum : nat) (i : nat)
    (s : bool * AADLocals) : Sim (bool * AADLocals) :=
  let '(antiPath, L) := s in
  tape ← currentTape threadNum;
  tapeRewindToMark tape;;
  ag ← nextGaussian antithetic taskRng antiPath (agaussVecs L !!! threadNum);
  path ← amodelGeneratePath threadNum (deref (acMdl L !!! threadNum)) ag.2;
  res ← apayoffInto threadNum prd path (firstPath + i) (ares L);
  numberPropagateToMark threadNum (res !!! (firstPath + i)) false;;
  mret (ag.1, mkAADLocals (acMdl L) (acRng L)
                 (<[threadNum := ag.2]> (agaussVecs L))
                 (<[threadNum := path]> (apaths L))
                 (ainit L) res).

(** [if (!init[threadNum]) { initSimul(...); init[threadNum] = true; }] *)
Definition aadTaskInit (prd : Product.t D (Number D) (Recorded D)) (mdl rng : nat)
    (threadNum : nat) (L : AADLocals) : Sim AADLocals :=
  if negb (ainit L !!! threadNum) then
    '(mdlClone, rngClone, gaussVec, path) ←
      initSimul threadNum prd mdl rng
        (agaussVecs L !!! threadNum) (apaths L !!! threadNum);
    mret (mkAADLocals (<[threadNum := Some mdlClone]> (acMdl L))
                      (<[threadNum := Some rngClone]> (acRng L))
                      (<[threadNum := gaussVec]> (agaussVecs L))
                      (<[threadNum := path]> (apaths L))
                      (<[threadNum := true]> (ainit L))
                      (ares L))
  else mret L.

(** The lambda spawned by [mcParallelSimulAAD]; [tapes] names the first
    of the worker tapes. *)
Definition aadTask (prd : Product.t D (Number D) (Recorded D)) (mdl rng : nat)
    (antithetic : bool) (tapes : nat) (firstPath pathsInTask : nat)
    (threadNum : nat) (L : AADLocals) : Sim AADLocals :=
  (if decide (0 < threadNum)
   then setCurrentTape threadNum (tapes + (threadNum - 1))
   else mret tt);;
  L ← aadTaskInit prd mdl rng threadNum L;
  taskRng ← rngClone (deref (acRng L !!! threadNum));
  rngSkipTo taskRng
    (if antithetic then Z.of_nat (firstPath / 2) else Z.of_nat firstPath);;
  s ← forRange 0 pathsInTask
        (aadTaskPath prd antithetic taskRng firstPath threadNum) (false, L);
  mret s.2.

(** Lines 526-561 of [mcBase.h]: what [mcParallelSimulAAD] does once
    all tasks have completed, up to the conversion of the results. *)
Definition aadFinalize (nThread tapes : nat) (L : AADLocals) : Sim unit :=
  numberPropagateMarkToStart mainThread;;
  mainThreadPtr ← currentTape mainThread;
  forRange 0 nThread (λ i (_ : unit),
    if (ainit L !!! (i + 1) : bool) then
      setCurrentTape mainThread (tapes + i);;
      numberPropagateMarkToStart mainThread
    else mret tt) tt;;
  setCurrentTape mainThread mainThreadPtr;;
  params0 ← amodelParameters (deref (acMdl L !!! 0));
  forRange 0 nThread (λ i (_ : unit),
    if (ainit L !!! (i + 1) : bool) then
      params ← amodelParameters (deref (acMdl L !!! (i + 1)));
      forRange 0 (length params0) (λ j (_ : unit),
        adjointAddFrom mainThreadPtr (params0 !!! j) (tapes + i) (params !!! j)) tt
    else mret tt) tt.

(** Lines 404-524 of [mcBase.h]: [mcParallelSimulAAD] up to the point
    where all tasks have completed.  It returns the name of the first
    worker tape and the locals. *)
Definition aadRunTasks (pool : Pool) (prd : Product.t D (Number D) (Recorded D))
    (mdl rng : nat) (nPath : nat) (antithetic : bool) : Sim (nat * AADLocals) :=
  let res := replicate nPath defaultNumber in
  let nThread := numThreads pool in
  let cMdl := replicate (nThread + 1) None in
  let cRng := replicate (nThread + 1) None in
  let gaussVecs := replicate (nThread + 1) [] in
  let paths := replicate (nThread + 1) [] in
  tapes ← allocTapes nThread;
  let init := replicate (nThread + 1) false in
  '(mdlClone, rngClone, gaussVec, path) ←
    initSimul mainThread prd mdl rng (gaussVecs !!! 0) (paths !!! 0);
  let L := mkAADLocals (<[0 := Some mdlClone]> cMdl) (<[0 := Some rngClone]> cRng)
             (<[0 := gaussVec]> gaussVecs) (<[0 := path]> paths)
             (<[0 := true]> init) res in
  let futures := map (λ b, aadTask prd mdl rng antithetic tapes b.1 b.2)
                     (spawnLoop nPath 0 nPath) in
  L ← runSchedule futures (schedule pool) L;
  mret (tapes, L).

(** *** The tasks of [mcParallelSimulAAD], in closed form *)

(** The tape a thread of the pool records on: the caller's tape [p0]
    for thread 0, the worker tape [tapes0 + (th - 1)] for thread [th]. *)
Definition tapeOf (p0 tapes0 th : nat) : nat :=
  if decide (0 < th) then tapes0 + (th - 1) else p0.

(** The payoff the task that starts at [firstPath] writes to
    [res[firstPath + i]], [m] and [r] the model and the generator the
    driver is given. *)
Definition aadTaskPayoff (prd : Product.t D (Number D) (Recorded D)) (m : MN)
    (antithetic : bool) (r : R) (firstPath i : nat) : Number D :=
  aadPathNumber prd (aadSetupModel prd m) (length (aadSetupNodes prd m)) antithetic
    (taskRngState antithetic (aadSetupRng prd m r) firstPath) i.

(** The calls of a task once its thread is initialised: on tape
    [tape], with the clones [cMdl] and [cRng] of the thread and the
    clone [taskRng] the task makes. *)
Definition aadBatchEvents (prd : Product.t D (Number D) (Recorded D)) (m : MN)
    (antithetic : bool) (r : R) (tape cMdl cRng taskRng : nat) (b : nat * nat)
    : list Event :=
  [EvRngClone cRng taskRng; EvSkipTo taskRng (skipArg antithetic b.1)]
  ++ flat_map (λ i, aadPathEvents prd (aadSetupModel prd m) (length (aadSetupNodes prd m))
                      antithetic (taskRngState antithetic (aadSetupRng prd m r) b.1)
                      tape cMdl taskRng i (b.1 + i)) (seq 0 b.2).

(** The calls of a task on thread [th]; [fresh] tells that the thread
    is not initialised when the task starts, [na] and [nr] count the
    models and the generators there are then. *)
Definition aadTaskEvents (prd : Product.t D (Number D) (Recorded D)) (m : MN)
    (antithetic : bool) (r : R) (mdl rng p0 tapes0 th : nat) (fresh : bool)
    (na nr cMdl cRng : nat) (b : nat * nat) : list Event :=
  (if decide (0 < th) then [EvSetTape th (tapes0 + (th - 1))] else [])
  ++ (if fresh
      then aadSetupEvents mdl rng na nr (tapeOf p0 tapes0 th)
             (Model.simDim (aadSetupModel prd m))
           ++ aadBatchEvents prd m antithetic r (tapeOf p0 tapes0 th) na nr (S nr) b
      else aadBatchEvents prd m antithetic r (tapeOf p0 tapes0 th) cMdl cRng nr b).

(** Thread [th] is initialised: its clones are the model and the
    generator the set-up leaves, and its tape is marked where the set-up
    ended. *)
Definition ThreadReady (prd : Product.t D (Number D) (Recorded D)) (m : MN) (r : R)
    (p0 tapes0 th : nat) (L : AADLocals) (w : World) : Prop :=
  ∃ cm cr,
    acMdl L !!! th = Some cm ∧ cm < length (amodels w)
    ∧ amodels w !!! cm = aadSetupModel prd m
    ∧ acRng L !!! th = Some cr ∧ cr < length (rngs w)
    ∧ rngs w !!! cr = aadSetupRng prd m r
    ∧ markPos (tapes w !!! tapeOf p0 tapes0 th) = length (aadSetupNodes prd m)
    ∧ length (aadSetupNodes prd m) ≤ length (nodes (tapes w !!! tapeOf p0 tapes0 th)).

(** What holds between two tasks of a run of [mcParallelSimulAAD] on
    the model [m] and the generator [r], with the caller's tape [p0] and
    the worker tapes from [tapes0] on. *)
Definition AadInv (prd : Product.t D (Number D) (Recorded D)) (m : MN) (r : R)
    (mdl rng p0 tapes0 nThread nPath : nat) (L : AADLocals) (w : World) : Prop :=
  (length (acMdl L) = nThread + 1 ∧ length (acRng L) = nThread + 1
   ∧ length (agaussVecs L) = nThread + 1 ∧ length (ainit L) = nThread + 1
   ∧ length (ares L) = nPath)
  ∧ (mdl < length (amodels w) ∧ amodels w !!! mdl = m
     ∧ rng < length (rngs w) ∧ rngs w !!! rng = r)
  ∧ (tapePtr w mainThread = p0 ∧ p0 < tapes0 ∧ length (tapes w) = tapes0 + nThread)
  ∧ ∀ th, th ≤ nThread → ainit L !!! th = true → ThreadReady prd m r p0 tapes0 th L w.

(** *** The start of the tasks of [mcParallelSimulAAD] *)

(** The locals when the first task starts: thread 0 is initialised,
    with the clones [na] and [nr]. *)
Definition aadStartLocals (prd : Product.t D (Number D) (Recorded D)) (m : MN)
    (na nr nThread nPath : nat) : AADLocals :=
  mkAADLocals
    (<[0 := Some na]> (replicate (nThread + 1) None))
    (<[0 := Some nr]> (replicate (nThread + 1) None))
    (<[0 := resize (Model.simDim (aadSetupModel prd m)) dzero []]>
       (replicate (nThread + 1) []))
    (<[0 := resize (length (Product.timeline prd)) (mkScenario defaultNumber) []]>
       (replicate (nThread + 1) []))
    (<[0 := true]> (replicate (nThread + 1) false))
    (replicate nPath defaultNumber).

(** The world then: the tapes of the workers are allocated, and the
    caller's thread is set up. *)
Definition aadStartWorld (prd : Product.t D (Number D) (Recorded D))
    (mdl rng nThread : nat) (w : World) : World :=
  let m := amodels w !!! mdl in
  let p0 := tapePtr w mainThread in
  mkWorld (models w) (amodels w ++ [aadSetupModel prd m])
    (rngs w ++ [aadSetupRng prd m (rngs w !!! rng)])
    (<[p0 := aadSetupTape prd m]> (tapes w ++ replicate nThread emptyTape))
    (tapePtr w)
    (trace w ++ aadSetupEvents mdl rng (length (amodels w)) (length (rngs w)) p0
                  (Model.simDim (aadSetupModel prd m))).

(** The count of the clones between two tasks: [ws] lists the workers
    that are initialised, [nt] counts the tasks run so far, [na] and
    [nr] the models and the generators there were before the call. *)
Definition ClonesCounted (prd : Product.t D (Number D) (Recorded D)) (m : MN)
    (nThread na nr : nat) (ws : list nat) (nt : nat) (L : AADLocals) (w : World) : Prop :=
  NoDup ws
  ∧ (∀ th, th ∈ ws → 0 < th ≤ nThread)
  ∧ (∀ th, th ≤ nThread → ainit L !!! th = true ↔ th = 0 ∨ th ∈ ws)
  ∧ length (amodels w) = na + 1 + length ws
  ∧ length (rngs w) = nr + 1 + length ws + nt
  ∧ ∀ k, na ≤ k < length (amodels w) → amodels w !!! k = aadSetupModel prd m.

(** *** The adjoints of a run of [mcParallelSimulAAD] *)

(** The derivative, as the tape records it, of the payoff the task
    that starts at [firstPath] writes to [res[firstPath + i]], with
    respect to node [q]. *)
Definition aadTaskDerivative (prd : Product.t D (Number D) (Recorded D)) (m : MN)
    (antithetic : bool) (r : R) (q firstPath i : nat) : D :=
  let m2 := aadSetupModel prd m in
  let P := aadSetupNodes prd m in
  let r1 := taskRngState antithetic (aadSetupRng prd m r) firstPath in
  derivative (P ++ aadPathNodes prd m2 (length P) antithetic r1 i) q
    (node (aadPathNumber prd m2 (length P) antithetic r1 i)).

(** The sum of these over the paths of batch [b]. *)
Definition aadBatchDerivative (prd : Product.t D (Number D) (Recorded D)) (m : MN)
    (antithetic : bool) (r : R) (q : nat) (b : nat * nat) : D :=
  bigsum b.2 (aadTaskDerivative prd m antithetic r q b.1).

(** The recording discipline of active numbers on the paths of the
    task of batch [b]: every node refers to nodes recorded before it,
    and the payoff of each path is a node that path recorded. *)
Definition TaskRecordingOk (prd : Product.t D (Number D) (Recorded D)) (m : MN)
    (antithetic : bool) (r : R) (b : nat * nat) : Prop :=
  ∀ i, i < b.2 →
    let m2 := aadSetupModel prd m in
    let P := aadSetupNodes prd m in
    let r1 := taskRngState antithetic (aadSetupRng prd m r) b.1 in
    wfNodesFrom 0 (P ++ aadPathNodes prd m2 (length P) antithetic r1 i) = true
    ∧ length P ≤ node (aadPathNumber prd m2 (length P) antithetic r1 i)
               < length P + length (aadPathNodes prd m2 (length P) antithetic r1 i).

(** [x1 + (x2 + ... + 0)] *)
Definition sumList (l : list D) : D := foldr dadd dzero l.

(** On the tape of every initialised thread, the nodes before the mark
    are those the set-up records. *)
Definition TapesSetUp (prd : Product.t D (Number D) (Recorded D)) (m : MN)
    (p0 tapes0 nThread : nat) (init : list bool) (ts : list (Tape D)) : Prop :=
  ∀ th, th ≤ nThread → init !!! th = true →
    map nargs (take (length (aadSetupNodes prd m)) (nodes (ts !!! tapeOf p0 tapes0 th)))
    = aadSetupNodes prd m.

(** What the nodes before the mark hold for node [q] (see [Phi]), on
    the tapes of the initialised threads taken together. *)
Definition heldAdjoints (prd : Product.t D (Number D) (Recorded D)) (m : MN)
    (q p0 tapes0 nThread : nat) (init : list bool) (ts : list (Tape D)) : D :=
  bigsum (nThread + 1)
    (λ th, if (init !!! th : bool)
           then Phi q (aadSetupNodes prd m)
                  (take (length (aadSetupNodes prd m)) (nodes (ts !!! tapeOf p0 tapes0 th)))
           else dzero).

(** *** The end of [mcParallelSimulAAD], in closed form *)

(** The tapes once [propagateMarkToStart] has run on the caller's tape
    [p0], then on the tape of every initialised worker. *)
Definition finalPropagate (init : list bool) (p0 tapes0 nThread : nat)
    (ts : list (Tape D)) : list (Tape D) :=
  foldl (λ ts i, if (init !!! (i + 1) : bool)
                 then <[tapes0 + i := propagateMarkToStart (ts !!! (tapes0 + i))]> ts
                 else ts)
    (<[p0 := propagateMarkToStart (ts !!! p0)]> ts) (seq 0 nThread).

(** The calls of these propagations, up to the point where
    [Number::tape] designates the caller's tape again. *)
Definition finalPropagateEvents (init : list bool) (p0 tapes0 nThread : nat) : list Event :=
  [EvPropagateMarkToStart p0]
  ++ flat_map (λ i, if (init !!! (i + 1) : bool)
                    then [EvSetTape mainThread (tapes0 + i);
                          EvPropagateMarkToStart (tapes0 + i)]
                    else []) (seq 0 nThread)
  ++ [EvSetTape mainThread p0].

(** The nodes [dst] once the adjoint of [params[j]], read on the
    nodes [src], is added to the adjoint of [params0[j]], for every
    [j]. *)
Definition addParamAdjoints (params0 params : list (Number D)) (src dst : list (Node D))
    : list (Node D) :=
  foldl (λ ns j, addAdjoint (node (params0 !!! j))
                   (adjointAt src (node (params !!! j))) ns)
    dst (seq 0 (length params0)).

(** The nodes [dst] of the caller's tape once the adjoints of the
    parameters [paramsOf th] of every initialised worker [th] are added
    to those of [params0]; worker [th] has the tape [tapes0 + (th - 1)]
    of [ts]. *)
Definition finalAccumulate (init : list bool) (tapes0 nThread : nat)
    (params0 : list (Number D)) (paramsOf : nat → list (Number D))
    (ts : list (Tape D)) (dst : list (Node D)) : list (Node D) :=
  foldl (λ ns i, if (init !!! (i + 1) : bool)
                 then addParamAdjoints params0 (paramsOf (i + 1))
                        (nodes (ts !!! (tapes0 + i))) ns
                 else ns)
    dst (seq 0 nThread).

(** The additions in the order they are made. *)
Definition finalAccumulateEvents (init : list bool) (p0 nThread : nat)
    (params0 : list (Number D)) : list Event :=
  flat_map (λ i, if (init !!! (i + 1) : bool)
                 then map (λ j, EvAdjointAdd p0 (node (params0 !!! j)))
                        (seq 0 (length params0))
                 else []) (seq 0 nThread).

(** The body of [mcParallelSimulAAD] up to its [return] statement: the
    local vector [tapes] exists still. *)
Definition mcParallelSimulAAD (pool : Pool) (prd : Product.t D (Number D) (Recorded D))
    (mdl rng : nat) (nPath : nat) (antithetic : bool) : Sim (list D * nat) :=
  tl ← aadRunTasks pool prd mdl rng nPath antithetic;
  aadFinalize (numThreads pool) tl.1 tl.2;;
  mret (map value (ares tl.2), deref (acMdl tl.2 !!! 0)).

(** A call of [mcParallelSimulAAD] as its caller sees it: when the body
    returns, the vector [tapes] it declared goes out of scope.  [first]
    is where [allocTapes] puts that vector. *)
Definition mcParallelSimulAADCall (pool : Pool) (prd : Product.t D (Number D) (Recorded D))
    (mdl rng : nat) (nPath : nat) (antithetic : bool) : Sim (list D * nat) :=
  first ← tapeCount;
  out ← mcParallelSimulAAD pool prd mdl rng nPath antithetic;
  freeTapes first;;
  mret out.
End Engine.

(** ** [blackScholesIvol] of [analytics.h] *)

Module Analytics.
Import QArith.
Local Open Scope Q_scope.

(** What a call of [blackScholesIvol] comes to: a value, a read of a
    local that was never assigned, or more turns of a loop than the
    fuel allows. *)
Inductive Outcome :=
| Returned (x : Q)
| ReadsUnassigned
| OutOfFuel.

Section Ivol.
(** [double] is an exact rational here: the statement about
    [blackScholesIvol] depends on its comparisons only.  [blackScholes]
    rests on [gaussians.h], which is not part of the sources, and is a
    parameter, as is [EPS]. *)
Variable blackScholes : Q → Q → Q → Q → Q.
Variable EPS : Q.
Variables spot strike prem mat : Q.

Definition Qgtb (x y : Q) : bool := negb (Qle_bool x y).

(** [std::max(a, b)]: [(a < b) ? b : a]. *)
Definition Qmaxd (a b : Q) : Q := if Qgtb b a then b else a.

(** [while (blackScholes(spot, strike, u, mat) < prem) u *= 2;] *)
Fixpoint growUpper (fuel : nat) (u : Q) : option Q :=
  match fuel with
  | O => None
  | S fuel' =>
      if Qgtb prem (blackScholes spot strike u mat)
      then growUpper fuel' (u * 2)
      else Some u
  end.

(** [while (blackScholes(spot, strike, l, mat) > prem) l /= 2;] *)
Fixpoint shrinkLower (fuel : nat) (l : Q) : option Q :=
  match fuel with
  | O => None
  | S fuel' =>
      if Qgtb (blackScholes spot strike l mat) prem
      then shrinkLower fuel' (l / 2)
      else Some l
  end.

(** The locals of the bisection; [pl] is [None] until it is assigned. *)
Record Bracket := mkBracket { bu : Q; bl : Q; bpu : Q; bpl : option Q }.

(** [while (u - l > 1.e-12) { ... }] *)
Fixpoint bisect (fuel : nat) (b : Bracket) : option Bracket :=
  match fuel with
  | O => None
  | S fuel' =>
      if Qgtb (bu b - bl b) (1 # 1000000000000) then
        let m := (1 # 2) * (bu b + bl b) in
        let p := blackScholes spot strike m mat in
        if Qgtb p prem
        then bisect fuel' (mkBracket m (bl b) p (bpl b))
        else bisect fuel' (mkBracket (bu b) m (bpu b) (Some p))
      else Some b
  end.

(** What the bisection keeps: the bounds are positive and apart, [pu]
    is the price at [u] and is not below the premium, the price at [l]
    is not above it, and [pl], once assigned, is the price at [l]. *)
Definition Bracketed (b : Bracket) : Prop :=
  0 < bl b ∧ bl b < bu b
  ∧ bpu b = blackScholes spot strike (bu b) mat
  ∧ prem <= blackScholes spot strike (bu b) mat
  ∧ blackScholes spot strike (bl b) mat <= prem
  ∧ ∀ p, bpl b = Some p → p = blackScholes spot strike (bl b) mat.

Definition blackScholesIvol (fuel : nat) : Outcome :=
  if Qle_bool prem (Qmaxd 0 (spot - strike) + EPS) then Returned 0 else
  match growUpper fuel (1 # 2) with
  | None => OutOfFuel
  | Some u =>
      match shrinkLower fuel (1 # 20) with
      | None => OutOfFuel
      | Some l =>
          let pu := blackScholes spot strike u mat in
          (* [blackScholes(spot, strike, l, mat);] its value is dropped *)
          match bisect fuel (mkBracket u l pu None) with
          | None => OutOfFuel
          | Some b =>
              match bpl b with
              | None => ReadsUnassigned
              | Some pl =>
                  Returned (bl b + (prem - pl) / (bpu b - pl) * (bu b - bl b))
              end
          end
      end
  end.
End Ivol.

(** *** [blackScholes] and [merton] *)

Section Merton.
(** [double] with the operations the two functions use.  Nothing is
    assumed of them: [sqrt], [log] and [exp] are those of [<cmath>],
    [normalCdf] is defined in [gaussians.h], which is not part of the
    sources, as is [EPS]; [ofZ] converts an integer. *)
Variable F : Type.
Variables (fadd fsub fmul fdiv : F → F → F) (fneg fsqrt flog fexp normalCdf : F → F).
Variables (fltb fleb : F → F → bool) (ofZ : Z → F) (fhalf EPS : F).

(** [std::max(a, b)]: [(a < b) ? b : a]. *)
Definition fmax (a b : F) : F := if fltb a b then b else a.

Definition blackScholesF (spot strike vol mat : F) : F :=
  let std := fmul vol (fsqrt mat) in
  if fleb std EPS then fmax (ofZ 0) (fsub spot strike) else
  let d2 := fsub (fdiv (flog (fdiv spot strike)) std) (fmul fhalf std) in
  let d1 := fadd d2 std in
  fsub (fmul spot (normalCdf d1)) (fmul strike (normalCdf d2)).

Variables (spot strike vol mat intens meanJmp stdJmp : F).

(** The locals the loop of [merton] updates; [fact] is an [unsigned],
    of 32 bits. *)
Record MertonState := mkMertonState { mfact : Z; miT : F; mresult : F }.

Definition mertonStep (n : nat) (st : MertonState) : MertonState :=
  let varJmp := fmul stdJmp stdJmp in
  let mv2 := fadd meanJmp (fmul fhalf varJmp) in
  let comp := fmul intens (fsub (fexp mv2) (ofZ 1)) in
  let var := fmul vol vol in
  let intensT := fmul intens mat in
  let s := fmul spot (fexp (fsub (fmul (ofZ (Z.of_nat n)) mv2) (fmul comp mat))) in
  let v := fsqrt (fadd var (fdiv (fmul (ofZ (Z.of_nat n)) varJmp) mat)) in
  let prob := fdiv (fmul (fexp (fneg intensT)) (miT st)) (ofZ (mfact st)) in
  mkMertonState
    ((mfact st * (Z.of_nat n + 1)) mod 2 ^ 32)%Z
    (fmul (miT st) intensT)
    (fadd (mresult st) (fmul prob (blackScholesF s strike v mat))).

(** [for (size_t n = 0; n < cut; ++n) { ... }] *)
Definition mertonLoop (cut : nat) : MertonState :=
  foldl (λ st n, mertonStep n st) (mkMertonState 1 (ofZ 1) (ofZ 0)) (seq 0 cut).

Definition merton : F := mresult (mertonLoop 10).

(** [n!] *)
Fixpoint factZ (n : nat) : Z :=
  match n with
  | O => 1
  | S n' => factZ n' * Z.of_nat (S n')
  end.

(** [intensT] to the power [n], as the loop computes it. *)
Fixpoint mertonPow (n : nat) : F :=
  match n with
  | O => ofZ 1
  | S n' => fmul (mertonPow n') (fmul intens mat)
  end.

(** Term [n] of the series: the price given [n] jumps, weighted by
    the probability of [n] jumps. *)
Definition mertonTerm (n : nat) : F :=
  let varJmp := fmul stdJmp stdJmp in
  let mv2 := fadd meanJmp (fmul fhalf varJmp) in
  let comp := fmul intens (fsub (fexp mv2) (ofZ 1)) in
  let s := fmul spot (fexp (fsub (fmul (ofZ (Z.of_nat n)) mv2) (fmul comp mat))) in
  let v := fsqrt (fadd (fmul vol vol) (fdiv (fmul (ofZ (Z.of_nat n)) varJmp) mat)) in
  fmul (fdiv (fmul (fexp (fneg (fmul intens mat))) (mertonPow n)) (ofZ (factZ n)))
    (blackScholesF s strike v mat).

(** The first [cut] terms, summed in this order from 0. *)
Definition mertonSum (cut : nat) : F :=
  foldl (λ acc n, fadd acc (mertonTerm n)) (ofZ 0) (seq 0 cut).
End Merton.
End Analytics.

(** ** A small instance of the interfaces *)

(** Integers for [double], a linear model with one parameter, the
    square of the final spot as product, and a generator that counts:
    small enough to run, rich enough to exercise every driver. *)
Module Toy.

#[export] Instance Z_scalar : Scalar Z := Build_Scalar Z 0%Z 1%Z Z.add Z.mul Z.opp.

(** A [Model<double>]: the spot, and the forward [init] computes from
    it. *)
Record Lin := mkLin { lspot : Z; lfwd : Z }.

#[export] Instance Lin_inhabited : Inhabited Lin := populate (mkLin 0 0).

#[export] Instance Lin_model : Model.t Z Z Plain Lin :=
  Model.mk Z Z Plain Lin
    (λ m _, mkLin (lspot m) (3 * lspot m))
    (λ _, 1)
    (λ m g, [mkScenario (lfwd m + lspot m * (g !!! 0%nat))%Z])
    (λ m, m)
    (λ m, [lspot m])
    (λ m, m).

(** The same model over [Number]: every operation records its node. *)
Record ALin := mkALin { aspot : Number Z; afwd : Number Z }.

#[export] Instance ALin_inhabited : Inhabited ALin :=
  populate (mkALin (mkNumber 0%Z 0) (mkNumber 0%Z 0)).

#[export] Instance ALin_model : Model.t Z (Number Z) (Recorded Z) ALin :=
  Model.mk Z (Number Z) (Recorded Z) ALin
    (λ m _ base,
       (mkALin (aspot m) (mkNumber (3 * value (aspot m))%Z base),
        [[(node (aspot m), 3%Z)]]))
    (λ _, 1)
    (λ m g base,
       ([mkScenario (mkNumber (value (afwd m) + value (aspot m) * (g !!! 0%nat))%Z base)],
        [[(node (afwd m), 1%Z); (node (aspot m), g !!! 0%nat)]]))
    (λ m, m)
    (λ m, [aspot m])
    (λ m base, (mkALin (mkNumber (value (aspot m)) base) (afwd m), [[]])).

Definition square : Product.t Z Z Plain :=
  Product.mk [1%Z]
    (λ path, match path with
             | [] => 0%Z
             | sc :: _ => (spot sc * spot sc)%Z
             end).

Definition asquare : Product.t Z (Number Z) (Recorded Z) :=
  Product.mk [1%Z]
    (λ path base,
       match path with
       | [] => (mkNumber 0%Z base, [[]])
       | sc :: _ =>
           (mkNumber (value (spot sc) * value (spot sc))%Z base,
            [[(node (spot sc), (2 * value (spot sc))%Z)]])
       end).

(** A generator whose draw number [k] is the vector of [k + 1]s; its
    [skipTo] moves the counter. *)
Record Counter := mkCounter { pos : nat; cdim : nat }.

#[export] Instance Counter_inhabited : Inhabited Counter := populate (mkCounter 0 0).

#[export] Instance Counter_rng : RNG.t Z Counter :=
  RNG.mk Z Counter
    (λ r dim, mkCounter (pos r) dim)
    (λ r, (mkCounter (S (pos r)) (cdim r), replicate (cdim r) (Z.of_nat (S (pos r)))))
    (λ r, r)
    cdim
    (λ r b, mkCounter (pos r + Z.to_nat b) (cdim r)).

(** One model of each kind, one generator, one tape, which is the
    caller's. *)
Definition world : @World Z Lin ALin Counter :=
  mkWorld [mkLin 5 0] [mkALin (mkNumber 5%Z 0) (mkNumber 0%Z 0)] [mkCounter 0 0]
    [emptyTape] (λ _, 0) [].

(** The same with a second tape, which holds a node and is not the
    caller's. *)
Definition world2 : @World Z Lin ALin Counter :=
  mkWorld [mkLin 5 0] [mkALin (mkNumber 5%Z 0) (mkNumber 0%Z 0)] [mkCounter 0 0]
    [emptyTape; mkTape [freshNode []] 1] (λ _, 0) [].

(** Two workers; the second batch runs first, on worker 2. *)
Definition pool : Pool := mkPool 2 [(1, 2); (0, 1)].

(** One worker; the caller runs both batches. *)
Definition pool' : Pool := mkPool 1 [(0, 0); (1, 0)].

(** The two models compute the same values. *)
Definition lifts (md : Lin) (mn : ALin) : Prop :=
  lspot md = value (aspot mn) ∧ lfwd md = value (afwd mn).

(** A model whose path is its parameter: [init] and [generatePath]
    record nothing, and the spot of the path is a copy of the
    parameter. *)
Record ACopy := mkACopy { cspot : Number Z }.

#[export] Instance ACopy_inhabited : Inhabited ACopy :=
  populate (mkACopy (mkNumber 0%Z 0)).

#[export] Instance ACopy_model : Model.t Z (Number Z) (Recorded Z) ACopy :=
  Model.mk Z (Number Z) (Recorded Z) ACopy
    (λ m _ base, (m, []))
    (λ _, 1)
    (λ m g base, ([mkScenario (cspot m)], []))
    (λ m, m)
    (λ m, [cspot m])
    (λ m base, (mkACopy (mkNumber (value (cspot m)) base), [[]])).

(** The product that pays the spot: it returns the number it reads. *)
Definition aforward : Product.t Z (Number Z) (Recorded Z) :=
  Product.mk [1%Z]
    (λ path base,
       match path with
       | [] => (mkNumber 0%Z base, [[]])
       | sc :: _ => (spot sc, [])
       end).

Definition worldCopy : @World Z Lin ACopy Counter :=
  mkWorld [mkLin 5 0] [mkACopy (mkNumber 5%Z 0)] [mkCounter 0 0]
    [emptyTape] (λ _, 0) [].

(** A scalar that rounds: fixed-point numbers with one binary digit,
    [mkHalf n] standing for [n / 2]; a product is rounded down. *)
Record Half := mkHalf { halves : Z }.

#[export] Instance Half_inhabited : Inhabited Half := populate (mkHalf 0).

#[export] Instance Half_scalar : Scalar Half :=
  Build_Scalar Half (mkHalf 0) (mkHalf 2)
    (λ x y, mkHalf (halves x + halves y))
    (λ x y, mkHalf (halves x * halves y / 2))
    (λ x, mkHalf (- halves x)).

(** A model over these numbers: the spot of the path is the parameter
    times 1.5, times 1.5 again, with a node for each product. *)
Record AHalf := mkAHalf { hspot : Number Half }.

#[export] Instance AHalf_inhabited : Inhabited AHalf :=
  populate (mkAHalf (mkNumber (mkHalf 0) 0)).

#[export] Instance AHalf_model : Model.t Half (Number Half) (Recorded Half) AHalf :=
  Model.mk Half (Number Half) (Recorded Half) AHalf
    (λ m _ base, (m, []))
    (λ _, 1)
    (λ m g base,
       ([mkScenario
           (mkNumber (dmul (mkHalf 3) (dmul (mkHalf 3) (value (hspot m)))) (S base))],
        [[(node (hspot m), mkHalf 3)]; [(base, mkHalf 3)]]))
    (λ m, m)
    (λ m, [hspot m])
    (λ m base, (mkAHalf (mkNumber (value (hspot m)) base), [[]])).

(** The product that pays half the spot. *)
Definition ahalf : Product.t Half (Number Half) (Recorded Half) :=
  Product.mk [mkHalf 2]
    (λ path base,
       match path with
       | [] => (mkNumber (mkHalf 0) base, [[]])
       | sc :: _ =>
           (mkNumber (dmul (mkHalf 1) (value (spot sc))) base,
            [[(node (spot sc), mkHalf 1)]])
       end).

(** A generator of zeros. *)
Record Still := mkStill { sdim : nat }.

#[export] Instance Still_inhabited : Inhabited Still := populate (mkStill 0).

#[export] Instance Still_rng : RNG.t Half Still :=
  RNG.mk Half Still
    (λ _ dim, mkStill dim)
    (λ r, (r, replicate (sdim r) (mkHalf 0)))
    (λ r, r)
    sdim
    (λ r _, r).

Definition worldHalf : @World Half unit AHalf Still :=
  mkWorld [] [mkAHalf (mkNumber (mkHalf 10) 0)] [mkStill 0] [emptyTape] (λ _, 0) [].

(** A pricing function that increases with the volatility. *)
Definition price (spot strike vol mat : QArith_base.Q) : QArith_base.Q := vol.

End Toy.

(** * Properties of the tape *)

Section TapeFacts.
Context {D : Type} `{!Scalar D}.

Lemma bigsum_ext (n : nat) (f g : nat → D) :
  (∀ i, i < n → f i = g i) → bigsum n f = bigsum n g.
Proof.
  induction n as [|n IH]; intros Hfg; simpl; [done|].
  rewrite IH, Hfg by (intros; auto with lia). done.
Qed.

Lemma addAdjoint_nargs (j : nat) (x : D) (ns : list (Node D)) :
  map nargs (addAdjoint j x ns) = map nargs ns.
Proof.
  unfold addAdjoint. revert j; induction ns as [|nd ns IH]; intros j; [done|].
  destruct j as [|j]; simpl; [done|]. f_equal. apply IH.
Qed.

Lemma setAdjoint_nargs (j : nat) (x : D) (ns : list (Node D)) :
  map nargs (setAdjoint j x ns) = map nargs ns.
Proof.
  unfold setAdjoint. revert j; induction ns as [|nd ns IH]; intros j; [done|].
  destruct j as [|j]; simpl; [done|]. f_equal. apply IH.
Qed.

Lemma addAdjoint_length (j : nat) (x : D) (ns : list (Node D)) :
  length (addAdjoint j x ns) = length ns.
Proof. unfold addAdjoint. apply length_alter. Qed.

Lemma propagateNode_nargs (k : nat) (ns : list (Node D)) :
  map nargs (propagateNode k ns) = map nargs ns.
Proof.
  unfold propagateNode. destruct (ns !! k) as [nd|]; [|done].
  generalize (adjoint nd) (nargs nd). intros c l. revert ns.
  induction l as [|jd l IH]; intros ns; simpl; [done|].
  by rewrite IH, addAdjoint_nargs.
Qed.

Lemma propagateDown_nargs (lo n : nat) (ns : list (Node D)) :
  map nargs (propagateDown lo n ns) = map nargs ns.
Proof.
  revert ns; induction n as [|n IH]; intros ns; simpl; [done|].
  by rewrite IH, propagateNode_nargs.
Qed.

Lemma adjointAt_addAdjoint (j : nat) (x : D) (ns : list (Node D)) (i : nat) :
  adjointAt (addAdjoint j x ns) i
  = if decide (i = j ∧ j < length ns) then dadd (adjointAt ns i) x
    else adjointAt ns i.
Proof.
  unfold adjointAt, addAdjoint.
  destruct (decide (i = j)) as [->|Hne].
  - rewrite list_lookup_alter_eq.
    destruct (ns !! j) as [nd|] eqn:Hj; simpl.
    + apply lookup_lt_Some in Hj. rewrite decide_True by done. done.
    + apply lookup_ge_None in Hj. rewrite decide_False by lia. done.
  - rewrite list_lookup_alter_ne by done. rewrite decide_False by tauto. done.
Qed.

Lemma adjointAt_setAdjoint (j : nat) (x : D) (ns : list (Node D)) (i : nat) :
  adjointAt (setAdjoint j x ns) i
  = if decide (i = j ∧ j < length ns) then x else adjointAt ns i.
Proof.
  unfold adjointAt, setAdjoint.
  destruct (decide (i = j)) as [->|Hne].
  - rewrite list_lookup_alter_eq.
    destruct (ns !! j) as [nd|] eqn:Hj; simpl.
    + apply lookup_lt_Some in Hj. rewrite decide_True by done. done.
    + apply lookup_ge_None in Hj. rewrite decide_False by lia. done.
  - rewrite list_lookup_alter_ne by done. rewrite decide_False by tauto. done.
Qed.

Lemma adjointAt_app_l (ns ns' : list (Node D)) (i : nat) :
  i < length ns → adjointAt (ns ++ ns') i = adjointAt ns i.
Proof. intros Hi. unfold adjointAt. by rewrite lookup_app_l. Qed.

Lemma adjointAt_fresh (ns : list (Node D)) (new : list (NodeArgs D)) (i : nat) :
  length ns ≤ i → adjointAt (ns ++ map freshNode new) i = dzero.
Proof.
  intros Hi. unfold adjointAt. rewrite lookup_app_r by done.
  rewrite list_lookup_fmap. by destruct (new !! (i - length ns)).
Qed.

Lemma adjointAt_take (m : nat) (ns : list (Node D)) (i : nat) :
  i < m → adjointAt (take m ns) i = adjointAt ns i.
Proof. intros Hi. unfold adjointAt. by rewrite lookup_take_lt. Qed.

(** *** Forward derivatives *)

Lemma tangentsFrom_app (q : nat) (acc : list D) (l1 l2 : list (NodeArgs D)) :
  tangentsFrom q acc (l1 ++ l2) = tangentsFrom q (tangentsFrom q acc l1) l2.
Proof. revert acc; induction l1 as [|a l1 IH]; intros acc; simpl; [done|]. apply IH. Qed.

Lemma tangentsFrom_length (q : nat) (acc : list D) (l : list (NodeArgs D)) :
  length (tangentsFrom q acc l) = length acc + length l.
Proof.
  revert acc; induction l as [|a l IH]; intros acc; simpl; [lia|].
  rewrite IH, length_app. simpl. lia.
Qed.

Lemma tangentsFrom_prefix (q : nat) (acc : list D) (l : list (NodeArgs D)) (i : nat) :
  i < length acc → tangentsFrom q acc l !! i = acc !! i.
Proof.
  revert acc; induction l as [|a l IH]; intros acc Hi; simpl; [done|].
  rewrite IH by (rewrite length_app; simpl; lia).
  by rewrite lookup_app_l.
Qed.

Lemma tangents_length (q : nat) (l : list (NodeArgs D)) :
  length (tangents q l) = length l.
Proof. unfold tangents. by rewrite tangentsFrom_length. Qed.

Lemma tangents_app_l (q : nat) (l1 l2 : list (NodeArgs D)) (i : nat) :
  i < length l1 → tangents q (l1 ++ l2) !!! i = tangents q l1 !!! i.
Proof.
  intros Hi. unfold tangents. rewrite tangentsFrom_app.
  rewrite !list_lookup_total_alt, tangentsFrom_prefix; [done|].
  by rewrite tangentsFrom_length.
Qed.

Lemma evalArgs_cons (jd : nat * D) (a : NodeArgs D) (ts : list D) :
  evalArgs (jd :: a) ts = dadd (dmul jd.2 (ts !!! jd.1)) (evalArgs a ts).
Proof. done. Qed.

Lemma evalArgs_ext (a : NodeArgs D) (ts ts' : list D) :
  (∀ jd, jd ∈ a → ts !!! jd.1 = ts' !!! jd.1) → evalArgs a ts = evalArgs a ts'.
Proof.
  induction a as [|jd a IH]; intros Hts; simpl; [done|].
  rewrite Hts by left. rewrite IH; [done|].
  intros jd' Hin. apply Hts. by right.
Qed.

Lemma wfNode_lt (k : nat) (a : NodeArgs D) (jd : nat * D) :
  wfNode k a = true → jd ∈ a → jd.1 < k.
Proof.
  unfold wfNode. rewrite forallb_forall. intros Hwf Hin.
  apply Nat.ltb_lt, Hwf. by apply list_elem_of_In.
Qed.

Lemma wfNodesFrom_lookup (base : nat) (ns : list (NodeArgs D)) (k : nat) (a : NodeArgs D) :
  wfNodesFrom base ns = true → ns !! k = Some a → wfNode (base + k) a = true.
Proof.
  revert base k; induction ns as [|a' ns IH]; intros base k Hwf Hk; [done|].
  simpl in Hwf. apply andb_true_iff in Hwf as [Ha Hns].
  destruct k as [|k]; simpl in Hk.
  - injection Hk as <-. by rewrite Nat.add_0_r.
  - replace (base + S k) with (S base + k) by lia. by apply IH.
Qed.

Lemma wfNodesFrom_app (base : nat) (l1 l2 : list (NodeArgs D)) :
  wfNodesFrom base (l1 ++ l2)
  = wfNodesFrom base l1 && wfNodesFrom (base + length l1) l2.
Proof.
  revert base; induction l1 as [|a l1 IH]; intros base; simpl.
  - by rewrite Nat.add_0_r.
  - rewrite IH, andb_assoc. do 2 f_equal. lia.
Qed.

(** The derivative of a node is what its inputs hand up. *)
Lemma tangents_lookup (q : nat) (ns : list (NodeArgs D)) (k : nat) (a : NodeArgs D) :
  ns !! k = Some a →
  wfNode k a = true →
  tangents q ns !!! k = dadd (seed q k) (evalArgs a (tangents q ns)).
Proof.
  intros Hk Hwf.
  pose proof (take_drop_middle ns k a Hk) as Hsplit.
  assert (length (take k ns) = k) as Hlen.
  { rewrite length_take. apply lookup_lt_Some in Hk. lia. }
  rewrite <-Hsplit at 1. unfold tangents at 1.
  rewrite tangentsFrom_app. cbn [tangentsFrom].
  fold (tangents q (take k ns)).
  rewrite list_lookup_total_alt, tangentsFrom_prefix
    by (rewrite length_app, tangents_length, Hlen; simpl; lia).
  rewrite lookup_app_r by (rewrite tangents_length; lia).
  rewrite tangents_length, Hlen, Nat.sub_diag. simpl. f_equal.
  apply evalArgs_ext. intros jd Hin.
  pose proof (wfNode_lt k a jd Hwf Hin) as Hj.
  rewrite <-Hsplit at 2. symmetry. apply tangents_app_l. lia.
Qed.

(** *** Backward propagation, in exact arithmetic *)

Section Exact.
(** The laws of a commutative ring; [double] has them up to
    rounding. *)
Hypothesis Dring :
  ring_theory dzero dunit dadd dmul (λ x y, dadd x (dneg y)) dneg eq.

Add Ring Dexact : Dring.

Lemma bigsum_plus (n : nat) (f g : nat → D) :
  bigsum n (λ i, dadd (f i) (g i)) = dadd (bigsum n f) (bigsum n g).
Proof. induction n as [|n IH]; simpl; [ring|]. rewrite IH. ring. Qed.

Lemma bigsum_zero (n : nat) : bigsum n (λ _, dzero) = dzero.
Proof. induction n as [|n IH]; simpl; [done|]. rewrite IH. ring. Qed.

Lemma bigsum_delta (n j : nat) (c : D) :
  bigsum n (λ i, if decide (i = j) then c else dzero)
  = if decide (j < n) then c else dzero.
Proof.
  induction n as [|n IH]; simpl; [done|]. rewrite IH.
  destruct (decide (n = j)) as [->|Hne].
  - rewrite decide_False, decide_True by lia. ring.
  - destruct (decide (j < n)).
    + rewrite decide_True by lia. ring.
    + rewrite decide_False by lia. ring.
Qed.

Lemma bigsum_update (n : nat) (f g : nat → D) (j : nat) (c : D) :
  j < n →
  (∀ i, i < n → i ≠ j → g i = f i) →
  g j = dadd (f j) c →
  bigsum n g = dadd (bigsum n f) c.
Proof.
  intros Hj Hne Heq.
  rewrite (bigsum_ext n g (λ i, dadd (f i) (if decide (i = j) then c else dzero))).
  - rewrite bigsum_plus, bigsum_delta, decide_True by done. done.
  - intros i Hi. destruct (decide (i = j)) as [->|Hij]; [done|].
    rewrite Hne by done. ring.
Qed.

Lemma bigsum_split (m g : nat) (f : nat → D) :
  bigsum (m + g) f = dadd (bigsum m f) (bigsum g (λ i, f (m + i))).
Proof.
  induction g as [|g IH]; simpl.
  - rewrite Nat.add_0_r. ring.
  - replace (m + S g) with (S (m + g)) by lia. simpl. rewrite IH. ring.
Qed.

Lemma Psi_addAdjoint (q k j : nat) (x : D) (ns : list (Node D)) :
  j < k → j < length ns →
  Psi q k (addAdjoint j x ns)
  = dadd (Psi q k ns) (dmul x (tangents q (map nargs ns) !!! j)).
Proof.
  intros Hjk Hj. unfold Psi. rewrite addAdjoint_nargs, addAdjoint_length.
  apply (bigsum_update _ _ _ j); [done| |].
  - intros i Hi Hne. rewrite adjointAt_addAdjoint, decide_False by tauto. done.
  - rewrite adjointAt_addAdjoint, decide_True by done.
    unfold weight. rewrite decide_True by done. ring.
Qed.

Lemma Psi_hand_down (q k : nat) (c : D) (a : NodeArgs D) (ns : list (Node D)) :
  wfNode k a = true → k ≤ length ns →
  Psi q k (foldl (λ acc jd, addAdjoint jd.1 (dmul jd.2 c) acc) ns a)
  = dadd (Psi q k ns) (dmul c (evalArgs a (tangents q (map nargs ns)))).
Proof.
  intros Hwf Hk. revert ns Hk. induction a as [|jd a IH]; intros ns Hk.
  - simpl. ring.
  - simpl in Hwf. apply andb_true_iff in Hwf as [Hjd Ha].
    apply Nat.ltb_lt in Hjd. cbn [foldl]. rewrite evalArgs_cons.
    rewrite IH by (by rewrite ?addAdjoint_length).
    rewrite addAdjoint_nargs, Psi_addAdjoint by lia.
    ring.
Qed.

Lemma Psi_succ (q k : nat) (nd : Node D) (ns : list (Node D)) :
  ns !! k = Some nd →
  wfNode k (nargs nd) = true →
  Psi q (S k) ns
  = dadd (Psi q k ns)
      (dmul (adjoint nd) (evalArgs (nargs nd) (tangents q (map nargs ns)))).
Proof.
  intros Hk Hwf. unfold Psi.
  apply (bigsum_update _ _ _ k); [by eapply lookup_lt_Some| |].
  - intros i Hi Hne. unfold weight.
    destruct (decide (i < k)).
    + by rewrite decide_True by lia.
    + by rewrite decide_False by lia.
  - unfold weight. rewrite decide_True, decide_False by lia.
    rewrite (tangents_lookup q (map nargs ns) k (nargs nd));
      [|by rewrite list_lookup_fmap, Hk|done].
    unfold adjointAt. rewrite Hk. simpl. ring.
Qed.

(** A step of the backward walk keeps [Psi]. *)
Lemma Psi_propagateNode (q k : nat) (ns : list (Node D)) :
  (∀ a, map nargs ns !! k = Some a → wfNode k a = true) →
  Psi q k (propagateNode k ns) = Psi q (S k) ns.
Proof.
  intros Hwf. unfold propagateNode.
  destruct (ns !! k) as [nd|] eqn:Hk.
  - assert (wfNode k (nargs nd) = true) as Hnd.
    { apply Hwf. by rewrite list_lookup_fmap, Hk. }
    rewrite Psi_hand_down; [|done|apply lookup_lt_Some in Hk; lia].
    by rewrite (Psi_succ q k nd).
  - apply lookup_ge_None in Hk. unfold Psi. apply bigsum_ext.
    intros i Hi. unfold weight.
    by rewrite !decide_True by lia.
Qed.

Lemma Psi_propagateDown (q lo n : nat) (ns : list (Node D)) :
  (∀ k a, lo ≤ k < lo + n → map nargs ns !! k = Some a → wfNode k a = true) →
  Psi q lo (propagateDown lo n ns) = Psi q (lo + n) ns.
Proof.
  revert ns; induction n as [|n IH]; intros ns Hwf.
  - simpl. by rewrite Nat.add_0_r.
  - cbn [propagateDown]. rewrite IH.
    + replace (lo + S n) with (S (lo + n)) by lia.
      apply Psi_propagateNode. intros a Ha. apply (Hwf (lo + n)); [lia|done].
    + intros k a Hk. rewrite propagateNode_nargs. apply Hwf. lia.
Qed.

(** At the start of the tape, what is left is the adjoint of node
    [q]. *)
Lemma Psi_start (q : nat) (ns : list (Node D)) : Psi q 0 ns = adjointAt ns q.
Proof.
  unfold Psi.
  rewrite (bigsum_ext _ _ (λ i, if decide (i = q) then adjointAt ns q else dzero)).
  - rewrite bigsum_delta. destruct (decide (q < length ns)) as [|Hge]; [done|].
    unfold adjointAt. rewrite lookup_ge_None_2 by lia. done.
  - intros i Hi. unfold weight, seed. rewrite decide_False by lia.
    destruct (decide (i = q)) as [->|]; ring.
Qed.

(** One path: the nodes [G] recorded after the mark, the payoff at
    node [r], and the walk from [r] down to the mark.  What the nodes
    before the mark hold grows by the derivative of the payoff. *)
Lemma Phi_path (q : nat) (P G : list (NodeArgs D)) (pref : list (Node D)) (r : nat) :
  map nargs pref = P →
  wfNodesFrom 0 (P ++ G) = true →
  length P ≤ r < length P + length G →
  q < length P →
  let ns2 := propagateDown (length P) (S r - length P)
               (setAdjoint r dunit (pref ++ map freshNode G)) in
  Phi q P (take (length P) ns2) = dadd (Phi q P pref) (derivative (P ++ G) q r)
  ∧ map nargs (take (length P) ns2) = P.
Proof.
  intros HP Hwf Hr Hq ns2.
  set (m := length P) in *. set (g := length G) in *.
  set (ns1 := setAdjoint r dunit (pref ++ map freshNode G)) in *.
  assert (length pref = m) as Hpref by (unfold m; by rewrite <-HP, length_map).
  assert (map nargs ns1 = P ++ G) as Hs1.
  { unfold ns1. rewrite setAdjoint_nargs, map_app, HP. f_equal.
    rewrite <-list_fmap_compose. apply list_fmap_id. }
  assert (length ns1 = m + g) as Hl1.
  { rewrite <-(length_map nargs), Hs1, length_app. done. }
  assert (map nargs ns2 = P ++ G) as Hs2.
  { unfold ns2. by rewrite propagateDown_nargs. }
  assert (length ns2 = m + g) as Hl2.
  { rewrite <-(length_map nargs), Hs2, length_app. done. }
  assert (Psi q m ns2 = Psi q (S r) ns1) as Hwalk.
  { unfold ns2. rewrite Psi_propagateDown.
    - f_equal. lia.
    - intros k a Hk Ha. rewrite Hs1 in Ha.
      by apply (wfNodesFrom_lookup 0 (P ++ G) k a). }
  assert (Psi q (S r) ns1 = dadd (Phi q P pref) (derivative (P ++ G) q r)) as Hup.
  { unfold Psi. rewrite Hl1, bigsum_split, Hs1. f_equal.
    - unfold Phi. apply bigsum_ext. intros i Hi. fold m in Hi.
      unfold ns1. rewrite adjointAt_setAdjoint, decide_False by lia.
      rewrite adjointAt_app_l by lia.
      unfold weight. rewrite decide_True by lia.
      by rewrite tangents_app_l.
    - rewrite (bigsum_ext _ _
        (λ i, if decide (i = r - m) then derivative (P ++ G) q r else dzero)).
      + rewrite bigsum_delta, decide_True by lia. done.
      + intros i Hi. unfold ns1. rewrite adjointAt_setAdjoint.
        destruct (decide (i = r - m)) as [->|Hne].
        * rewrite decide_True
            by (split; [lia|rewrite length_app, length_map; lia]).
          unfold weight. rewrite decide_True by lia.
          unfold derivative. replace (m + (r - m)) with r by lia. ring.
        * rewrite decide_False by lia.
          rewrite adjointAt_fresh by lia. ring. }
  assert (Psi q m ns2 = Phi q P (take m ns2)) as Hdown.
  { unfold Psi. rewrite Hl2, bigsum_split, Hs2.
    rewrite (bigsum_ext g _ (λ _, dzero)), bigsum_zero.
    - unfold Phi. fold m.
      rewrite (bigsum_ext m _
        (λ i, dmul (adjointAt (take m ns2) i) (tangents q P !!! i))); [ring|].
      intros i Hi. rewrite adjointAt_take by done.
      unfold weight. rewrite decide_True by done. by rewrite tangents_app_l.
    - intros i Hi. unfold weight, seed. rewrite !decide_False by lia. ring. }
  split.
  - by rewrite <-Hdown, Hwalk.
  - rewrite <-firstn_map, Hs2. apply take_app_length.
Qed.

(** The walk from the mark back to start leaves in node [q] what the
    nodes before the mark held. *)
Lemma Phi_markToStart (q : nat) (P : list (NodeArgs D)) (ns : list (Node D)) :
  map nargs (take (length P) ns) = P →
  wfNodesFrom 0 P = true →
  q < length P →
  adjointAt (propagateDown 0 (length P) ns) q = Phi q P (take (length P) ns).
Proof.
  intros HP Hwf Hq. set (m := length P) in *.
  assert (m ≤ length ns) as Hm.
  { assert (length (map nargs (take m ns)) = m) as Hl by (by rewrite HP).
    rewrite length_map, length_take in Hl. lia. }
  assert (map nargs ns = P ++ drop m (map nargs ns)) as Hs.
  { rewrite <-(take_drop m (map nargs ns)) at 1. by rewrite firstn_map, HP. }
  rewrite <-Psi_start, Psi_propagateDown.
  - rewrite Nat.add_0_l. unfold Psi.
    replace (length ns) with (m + (length ns - m)) by lia.
    rewrite bigsum_split.
    rewrite (bigsum_ext (length ns - m) _ (λ _, dzero)), bigsum_zero.
    + unfold Phi. fold m.
      rewrite (bigsum_ext m _
        (λ i, dmul (adjointAt (take m ns) i) (tangents q P !!! i))); [ring|].
      intros i Hi. rewrite adjointAt_take by done.
      unfold weight. rewrite decide_True by done.
      rewrite Hs. by rewrite tangents_app_l.
    + intros i Hi. unfold weight, seed. rewrite !decide_False by lia. ring.
  - intros k a Hk Ha. rewrite Hs, lookup_app_l in Ha by lia.
    by apply (wfNodesFrom_lookup 0 P k a).
Qed.
End Exact.
End TapeFacts.

(** * Properties of the drivers *)

Section EngineFacts.
Context {D : Type} `{!Scalar D}.
Context {MD : Type} `{!Model.t D D Plain MD} `{!Inhabited MD}.
Context {MN : Type} `{!Model.t D (Number D) (Recorded D) MN} `{!Inhabited MN}.
Context {R : Type} `{!RNG.t D R} `{!Inhabited R}.

Local Abbreviation World := (@World D MD MN R).
Local Abbreviation Sim := (@Sim D MD MN R).

#[local] Arguments Nat.div : simpl never.
#[local] Arguments Nat.modulo : simpl never.

(** ** The generator *)

Lemma skipLoop_add (k n : nat) (r : R) :
  RNG.skipLoop RNG.nextG (k + n) r
  = RNG.skipLoop RNG.nextG n (RNG.skipLoop RNG.nextG k r).
Proof.
  revert r; induction k as [|k IH]; intros r; simpl; [done|].
  by rewrite IH.
Qed.

Lemma skipLoop_succ (k : nat) (r : R) :
  RNG.skipLoop RNG.nextG (S k) r = (RNG.nextG (RNG.skipLoop RNG.nextG k r)).1.
Proof.
  replace (S k) with (k + 1) by lia. by rewrite skipLoop_add.
Qed.

Lemma draws_add (k n : nat) (r : R) :
  RNG.draws (k + n) r = RNG.draws k r ++ RNG.draws n (RNG.skipLoop RNG.nextG k r).
Proof.
  revert r; induction k as [|k IH]; intros r; simpl; [done|].
  by rewrite IH.
Qed.

Lemma draws_length (n : nat) (r : R) : length (RNG.draws n r) = n.
Proof. revert r; induction n as [|n IH]; intros r; simpl; [done|]. by rewrite IH. Qed.

Lemma draws_lookup (n k : nat) (r : R) :
  k < n → RNG.draws n r !! k = Some (nthDraw r k).
Proof.
  revert k r; induction n as [|n IH]; intros k r Hk; [lia|].
  destruct k as [|k]; simpl; [done|].
  rewrite IH by lia. done.
Qed.

(** The loop of [RNG::skipTo] from the counter [i], [n] turns short of
    [b], when the counter stays within [int]. *)
Lemma skipToLoop_run (n fuel : nat) (b i : Z) (r : R) :
  (0 ≤ i)%Z → (i + Z.of_nat n = b)%Z → (b ≤ RNG.INT_MAX)%Z → n < fuel →
  RNG.skipToLoop RNG.nextG fuel b i r = RNG.Skipped (RNG.skipLoop RNG.nextG n r).
Proof.
  revert fuel i r. induction n as [|n IH]; intros fuel i r Hi Hb Hmax Hfuel;
    (destruct fuel as [|fuel]; [lia|]); cbn [RNG.skipToLoop RNG.skipLoop].
  - by rewrite (proj2 (Z.ltb_ge i b)) by lia.
  - rewrite (proj2 (Z.ltb_lt i b)), (proj2 (Z.ltb_lt i RNG.INT_MAX)) by lia.
    apply IH; lia.
Qed.

(** The same when [b] is beyond [INT_MAX]: after [n] more turns the
    counter stands at [INT_MAX], and the next [++i] overflows. *)
Lemma skipToLoop_overflow (n fuel : nat) (b i : Z) (r : R) :
  (0 ≤ i)%Z → (i + Z.of_nat n = RNG.INT_MAX)%Z → (RNG.INT_MAX < b)%Z → n < fuel →
  RNG.skipToLoop RNG.nextG fuel b i r = RNG.CounterOverflow.
Proof.
  revert fuel i r. induction n as [|n IH]; intros fuel i r Hi Hn Hb Hfuel;
    (destruct fuel as [|fuel]; [lia|]); cbn [RNG.skipToLoop].
  - by rewrite (proj2 (Z.ltb_lt i b)), (proj2 (Z.ltb_ge i RNG.INT_MAX)) by lia.
  - rewrite (proj2 (Z.ltb_lt i b)), (proj2 (Z.ltb_lt i RNG.INT_MAX)) by lia.
    apply IH; lia.
Qed.

Lemma Skipped_inj (r r' : R) : RNG.Skipped r = RNG.Skipped r' → r = r'.
Proof. by intros [= ->]. Qed.

Lemma skipToBase_run (r : R) (b : Z) :
  (b ≤ RNG.INT_MAX)%Z →
  RNG.skipToBase RNG.nextG r b = RNG.Skipped (RNG.skipLoop RNG.nextG (Z.to_nat b) r).
Proof.
  intros Hb. unfold RNG.skipToBase. destruct (decide (0 ≤ b)%Z) as [Hpos|Hneg].
  - apply skipToLoop_run; lia.
  - replace (Z.to_nat b) with 0 by lia. cbn [RNG.skipToLoop RNG.skipLoop].
    by rewrite (proj2 (Z.ltb_ge 0 b)) by lia.
Qed.

Lemma skipToBase_overflow (r : R) (b : Z) :
  (RNG.INT_MAX < b)%Z → RNG.skipToBase RNG.nextG r b = RNG.CounterOverflow.
Proof.
  intros Hb. unfold RNG.skipToBase.
  apply (skipToLoop_overflow (Z.to_nat RNG.INT_MAX)); unfold RNG.INT_MAX in *; lia.
Qed.

(** C7.  The body of [RNG::skipTo] in the base class counts its turns
    in an [int] and compares the counter with the [long b].  For
    [k <= INT_MAX] it is a functional skip-ahead: on a clone [c], the
    call returns, after [skipTo(k)] the next [nextG] writes the vector
    that the last of [k + 1] calls of [nextG] on [c] writes, and every
    later draw agrees as well; the state reached is the one [k] calls of
    [nextG] reach, a function of [c] and [k] alone.  For [b > INT_MAX],
    [2 ^ 31] for one, the counter reaches [INT_MAX] below [b] and is
    incremented there: the call does not return the skipped
    generator. *)
Theorem skipToBase_skip_ahead (r : R) :
  let c := RNG.clone r in
  (∀ k, (Z.of_nat k ≤ RNG.INT_MAX)%Z →
     RNG.skipToBase RNG.nextG c (Z.of_nat k) = RNG.Skipped (RNG.skipLoop RNG.nextG k c)
     ∧ last (RNG.draws (S k) c) = Some (RNG.nextG (RNG.skipLoop RNG.nextG k c)).2
     ∧ ∀ n, RNG.draws n (RNG.skipLoop RNG.nextG k c) = drop k (RNG.draws (k + n) c))
  ∧ (∀ b, (RNG.INT_MAX < b)%Z →
       RNG.skipToBase RNG.nextG c b = RNG.CounterOverflow)
  ∧ RNG.skipToBase RNG.nextG c 2147483648 = RNG.CounterOverflow.
Proof.
  intros c. split_and!.
  - intros k Hk. split_and!.
    + by rewrite skipToBase_run, Nat2Z.id.
    + replace (S k) with (k + 1) by lia. rewrite draws_add. simpl.
      by rewrite last_snoc.
    + intros n. rewrite draws_add, drop_app_length'; [done|]. by rewrite draws_length.
  - intros b Hb. by apply skipToBase_overflow.
  - apply skipToBase_overflow. unfold RNG.INT_MAX. lia.
Qed.

(** ** Stepping through a driver *)

Lemma forRange_snoc {St : Type} (i n : nat) (body : nat → St → Sim St) (s : St) (w : World) :
  forRange i (S n) body s w
  = body (i + n) (forRange i n body s w).1 (forRange i n body s w).2.
Proof.
  revert i s w; induction n as [|n IH]; intros i s w.
  - simpl. unfold mbind, Sim_bind, mret, Sim_ret. simpl.
    rewrite Nat.add_0_r. by destruct (body i s w).
  - change (forRange i (S (S n)) body s w)
      with (forRange (S i) (S n) body (body i s w).1 (body i s w).2).
    rewrite IH. replace (S i + n) with (i + S n) by lia. done.
Qed.

Lemma bind_run {A B : Type} (c : Sim A) (k : A → Sim B) (w : World) :
  (c ≫= k) w = k (c w).1 (c w).2.
Proof. done. Qed.

Lemma mret_run {A : Type} (a : A) (w : World) : (mret a : Sim A) w = (a, w).
Proof. done. Qed.

Lemma modelClone_run (m : nat) (w : World) :
  modelClone m w
  = (length (models w),
     mkWorld (models w ++ [Model.clone (models w !!! m)]) (amodels w) (rngs w)
       (tapes w) (tapePtr w) (trace w ++ [EvModelClone m (length (models w))])).
Proof. done. Qed.

Lemma modelInit_run (m : nat) (tl : list D) (w : World) :
  modelInit m tl w
  = (tt, mkWorld (<[m := Model.init (E:=Plain) (models w !!! m) tl]> (models w))
           (amodels w) (rngs w) (tapes w) (tapePtr w) (trace w ++ [EvModelInit m])).
Proof. done. Qed.

Lemma modelSimDim_run (m : nat) (w : World) :
  modelSimDim m w = (Model.simDim (models w !!! m), w).
Proof. done. Qed.

Lemma modelGeneratePath_run (m : nat) (g : list D) (w : World) :
  modelGeneratePath m g w
  = (Model.generatePath (E:=Plain) (models w !!! m) g,
     mkWorld (models w) (amodels w) (rngs w) (tapes w) (tapePtr w)
       (trace w ++ [EvGeneratePath m g])).
Proof. done. Qed.

Lemma payoffInto_run (prd : Product.t D D Plain) (path : list (scenario D))
    (i : nat) (res : list D) (w : World) :
  payoffInto prd path i res w
  = (<[i := Product.payoff prd path]> res,
     mkWorld (models w) (amodels w) (rngs w) (tapes w) (tapePtr w)
       (trace w ++ [EvPayoff i])).
Proof. done. Qed.

Lemma rngClone_run (r : nat) (w : World) :
  rngClone r w
  = (length (rngs w),
     mkWorld (models w) (amodels w) (rngs w ++ [RNG.clone (rngs w !!! r)])
       (tapes w) (tapePtr w) (trace w ++ [EvRngClone r (length (rngs w))])).
Proof. done. Qed.

Lemma rngInit_run (r dim : nat) (w : World) :
  rngInit r dim w
  = (tt, mkWorld (models w) (amodels w) (<[r := RNG.init (rngs w !!! r) dim]> (rngs w))
           (tapes w) (tapePtr w) (trace w ++ [EvRngInit r dim])).
Proof. done. Qed.

Lemma rngNextG_run (r : nat) (w : World) :
  rngNextG r w
  = ((RNG.nextG (rngs w !!! r)).2,
     mkWorld (models w) (amodels w) (<[r := (RNG.nextG (rngs w !!! r)).1]> (rngs w))
       (tapes w) (tapePtr w) (trace w ++ [EvNextG r])).
Proof. done. Qed.

Lemma negate_run (g : list D) (w : World) :
  negate g w
  = (map dneg g,
     mkWorld (models w) (amodels w) (rngs w) (tapes w) (tapePtr w)
       (trace w ++ [EvNegate])).
Proof. done. Qed.

Lemma rngSkipTo_run (r : nat) (b : Z) (w : World) :
  rngSkipTo r b w
  = (tt, mkWorld (models w) (amodels w) (<[r := RNG.skipTo (rngs w !!! r) b]> (rngs w))
           (tapes w) (tapePtr w) (trace w ++ [EvSkipTo r b])).
Proof. done. Qed.

Lemma currentTape_run (th : nat) (w : World) : currentTape th w = (tapePtr w th, w).
Proof. done. Qed.

Lemma setCurrentTape_run (th tape : nat) (w : World) :
  setCurrentTape th tape w
  = (tt, mkWorld (models w) (amodels w) (rngs w) (tapes w)
           (λ k, if decide (k = th) then tape else tapePtr w k)
           (trace w ++ [EvSetTape th tape])).
Proof. done. Qed.

Lemma allocTapes_run (n : nat) (w : World) :
  allocTapes n w
  = (length (tapes w),
     mkWorld (models w) (amodels w) (rngs w) (tapes w ++ replicate n emptyTape)
       (tapePtr w) (trace w)).
Proof. done. Qed.

Lemma tapeRewind_run (tape : nat) (w : World) :
  tapeRewind tape w
  = (tt, mkWorld (models w) (amodels w) (rngs w)
           (<[tape := emptyTape]> (tapes w)) (tapePtr w)
           (trace w ++ [EvTapeRewind tape])).
Proof. done. Qed.

Lemma tapeMark_run (tape : nat) (w : World) :
  tapeMark tape w
  = (tt, mkWorld (models w) (amodels w) (rngs w)
           (<[tape := mark (tapes w !!! tape)]> (tapes w)) (tapePtr w)
           (trace w ++ [EvTapeMark tape])).
Proof. done. Qed.

Lemma tapeRewindToMark_run (tape : nat) (w : World) :
  tapeRewindToMark tape w
  = (tt, mkWorld (models w) (amodels w) (rngs w)
           (<[tape := rewindToMark (tapes w !!! tape)]> (tapes w)) (tapePtr w)
           (trace w ++ [EvTapeRewindToMark tape])).
Proof. done. Qed.

Lemma numberPropagateToMark_run (th : nat) (x : Number D) (reset : bool) (w : World) :
  numberPropagateToMark th x reset w
  = (tt, mkWorld (models w) (amodels w) (rngs w)
           (<[tapePtr w th := propagateToMark (node x) reset (tapes w !!! tapePtr w th)]>
              (tapes w))
           (tapePtr w)
           (trace w ++ [EvPropagateToMark (tapePtr w th) (node x) reset])).
Proof. done. Qed.

Lemma numberPropagateMarkToStart_run (th : nat) (w : World) :
  numberPropagateMarkToStart th w
  = (tt, mkWorld (models w) (amodels w) (rngs w)
           (<[tapePtr w th := propagateMarkToStart (tapes w !!! tapePtr w th)]> (tapes w))
           (tapePtr w)
           (trace w ++ [EvPropagateMarkToStart (tapePtr w th)])).
Proof. done. Qed.

Lemma adjointAddFrom_run (tx : nat) (x : Number D) (ty : nat) (y : Number D) (w : World) :
  adjointAddFrom tx x ty y w
  = (tt, mkWorld (models w) (amodels w) (rngs w)
           (<[tx := mkTape (addAdjoint (node x)
                              (adjointAt (nodes (tapes w !!! ty)) (node y))
                              (nodes (tapes w !!! tx)))
                           (markPos (tapes w !!! tx))]> (tapes w))
           (tapePtr w) (trace w ++ [EvAdjointAdd tx (node x)])).
Proof. done. Qed.

Lemma amodelClone_run (m : nat) (w : World) :
  amodelClone m w
  = (length (amodels w),
     mkWorld (models w) (amodels w ++ [Model.clone (amodels w !!! m)]) (rngs w)
       (tapes w) (tapePtr w) (trace w ++ [EvModelClone m (length (amodels w))])).
Proof. done. Qed.

Lemma amodelPutOnTape_run (th m : nat) (w : World) :
  let tp := tapes w !!! tapePtr w th in
  let r := Model.putOnTape (M:=MN) (amodels w !!! m) (length (nodes tp)) in
  amodelPutOnTape th m w
  = (tt, mkWorld (models w) (<[m := r.1]> (amodels w)) (rngs w)
           (<[tapePtr w th := recordNodes r.2 tp]> (tapes w)) (tapePtr w)
           (trace w ++ [EvPutOnTape m (tapePtr w th)])).
Proof. done. Qed.

Lemma amodelInit_run (th m : nat) (tl : list D) (w : World) :
  let tp := tapes w !!! tapePtr w th in
  let r := Model.init (M:=MN) (amodels w !!! m) tl (length (nodes tp)) in
  amodelInit th m tl w
  = (tt, mkWorld (models w) (<[m := r.1]> (amodels w)) (rngs w)
           (<[tapePtr w th := recordNodes r.2 tp]> (tapes w)) (tapePtr w)
           (trace w ++ [EvModelInit m])).
Proof. done. Qed.

Lemma amodelSimDim_run (m : nat) (w : World) :
  amodelSimDim m w = (Model.simDim (amodels w !!! m), w).
Proof. done. Qed.

Lemma amodelParameters_run (m : nat) (w : World) :
  amodelParameters m w = (Model.parameters (amodels w !!! m), w).
Proof. done. Qed.

Lemma amodelGeneratePath_run (th m : nat) (g : list D) (w : World) :
  let tp := tapes w !!! tapePtr w th in
  let r := Model.generatePath (M:=MN) (amodels w !!! m) g (length (nodes tp)) in
  amodelGeneratePath th m g w
  = (r.1, mkWorld (models w) (amodels w) (rngs w)
            (<[tapePtr w th := recordNodes r.2 tp]> (tapes w)) (tapePtr w)
            (trace w ++ [EvGeneratePath m g])).
Proof. done. Qed.

Lemma apayoffInto_run (th : nat) (prd : Product.t D (Number D) (Recorded D))
    (path : list (scenario (Number D))) (i : nat) (res : list (Number D)) (w : World) :
  let tp := tapes w !!! tapePtr w th in
  let r := Product.payoff prd path (length (nodes tp)) in
  apayoffInto th prd path i res w
  = (<[i := r.1]> res,
     mkWorld (models w) (amodels w) (rngs w)
       (<[tapePtr w th := recordNodes r.2 tp]> (tapes w)) (tapePtr w)
       (trace w ++ [EvPayoff i])).
Proof. done. Qed.

(** One statement of a driver at a time: the run of the statement is
    rewritten to its result and the world it leaves. *)
Ltac sim_simpl :=
  cbn beta iota zeta delta
    [fst snd models amodels rngs tapes tapePtr trace nodes markPos].

Ltac sim_step :=
  first
    [ rewrite modelClone_run | rewrite modelInit_run | rewrite modelSimDim_run
    | rewrite modelGeneratePath_run | rewrite payoffInto_run
    | rewrite rngClone_run | rewrite rngInit_run | rewrite rngSkipTo_run
    | rewrite rngNextG_run | rewrite negate_run
    | rewrite currentTape_run | rewrite setCurrentTape_run | rewrite allocTapes_run
    | rewrite tapeRewind_run | rewrite tapeMark_run | rewrite tapeRewindToMark_run
    | rewrite numberPropagateToMark_run | rewrite numberPropagateMarkToStart_run
    | rewrite adjointAddFrom_run
    | rewrite amodelClone_run | rewrite amodelPutOnTape_run | rewrite amodelInit_run
    | rewrite amodelSimDim_run | rewrite amodelParameters_run
    | rewrite amodelGeneratePath_run | rewrite apayoffInto_run
    | rewrite mret_run | rewrite bind_run ];
  sim_simpl.

Lemma emits_nil (w : World) : emits [] w = w.
Proof. destruct w; unfold emits; simpl. by rewrite app_nil_r. Qed.

Lemma emits_emits (es es' : list Event) (w : World) :
  emits es' (emits es w) = emits (es ++ es') w.
Proof. unfold emits; simpl. by rewrite app_assoc. Qed.

Lemma emit_emits (e : Event) (w : World) : emit e w = emits [e] w.
Proof. done. Qed.

Lemma half_double (k : nat) : (2 * k) / 2 = k.
Proof. rewrite (Nat.mul_comm 2 k). apply Nat.div_mul. lia. Qed.

Lemma half_double_succ (k : nat) : (2 * k + 1) / 2 = k.
Proof.
  replace (2 * k + 1) with (1 + k * 2) by lia.
  rewrite Nat.div_add by lia. done.
Qed.

Lemma parity_cases (n : nat) :
  (Nat.odd n = false ∧ ∃ k, n = 2 * k) ∨ (Nat.odd n = true ∧ ∃ k, n = 2 * k + 1).
Proof.
  destruct (Nat.odd n) eqn:Ho.
  - right. split; [done|]. by apply Nat.odd_spec.
  - left. split; [done|]. apply Nat.even_spec. by rewrite <-Nat.negb_odd, Ho.
Qed.

Lemma drawsUsed_succ (antithetic : bool) (n : nat) :
  drawsUsed antithetic (S n)
  = if antithetic && Nat.odd n then drawsUsed antithetic n
    else S (drawsUsed antithetic n).
Proof.
  unfold drawsUsed. destruct antithetic; simpl; [|done].
  destruct (parity_cases n) as [[-> [k ->]]|[-> [k ->]]].
  - replace (S (2 * k + 1)) with (2 * (k + 1)) by lia.
    rewrite half_double, half_double_succ. lia.
  - replace (S (2 * k + 1 + 1)) with (2 * (k + 1) + 1) by lia.
    replace (2 * k + 1 + 1) with (2 * (k + 1)) by lia.
    by rewrite half_double, half_double_succ.
Qed.

Lemma drawsUsed_even (n : nat) : Nat.odd n = false → drawsUsed true n = n / 2.
Proof.
  intros Ho. unfold drawsUsed.
  destruct (parity_cases n) as [[_ [k ->]]|[Ho' _]]; [|congruence].
  by rewrite half_double, half_double_succ.
Qed.

Lemma half_pred_odd (i : nat) : Nat.odd (S i) = true → S i / 2 = i / 2.
Proof.
  intros Ho. destruct (parity_cases (S i)) as [[Ho' _]|[_ [k Hk]]]; [congruence|].
  assert (i = 2 * k) as -> by lia.
  replace (S (2 * k)) with (2 * k + 1) by lia.
  by rewrite half_double, half_double_succ.
Qed.

(** What the block [nextGaussian] does at the head of path [i] of a
    loop that started with the generator in state [r0]. *)
Lemma nextGaussian_run (antithetic : bool) (rng i : nat) (r0 : R) (g0 : list D) (w : World) :
  rng < length (rngs w) →
  rngs w !!! rng = RNG.skipLoop RNG.nextG (drawsUsed antithetic i) r0 →
  nextGaussian antithetic rng (antithetic && Nat.odd i) (prevGauss antithetic r0 g0 i) w
  = ((antithetic && Nat.odd (S i), pathGauss antithetic r0 i),
     emits (gaussEvents antithetic rng i)
       (withRngs (λ l, <[rng := RNG.skipLoop RNG.nextG (drawsUsed antithetic (S i)) r0]> l) w)).
Proof.
  intros Hlt Hr. unfold nextGaussian, gaussEvents.
  rewrite drawsUsed_succ, Nat.odd_succ, <-(Nat.negb_odd i).
  assert (∀ x, emit x w = emits [x] w) as Hemit by done.
  destruct antithetic; cbn [negb andb].
  - destruct (Nat.odd i) eqn:Ho; cbn [negb].
    + unfold mbind, Sim_bind, mret, Sim_ret, negate. cbn [fst snd].
      f_equal.
      * f_equal. destruct i as [|i]; [done|]. cbn [prevGauss]. unfold pathGauss.
        pose proof (half_pred_odd i Ho) as Hh.
        rewrite <-(Nat.negb_odd (S i)), Ho. cbn [negb].
        rewrite Nat.odd_succ in Ho. by rewrite Ho, Hh.
      * destruct w; unfold emits, emit, withRngs; cbn in *. f_equal.
        symmetry. apply list_insert_id.
        rewrite <-Hr. by apply list_lookup_lookup_total_lt.
    + unfold mbind, Sim_bind, mret, Sim_ret, rngNextG. cbn [fst snd].
      rewrite skipLoop_succ, Hr.
      rewrite (drawsUsed_even i Ho).
      unfold pathGauss, nthDraw. rewrite <-Nat.negb_odd, Ho. cbn [negb].
      f_equal.
      destruct w; unfold emits, emit, withRngs; cbn in *. f_equal.
      f_equal. rewrite Hr. pose proof (drawsUsed_even i Ho) as Hd.
      unfold drawsUsed in Hd. by rewrite Hd.
  - unfold mbind, Sim_bind, mret, Sim_ret, rngNextG. cbn [fst snd].
    rewrite skipLoop_succ, Hr. unfold pathGauss, nthDraw, drawsUsed. f_equal.
    destruct w; unfold emits, emit, withRngs; cbn in *. f_equal.
    f_equal. by rewrite Hr.
Qed.

Lemma insert_filled {A : Type} (f : nat → A) (d : A) (n N : nat) :
  n < N →
  <[n := f n]> (map f (seq 0 n) ++ replicate (N - n) d)
  = map f (seq 0 (S n)) ++ replicate (N - S n) d.
Proof.
  intros Hn. rewrite seq_S, map_app. simpl.
  replace (N - n) with (S (N - S n)) by lia. simpl.
  rewrite <-app_assoc. simpl.
  rewrite insert_app_r_alt; rewrite length_map, length_seq; [|lia].
  by rewrite Nat.sub_diag.
Qed.

(** ** [mcSimul], step by step *)

Section McSimulRun.
Variables (prd : Product.t D D Plain) (antithetic : bool) (nPath : nat).
Variables (cMdl cRng : nat) (m1 : MD) (r0 : R) (g0 : list D) (p0 : list (scenario D)).

Let body := mcSimulPath (MN:=MN) prd antithetic cMdl cRng.

Lemma mcSimul_loop (n : nat) (w : World) :
  n ≤ nPath →
  cRng < length (rngs w) →
  rngs w !!! cRng = r0 →
  models w !!! cMdl = m1 →
  forRange 0 n body (false, g0, p0, replicate nPath dzero) w
  = ((antithetic && Nat.odd n, prevGauss antithetic r0 g0 n,
      match n with
      | 0 => p0
      | S k => Model.generatePath (E:=Plain) m1 (pathGauss antithetic r0 k)
      end,
      map (pathPayoff prd m1 antithetic r0) (seq 0 n) ++ replicate (nPath - n) dzero),
     emits (flat_map (λ i, pathEvents antithetic cMdl cRng r0 i i) (seq 0 n))
       (withRngs (λ l, <[cRng := RNG.skipLoop RNG.nextG (drawsUsed antithetic n) r0]> l) w)).
Proof.
  intros Hn Hlt Hr Hm. induction n as [|n IH].
  - simpl. unfold mret, Sim_ret. rewrite andb_false_r, Nat.sub_0_r. f_equal.
    destruct w; unfold emits, withRngs; cbn in *. rewrite app_nil_r. f_equal.
    symmetry. apply list_insert_id. rewrite <-Hr.
    unfold drawsUsed. destruct antithetic; by apply list_lookup_lookup_total_lt.
  - rewrite forRange_snoc, IH by lia. cbn [fst snd plus]. unfold body at 1.
    unfold mcSimulPath, mbind, Sim_bind.
    rewrite (nextGaussian_run antithetic cRng n r0 g0).
    + cbn [fst snd]. unfold modelGeneratePath, payoffInto, mret, Sim_ret. cbn [fst snd].
      f_equal.
      * rewrite <-(insert_filled (pathPayoff prd m1 antithetic r0)) by lia.
        unfold emits, withRngs; cbn. by rewrite Hm.
      * rewrite (seq_S n 0), flat_map_app.
        destruct w; unfold emits, emit, withRngs; cbn in *. f_equal.
        -- by rewrite list_insert_insert_eq.
        -- rewrite app_nil_r. unfold pathEvents. rewrite <-!app_assoc. done.
    + destruct w; unfold emits, withRngs; cbn in *. by rewrite length_insert.
    + destruct w; unfold emits, withRngs; cbn in *.
      by apply list_lookup_total_insert_eq.
Qed.
End McSimulRun.

Lemma lookup_total_snoc {A : Type} `{!Inhabited A} (l : list A) (x : A) :
  (l ++ [x]) !!! length l = x.
Proof.
  apply list_lookup_total_correct. rewrite lookup_app_r by lia.
  by rewrite Nat.sub_diag.
Qed.

Lemma insert_snoc {A : Type} (l : list A) (x y : A) :
  <[length l := y]> (l ++ [x]) = l ++ [y].
Proof. rewrite insert_app_r_alt by lia. by rewrite Nat.sub_diag. Qed.

(** The run of [mcSimul] in closed form: its result, and the world it
    leaves. *)
Lemma mcSimul_run (prd : Product.t D D Plain) (mdl rng nPath : nat)
    (antithetic : bool) (w : World) :
  let m1 := setupModel prd (models w !!! mdl) in
  let r0 := setupRng prd (models w !!! mdl) (rngs w !!! rng) in
  let cMdl := length (models w) in
  let cRng := length (rngs w) in
  mcSimul prd mdl rng nPath antithetic w
  = (map (pathPayoff prd m1 antithetic r0) (seq 0 nPath),
     mkWorld (models w ++ [m1]) (amodels w)
       (rngs w ++ [RNG.skipLoop RNG.nextG (drawsUsed antithetic nPath) r0])
       (tapes w) (tapePtr w)
       (trace w
        ++ [EvModelClone mdl cMdl; EvRngClone rng cRng; EvModelInit cMdl;
            EvRngInit cRng (Model.simDim m1)]
        ++ flat_map (λ i, pathEvents antithetic cMdl cRng r0 i i) (seq 0 nPath))).
Proof.
  intros m1 r0 cMdl cRng. unfold mcSimul, mbind, Sim_bind.
  unfold modelClone, rngClone, modelInit, modelSimDim, rngInit.
  cbn [fst snd models rngs emit withModels withRngs].
  rewrite !lookup_total_snoc, !insert_snoc, !lookup_total_snoc.
  fold m1 cMdl cRng. fold (setupModel prd (models w !!! mdl)). fold m1.
  fold (setupRng prd (models w !!! mdl) (rngs w !!! rng)). fold r0.
  erewrite (mcSimul_loop prd antithetic nPath cMdl cRng m1 r0); cbn [rngs models].
  - unfold mret, Sim_ret. cbn [fst snd]. rewrite Nat.sub_diag, app_nil_r. f_equal.
    unfold emits, withRngs. cbn. subst cRng. f_equal.
    + subst cMdl. by rewrite lookup_total_snoc, insert_snoc.
    + by rewrite !insert_snoc.
    + by rewrite <-!app_assoc.
  - done.
  - cbn. subst cRng. rewrite !length_insert, length_app. simpl. lia.
  - cbn. subst cRng. by rewrite !insert_snoc, !lookup_total_snoc.
  - cbn. subst cMdl. by rewrite !lookup_total_snoc, !insert_snoc, lookup_total_snoc.
Qed.

(** ** The AAD set-up, step by step *)

Lemma recordNodes_empty (new : list (NodeArgs D)) :
  recordNodes new emptyTape = mkTape (map freshNode new) 0.
Proof. done. Qed.

(** The run of [initSimul] in closed form, on a thread whose
    [Number::tape] designates a tape. *)
Lemma initSimul_run (th : nat) (prd : Product.t D (Number D) (Recorded D))
    (mdl rng : nat) (gaussVec : list D) (path : list (scenario (Number D)))
    (w : World) :
  tapePtr w th < length (tapes w) →
  let m := amodels w !!! mdl in
  let cMdl := length (amodels w) in
  let cRng := length (rngs w) in
  let dim := Model.simDim (aadSetupModel prd m) in
  initSimul th prd mdl rng gaussVec path w
  = ((cMdl, cRng, resize dim dzero gaussVec,
      resize (length (Product.timeline prd)) (mkScenario defaultNumber) path),
     mkWorld (models w) (amodels w ++ [aadSetupModel prd m])
       (rngs w ++ [aadSetupRng prd m (rngs w !!! rng)])
       (<[tapePtr w th := aadSetupTape prd m]> (tapes w)) (tapePtr w)
       (trace w ++ aadSetupEvents mdl rng cMdl cRng (tapePtr w th) dim)).
Proof.
  intros HT m cMdl cRng dim. unfold initSimul.
  do 6 sim_step.
  do 4 sim_step. rewrite lookup_total_snoc, insert_snoc.
  rewrite list_lookup_total_insert_eq, list_insert_insert_eq by done.
  fold m. fold (aadSetupPut m). cbn [emptyTape nodes length].
  do 2 sim_step. rewrite lookup_total_snoc, insert_snoc.
  rewrite list_lookup_total_insert_eq, list_insert_insert_eq by done.
  cbn [recordNodes emptyTape nodes markPos app]. rewrite length_map.
  fold (aadSetupInit prd m).
  do 2 sim_step.
  rewrite list_lookup_total_insert_eq, list_insert_insert_eq by done.
  do 2 sim_step. rewrite lookup_total_snoc. fold (aadSetupModel prd m). fold dim.
  do 2 sim_step. rewrite lookup_total_snoc, insert_snoc.
  sim_step. f_equal. f_equal.
  - unfold aadSetupTape, aadSetupNodes, mark, recordNodes. cbn.
    by rewrite <-map_app, length_map.
  - unfold aadSetupEvents. by rewrite <-!app_assoc.
Qed.

(** ** [mcSimulAAD], step by step *)

Lemma propagateNode_length (k : nat) (ns : list (Node D)) :
  length (propagateNode k ns) = length ns.
Proof.
  unfold propagateNode. destruct (ns !! k) as [nd|]; [|done].
  generalize (nargs nd). intros l. revert ns.
  induction l as [|jd l IH]; intros ns; simpl; [done|].
  rewrite IH. unfold addAdjoint. by rewrite length_alter.
Qed.

Lemma propagateDown_length (lo n : nat) (ns : list (Node D)) :
  length (propagateDown lo n ns) = length ns.
Proof.
  revert ns; induction n as [|n IH]; intros ns; simpl; [done|].
  by rewrite IH, propagateNode_length.
Qed.

Lemma propagateToMark_length (r : nat) (t : Tape D) :
  length (nodes (propagateToMark r false t)) = length (nodes t).
Proof.
  unfold propagateToMark. cbn [nodes].
  rewrite propagateDown_length. unfold setAdjoint. by rewrite length_alter.
Qed.

Lemma propagateToMark_markPos (r : nat) (reset : bool) (t : Tape D) :
  markPos (propagateToMark r reset t) = markPos t.
Proof. done. Qed.

Section McSimulAADRun.
Variables (prd : Product.t D (Number D) (Recorded D)) (antithetic : bool) (nPath : nat).
Variables (T cMdl cRng : nat) (m2 : MN) (r0 : R).
Variables (g0 : list D) (p0 : list (scenario (Number D))) (t0 : Tape D).

Let mk := markPos t0.

Lemma aadTapeAfter_markPos (n : nat) :
  markPos (aadTapeAfter prd m2 mk antithetic r0 n t0) = mk.
Proof.
  induction n as [|n IH]; [done|]. cbn [aadTapeAfter]. unfold aadPathTape.
  rewrite propagateToMark_markPos. cbn [recordNodes rewindToMark markPos]. done.
Qed.

Lemma aadTapeAfter_length (n : nat) :
  mk ≤ length (nodes t0) →
  mk ≤ length (nodes (aadTapeAfter prd m2 mk antithetic r0 n t0)).
Proof.
  intros Hle. induction n as [|n IH]; [done|]. cbn [aadTapeAfter]. unfold aadPathTape.
  rewrite propagateToMark_length. cbn [recordNodes nodes rewindToMark].
  rewrite length_app, length_take, aadTapeAfter_markPos. lia.
Qed.

Lemma recordNodes_length (new : list (NodeArgs D)) (t : Tape D) :
  length (nodes (recordNodes new t)) = length (nodes t) + length new.
Proof. unfold recordNodes. cbn [nodes]. by rewrite length_app, length_map. Qed.

Lemma aadTapeAfter_rewound (n : nat) :
  mk ≤ length (nodes t0) →
  length (nodes (rewindToMark (aadTapeAfter prd m2 mk antithetic r0 n t0))) = mk.
Proof.
  intros Hle. unfold rewindToMark. cbn [nodes].
  rewrite length_take, aadTapeAfter_markPos.
  apply Nat.min_l. by apply aadTapeAfter_length.
Qed.

Lemma mcSimulAAD_loop (n : nat) (w : World) :
  n ≤ nPath →
  tapePtr w mainThread = T →
  T < length (tapes w) →
  tapes w !!! T = t0 →
  mk ≤ length (nodes t0) →
  cRng < length (rngs w) →
  rngs w !!! cRng = r0 →
  amodels w !!! cMdl = m2 →
  forRange 0 n (mcSimulAADPath prd antithetic T cMdl cRng)
    (false, g0, p0, replicate nPath defaultNumber) w
  = ((antithetic && Nat.odd n, prevGauss antithetic r0 g0 n,
      match n with
      | 0 => p0
      | S k => (aadPathGen m2 mk antithetic r0 k).1
      end,
      map (aadPathNumber prd m2 mk antithetic r0) (seq 0 n)
      ++ replicate (nPath - n) defaultNumber),
     mkWorld (models w) (amodels w)
       (<[cRng := RNG.skipLoop RNG.nextG (drawsUsed antithetic n) r0]> (rngs w))
       (<[T := aadTapeAfter prd m2 mk antithetic r0 n t0]> (tapes w))
       (tapePtr w)
       (trace w
        ++ flat_map (λ i, aadPathEvents prd m2 mk antithetic r0 T cMdl cRng i i)
             (seq 0 n))).
Proof.
  intros Hn HT HTlt Ht0 Hmk Hlt Hr Hm. induction n as [|n IH].
  - simpl. rewrite mret_run, andb_false_r, Nat.sub_0_r, app_nil_r. f_equal.
    destruct w; cbn in *. f_equal.
    + symmetry. apply list_insert_id. rewrite <-Hr.
      unfold drawsUsed. destruct antithetic; by apply list_lookup_lookup_total_lt.
    + symmetry. apply list_insert_id. rewrite <-Ht0.
      by apply list_lookup_lookup_total_lt.
  - rewrite forRange_snoc, IH by lia. cbn [fst snd plus]. clear IH.
    unfold mcSimulAADPath at 1.
    do 2 sim_step. rewrite list_lookup_total_insert_eq, list_insert_insert_eq by done.
    sim_step.
    rewrite (nextGaussian_run antithetic cRng n r0 g0);
      [|by (cbn; rewrite length_insert)
       |by (cbn; apply list_lookup_total_insert_eq)].
    unfold emits, withRngs. sim_simpl. rewrite list_insert_insert_eq.
    do 2 sim_step. rewrite HT, Hm.
    rewrite list_lookup_total_insert_eq, list_insert_insert_eq by done.
    rewrite aadTapeAfter_rewound by done.
    fold (aadPathGen m2 mk antithetic r0 n).
    do 2 sim_step. rewrite HT.
    rewrite list_lookup_total_insert_eq, list_insert_insert_eq by done.
    rewrite recordNodes_length, aadTapeAfter_rewound by done.
    fold (aadPathPay prd m2 mk antithetic r0 n).
    fold (aadPathNumber prd m2 mk antithetic r0 n).
    do 2 sim_step. rewrite HT.
    rewrite (list_lookup_total_insert_eq (tapes w)) by done.
    rewrite list_insert_insert_eq.
    rewrite list_lookup_total_insert_eq
      by (rewrite length_app, length_map, length_seq, length_replicate; lia).
    sim_step.
    rewrite (insert_filled (aadPathNumber prd m2 mk antithetic r0)) by lia.
    f_equal. f_equal.
    + f_equal. unfold aadPathTape, aadPathNodes, recordNodes, rewindToMark.
      cbn [nodes markPos]. rewrite aadTapeAfter_markPos.
      cbn [aadTapeAfter]. unfold aadPathTape, aadPathNodes, recordNodes, rewindToMark.
      cbn [nodes markPos]. rewrite aadTapeAfter_markPos.
      by rewrite map_app, app_assoc.
    + rewrite (seq_S n 0), flat_map_app. cbn [flat_map plus].
      rewrite app_nil_r. unfold aadPathEvents. by rewrite <-!app_assoc.
Qed.
End McSimulAADRun.

(** The run of [mcSimulAAD] in closed form, when the caller's
    [Number::tape] designates a tape. *)
Lemma mcSimulAAD_run (prd : Product.t D (Number D) (Recorded D)) (mdl rng nPath : nat)
    (antithetic : bool) (w : World) :
  tapePtr w mainThread < length (tapes w) →
  let m := amodels w !!! mdl in
  let m2 := aadSetupModel prd m in
  let t0 := aadSetupTape prd m in
  let mk := markPos t0 in
  let r0 := aadSetupRng prd m (rngs w !!! rng) in
  let T := tapePtr w mainThread in
  let cMdl := length (amodels w) in
  let cRng := length (rngs w) in
  mcSimulAAD prd mdl rng nPath antithetic w
  = ((map value (map (aadPathNumber prd m2 mk antithetic r0) (seq 0 nPath)), cMdl),
     mkWorld (models w) (amodels w ++ [m2])
       (rngs w ++ [RNG.skipLoop RNG.nextG (drawsUsed antithetic nPath) r0])
       (<[T := propagateMarkToStart (aadTapeAfter prd m2 mk antithetic r0 nPath t0)]>
          (tapes w))
       (tapePtr w)
       (trace w
        ++ aadSetupEvents mdl rng cMdl cRng T (Model.simDim m2)
        ++ flat_map (λ i, aadPathEvents prd m2 mk antithetic r0 T cMdl cRng i i)
             (seq 0 nPath)
        ++ [EvPropagateMarkToStart T])).
Proof.
  intros HT m m2 t0 mk r0 T cMdl cRng. unfold mcSimulAAD.
  assert (mark (recordNodes (aadSetupInit prd m).2
                  (recordNodes (aadSetupPut m).2 emptyTape)) = t0) as Ht0.
  { unfold t0, aadSetupTape, aadSetupNodes, mark, recordNodes. cbn.
    by rewrite <-map_app, length_map. }
  do 6 sim_step.
  do 4 sim_step. rewrite lookup_total_snoc, insert_snoc.
  rewrite list_lookup_total_insert_eq, list_insert_insert_eq by done.
  cbn [emptyTape nodes length].
  do 2 sim_step. rewrite lookup_total_snoc, insert_snoc.
  rewrite list_lookup_total_insert_eq, list_insert_insert_eq by done.
  rewrite recordNodes_length. cbn [emptyTape nodes length plus].
  do 2 sim_step.
  rewrite list_lookup_total_insert_eq, list_insert_insert_eq by done.
  do 2 sim_step. rewrite lookup_total_snoc.
  do 2 sim_step. rewrite lookup_total_snoc, insert_snoc.
  sim_step.
  erewrite (mcSimulAAD_loop prd antithetic nPath T cMdl cRng m2 r0 _ _ t0);
    sim_simpl; try done.
  - do 3 sim_step. rewrite Nat.sub_diag, app_nil_r. subst T cMdl cRng.
    rewrite list_lookup_total_insert_eq, !list_insert_insert_eq, insert_snoc
      by (by rewrite length_insert).
    f_equal. f_equal. unfold aadSetupEvents. by rewrite <-!app_assoc.
  - by rewrite length_insert.
  - rewrite list_lookup_total_insert_eq by done. apply Ht0.
  - unfold t0, aadSetupTape. cbn. by rewrite length_map.
  - rewrite length_app. simpl. unfold cRng. lia.
  - apply lookup_total_snoc.
  - apply lookup_total_snoc.
Qed.

(** ** The adjoints [mcSimulAAD] accumulates *)

Section Adjoints.
(** Exact arithmetic: the laws of a commutative ring. *)
Hypothesis Dring :
  ring_theory dzero dunit dadd dmul (λ x y, dadd x (dneg y)) dneg eq.

Add Ring Dexact' : Dring.

Lemma aadTapeAfter_Phi (prd : Product.t D (Number D) (Recorded D)) (m2 : MN)
    (antithetic : bool) (r0 : R) (P : list (NodeArgs D)) (q n : nat) :
  let mk := length P in
  let t0 := mkTape (map freshNode P) mk in
  (∀ i, i < n →
     wfNodesFrom 0 (P ++ aadPathNodes prd m2 mk antithetic r0 i) = true
     ∧ mk ≤ node (aadPathNumber prd m2 mk antithetic r0 i)
          < mk + length (aadPathNodes prd m2 mk antithetic r0 i)) →
  q < mk →
  let tn := aadTapeAfter prd m2 mk antithetic r0 n t0 in
  map nargs (take mk (nodes tn)) = P
  ∧ Phi q P (take mk (nodes tn))
    = bigsum n (λ i, derivative (P ++ aadPathNodes prd m2 mk antithetic r0 i) q
                       (node (aadPathNumber prd m2 mk antithetic r0 i))).
Proof.
  intros mk t0 Hok Hq. induction n as [|n IH].
  - cbn [aadTapeAfter bigsum t0 nodes].
    assert (take mk (map freshNode P) = map freshNode P) as ->.
    { apply take_ge. by rewrite length_map. }
    split.
    + rewrite <-list_fmap_compose. apply list_fmap_id.
    + unfold Phi. rewrite (bigsum_ext _ _ (λ _, dzero)).
      * by apply bigsum_zero.
      * intros i Hi. replace (adjointAt (map freshNode P) i) with (dzero : D); [ring|].
        unfold adjointAt. rewrite list_lookup_fmap. by destruct (P !! i).
  - destruct IH as [IHs IHp]; [intros i Hi; apply Hok; lia|].
    destruct (Hok n) as [Hwf Hr]; [lia|].
    cbn [aadTapeAfter bigsum]. unfold aadPathTape.
    unfold propagateToMark, recordNodes, rewindToMark. cbn [nodes markPos].
    assert (markPos (aadTapeAfter prd m2 mk antithetic r0 n t0) = mk) as Hmk
      by apply (aadTapeAfter_markPos prd antithetic m2 r0 t0 n).
    rewrite !Hmk.
    pose proof (Phi_path Dring q P (aadPathNodes prd m2 mk antithetic r0 n)
                  (take mk (nodes (aadTapeAfter prd m2 mk antithetic r0 n t0)))
                  (node (aadPathNumber prd m2 mk antithetic r0 n))
                  IHs Hwf Hr Hq) as [Hp Hs].
    fold mk in Hp, Hs. split; [done|]. by rewrite Hp, IHp.
Qed.

End Adjoints.

(** ** One turn of the AAD loops *)

(** Names the first local definition of the statement [H]. *)
Tactic Notation "intro_let" hyp(H) "as" ident(y) :=
  lazymatch type of H with
  | let x := ?v in @?T x => pose (y := v); change (T y) in H; cbv beta in H
  end.

Lemma nextGaussian_frame (antithetic : bool) (rng : nat) (antiPath : bool) (g : list D)
    (w : World) :
  let o := nextGaussian antithetic rng antiPath g w in
  models o.2 = models w ∧ amodels o.2 = amodels w ∧ tapes o.2 = tapes w
  ∧ tapePtr o.2 = tapePtr w
  ∧ trace o.2 = trace w ++ [if antithetic && antiPath then EvNegate else EvNextG rng]
  ∧ o.1.2 = (if antithetic && antiPath then map dneg g
             else (RNG.nextG (rngs w !!! rng)).2).
Proof. by destruct antithetic, antiPath. Qed.

Lemma mcSimulAADPath_step (prd : Product.t D (Number D) (Recorded D))
    (antithetic : bool) (tape cMdl rng i : nat)
    (antiPath : bool) (gaussVec : list D) (path : list (scenario (Number D)))
    (res : list (Number D)) (w : World) :
  let t1 := rewindToMark (tapes w !!! tape) in
  let w1 := mkWorld (models w) (amodels w) (rngs w) (<[tape := t1]> (tapes w))
              (tapePtr w) (trace w ++ [EvTapeRewindToMark tape]) in
  let ag := nextGaussian antithetic rng antiPath gaussVec w1 in
  let w2 := ag.2 in
  let tp := tapePtr w2 mainThread in
  let gen := Model.generatePath (M:=MN) (amodels w2 !!! cMdl) ag.1.2
               (length (nodes (tapes w2 !!! tp))) in
  let ts3 := <[tp := recordNodes gen.2 (tapes w2 !!! tp)]> (tapes w2) in
  let pay := Product.payoff prd gen.1 (length (nodes (ts3 !!! tp))) in
  let ts4 := <[tp := recordNodes pay.2 (ts3 !!! tp)]> ts3 in
  let res' := <[i := pay.1]> res in
  mcSimulAADPath prd antithetic tape cMdl rng i (antiPath, gaussVec, path, res) w
  = ((ag.1.1, ag.1.2, gen.1, res'),
     mkWorld (models w2) (amodels w2) (rngs w2)
       (<[tp := propagateToMark (node (res' !!! i)) false (ts4 !!! tp)]> ts4)
       (tapePtr w2)
       (((trace w2 ++ [EvGeneratePath cMdl ag.1.2]) ++ [EvPayoff i])
        ++ [EvPropagateToMark tp (node (res' !!! i)) false])).
Proof. reflexivity. Qed.

Lemma aadTaskPath_step (prd : Product.t D (Number D) (Recorded D))
    (antithetic : bool) (rng firstPath threadNum i : nat)
    (antiPath : bool) (L : AADLocals) (w : World) :
  let tape := tapePtr w threadNum in
  let t1 := rewindToMark (tapes w !!! tape) in
  let w1 := mkWorld (models w) (amodels w) (rngs w) (<[tape := t1]> (tapes w))
              (tapePtr w) (trace w ++ [EvTapeRewindToMark tape]) in
  let ag := nextGaussian antithetic rng antiPath (agaussVecs L !!! threadNum) w1 in
  let w2 := ag.2 in
  let tp := tapePtr w2 threadNum in
  let cMdl := deref (acMdl L !!! threadNum) in
  let gen := Model.generatePath (M:=MN) (amodels w2 !!! cMdl) ag.1.2
               (length (nodes (tapes w2 !!! tp))) in
  let ts3 := <[tp := recordNodes gen.2 (tapes w2 !!! tp)]> (tapes w2) in
  let pay := Product.payoff prd gen.1 (length (nodes (ts3 !!! tp))) in
  let ts4 := <[tp := recordNodes pay.2 (ts3 !!! tp)]> ts3 in
  let res' := <[firstPath + i := pay.1]> (ares L) in
  aadTaskPath prd antithetic rng firstPath threadNum i (antiPath, L) w
  = ((ag.1.1,
      mkAADLocals (acMdl L) (acRng L) (<[threadNum := ag.1.2]> (agaussVecs L))
        (<[threadNum := gen.1]> (apaths L)) (ainit L) res'),
     mkWorld (models w2) (amodels w2) (rngs w2)
       (<[tp := propagateToMark (node (res' !!! (firstPath + i))) false (ts4 !!! tp)]> ts4)
       (tapePtr w2)
       (((trace w2 ++ [EvGeneratePath cMdl ag.1.2]) ++ [EvPayoff (firstPath + i)])
        ++ [EvPropagateToMark tp (node (res' !!! (firstPath + i))) false])).
Proof. reflexivity. Qed.

(** What a turn of the loop of a task stores and leaves on the tape
    of its thread. *)
Lemma aadTaskPath_stores (prd : Product.t D (Number D) (Recorded D))
    (antithetic : bool) (rng firstPath threadNum i : nat)
    (antiPath : bool) (L : AADLocals) (w : World) :
  tapePtr w threadNum < length (tapes w) →
  firstPath + i < length (ares L) →
  let o' := aadTaskPath prd antithetic rng firstPath threadNum i (antiPath, L) w in
  let g := if antithetic && antiPath then map dneg (agaussVecs L !!! threadNum)
           else (RNG.nextG (rngs w !!! rng)).2 in
  let t1 := rewindToMark (tapes w !!! tapePtr w threadNum) in
  let gen := Model.generatePath (M:=MN) (amodels w !!! deref (acMdl L !!! threadNum)) g
               (length (nodes t1)) in
  let pay := Product.payoff prd gen.1 (length (nodes t1) + length gen.2) in
  ares o'.1.2 = <[firstPath + i := pay.1]> (ares L)
  ∧ ares o'.1.2 !!! (firstPath + i) = pay.1
  ∧ tapes o'.2 !!! tapePtr w threadNum
    = propagateToMark (node pay.1) false (recordNodes pay.2 (recordNodes gen.2 t1)).
Proof.
  intros Hlt Hi o' g t1' gen' pay'. subst o'.
  pose proof (aadTaskPath_step prd antithetic rng firstPath threadNum i antiPath L w)
    as Ho.
  intro_let Ho as tape'. intro_let Ho as t1. intro_let Ho as w1. intro_let Ho as ag.
  intro_let Ho as w2. intro_let Ho as tp. intro_let Ho as cMdl'. intro_let Ho as gen.
  intro_let Ho as ts3. intro_let Ho as pay. intro_let Ho as ts4. intro_let Ho as res'.
  rewrite Ho. clear Ho. cbn [fst snd tapes ares].
  destruct (nextGaussian_frame antithetic rng antiPath (agaussVecs L !!! threadNum) w1)
    as (_ & Ha & Hts & Hp & _ & Hg).
  assert (tp = tapePtr w threadNum) as Htp by (subst tp w2 ag; by rewrite Hp).
  assert (tapes w2 !!! tp = t1') as Ht1.
  { rewrite Htp. subst w2 ag. rewrite Hts. subst w1 tape' t1 t1'. cbn [tapes].
    by apply list_lookup_total_insert_eq. }
  assert (length (tapes w2) = length (tapes w)) as Hlen.
  { subst w2 ag. rewrite Hts. subst w1. cbn [tapes]. by rewrite length_insert. }
  assert (amodels w2 = amodels w) as Ha' by (subst w2 ag; by rewrite Ha).
  assert (ag.1.2 = g) as Hg' by (subst ag g w1; cbn [rngs] in Hg; exact Hg).
  clearbody tp. subst tp. clearbody w2.
  assert (gen = gen') as Hgen by (subst gen gen' cMdl'; by rewrite Ht1, Ha', Hg').
  clearbody gen. subst gen.
  assert (ts3 !!! tapePtr w threadNum = recordNodes gen'.2 t1') as Ht3.
  { subst ts3. rewrite Ht1. apply list_lookup_total_insert_eq. lia. }
  assert (length ts3 = length (tapes w)) as Hlen3
    by (subst ts3; by rewrite length_insert).
  clearbody ts3.
  assert (pay = pay') as Hpay by (subst pay pay'; by rewrite Ht3, recordNodes_length).
  clearbody pay. subst pay.
  assert (res' !!! (firstPath + i) = pay'.1) as Hres.
  { subst res'. by apply list_lookup_total_insert_eq. }
  rewrite Hres. split_and!; [done|done|].
  rewrite list_lookup_total_insert_eq by (subst ts4; rewrite length_insert; lia).
  subst ts4. rewrite list_lookup_total_insert_eq by lia. by rewrite Ht3.
Qed.

(** ** The order of the AAD calls *)

(** C3.  A turn of the per-path loop of [mcSimulAAD], and of the loop
    of a task of [mcParallelSimulAAD], from any state: the tape is
    rewound to the mark, then the Gaussian vector is obtained by the
    antithetic rule, then [generatePath] runs on it, then [payoff] is
    written to the result at the absolute index of the path, then
    [propagateToMark] is called on that result without reset.  The
    rewind keeps the nodes before the mark with their adjoints.  In
    either loop, what is stored at the absolute index is the payoff of
    the path [generatePath] has just filled from that Gaussian vector,
    no other entry of the result changes, and the tape of the thread
    after the turn is the rewound tape with the nodes of
    [generatePath], then those of [payoff], walked from that payoff
    down to the mark. *)
Theorem aad_path_order (prd : Product.t D (Number D) (Recorded D))
    (antithetic : bool) (tape cMdl rng firstPath threadNum i : nat)
    (antiPath : bool) (gaussVec : list D) (path : list (scenario (Number D)))
    (res : list (Number D)) (L : AADLocals) (w : World) :
  let gaussCall := if antithetic && antiPath then EvNegate else EvNextG rng in
  let o := mcSimulAADPath prd antithetic tape cMdl rng i
             (antiPath, gaussVec, path, res) w in
  let o' := aadTaskPath prd antithetic rng firstPath threadNum i (antiPath, L) w in
  trace o.2
  = trace w
    ++ [EvTapeRewindToMark tape; gaussCall; EvGeneratePath cMdl o.1.1.1.2;
        EvPayoff i;
        EvPropagateToMark (tapePtr w mainThread) (node (o.1.2 !!! i)) false]
  ∧ trace o'.2
    = trace w
      ++ [EvTapeRewindToMark (tapePtr w threadNum); gaussCall;
          EvGeneratePath (deref (acMdl L !!! threadNum))
            (if antithetic && antiPath
             then map dneg (agaussVecs L !!! threadNum)
             else (RNG.nextG (rngs w !!! rng)).2);
          EvPayoff (firstPath + i);
          EvPropagateToMark (tapePtr w threadNum)
            (node (ares o'.1.2 !!! (firstPath + i))) false]
  ∧ (∀ t : Tape D,
       take (markPos t) (nodes (rewindToMark t)) = take (markPos t) (nodes t)
       ∧ markPos (rewindToMark t) = markPos t)
  ∧ (tape = tapePtr w mainThread → tape < length (tapes w) → i < length res →
     let t1 := rewindToMark (tapes w !!! tape) in
     let gen := Model.generatePath (M:=MN) (amodels w !!! cMdl) o.1.1.1.2
                  (length (nodes t1)) in
     let pay := Product.payoff prd gen.1 (length (nodes t1) + length gen.2) in
     o.1.2 !!! i = pay.1
     ∧ tapes o.2 !!! tape
       = propagateToMark (node pay.1) false
           (recordNodes pay.2 (recordNodes gen.2 t1)))
  ∧ (tapePtr w threadNum < length (tapes w) → firstPath + i < length (ares L) →
     let g := if antithetic && antiPath then map dneg (agaussVecs L !!! threadNum)
              else (RNG.nextG (rngs w !!! rng)).2 in
     let t1 := rewindToMark (tapes w !!! tapePtr w threadNum) in
     let gen := Model.generatePath (M:=MN) (amodels w !!! deref (acMdl L !!! threadNum)) g
                  (length (nodes t1)) in
     let pay := Product.payoff prd gen.1 (length (nodes t1) + length gen.2) in
     ares o'.1.2 = <[firstPath + i := pay.1]> (ares L)
     ∧ ares o'.1.2 !!! (firstPath + i) = pay.1
     ∧ tapes o'.2 !!! tapePtr w threadNum
       = propagateToMark (node pay.1) false
           (recordNodes pay.2 (recordNodes gen.2 t1)))
  ∧ (o.1.2 = <[i := o.1.2 !!! i]> res).
Proof.
  intros gaussCall o o'. subst o o' gaussCall. split_and!;
    [| | | |intros Hlt Hi; by apply aadTaskPath_stores|].
  5:{ pose proof (mcSimulAADPath_step prd antithetic tape cMdl rng i antiPath gaussVec path
                    res w) as Ho.
      intro_let Ho as t1. intro_let Ho as w1. intro_let Ho as ag. intro_let Ho as w2.
      intro_let Ho as tp. intro_let Ho as gen. intro_let Ho as ts3. intro_let Ho as pay.
      intro_let Ho as ts4. intro_let Ho as res'. rewrite Ho. cbn [fst snd]. subst res'.
      destruct (decide (i < length res)).
      - rewrite list_lookup_total_insert_eq by done. done.
      - by rewrite !list_insert_ge by lia. }
  - pose proof (mcSimulAADPath_step prd antithetic tape cMdl rng i antiPath gaussVec path
                  res w) as Ho.
    intro_let Ho as t1. intro_let Ho as w1. intro_let Ho as ag. intro_let Ho as w2.
    intro_let Ho as tp. intro_let Ho as gen. intro_let Ho as ts3. intro_let Ho as pay.
    intro_let Ho as ts4. intro_let Ho as res'. rewrite Ho. cbn [fst snd trace].
    destruct (nextGaussian_frame antithetic rng antiPath gaussVec w1)
      as (_ & _ & _ & Hp & Ht & _).
    subst tp w2 ag. rewrite Hp, Ht. subst w1. cbn [trace tapePtr]. by rewrite <-!app_assoc.
  - pose proof (aadTaskPath_step prd antithetic rng firstPath threadNum i antiPath L w)
      as Ho.
    intro_let Ho as tape'. intro_let Ho as t1. intro_let Ho as w1. intro_let Ho as ag.
    intro_let Ho as w2. intro_let Ho as tp. intro_let Ho as cMdl'. intro_let Ho as gen.
    intro_let Ho as ts3. intro_let Ho as pay. intro_let Ho as ts4. intro_let Ho as res'.
    rewrite Ho. cbn [fst snd trace ares].
    destruct (nextGaussian_frame antithetic rng antiPath (agaussVecs L !!! threadNum) w1)
      as (_ & _ & _ & Hp & Ht & Hg).
    subst tp w2 ag. rewrite Hp, Ht, Hg. subst w1 tape'. cbn [trace tapePtr rngs].
    by rewrite <-!app_assoc.
  - intros t. unfold rewindToMark. cbn [nodes markPos].
    by rewrite take_take, Nat.min_id.
  - intros -> Hlt Hi.
    pose proof (mcSimulAADPath_step prd antithetic (tapePtr w mainThread) cMdl rng i
                  antiPath gaussVec path res w) as Ho.
    intro_let Ho as t1. intro_let Ho as w1. intro_let Ho as ag. intro_let Ho as w2.
    intro_let Ho as tp. intro_let Ho as gen. intro_let Ho as ts3. intro_let Ho as pay.
    intro_let Ho as ts4. intro_let Ho as res'. rewrite Ho. clear Ho. cbn [fst snd tapes].
    destruct (nextGaussian_frame antithetic rng antiPath gaussVec w1)
      as (_ & Ha & Hts & Hp & _ & _).
    assert (tp = tapePtr w mainThread) as Htp by (subst tp w2 ag; by rewrite Hp).
    assert (tapes w2 !!! tp = t1) as Ht1.
    { rewrite Htp. subst w2 ag. rewrite Hts. cbn [tapes].
      by apply list_lookup_total_insert_eq. }
    assert (length (tapes w2) = length (tapes w)) as Hlen.
    { subst w2 ag. rewrite Hts. subst w1. cbn [tapes]. by rewrite length_insert. }
    assert (amodels w2 = amodels w) as Ha' by (subst w2 ag; by rewrite Ha).
    clearbody tp. subst tp. clearbody w2.
    assert (gen = Model.generatePath (M:=MN) (amodels w !!! cMdl) ag.1.2 (length (nodes t1)))
      as Hgen by (subst gen; by rewrite Ht1, Ha').
    clearbody gen. subst gen.
    assert (ts3 !!! tapePtr w mainThread
            = recordNodes (Model.generatePath (M:=MN) (amodels w !!! cMdl) ag.1.2
                             (length (nodes t1))).2 t1) as Ht3.
    { subst ts3. rewrite Ht1. apply list_lookup_total_insert_eq. lia. }
    assert (length ts3 = length (tapes w)) as Hlen3
      by (subst ts3; by rewrite length_insert).
    clearbody ts3.
    assert (pay = Product.payoff prd
                    (Model.generatePath (M:=MN) (amodels w !!! cMdl) ag.1.2
                       (length (nodes t1))).1
                    (length (nodes t1)
                     + length (Model.generatePath (M:=MN) (amodels w !!! cMdl) ag.1.2
                                 (length (nodes t1))).2))
      as Hpay by (subst pay; by rewrite Ht3, recordNodes_length).
    clearbody pay. subst pay.
    assert (res' !!! i = (Product.payoff prd
                    (Model.generatePath (M:=MN) (amodels w !!! cMdl) ag.1.2
                       (length (nodes t1))).1
                    (length (nodes t1)
                     + length (Model.generatePath (M:=MN) (amodels w !!! cMdl) ag.1.2
                                 (length (nodes t1))).2)).1) as Hres.
    { subst res'. by apply list_lookup_total_insert_eq. }
    rewrite Hres. split; [done|].
    rewrite list_lookup_total_insert_eq by (subst ts4; rewrite length_insert; lia).
    subst ts4. rewrite list_lookup_total_insert_eq by lia. by rewrite Ht3.
Qed.

Lemma aadPathEvents_no_setup (prd : Product.t D (Number D) (Recorded D)) (m2 : MN)
    (mk : nat) (antithetic : bool) (r0 : R) (T cMdl cRng n : nat) :
  forallb (λ e, negb (isSetupCall e))
    (flat_map (λ i, aadPathEvents prd m2 mk antithetic r0 T cMdl cRng i i) (seq 0 n))
  = true.
Proof.
  apply forallb_forall. intros e [i [_ Hin]]%in_flat_map.
  unfold aadPathEvents, gaussEvents in Hin.
  destruct (antithetic && Nat.odd i); simpl in Hin;
    repeat (destruct Hin as [<-|Hin]; [done|]); done.
Qed.

(** C4.  The AAD set-up, in [initSimul] (which every thread of
    [mcParallelSimulAAD] runs when its flag is clear, and then sets the
    flag) and in [mcSimulAAD]: after the two clones, the calls on the
    tape of the current thread are [rewind], [putOnTape] on the model
    clone, [init] on the model clone, [mark], in this order; [init]
    runs on the model [putOnTape] returned, its nodes follow those of
    [putOnTape] on the tape, and the mark stands after both.  In
    [mcSimulAAD] none of the four calls occurs again: what follows are
    the paths. *)
Theorem aad_setup_protocol (th : nat) (prd : Product.t D (Number D) (Recorded D))
    (mdl rng nPath : nat) (antithetic : bool) (gaussVec : list D)
    (path : list (scenario (Number D))) (L : AADLocals) (w : World) :
  tapePtr w th < length (tapes w) →
  tapePtr w mainThread < length (tapes w) →
  let m := amodels w !!! mdl in
  let cMdl := length (amodels w) in
  let cRng := length (rngs w) in
  let put := Model.putOnTape (M:=MN) (Model.clone m) 0 in
  let ini := Model.init (M:=MN) put.1 (Product.timeline prd) (length put.2) in
  let setup := λ tape,
    [EvModelClone mdl cMdl; EvRngClone rng cRng; EvTapeRewind tape;
     EvPutOnTape cMdl tape; EvModelInit cMdl; EvTapeMark tape;
     EvRngInit cRng (Model.simDim ini.1)] in
  let o1 := initSimul th prd mdl rng gaussVec path w in
  let o2 := mcSimulAAD prd mdl rng nPath antithetic w in
  let o3 := aadTaskInit prd mdl rng th L w in
  (trace o1.2 = trace w ++ setup (tapePtr w th)
   ∧ tapes o1.2 !!! tapePtr w th
     = mkTape (map freshNode (put.2 ++ ini.2)) (length (put.2 ++ ini.2))
   ∧ amodels o1.2 !!! cMdl = ini.1)
  ∧ (∃ rest,
       trace o2.2 = trace w ++ setup (tapePtr w mainThread) ++ rest
       ∧ forallb (λ e, negb (isSetupCall e)) rest = true)
  ∧ (ainit L !!! th = true → o3 = (L, w))
  ∧ (ainit L !!! th = false → th < length (ainit L) →
     trace o3.2 = trace w ++ setup (tapePtr w th) ∧ ainit o3.1 !!! th = true).
Proof.
  intros HT HT0 m cMdl cRng put ini setup o1 o2 o3.
  pose proof (initSimul_run th prd mdl rng gaussVec path w HT) as H1'.
  split_and!.
  - unfold o1. by rewrite H1'.
  - unfold o1. rewrite H1'. cbn [snd tapes].
    by rewrite list_lookup_total_insert_eq.
  - unfold o1. rewrite H1'. cbn [snd amodels]. apply lookup_total_snoc.
  - unfold o2. rewrite (mcSimulAAD_run prd mdl rng nPath antithetic w HT0).
    cbn [snd trace]. eexists. split; [done|].
    rewrite forallb_app, aadPathEvents_no_setup. done.
  - intros Hinit. unfold o3, aadTaskInit. by rewrite Hinit.
  - intros Hinit Hth. unfold o3, aadTaskInit. rewrite Hinit. cbn [negb].
    sim_step. pose proof (initSimul_run th prd mdl rng
                            (agaussVecs L !!! th) (apaths L !!! th) w HT) as H3.
    rewrite H3. sim_simpl. split; [done|].
    cbn [ainit]. by apply list_lookup_total_insert_eq.
Qed.

(** ** The arguments of a driver are left alone *)

Lemma forRange_inv {St : Type} (I : St → World → Prop) (i n : nat)
    (body : nat → St → Sim St) (s : St) (w : World) :
  (∀ k s w, I s w → I (body k s w).1 (body k s w).2) →
  I s w → I (forRange i n body s w).1 (forRange i n body s w).2.
Proof.
  intros Hbody. revert i s w. induction n as [|n IH]; intros i s w HI; [done|].
  cbn [forRange]. rewrite bind_run. apply IH. by apply Hbody.
Qed.

Lemma runSchedule_inv {St : Type} (I : St → World → Prop)
    (tasks : list (nat → St → Sim St)) (sched : list (nat * nat)) (s : St) (w : World) :
  (∀ task th s w, task ∈ tasks → I s w → I (task th s w).1 (task th s w).2) →
  I s w → I (runSchedule tasks sched s w).1 (runSchedule tasks sched s w).2.
Proof.
  intros Htask. revert s w. induction sched as [|[k th] sched IH]; intros s w HI; [done|].
  cbn [runSchedule]. rewrite bind_run. apply IH.
  destruct (tasks !! k) as [task|] eqn:Hk; [|done].
  apply Htask; [|done]. by eapply list_elem_of_lookup_2.
Qed.

Lemma prefix_insert_ge {A : Type} (l0 l : list A) (m : nat) (x : A) :
  l0 `prefix_of` l → length l0 ≤ m → l0 `prefix_of` <[m := x]> l.
Proof.
  intros [k ->] Hm. rewrite insert_app_r_alt by done. by apply prefix_app_r.
Qed.

Lemma prefix_snoc {A : Type} (l0 l : list A) (x : A) :
  l0 `prefix_of` l → l0 `prefix_of` l ++ [x].
Proof. intros Hp. by apply prefix_app_r. Qed.

Lemma untouched_refl (nm : nat) (w : World) : Untouched nm w w.
Proof.
  repeat split; try done. exists []. by rewrite app_nil_r.
Qed.

Lemma untouched_event (nm : nat) (base w : World) (ms : list MD) (ams : list MN)
    (rs : list R) (ts : list (Tape D)) (tp : nat → nat) (e : Event) :
  Untouched nm base w →
  models base `prefix_of` ms → amodels base `prefix_of` ams → rngs base `prefix_of` rs →
  mutatesAmong nm (length (rngs base)) e = false →
  Untouched nm base (mkWorld ms ams rs ts tp (trace w ++ [e])).
Proof.
  intros (_ & _ & _ & es & Ht & Hes) Hm Ha Hr He. repeat split; try done.
  exists (es ++ [e]). cbn. rewrite Ht, app_assoc. split; [done|].
  rewrite forallb_app, Hes. cbn. by rewrite He.
Qed.

Lemma untouched_silent (nm : nat) (base w : World) (ts : list (Tape D)) :
  Untouched nm base w →
  Untouched nm base (mkWorld (models w) (amodels w) (rngs w) ts (tapePtr w) (trace w)).
Proof. intros (Hm & Ha & Hr & Ht). by repeat split. Qed.

Lemma untouched_length (nm : nat) (base w : World) :
  Untouched nm base w →
  length (models base) ≤ length (models w)
  ∧ length (amodels base) ≤ length (amodels w)
  ∧ length (rngs base) ≤ length (rngs w).
Proof.
  intros (Hm & Ha & Hr & _). split_and!; by apply prefix_length.
Qed.

Lemma not_below (m n : nat) : n ≤ m → (m <? n) = false.
Proof. intros Hle. by apply Nat.ltb_ge. Qed.

(** Solves [Untouched] after a call on a fresh object. *)
Ltac untouched_call H :=
  destruct (untouched_length _ _ _ H) as (? & ? & ?);
  refine (untouched_event _ _ _ _ _ _ _ _ _ H _ _ _ _);
    [ first [ apply H | apply prefix_snoc, H | apply prefix_insert_ge; [apply H | lia] ]
    | first [ apply H | apply prefix_snoc, H | apply prefix_insert_ge; [apply H | lia] ]
    | first [ apply H | apply prefix_snoc, H | apply prefix_insert_ge; [apply H | lia] ]
    | first [ done | apply not_below; lia ] ].

(** ** [mcParallelSimul], step by step *)

Section PlainTaskRun.
Variables (prd : Product.t D D Plain) (antithetic : bool).
Variables (cMdl taskRng firstPath threadNum : nat) (m1 : MD) (rt : R).

Let body := plainTaskPath (MN:=MN) prd antithetic cMdl taskRng firstPath threadNum.

Lemma plainTask_loop (n : nat) (L : ParLocals) (w : World) :
  taskRng < length (rngs w) →
  rngs w !!! taskRng = rt →
  models w !!! cMdl = m1 →
  threadNum < length (gaussVecs L) →
  forRange 0 n body (false, L) w
  = ((antithetic && Nat.odd n,
      mkParLocals
        (<[threadNum := prevGauss antithetic rt (gaussVecs L !!! threadNum) n]> (gaussVecs L))
        (match n with
         | 0 => paths L
         | S k => <[threadNum := Model.generatePath (E:=Plain) m1 (pathGauss antithetic rt k)]>
                    (paths L)
         end)
        (foldl (λ res i, <[firstPath + i := pathPayoff prd m1 antithetic rt i]> res)
           (pres L) (seq 0 n))),
     emits (flat_map (λ i, pathEvents antithetic cMdl taskRng rt i (firstPath + i)) (seq 0 n))
       (withRngs (λ l, <[taskRng := RNG.skipLoop RNG.nextG (drawsUsed antithetic n) rt]> l) w)).
Proof.
  intros Hlt Hr Hm Hth. induction n as [|n IH].
  - simpl. unfold mret, Sim_ret. rewrite andb_false_r. f_equal.
    + f_equal. destruct L; cbn in *. f_equal. symmetry. apply list_insert_id.
      by apply list_lookup_lookup_total_lt.
    + destruct w; unfold emits, withRngs; cbn in *. rewrite app_nil_r. f_equal.
      symmetry. apply list_insert_id. rewrite <-Hr.
      unfold drawsUsed. destruct antithetic; by apply list_lookup_lookup_total_lt.
  - rewrite forRange_snoc, IH by lia. cbn [fst snd plus]. unfold body at 1.
    unfold plainTaskPath, mbind, Sim_bind. cbn [gaussVecs paths pres].
    rewrite list_lookup_total_insert_eq by done.
    rewrite (nextGaussian_run antithetic taskRng n rt (gaussVecs L !!! threadNum)).
    + cbn [fst snd]. unfold modelGeneratePath, payoffInto, mret, Sim_ret. cbn [fst snd].
      f_equal.
      * f_equal. f_equal.
        -- by rewrite list_insert_insert_eq.
        -- unfold emits, withRngs; cbn. rewrite Hm.
           destruct n; [done|]. by rewrite list_insert_insert_eq.
        -- rewrite (seq_S n 0), foldl_app. cbn [foldl plus].
           unfold emits, withRngs; cbn. by rewrite Hm.
      * rewrite (seq_S n 0), flat_map_app.
        destruct w; unfold emits, emit, withRngs; cbn in *. f_equal.
        -- by rewrite list_insert_insert_eq.
        -- rewrite app_nil_r. unfold pathEvents. rewrite <-!app_assoc. done.
    + destruct w; unfold emits, withRngs; cbn in *. by rewrite length_insert.
    + destruct w; unfold emits, withRngs; cbn in *.
      by apply list_lookup_total_insert_eq.
Qed.
End PlainTaskRun.

(** *** The batches *)

Lemma spawnLoop_lookup (fuel firstPath pathsLeft k : nat) :
  pathsLeft ≤ fuel →
  spawnLoop fuel firstPath pathsLeft !! k
  = if decide (BATCHSIZE * k < pathsLeft)
    then Some (firstPath + BATCHSIZE * k, (pathsLeft - BATCHSIZE * k) `min` BATCHSIZE)
    else None.
Proof.
  revert firstPath pathsLeft k.
  induction fuel as [|fuel IH]; intros fp pl k Hle; cbn [spawnLoop]; unfold BATCHSIZE in *.
  - destruct (decide (64 * k < pl)); [lia|done].
  - destruct (decide (0 < pl)) as [Hpos|Hz].
    + destruct k as [|k]; cbn [lookup list_lookup].
      * rewrite decide_True by lia. do 2 f_equal; lia.
      * rewrite IH by lia.
        destruct (decide (64 * k < pl - pl `min` 64)),
                 (decide (64 * S k < pl)); try lia; [|done].
        do 2 f_equal; lia.
    + rewrite decide_False by lia. done.
Qed.

Lemma spawnLoop_length (nPath : nat) :
  length (spawnLoop nPath 0 nPath) = (nPath + 63) / 64.
Proof.
  pose proof (Nat.div_mod_eq (nPath + 63) 64) as Hd.
  pose proof (Nat.mod_upper_bound (nPath + 63) 64) as Hm.
  destruct (Nat.lt_trichotomy (length (spawnLoop nPath 0 nPath)) ((nPath + 63) / 64))
    as [Hlt|[Heq|Hgt]]; [|done|].
  - pose proof (lookup_ge_None_2 (spawnLoop nPath 0 nPath) _ (Nat.le_refl _)) as Hn.
    rewrite spawnLoop_lookup in Hn by done. unfold BATCHSIZE in Hn.
    destruct (decide _); [done|]. lia.
  - assert (is_Some (spawnLoop nPath 0 nPath !! ((nPath + 63) / 64))) as [b Hb]
      by (apply lookup_lt_is_Some; lia).
    rewrite spawnLoop_lookup in Hb by done. unfold BATCHSIZE in Hb.
    destruct (decide _); [lia|done].
Qed.

Lemma spawnLoop_covers (fuel firstPath pathsLeft : nat) :
  pathsLeft ≤ fuel →
  concat (map (λ b, seq b.1 b.2) (spawnLoop fuel firstPath pathsLeft))
  = seq firstPath pathsLeft.
Proof.
  revert firstPath pathsLeft.
  induction fuel as [|fuel IH]; intros fp pl Hle; cbn [spawnLoop].
  - by replace pl with 0 by lia.
  - destruct (decide (0 < pl)) as [Hpos|Hz].
    + cbn [map concat fst snd]. rewrite IH by (unfold BATCHSIZE; lia).
      rewrite <-seq_app. f_equal. unfold BATCHSIZE. lia.
    + by replace pl with 0 by lia.
Qed.

(** The batch that holds path [j]. *)
Lemma spawnLoop_batch (nPath j : nat) :
  j < nPath →
  spawnLoop nPath 0 nPath !! (j / 64)
  = Some (64 * (j / 64), (nPath - 64 * (j / 64)) `min` 64)
  ∧ 64 * (j / 64) ≤ j < 64 * (j / 64) + (nPath - 64 * (j / 64)) `min` 64.
Proof.
  intros Hj. pose proof (Nat.div_mod_eq j 64) as Hd.
  pose proof (Nat.mod_upper_bound j 64) as Hm.
  rewrite spawnLoop_lookup by done. unfold BATCHSIZE.
  rewrite decide_True by lia. split; [done|lia].
Qed.

(** *** The writes of a task *)

Lemma writeBatch_length {A : Type} (f : nat → nat → A) (res : list A) (b : nat * nat) :
  length (writeBatch f res b) = length res.
Proof.
  destruct b as [fp c]. unfold writeBatch. cbn [fst snd].
  induction c as [|c IH]; [done|].
  by rewrite seq_S, foldl_app; cbn [foldl]; rewrite length_insert.
Qed.

Lemma writeBatch_lookup {A : Type} (f : nat → nat → A) (res : list A) (b : nat * nat)
    (j : nat) :
  writeBatch f res b !! j
  = if decide (b.1 ≤ j < b.1 + b.2 ∧ j < length res)
    then Some (f b.1 (j - b.1)) else res !! j.
Proof.
  destruct b as [fp c]. unfold writeBatch. cbn [fst snd].
  induction c as [|c IH].
  - cbn. rewrite decide_False by lia. done.
  - rewrite seq_S, foldl_app. cbn [foldl plus].
    pose proof (writeBatch_length f res (fp, c)) as Hlen.
    unfold writeBatch in Hlen. cbn [fst snd] in Hlen.
    rewrite list_lookup_insert, Hlen, IH.
    repeat case_decide; try lia; try done.
    do 2 f_equal. lia.
Qed.

(** *** A task, and the tasks in the order they run *)

Lemma plainTask_run (prd : Product.t D D Plain) (cMdl cRng : nat) (antithetic : bool)
    (firstPath pathsInTask threadNum : nat) (L : ParLocals) (w : World) :
  threadNum < length (gaussVecs L) →
  let r0 := rngs w !!! cRng in
  let m1 := models w !!! cMdl in
  let rt := taskRngState antithetic r0 firstPath in
  plainTask prd cMdl cRng antithetic firstPath pathsInTask threadNum L w
  = (mkParLocals
       (<[threadNum := prevGauss antithetic rt (gaussVecs L !!! threadNum) pathsInTask]>
          (gaussVecs L))
       (match pathsInTask with
        | 0 => paths L
        | S k => <[threadNum := Model.generatePath (E:=Plain) m1 (pathGauss antithetic rt k)]>
                   (paths L)
        end)
       (writeBatch (taskPayoff prd m1 antithetic r0) (pres L) (firstPath, pathsInTask)),
     mkWorld (models w) (amodels w)
       (rngs w ++ [taskRngAfter antithetic r0 (firstPath, pathsInTask)])
       (tapes w) (tapePtr w)
       (trace w ++ taskEvents antithetic cMdl cRng (length (rngs w)) r0
                     (firstPath, pathsInTask))).
Proof.
  intros Hth r0 m1 rt. unfold plainTask. do 4 sim_step.
  rewrite lookup_total_snoc, insert_snoc.
  change (if antithetic then Z.of_nat (firstPath / 2) else Z.of_nat firstPath)
    with (skipArg antithetic firstPath).
  change (RNG.skipTo (RNG.clone (rngs w !!! cRng)) (skipArg antithetic firstPath)) with rt.
  sim_step.
  erewrite (plainTask_loop prd antithetic cMdl (length (rngs w)) firstPath threadNum m1 rt);
    cbn [rngs models]; [|rewrite length_app; simpl; lia|apply lookup_total_snoc|done|done].
  sim_step. cbn [fst snd]. f_equal.
  unfold emits, withRngs, taskEvents, taskRngAfter. cbn. rewrite insert_snoc.
  by rewrite <-!app_assoc.
Qed.

Lemma plainSchedule_run (prd : Product.t D D Plain) (cMdl cRng : nat) (antithetic : bool)
    (batches sched : list (nat * nat)) (L : ParLocals) (w : World) :
  Forall (λ kt, kt.1 < length batches ∧ kt.2 < length (gaussVecs L)) sched →
  cRng < length (rngs w) →
  let r0 := rngs w !!! cRng in
  let m1 := models w !!! cMdl in
  let o := runSchedule (map (λ b, plainTask prd cMdl cRng antithetic b.1 b.2) batches)
             sched L w in
  pres o.1 = foldl (λ res kt, writeBatch (taskPayoff prd m1 antithetic r0) res
                                (batches !!! kt.1)) (pres L) sched
  ∧ length (gaussVecs o.1) = length (gaussVecs L)
  ∧ o.2 = mkWorld (models w) (amodels w)
            (rngs w ++ map (λ kt, taskRngAfter antithetic r0 (batches !!! kt.1)) sched)
            (tapes w) (tapePtr w)
            (trace w ++ scheduleEvents antithetic cMdl cRng r0 batches (length (rngs w)) sched).
Proof.
  intros Hsched. revert L w Hsched.
  induction sched as [|[k th] sched IH]; intros L w Hsched HcRng r0 m1 o.
  - subst o. cbn. rewrite !app_nil_r. by destruct w.
  - apply Forall_cons in Hsched as [[Hk Hth] Hsched]. cbn [fst snd] in Hk, Hth.
    subst o. cbn [runSchedule]. rewrite bind_run.
    rewrite list_lookup_fmap, (list_lookup_lookup_total_lt batches k Hk). cbn [fmap option_fmap option_map].
    rewrite (plainTask_run prd cMdl cRng antithetic _ _ th L w Hth). cbn [fst snd].
    fold r0 m1.
    set (L1 := mkParLocals _ _ _). set (w1 := mkWorld _ _ _ _ _ _).
    assert (rngs w1 !!! cRng = r0) as Hr0
      by (subst w1; cbn [rngs]; by rewrite lookup_total_app_l).
    assert (length (gaussVecs L1) = length (gaussVecs L)) as HL1
      by (subst L1; cbn [gaussVecs]; by rewrite length_insert).
    destruct (IH L1 w1) as (Hres & Hlen & Hw).
    + by rewrite HL1.
    + subst w1. cbn [rngs]. rewrite length_app. lia.
    + rewrite Hr0 in Hres, Hw. split_and!.
      * rewrite Hres. cbn [foldl fst]. subst L1 w1. cbn [pres models].
        by destruct (batches !!! k).
      * by rewrite Hlen.
      * rewrite Hw. subst w1. cbn [models amodels rngs tapes tapePtr trace map fst].
        f_equal.
        -- rewrite <-app_assoc. cbn [app]. by destruct (batches !!! k).
        -- rewrite <-app_assoc. f_equal. unfold scheduleEvents. rewrite imap_cons.
           cbn [concat fst]. rewrite Nat.add_0_r. destruct (batches !!! k) as [fp c] eqn:Hb.
           cbn [fst snd]. f_equal. f_equal. apply imap_ext. intros pos kt _.
           unfold compose. f_equal. rewrite length_app. simpl. lia.
Qed.

Lemma valid_schedule_bounds (pool : Pool) (nTasks : nat) :
  ValidSchedule pool nTasks →
  Forall (λ kt, kt.1 < nTasks ∧ kt.2 < numThreads pool + 1) (schedule pool).
Proof.
  intros [Hperm Hth]. apply Forall_forall. intros kt Hin. split.
  - assert (kt.1 ∈ map fst (schedule pool)) as Hk by (by apply list_elem_of_fmap_2).
    rewrite Hperm in Hk. apply elem_of_seq in Hk. lia.
  - rewrite Forall_forall in Hth. specialize (Hth kt Hin). cbn beta in Hth. lia.
Qed.

Lemma valid_schedule_runs (pool : Pool) (nTasks k : nat) :
  ValidSchedule pool nTasks → k < nTasks → k ∈ map fst (schedule pool).
Proof. intros [Hperm _] Hk. rewrite Hperm. apply elem_of_seq. lia. Qed.

(** The run of [mcParallelSimul] in closed form. *)
Lemma mcParallelSimul_run (pool : Pool) (prd : Product.t D D Plain) (mdl rng nPath : nat)
    (antithetic : bool) (w : World) :
  ValidSchedule pool (length (spawnLoop nPath 0 nPath)) →
  let m1 := setupModel prd (models w !!! mdl) in
  let r0 := setupRng prd (models w !!! mdl) (rngs w !!! rng) in
  let cMdl := length (models w) in
  let cRng := length (rngs w) in
  let batches := spawnLoop nPath 0 nPath in
  mcParallelSimul pool prd mdl rng nPath antithetic w
  = (foldl (λ res kt, writeBatch (taskPayoff prd m1 antithetic r0) res (batches !!! kt.1))
       (replicate nPath dzero) (schedule pool),
     mkWorld (models w ++ [m1]) (amodels w)
       (rngs w ++ [r0]
        ++ map (λ kt, taskRngAfter antithetic r0 (batches !!! kt.1)) (schedule pool))
       (tapes w) (tapePtr w)
       (trace w
        ++ [EvModelClone mdl cMdl; EvRngClone rng cRng; EvModelInit cMdl;
            EvRngInit cRng (Model.simDim m1)]
        ++ scheduleEvents antithetic cMdl cRng r0 batches (S cRng) (schedule pool))).
Proof.
  intros Hvalid m1 r0 cMdl cRng batches. unfold mcParallelSimul. do 11 sim_step.
  rewrite !lookup_total_snoc, !insert_snoc, !lookup_total_snoc.
  fold cMdl cRng batches. change (Model.init _ _) with m1.
  change (RNG.init _ _) with r0.
  set (L0 := mkParLocals _ _ _). set (w0 := mkWorld _ _ _ _ _ _).
  destruct (plainSchedule_run prd cMdl cRng antithetic batches (schedule pool) L0 w0)
    as (Hres & _ & Hw).
  - eapply Forall_impl; [by apply valid_schedule_bounds|].
    intros kt [Hk Hth]. split; [done|]. subst L0. cbn [gaussVecs].
    by rewrite length_replicate.
  - subst w0 cRng. cbn [rngs]. rewrite length_app. simpl. lia.
  - sim_step. rewrite Hres, Hw. subst L0 w0. cbn [pres models rngs amodels tapes tapePtr trace].
    unfold cRng, cMdl. rewrite !lookup_total_snoc. fold cRng cMdl.
    f_equal. f_equal.
    + by rewrite <-app_assoc.
    + rewrite length_app, <-!app_assoc. cbn [app length]. do 6 f_equal. lia.
Qed.

Lemma writeBatches_length {A : Type} (f : nat → nat → A) (batches sched : list (nat * nat))
    (res : list A) :
  length (foldl (λ res kt, writeBatch f res (batches !!! kt.1)) res sched) = length res.
Proof.
  revert res. induction sched as [|kt sched IH]; intros res; [done|].
  cbn [foldl]. by rewrite IH, writeBatch_length.
Qed.

Lemma writeBatches_lookup {A : Type} (f : nat → nat → A) (n : nat) (sched : list (nat * nat))
    (res : list A) (j : nat) :
  length res = n →
  Forall (λ kt, kt.1 < length (spawnLoop n 0 n)) sched →
  j < n →
  foldl (λ res kt, writeBatch f res (spawnLoop n 0 n !!! kt.1)) res sched !! j
  = if decide (j / 64 ∈ map fst sched) then Some (f (64 * (j / 64)) (j mod 64))
    else res !! j.
Proof.
  intros Hlen Hsched Hj. revert res Hlen.
  pose proof (Nat.div_mod_eq j 64) as Hd.
  pose proof (Nat.mod_upper_bound j 64) as Hm.
  induction Hsched as [|[k th] sched Hk Hsched IH]; intros res Hlen; [done|].
  cbn [foldl map fst] in *. rewrite IH by (by rewrite writeBatch_length).
  assert (spawnLoop n 0 n !!! k = (64 * k, (n - 64 * k) `min` 64)) as ->.
  { apply list_lookup_total_correct. apply lookup_lt_is_Some in Hk as [b Hb].
    rewrite spawnLoop_lookup in Hb |- * by done. unfold BATCHSIZE in *.
    by destruct (decide (64 * k < n)). }
  rewrite writeBatch_lookup. cbn [fst snd].
  destruct (decide (j / 64 ∈ map fst sched)) as [Hin|Hnin].
  - rewrite decide_True; [done|]. by apply list_elem_of_further.
  - destruct (decide (j / 64 = k)) as [Heq|Hne].
    + rewrite decide_True by lia. rewrite decide_True by (rewrite Heq; apply list_elem_of_here).
      do 2 f_equal; lia.
    + rewrite decide_False by lia. rewrite decide_False; [done|].
      intros [?|?]%elem_of_cons; done.
Qed.

(** What the tasks leave in [res], however they are scheduled. *)
Lemma schedule_result {A : Type} (f : nat → nat → A) (d : A) (pool : Pool) (nPath : nat) :
  ValidSchedule pool (length (spawnLoop nPath 0 nPath)) →
  foldl (λ res kt, writeBatch f res (spawnLoop nPath 0 nPath !!! kt.1))
    (replicate nPath d) (schedule pool)
  = map (λ j, f (64 * (j / 64)) (j mod 64)) (seq 0 nPath).
Proof.
  intros Hvalid. apply list_eq. intros j.
  destruct (decide (j < nPath)) as [Hj|Hj].
  - rewrite (writeBatches_lookup f nPath); [|by rewrite length_replicate| |done].
    + rewrite decide_True.
      * rewrite list_lookup_fmap, lookup_seq_lt by done. done.
      * eapply valid_schedule_runs; [done|].
        destruct (spawnLoop_batch nPath j Hj) as [Hb _]. by eapply lookup_lt_Some.
    + eapply Forall_impl; [by apply valid_schedule_bounds|]. by intros kt [? _].
  - rewrite !lookup_ge_None_2; [done| |].
    + rewrite length_map, length_seq. lia.
    + rewrite writeBatches_length, length_replicate. lia.
Qed.

(** *** Exact skip-ahead *)

Lemma pathGauss_skip (antithetic : bool) (r0 : R) (firstPath i : nat) :
  ExactSkipAhead → Nat.even firstPath = true →
  pathGauss antithetic (taskRngState antithetic r0 firstPath) i
  = pathGauss antithetic r0 (firstPath + i).
Proof.
  intros Hexact Hev. unfold pathGauss, taskRngState, skipArg.
  destruct antithetic; [|by rewrite Hexact].
  rewrite !Hexact. apply Nat.even_spec in Hev as [h ->].
  rewrite Nat.even_add, Nat.even_mul. cbn [Nat.even orb].
  replace ((2 * h + i) / 2) with (h + i / 2).
  - rewrite half_double. by destruct (Nat.even i).
  - pose proof (Nat.div_mod_eq i 2) as Hd. pose proof (Nat.mod_upper_bound i 2) as Hm.
    apply (Nat.div_unique _ 2 _ (i mod 2)); lia.
Qed.

(** *** What the tasks write, and where they position their generators *)

Lemma payoffIndices_app (es es' : list (@Event D)) :
  payoffIndices (es ++ es') = payoffIndices es ++ payoffIndices es'.
Proof. apply omap_app. Qed.

Lemma skipCalls_app (es es' : list (@Event D)) :
  skipCalls (es ++ es') = skipCalls es ++ skipCalls es'.
Proof. apply omap_app. Qed.

Lemma gaussEvents_silent (antithetic : bool) (rng i : nat) :
  payoffIndices (D:=D) (gaussEvents antithetic rng i) = []
  ∧ skipCalls (D:=D) (gaussEvents antithetic rng i) = [].
Proof. unfold gaussEvents. by destruct (antithetic && Nat.odd i). Qed.

Lemma paths_written (f : nat → list (@Event D)) (firstPath n : nat) :
  (∀ i, payoffIndices (f i) = [firstPath + i] ∧ skipCalls (f i) = []) →
  payoffIndices (flat_map f (seq 0 n)) = seq firstPath n
  ∧ skipCalls (flat_map f (seq 0 n)) = [].
Proof.
  intros Hf. induction n as [|n [IHp IHs]]; [done|].
  rewrite (seq_S n 0), flat_map_app, payoffIndices_app, skipCalls_app, IHp, IHs.
  cbn [flat_map plus]. rewrite app_nil_r.
  destruct (Hf n) as [-> ->]. by rewrite seq_S.
Qed.

Lemma taskEvents_written (antithetic : bool) (cMdl cRng taskRng : nat) (r0 : R)
    (b : nat * nat) :
  payoffIndices (taskEvents antithetic cMdl cRng taskRng r0 b) = batchIndices b
  ∧ skipCalls (taskEvents antithetic cMdl cRng taskRng r0 b) = [skipArg antithetic b.1].
Proof.
  unfold taskEvents. rewrite payoffIndices_app, skipCalls_app.
  edestruct (paths_written
               (λ i, pathEvents antithetic cMdl taskRng
                       (taskRngState antithetic r0 b.1) i (b.1 + i)) b.1 b.2) as [-> ->];
    [|done].
  intros i. unfold pathEvents. rewrite payoffIndices_app, skipCalls_app.
  by destruct (gaussEvents_silent antithetic taskRng i) as [-> ->].
Qed.

Lemma aadBatchEvents_written (prd : Product.t D (Number D) (Recorded D)) (m : MN)
    (antithetic : bool) (r : R) (tape cMdl cRng taskRng : nat) (b : nat * nat) :
  payoffIndices (aadBatchEvents prd m antithetic r tape cMdl cRng taskRng b)
  = batchIndices b
  ∧ skipCalls (aadBatchEvents prd m antithetic r tape cMdl cRng taskRng b)
    = [skipArg antithetic b.1].
Proof.
  unfold aadBatchEvents. rewrite payoffIndices_app, skipCalls_app.
  edestruct (paths_written
               (λ i, aadPathEvents prd (aadSetupModel prd m) (length (aadSetupNodes prd m))
                       antithetic (taskRngState antithetic (aadSetupRng prd m r) b.1)
                       tape cMdl taskRng i (b.1 + i)) b.1 b.2) as [-> ->];
    [|done].
  intros i. unfold aadPathEvents. rewrite !payoffIndices_app, !skipCalls_app.
  by destruct (gaussEvents_silent antithetic taskRng i) as [-> ->].
Qed.

Lemma aadTaskEvents_written (prd : Product.t D (Number D) (Recorded D)) (m : MN)
    (antithetic : bool) (r : R) (mdl rng p0 tapes0 th : nat) (fresh : bool)
    (na nr cMdl cRng : nat) (b : nat * nat) :
  payoffIndices (aadTaskEvents prd m antithetic r mdl rng p0 tapes0 th fresh na nr
                   cMdl cRng b)
  = batchIndices b
  ∧ skipCalls (aadTaskEvents prd m antithetic r mdl rng p0 tapes0 th fresh na nr
                 cMdl cRng b)
    = [skipArg antithetic b.1].
Proof.
  unfold aadTaskEvents. rewrite payoffIndices_app, skipCalls_app.
  destruct fresh; rewrite ?payoffIndices_app, ?skipCalls_app.
  - destruct (aadBatchEvents_written prd m antithetic r (tapeOf p0 tapes0 th) na nr (S nr) b)
      as [-> ->].
    by destruct (decide (0 < th)).
  - destruct (aadBatchEvents_written prd m antithetic r (tapeOf p0 tapes0 th) cMdl cRng nr b)
      as [-> ->].
    by destruct (decide (0 < th)).
Qed.

Lemma scheduleEvents_written (antithetic : bool) (cMdl cRng : nat) (r0 : R)
    (batches : list (nat * nat)) (nr : nat) (sched : list (nat * nat)) :
  payoffIndices (scheduleEvents antithetic cMdl cRng r0 batches nr sched)
  = flat_map (λ kt, batchIndices (batches !!! kt.1)) sched
  ∧ skipCalls (scheduleEvents antithetic cMdl cRng r0 batches nr sched)
    = map (λ kt, skipArg antithetic (batches !!! kt.1).1) sched.
Proof.
  unfold scheduleEvents. revert nr.
  induction sched as [|kt sched IH]; intros nr; [done|].
  rewrite imap_cons. cbn [concat flat_map map].
  rewrite payoffIndices_app, skipCalls_app.
  destruct (taskEvents_written antithetic cMdl cRng (nr + 0) r0 (batches !!! kt.1))
    as [-> ->].
  destruct (IH (S nr)) as [IHp IHs].
  rewrite <-IHp, <-IHs. split; do 3 f_equal; apply imap_ext; intros pos kt' _;
    unfold compose; f_equal; lia.
Qed.

(** *** The antithetic steps among the calls *)

Lemma gaussSteps_app (es1 es2 : list (@Event D)) :
  gaussSteps (es1 ++ es2) = gaussSteps es1 ++ gaussSteps es2.
Proof. apply omap_app. Qed.

Lemma gaussSteps_flat_map {A : Type} (f : A → list (@Event D)) (l : list A) :
  gaussSteps (flat_map f l) = flat_map (λ x, gaussSteps (f x)) l.
Proof.
  induction l as [|x l IH]; [done|]. cbn [flat_map]. by rewrite gaussSteps_app, IH.
Qed.

Lemma gaussSteps_silent (es : list (@Event D)) :
  Forall (λ e, gaussStep e = None) es → gaussSteps es = [].
Proof.
  induction 1 as [|e es He _ IH]; [done|].
  change (e :: es) with ([e] ++ es). rewrite gaussSteps_app, IH.
  unfold gaussSteps. cbn [omap list_omap]. by rewrite He.
Qed.

Lemma pathEvents_gauss (cMdl cRng : nat) (r0 : R) (i j : nat) :
  gaussSteps (pathEvents true cMdl cRng r0 i j)
  = if Nat.even i then [GPrimary; GPath (nthDraw r0 (i / 2))]
    else [GNegate; GPath (map dneg (nthDraw r0 (i / 2)))].
Proof.
  unfold pathEvents, gaussEvents, pathGauss. cbn [andb].
  rewrite <-Nat.negb_odd. by destruct (Nat.odd i).
Qed.

Lemma aadPathEvents_gauss (prd : Product.t D (Number D) (Recorded D)) (m2 : MN)
    (mk : nat) (r0 : R) (tape cMdl cRng i j : nat) :
  gaussSteps (aadPathEvents prd m2 mk true r0 tape cMdl cRng i j)
  = if Nat.even i then [GPrimary; GPath (nthDraw r0 (i / 2))]
    else [GNegate; GPath (map dneg (nthDraw r0 (i / 2)))].
Proof.
  unfold aadPathEvents, gaussEvents, pathGauss. cbn [andb].
  rewrite <-Nat.negb_odd. by destruct (Nat.odd i).
Qed.

Lemma taskEvents_gauss (cMdl cRng taskRng : nat) (r0 : R) (b : nat * nat) :
  gaussSteps (taskEvents true cMdl cRng taskRng r0 b) = antitheticTaskSteps r0 b.
Proof.
  unfold taskEvents, antitheticTaskSteps, antitheticSteps.
  rewrite gaussSteps_app, gaussSteps_flat_map.
  change (gaussSteps [EvRngClone cRng taskRng; EvSkipTo taskRng (skipArg true b.1)])
    with [GSkip (D:=D) (Z.of_nat (b.1 / 2))].
  cbn [app]. f_equal. apply flat_map_ext. intros i. apply pathEvents_gauss.
Qed.

Lemma aadBatchEvents_gauss (prd : Product.t D (Number D) (Recorded D)) (m : MN) (r : R)
    (tape cMdl cRng taskRng : nat) (b : nat * nat) :
  gaussSteps (aadBatchEvents prd m true r tape cMdl cRng taskRng b)
  = antitheticTaskSteps (aadSetupRng prd m r) b.
Proof.
  unfold aadBatchEvents, antitheticTaskSteps, antitheticSteps.
  rewrite gaussSteps_app, gaussSteps_flat_map.
  change (gaussSteps [EvRngClone cRng taskRng; EvSkipTo taskRng (skipArg true b.1)])
    with [GSkip (D:=D) (Z.of_nat (b.1 / 2))].
  cbn [app]. f_equal. apply flat_map_ext. intros i. apply aadPathEvents_gauss.
Qed.

Lemma aadTaskEvents_gauss (prd : Product.t D (Number D) (Recorded D)) (m : MN) (r : R)
    (mdl rng p0 tapes0 th : nat) (fresh : bool) (na nr cMdl cRng : nat) (b : nat * nat) :
  gaussSteps (aadTaskEvents prd m true r mdl rng p0 tapes0 th fresh na nr cMdl cRng b)
  = antitheticTaskSteps (aadSetupRng prd m r) b.
Proof.
  unfold aadTaskEvents. rewrite gaussSteps_app.
  assert (gaussSteps (if decide (0 < th)
                      then [EvSetTape (D:=D) th (tapes0 + (th - 1))] else []) = []) as ->
    by (by destruct (decide (0 < th))).
  destruct fresh; rewrite ?gaussSteps_app, aadBatchEvents_gauss; done.
Qed.

Lemma scheduleEvents_gauss (cMdl cRng : nat) (r0 : R) (batches : list (nat * nat))
    (nr : nat) (sched : list (nat * nat)) :
  gaussSteps (scheduleEvents true cMdl cRng r0 batches nr sched)
  = flat_map (λ kt, antitheticTaskSteps r0 (batches !!! kt.1)) sched.
Proof.
  unfold scheduleEvents. revert nr.
  induction sched as [|kt sched IH]; intros nr; [done|].
  rewrite imap_cons. cbn [concat flat_map].
  rewrite gaussSteps_app, taskEvents_gauss. f_equal.
  rewrite <-(IH (S nr)). do 2 f_equal. apply imap_ext. intros pos kt' _.
  unfold compose. f_equal. lia.
Qed.

Lemma final_events_gauss (init : list bool) (p0 tapes0 n : nat)
    (params0 : list (Number D)) :
  gaussSteps (finalPropagateEvents init p0 tapes0 n
              ++ finalAccumulateEvents init p0 n params0) = [].
Proof.
  apply gaussSteps_silent. unfold finalPropagateEvents, finalAccumulateEvents.
  rewrite !Forall_app, !Forall_flat_map. split_and!.
  - by repeat constructor.
  - apply Forall_forall. intros i _. destruct (init !!! (i + 1)); by repeat constructor.
  - by repeat constructor.
  - apply Forall_forall. intros i _. destruct (init !!! (i + 1)); [|constructor].
    apply Forall_forall. intros e He. apply list_elem_of_fmap in He as (j & -> & _). done.
Qed.

Lemma flat_map_seq_ext {A : Type} (f g : nat → list A) (n : nat) :
  (∀ k, k < n → f k = g k) → flat_map f (seq 0 n) = flat_map g (seq 0 n).
Proof.
  intros Hfg. induction n as [|n IH]; [done|].
  rewrite seq_S, !flat_map_app, IH by (intros; apply Hfg; lia).
  cbn [flat_map plus]. by rewrite Hfg by lia.
Qed.

(** Every path is in the batch of exactly one task, and every task
    runs once. *)
Lemma batches_written_once (pool : Pool) (nPath : nat) :
  ValidSchedule pool (length (spawnLoop nPath 0 nPath)) →
  flat_map (λ kt, batchIndices (spawnLoop nPath 0 nPath !!! kt.1)) (schedule pool)
  ≡ₚ seq 0 nPath.
Proof.
  intros [Hperm _].
  transitivity (flat_map (λ k, batchIndices (spawnLoop nPath 0 nPath !!! k))
                  (map fst (schedule pool))).
  { generalize (schedule pool). intros l. induction l as [|kt l IH]; [done|].
    cbn [map flat_map]. by rewrite IH. }
  rewrite Hperm. rewrite <-(spawnLoop_covers nPath 0 nPath) by done.
  rewrite <-flat_map_concat_map.
  generalize (spawnLoop nPath 0 nPath). intros bs.
  induction bs as [|b bs IH] using rev_ind; [done|].
  rewrite length_app. cbn [length]. rewrite Nat.add_1_r, seq_S, !flat_map_app.
  cbn [flat_map plus]. rewrite lookup_total_snoc, !app_nil_r.
  apply Permutation_app; [|done]. rewrite <-IH.
  erewrite flat_map_seq_ext; [done|]. intros k Hk. cbn beta.
  by rewrite lookup_total_app_l by lia.
Qed.

(** C2.  With a generator whose [skipTo] is an exact skip-ahead,
    [mcParallelSimul] returns the vector [mcSimul] returns on the same
    arguments, whatever the order in which the pool runs the batches and
    whatever thread runs each of them. *)
Theorem parallel_matches_sequential (pool : Pool) (prd : Product.t D D Plain)
    (mdl rng nPath : nat) (antithetic : bool) (w : World) :
  ExactSkipAhead →
  ValidSchedule pool (length (spawnLoop nPath 0 nPath)) →
  (mcParallelSimul pool prd mdl rng nPath antithetic w).1
  = (mcSimul prd mdl rng nPath antithetic w).1.
Proof.
  intros Hexact Hvalid.
  rewrite mcParallelSimul_run by done. rewrite mcSimul_run. cbn [fst].
  rewrite schedule_result by done. apply map_ext. intros j.
  unfold taskPayoff, pathPayoff. rewrite pathGauss_skip; [|done|].
  - by rewrite <-Nat.div_mod_eq.
  - by rewrite Nat.even_mul.
Qed.

(** ** [mcParallelSimulAAD], step by step *)

Section AadTaskRun.
Variables (prd : Product.t D (Number D) (Recorded D)) (antithetic : bool).
Variables (threadNum T cMdl taskRng firstPath : nat) (m2 : MN) (rt : R) (t0 : Tape D).

Lemma aadTask_loop (n : nat) (L : AADLocals) (w : World) :
  tapePtr w threadNum = T →
  T < length (tapes w) →
  tapes w !!! T = t0 →
  (markPos t0) ≤ length (nodes t0) →
  taskRng < length (rngs w) →
  rngs w !!! taskRng = rt →
  deref (acMdl L !!! threadNum) = cMdl →
  amodels w !!! cMdl = m2 →
  threadNum < length (agaussVecs L) →
  firstPath + n ≤ length (ares L) →
  forRange 0 n (aadTaskPath prd antithetic taskRng firstPath threadNum) (false, L) w
  = ((antithetic && Nat.odd n,
      mkAADLocals (acMdl L) (acRng L)
        (<[threadNum := prevGauss antithetic rt (agaussVecs L !!! threadNum) n]>
           (agaussVecs L))
        (match n with
         | 0 => apaths L
         | S k => <[threadNum := (aadPathGen m2 (markPos t0) antithetic rt k).1]> (apaths L)
         end)
        (ainit L)
        (writeBatch (λ _ i, aadPathNumber prd m2 (markPos t0) antithetic rt i) (ares L)
           (firstPath, n))),
     mkWorld (models w) (amodels w)
       (<[taskRng := RNG.skipLoop RNG.nextG (drawsUsed antithetic n) rt]> (rngs w))
       (<[T := aadTapeAfter prd m2 (markPos t0) antithetic rt n t0]> (tapes w))
       (tapePtr w)
       (trace w
        ++ flat_map (λ i, aadPathEvents prd m2 (markPos t0) antithetic rt T cMdl taskRng i
                            (firstPath + i))
             (seq 0 n))).
Proof.
  intros HT HTlt Ht0 Hmk Hlt Hr Hcm Hm Hth Hres. induction n as [|n IH].
  - simpl. rewrite mret_run, andb_false_r, app_nil_r. f_equal.
    + f_equal. destruct L; cbn in *. f_equal. symmetry. apply list_insert_id.
      by apply list_lookup_lookup_total_lt.
    + destruct w; cbn in *. f_equal.
      * symmetry. apply list_insert_id. rewrite <-Hr.
        unfold drawsUsed. destruct antithetic; by apply list_lookup_lookup_total_lt.
      * symmetry. apply list_insert_id. rewrite <-Ht0.
        by apply list_lookup_lookup_total_lt.
  - rewrite forRange_snoc, IH by lia. cbn [fst snd plus]. clear IH.
    unfold aadTaskPath at 1. cbn [acMdl acRng agaussVecs apaths ainit ares].
    do 2 sim_step. rewrite HT.
    do 2 sim_step. rewrite !list_lookup_total_insert_eq, !list_insert_insert_eq by done.
    sim_step.
    rewrite (nextGaussian_run antithetic taskRng n rt (agaussVecs L !!! threadNum));
      [|by (cbn; rewrite length_insert)
       |by (cbn; apply list_lookup_total_insert_eq)].
    unfold emits, withRngs. sim_simpl. rewrite list_insert_insert_eq.
    do 2 sim_step. rewrite HT, Hcm, Hm.
    rewrite !list_insert_insert_eq, !(list_lookup_total_insert_eq (tapes w)) by done.
    rewrite aadTapeAfter_rewound by done.
    fold (aadPathGen m2 (markPos t0) antithetic rt n).
    do 2 sim_step. rewrite HT.
    rewrite !list_insert_insert_eq, !(list_lookup_total_insert_eq (tapes w)) by done.
    rewrite recordNodes_length, aadTapeAfter_rewound by done.
    fold (aadPathPay prd m2 (markPos t0) antithetic rt n).
    fold (aadPathNumber prd m2 (markPos t0) antithetic rt n).
    do 2 sim_step. rewrite HT.
    rewrite !list_insert_insert_eq, !(list_lookup_total_insert_eq (tapes w)) by done.
    rewrite list_lookup_total_insert_eq by (rewrite writeBatch_length; lia).
    sim_step.
    f_equal.
    + f_equal. f_equal.
      * destruct n; [done|]. by rewrite list_insert_insert_eq.
      * unfold writeBatch. cbn [fst snd]. by rewrite (seq_S n 0), foldl_app.
    + f_equal.
      * f_equal. unfold aadPathTape, aadPathNodes, recordNodes, rewindToMark.
        cbn [nodes markPos]. rewrite aadTapeAfter_markPos.
        cbn [aadTapeAfter]. unfold aadPathTape, aadPathNodes, recordNodes, rewindToMark.
        cbn [nodes markPos]. rewrite aadTapeAfter_markPos.
        by rewrite map_app, app_assoc.
      * rewrite (seq_S n 0), flat_map_app. cbn [flat_map plus].
        rewrite app_nil_r. unfold aadPathEvents. by rewrite <-!app_assoc.
Qed.
End AadTaskRun.

Section AadParallel.
Variables (prd : Product.t D (Number D) (Recorded D)) (antithetic : bool).
Variables (m : MN) (r : R) (mdl rng p0 tapes0 nThread nPath : nat).

(** A task from the point where its thread is initialised. *)
Lemma aadTask_batch (firstPath pathsInTask threadNum T cm cr : nat) (L : AADLocals)
    (w : World) :
  tapePtr w threadNum = T →
  T < length (tapes w) →
  markPos (tapes w !!! T) = length (aadSetupNodes prd m) →
  length (aadSetupNodes prd m) ≤ length (nodes (tapes w !!! T)) →
  acMdl L !!! threadNum = Some cm →
  amodels w !!! cm = aadSetupModel prd m →
  acRng L !!! threadNum = Some cr →
  rngs w !!! cr = aadSetupRng prd m r →
  threadNum < length (agaussVecs L) →
  firstPath + pathsInTask ≤ length (ares L) →
  (taskRng ← rngClone (deref (acRng L !!! threadNum));
   rngSkipTo taskRng
     (if antithetic then Z.of_nat (firstPath / 2) else Z.of_nat firstPath);;
   s ← forRange 0 pathsInTask
         (aadTaskPath prd antithetic taskRng firstPath threadNum) (false, L);
   mret s.2) w
  = (mkAADLocals (acMdl L) (acRng L)
       (<[threadNum := prevGauss antithetic
                         (taskRngState antithetic (aadSetupRng prd m r) firstPath)
                         (agaussVecs L !!! threadNum) pathsInTask]> (agaussVecs L))
       (match pathsInTask with
        | 0 => apaths L
        | S k => <[threadNum := (aadPathGen (aadSetupModel prd m)
                                   (length (aadSetupNodes prd m)) antithetic
                                   (taskRngState antithetic (aadSetupRng prd m r) firstPath)
                                   k).1]> (apaths L)
        end)
       (ainit L)
       (writeBatch (aadTaskPayoff prd m antithetic r) (ares L) (firstPath, pathsInTask)),
     mkWorld (models w) (amodels w)
       (rngs w ++ [taskRngAfter antithetic (aadSetupRng prd m r)
                     (firstPath, pathsInTask)])
       (<[T := aadTapeAfter prd (aadSetupModel prd m) (length (aadSetupNodes prd m))
                 antithetic
                 (taskRngState antithetic (aadSetupRng prd m r) firstPath)
                 pathsInTask (tapes w !!! T)]> (tapes w))
       (tapePtr w)
       (trace w ++ aadBatchEvents prd m antithetic r T cm cr (length (rngs w))
                     (firstPath, pathsInTask))).
Proof.
  intros HT HTlt Hmk Hlen Hcm Hm2 Hcr Hrs Hth Hres.
  rewrite Hcr. change (deref (Some cr)) with cr. do 4 sim_step.
  rewrite lookup_total_snoc, insert_snoc, Hrs.
  change (if antithetic then Z.of_nat (firstPath / 2) else Z.of_nat firstPath)
    with (skipArg antithetic firstPath).
  change (RNG.skipTo (RNG.clone (aadSetupRng prd m r)) (skipArg antithetic firstPath))
    with (taskRngState antithetic (aadSetupRng prd m r) firstPath).
  sim_step.
  erewrite (aadTask_loop prd antithetic threadNum T cm (length (rngs w)) firstPath
              (aadSetupModel prd m)
              (taskRngState antithetic (aadSetupRng prd m r) firstPath)
              (tapes w !!! T));
    cbn [rngs amodels tapes tapePtr];
    [|done|done|done|by rewrite Hmk|rewrite length_app; simpl; lia
     |apply lookup_total_snoc|by rewrite Hcm|done|done|done].
  sim_step. cbn [fst snd]. rewrite Hmk. f_equal.
  rewrite insert_snoc. unfold aadBatchEvents, taskRngAfter. cbn [fst snd].
  by rewrite <-!app_assoc.
Qed.

Lemma tapeOf_inj (th th' : nat) :
  p0 < tapes0 → tapeOf p0 tapes0 th = tapeOf p0 tapes0 th' → th = th'.
Proof. unfold tapeOf. intros Hp. repeat case_decide; lia. Qed.

Lemma tapeOf_lt (th : nat) :
  p0 < tapes0 → th ≤ nThread → tapeOf p0 tapes0 th < tapes0 + nThread.
Proof. unfold tapeOf. intros Hp Hth. case_decide; lia. Qed.

Lemma ThreadReady_mono (th : nat) (L L' : AADLocals) (w w' : World) :
  ThreadReady prd m r p0 tapes0 th L w →
  acMdl L' !!! th = acMdl L !!! th →
  acRng L' !!! th = acRng L !!! th →
  amodels w `prefix_of` amodels w' →
  rngs w `prefix_of` rngs w' →
  tapes w' !!! tapeOf p0 tapes0 th = tapes w !!! tapeOf p0 tapes0 th →
  ThreadReady prd m r p0 tapes0 th L' w'.
Proof.
  intros (cm & cr & Hcm & Hcmlt & Hm2 & Hcr & Hcrlt & Hrs & Hmk & Hlen)
    HacMdl HacRng [ka Ha] [kr Hr] Ht.
  exists cm, cr. rewrite HacMdl, HacRng, Ht, Ha, Hr, !length_app.
  rewrite !lookup_total_app_l by done. split_and!; try done; lia.
Qed.

(** [if (threadNum > 0) Number::tape = &tapes[threadNum - 1];] *)
Lemma aadTask_setTape_run (threadNum : nat) (w : World) :
  (if decide (0 < threadNum)
   then setCurrentTape threadNum (tapes0 + (threadNum - 1))
   else mret tt) w
  = (tt, mkWorld (models w) (amodels w) (rngs w) (tapes w)
           (if decide (0 < threadNum)
            then λ k, if decide (k = threadNum) then tapes0 + (threadNum - 1)
                      else tapePtr w k
            else tapePtr w)
           (trace w ++ (if decide (0 < threadNum)
                        then [EvSetTape threadNum (tapes0 + (threadNum - 1))] else []))).
Proof.
  destruct (decide (0 < threadNum)); [done|].
  rewrite mret_run, app_nil_r. by destruct w.
Qed.

Lemma aadTaskInit_run (threadNum : nat) (L : AADLocals) (w : World) :
  tapePtr w threadNum < length (tapes w) →
  aadTaskInit prd mdl rng threadNum L w
  = if (ainit L !!! threadNum : bool) then (L, w)
    else
      let m' := amodels w !!! mdl in
      let dim := Model.simDim (aadSetupModel prd m') in
      (mkAADLocals (<[threadNum := Some (length (amodels w))]> (acMdl L))
         (<[threadNum := Some (length (rngs w))]> (acRng L))
         (<[threadNum := resize dim dzero (agaussVecs L !!! threadNum)]> (agaussVecs L))
         (<[threadNum := resize (length (Product.timeline prd)) (mkScenario defaultNumber)
                           (apaths L !!! threadNum)]> (apaths L))
         (<[threadNum := true]> (ainit L))
         (ares L),
       mkWorld (models w) (amodels w ++ [aadSetupModel prd m'])
         (rngs w ++ [aadSetupRng prd m' (rngs w !!! rng)])
         (<[tapePtr w threadNum := aadSetupTape prd m']> (tapes w)) (tapePtr w)
         (trace w ++ aadSetupEvents mdl rng (length (amodels w)) (length (rngs w))
                       (tapePtr w threadNum) dim)).
Proof.
  intros HT. unfold aadTaskInit. destruct (ainit L !!! threadNum); cbn [negb]; [done|].
  rewrite bind_run, initSimul_run by done. cbn [fst snd]. by rewrite mret_run.
Qed.

(** A task up to the point where its thread is initialised. *)
Lemma aadTask_prepare (threadNum : nat) (L : AADLocals) (w : World) :
  AadInv prd m r mdl rng p0 tapes0 nThread nPath L w →
  threadNum ≤ nThread →
  let fresh := negb (ainit L !!! threadNum) in
  let T := tapeOf p0 tapes0 threadNum in
  ∃ L1 w1,
    ((if decide (0 < threadNum)
      then setCurrentTape threadNum (tapes0 + (threadNum - 1))
      else mret tt);;
     aadTaskInit prd mdl rng threadNum L) w = (L1, w1)
    ∧ AadInv prd m r mdl rng p0 tapes0 nThread nPath L1 w1
    ∧ ThreadReady prd m r p0 tapes0 threadNum L1 w1
    ∧ tapePtr w1 threadNum = T
    ∧ ainit L1 = <[threadNum := true]> (ainit L)
    ∧ ares L1 = ares L
    ∧ acMdl L1 = (if fresh then <[threadNum := Some (length (amodels w))]> (acMdl L)
                  else acMdl L)
    ∧ acRng L1 = (if fresh then <[threadNum := Some (length (rngs w))]> (acRng L)
                  else acRng L)
    ∧ models w1 = models w
    ∧ amodels w1 = amodels w ++ (if fresh then [aadSetupModel prd m] else [])
    ∧ rngs w1 = rngs w ++ (if fresh then [aadSetupRng prd m r] else [])
    ∧ (∀ k, k ≠ T → tapes w1 !!! k = tapes w !!! k)
    ∧ trace w1
      = trace w
        ++ (if decide (0 < threadNum)
            then [EvSetTape threadNum (tapes0 + (threadNum - 1))] else [])
        ++ (if fresh
            then aadSetupEvents mdl rng (length (amodels w)) (length (rngs w)) T
                   (Model.simDim (aadSetupModel prd m))
            else []).
Proof.
  intros ((Hl1 & Hl2 & Hl3 & Hl4 & Hl5) & (Hmdl & Hm & Hrng & Hr) & (Hp0 & Hp0lt & Htl)
          & Hready) Hth fresh T.
  rewrite bind_run, aadTask_setTape_run. cbn [fst snd].
  set (w0 := mkWorld _ _ _ _ _ _).
  assert (tapePtr w0 threadNum = T) as HT.
  { subst w0 T. unfold tapeOf. cbn [tapePtr].
    destruct (decide (0 < threadNum)); [by rewrite decide_True|].
    replace threadNum with mainThread by (unfold mainThread; lia). done. }
  assert (tapePtr w0 mainThread = p0) as Hp0'.
  { subst w0. cbn [tapePtr]. destruct (decide (0 < threadNum)); [|done].
    rewrite decide_False by (unfold mainThread; lia). done. }
  assert (T < length (tapes w)) as HTlt by (rewrite Htl; by apply tapeOf_lt).
  rewrite aadTaskInit_run by (by rewrite HT).
  destruct (ainit L !!! threadNum) eqn:Hinit; subst fresh; cbn [negb].
  - exists L, w0. subst w0. cbn [models amodels rngs tapes tapePtr trace] in *.
    rewrite !app_nil_r. split_and!; try done.
    + by apply Hready.
    + symmetry. apply list_insert_id. rewrite <-Hinit.
      apply list_lookup_lookup_total_lt. lia.
  - cbn zeta. subst w0. cbn [models amodels rngs tapes tapePtr trace] in *.
    rewrite HT, Hm, Hr.
    assert (ThreadReady prd m r p0 tapes0 threadNum
              (mkAADLocals (<[threadNum := Some (length (amodels w))]> (acMdl L))
                 (<[threadNum := Some (length (rngs w))]> (acRng L))
                 (<[threadNum := resize (Model.simDim (aadSetupModel prd m)) dzero
                                   (agaussVecs L !!! threadNum)]> (agaussVecs L))
                 (<[threadNum := resize (length (Product.timeline prd))
                                   (mkScenario defaultNumber)
                                   (apaths L !!! threadNum)]> (apaths L))
                 (<[threadNum := true]> (ainit L)) (ares L))
              (mkWorld (models w) (amodels w ++ [aadSetupModel prd m])
                 (rngs w ++ [aadSetupRng prd m r])
                 (<[T := aadSetupTape prd m]> (tapes w))
                 (if decide (0 < threadNum)
                  then λ k, if decide (k = threadNum) then tapes0 + (threadNum - 1)
                            else tapePtr w k
                  else tapePtr w)
                 ((trace w ++ (if decide (0 < threadNum)
                               then [EvSetTape threadNum (tapes0 + (threadNum - 1))]
                               else []))
                  ++ aadSetupEvents mdl rng (length (amodels w)) (length (rngs w)) T
                       (Model.simDim (aadSetupModel prd m))))) as Hnew.
    { exists (length (amodels w)), (length (rngs w)).
      cbn [acMdl acRng amodels rngs tapes].
      rewrite !list_lookup_total_insert_eq, !lookup_total_snoc, !length_app by lia.
      unfold aadSetupTape. cbn [markPos nodes length]. rewrite length_map.
      split_and!; try done; lia. }
    eexists _, _. split; [done|]. cbn [models amodels rngs tapes tapePtr trace acMdl
      acRng agaussVecs ainit ares].
    split_and!; try done.
    + split_and!; cbn [models amodels rngs tapes tapePtr trace acMdl
        acRng agaussVecs ainit ares]; rewrite ?length_insert, ?length_app; try done;
        try lia; try (by rewrite lookup_total_app_l).
      intros th' Hth' Hi'. destruct (decide (th' = threadNum)) as [->|Hne]; [done|].
      rewrite list_lookup_total_insert_ne in Hi' by done.
      eapply ThreadReady_mono; [by apply Hready|..];
        cbn [models amodels rngs tapes tapePtr trace acMdl acRng agaussVecs ainit ares].
      * by rewrite list_lookup_total_insert_ne.
      * by rewrite list_lookup_total_insert_ne.
      * by apply prefix_app_r.
      * by apply prefix_app_r.
      * apply list_lookup_total_insert_ne. intros Heq. apply Hne.
        symmetry. by eapply tapeOf_inj.
    + intros k Hk. by apply list_lookup_total_insert_ne.
    + by rewrite <-app_assoc.
Qed.

(** A whole task: what it leaves, and that it leaves the run in a
    state from which the next task can start. *)
Lemma aadTask_inv (firstPath pathsInTask threadNum : nat) (L : AADLocals) (w : World) :
  AadInv prd m r mdl rng p0 tapes0 nThread nPath L w →
  threadNum ≤ nThread →
  firstPath + pathsInTask ≤ nPath →
  let fresh := negb (ainit L !!! threadNum) in
  ∃ L' w',
    aadTask prd mdl rng antithetic tapes0 firstPath pathsInTask threadNum L w = (L', w')
    ∧ AadInv prd m r mdl rng p0 tapes0 nThread nPath L' w'
    ∧ ares L' = writeBatch (aadTaskPayoff prd m antithetic r) (ares L)
                  (firstPath, pathsInTask)
    ∧ ainit L' = <[threadNum := true]> (ainit L)
    ∧ acMdl L' = (if fresh then <[threadNum := Some (length (amodels w))]> (acMdl L)
                  else acMdl L)
    ∧ models w' = models w
    ∧ amodels w' = amodels w ++ (if fresh then [aadSetupModel prd m] else [])
    ∧ rngs w' = rngs w ++ (if fresh then [aadSetupRng prd m r] else [])
                ++ [taskRngAfter antithetic (aadSetupRng prd m r) (firstPath, pathsInTask)]
    ∧ (∀ k, k ≠ tapeOf p0 tapes0 threadNum → tapes w' !!! k = tapes w !!! k)
    ∧ trace w'
      = trace w
        ++ aadTaskEvents prd m antithetic r mdl rng p0 tapes0 threadNum fresh
             (length (amodels w)) (length (rngs w))
             (deref (acMdl L !!! threadNum)) (deref (acRng L !!! threadNum))
             (firstPath, pathsInTask).
Proof.
  intros HI Hth Hfp fresh.
  destruct (aadTask_prepare threadNum L w HI Hth)
    as (L1 & w1 & Hrun & HI1 & Hready & HT & Hinit1 & Hres1 & HacMdl & HacRng & Hmodels
        & Hamodels & Hrngs & Htapes & Htrace).
  fold fresh in HacMdl, HacRng, Hamodels, Hrngs, Htrace.
  rewrite bind_run in Hrun.
  unfold aadTask. rewrite bind_run, bind_run, Hrun. cbn [fst snd].
  destruct HI1 as ((Hl1 & Hl2 & Hl3 & Hl4 & Hl5) & (Hmdl & Hm & Hrng & Hr)
                   & (Hp0 & Hp0lt & Htl) & Hothers).
  destruct Hready as (cm & cr & Hcm & Hcmlt & Hm2 & Hcr & Hcrlt & Hrs & Hmk & Hlen).
  assert (tapeOf p0 tapes0 threadNum < length (tapes w1)) as HTlt
    by (rewrite Htl; by apply tapeOf_lt).
  rewrite (aadTask_batch firstPath pathsInTask threadNum (tapeOf p0 tapes0 threadNum)
             cm cr L1 w1) by (done || lia).
  eexists _, _. split; [done|].
  cbn [models amodels rngs tapes tapePtr trace acMdl acRng agaussVecs ainit ares].
  assert (ThreadReady prd m r p0 tapes0 threadNum
            (mkAADLocals (acMdl L1) (acRng L1)
               (<[threadNum := prevGauss antithetic
                                 (taskRngState antithetic (aadSetupRng prd m r) firstPath)
                                 (agaussVecs L1 !!! threadNum) pathsInTask]> (agaussVecs L1))
               (match pathsInTask with
                | 0 => apaths L1
                | S k => <[threadNum := (aadPathGen (aadSetupModel prd m)
                                           (length (aadSetupNodes prd m)) antithetic
                                           (taskRngState antithetic (aadSetupRng prd m r)
                                              firstPath) k).1]> (apaths L1)
                end)
               (ainit L1)
               (writeBatch (aadTaskPayoff prd m antithetic r) (ares L1)
                  (firstPath, pathsInTask)))
            (mkWorld (models w1) (amodels w1)
               (rngs w1 ++ [taskRngAfter antithetic (aadSetupRng prd m r)
                              (firstPath, pathsInTask)])
               (<[tapeOf p0 tapes0 threadNum
                  := aadTapeAfter prd (aadSetupModel prd m) (length (aadSetupNodes prd m))
                       antithetic
                       (taskRngState antithetic (aadSetupRng prd m r) firstPath)
                       pathsInTask (tapes w1 !!! tapeOf p0 tapes0 threadNum)]> (tapes w1))
               (tapePtr w1)
               (trace w1 ++ aadBatchEvents prd m antithetic r (tapeOf p0 tapes0 threadNum)
                              cm cr (length (rngs w1)) (firstPath, pathsInTask))))
    as Hnew.
  { exists cm, cr. cbn [acMdl acRng amodels rngs tapes].
    rewrite list_lookup_total_insert_eq by done. rewrite length_app.
    rewrite lookup_total_app_l by done. rewrite <-Hmk at 1 3.
    rewrite aadTapeAfter_markPos. split_and!; try done; try lia.
    rewrite <-Hmk. apply aadTapeAfter_length. lia. }
  split_and!.
  - split_and!;
      cbn [models amodels rngs tapes tapePtr trace acMdl acRng agaussVecs ainit ares];
      rewrite ?length_insert, ?length_app, ?writeBatch_length; try done; try lia;
      try (by rewrite lookup_total_app_l).
    intros th' Hth' Hi'. destruct (decide (th' = threadNum)) as [->|Hne]; [done|].
    eapply ThreadReady_mono; [by apply Hothers|..];
      cbn [models amodels rngs tapes tapePtr trace acMdl acRng agaussVecs ainit ares];
      try done.
    + by apply prefix_app_r.
    + apply list_lookup_total_insert_ne. intros Heq. apply Hne.
      symmetry. by eapply tapeOf_inj.
  - by rewrite Hres1.
  - done.
  - done.
  - done.
  - done.
  - by rewrite Hrngs, <-app_assoc.
  - intros k Hk. rewrite list_lookup_total_insert_ne by done. by apply Htapes.
  - rewrite Htrace, Hrngs. unfold aadTaskEvents. rewrite <-!app_assoc. do 2 f_equal.
    subst fresh. destruct (ainit L !!! threadNum) eqn:Hi; cbn [negb] in *.
    + rewrite app_nil_r, app_nil_l. rewrite HacMdl in Hcm. rewrite HacRng in Hcr.
      by rewrite Hcm, Hcr.
    + rewrite length_app. cbn [length]. rewrite HacMdl in Hcm, Hl1.
      rewrite HacRng in Hcr, Hl2. rewrite length_insert in Hl1, Hl2.
      rewrite list_lookup_total_insert_eq in Hcm, Hcr by lia.
      injection Hcm as <-. injection Hcr as <-.
      f_equal. f_equal. lia.
Qed.

(** The tasks in the order they run. *)
Lemma aadSchedule_inv (batches sched : list (nat * nat)) (L : AADLocals) (w : World) :
  AadInv prd m r mdl rng p0 tapes0 nThread nPath L w →
  Forall (λ b, b.1 + b.2 ≤ nPath) batches →
  Forall (λ kt, kt.1 < length batches ∧ kt.2 ≤ nThread) sched →
  ∃ L' w' E,
    runSchedule (map (λ b, aadTask prd mdl rng antithetic tapes0 b.1 b.2) batches) sched L w
    = (L', w')
    ∧ AadInv prd m r mdl rng p0 tapes0 nThread nPath L' w'
    ∧ ares L' = foldl (λ res kt, writeBatch (aadTaskPayoff prd m antithetic r) res
                                   (batches !!! kt.1)) (ares L) sched
    ∧ ainit L' = foldl (λ l kt, <[kt.2 := true]> l) (ainit L) sched
    ∧ (ainit L !!! 0 = true → acMdl L' !!! 0 = acMdl L !!! 0)
    ∧ models w' = models w
    ∧ trace w' = trace w ++ E
    ∧ payoffIndices E = flat_map (λ kt, batchIndices (batches !!! kt.1)) sched
    ∧ skipCalls E = map (λ kt, skipArg antithetic (batches !!! kt.1).1) sched.
Proof.
  intros HI Hbatches Hsched. revert L w HI.
  induction Hsched as [|[k th] sched [Hk Hth] Hsched IH]; intros L w HI.
  - exists L, w, []. cbn. rewrite mret_run, app_nil_r. done.
  - cbn [fst snd] in Hk, Hth. cbn [runSchedule]. rewrite bind_run.
    rewrite list_lookup_fmap, (list_lookup_lookup_total_lt batches k Hk).
    cbn [fmap option_fmap option_map].
    assert ((batches !!! k).1 + (batches !!! k).2 ≤ nPath) as Hb.
    { rewrite Forall_forall in Hbatches. apply Hbatches.
      by apply list_elem_of_lookup_total_2. }
    destruct (batches !!! k) as [fp c] eqn:Hbk. cbn [fst snd] in Hb |- *.
    destruct (aadTask_inv fp c th L w HI Hth Hb)
      as (L1 & w1 & Hrun & HI1 & Hres1 & Hinit1 & HacMdl1 & Hmodels1 & _ & _ & _ & Htrace1).
    rewrite Hrun. cbn [fst snd].
    destruct (IH L1 w1 HI1)
      as (L' & w' & E & Hrun' & HI' & Hres' & Hinit' & HacMdl' & Hmodels' & Htrace'
          & Hpay & Hskip).
    eexists L', w', (_ ++ E). split; [done|]. split; [done|].
    destruct HI as ((Hl1 & _ & _ & Hl4 & _) & _).
    split_and!.
    + rewrite Hres', Hres1. cbn [foldl fst]. by rewrite Hbk.
    + rewrite Hinit', Hinit1. done.
    + intros Hmain. rewrite HacMdl'.
      * rewrite HacMdl1. destruct (decide (th = 0)) as [->|Hne].
        -- by rewrite Hmain.
        -- destruct (negb _); [|done]. by rewrite list_lookup_total_insert_ne.
      * rewrite Hinit1. destruct (decide (th = 0)) as [->|Hne].
        -- apply list_lookup_total_insert_eq. lia.
        -- by rewrite list_lookup_total_insert_ne.
    + by rewrite Hmodels'.
    + by rewrite Htrace', Htrace1, <-app_assoc.
    + rewrite payoffIndices_app, Hpay. cbn [flat_map fst]. rewrite Hbk. f_equal.
      apply aadTaskEvents_written.
    + rewrite skipCalls_app, Hskip. cbn [map fst]. rewrite Hbk.
      by destruct (aadTaskEvents_written prd m antithetic r mdl rng p0 tapes0 th
                     (negb (ainit L !!! th)) (length (amodels w)) (length (rngs w))
                     (deref (acMdl L !!! th)) (deref (acRng L !!! th)) (fp, c))
        as [_ ->].
Qed.
(** The trace of the tasks, task by task: each runs the calls of
    [aadTaskEvents], and a thread that is not initialised clones the
    model to a place there was not before. *)
Lemma aadSchedule_trace (batches sched : list (nat * nat)) (L : AADLocals) (w : World) :
  AadInv prd m r mdl rng p0 tapes0 nThread nPath L w →
  Forall (λ b, b.1 + b.2 ≤ nPath) batches →
  Forall (λ kt, kt.1 < length batches ∧ kt.2 ≤ nThread) sched →
  ∃ Es : list (list Event),
    trace (runSchedule (map (λ b, aadTask prd mdl rng antithetic tapes0 b.1 b.2) batches)
             sched L w).2
    = trace w ++ concat Es
    ∧ Forall2 (λ kt es, ∃ fresh na nr cm cr,
                 length (amodels w) ≤ na
                 ∧ es = aadTaskEvents prd m antithetic r mdl rng p0 tapes0 kt.2 fresh
                          na nr cm cr (batches !!! kt.1)) sched Es.
Proof.
  intros HI Hbatches Hsched. revert L w HI.
  induction Hsched as [|[k th] sched [Hk Hth] Hsched IH]; intros L w HI.
  - exists []. cbn [runSchedule concat]. rewrite mret_run, app_nil_r. by split.
  - cbn [fst snd] in Hk, Hth. cbn [runSchedule]. rewrite bind_run.
    rewrite list_lookup_fmap, (list_lookup_lookup_total_lt batches k Hk).
    cbn [fmap option_fmap option_map].
    assert ((batches !!! k).1 + (batches !!! k).2 ≤ nPath) as Hb.
    { rewrite Forall_forall in Hbatches. apply Hbatches.
      by apply list_elem_of_lookup_total_2. }
    destruct (batches !!! k) as [fp c] eqn:Hbk. cbn [fst snd] in Hb |- *.
    destruct (aadTask_inv fp c th L w HI Hth Hb)
      as (L1 & w1 & Hrun & HI1 & _ & _ & _ & _ & Hamodels & _ & _ & Htrace1).
    rewrite Hrun. cbn [fst snd].
    destruct (IH L1 w1 HI1) as (Es & Htrace & HEs).
    eexists (_ :: Es). split.
    + rewrite Htrace, Htrace1, <-app_assoc. done.
    + constructor.
      * eexists _, _, _, _, _. split; [|cbn [fst snd]; by rewrite Hbk]. done.
      * eapply Forall2_impl; [exact HEs|]. intros kt es (fresh & na & nr & cm & cr & Hna & ->).
        exists fresh, na, nr, cm, cr. split; [|done].
        rewrite Hamodels, length_app in Hna. lia.
Qed.
End AadParallel.

Lemma spawnLoop_bound (nPath : nat) :
  Forall (λ b, b.1 + b.2 ≤ nPath) (spawnLoop nPath 0 nPath).
Proof.
  apply Forall_lookup. intros k b Hb. rewrite spawnLoop_lookup in Hb by done.
  unfold BATCHSIZE in Hb. destruct (decide (64 * k < nPath)); [|done].
  injection Hb as <-. cbn [fst snd]. lia.
Qed.

(** [mcParallelSimulAAD] up to the point where all tasks have
    completed, on arguments that exist and with the caller's
    [Number::tape] designating a tape. *)
Lemma aadRunTasks_inv (pool : Pool) (prd : Product.t D (Number D) (Recorded D))
    (mdl rng nPath : nat) (antithetic : bool) (w : World) :
  mdl < length (amodels w) →
  rng < length (rngs w) →
  tapePtr w mainThread < length (tapes w) →
  ValidSchedule pool (length (spawnLoop nPath 0 nPath)) →
  let m := amodels w !!! mdl in
  let r := rngs w !!! rng in
  let p0 := tapePtr w mainThread in
  let tapes0 := length (tapes w) in
  let batches := spawnLoop nPath 0 nPath in
  ∃ L' w' E,
    aadRunTasks pool prd mdl rng nPath antithetic w = ((tapes0, L'), w')
    ∧ AadInv prd m r mdl rng p0 tapes0 (numThreads pool) nPath L' w'
    ∧ ares L' = map (λ j, aadTaskPayoff prd m antithetic r (64 * (j / 64)) (j mod 64))
                  (seq 0 nPath)
    ∧ ainit L' = foldl (λ l kt, <[kt.2 := true]> l)
                   (<[0 := true]> (replicate (numThreads pool + 1) false)) (schedule pool)
    ∧ acMdl L' !!! 0 = Some (length (amodels w))
    ∧ models w' = models w
    ∧ trace w'
      = trace w
        ++ aadSetupEvents mdl rng (length (amodels w)) (length (rngs w)) p0
             (Model.simDim (aadSetupModel prd m))
        ++ E
    ∧ payoffIndices E = flat_map (λ kt, batchIndices (batches !!! kt.1)) (schedule pool)
    ∧ skipCalls E = map (λ kt, skipArg antithetic (batches !!! kt.1).1) (schedule pool).
Proof.
  intros Hmdl Hrng Hp0 Hvalid m r p0 tapes0 batches.
  unfold aadRunTasks. do 3 sim_step.
  rewrite initSimul_run by (cbn [tapePtr tapes]; rewrite length_app; lia).
  cbn [fst snd amodels rngs tapes tapePtr trace]. fold m r p0 tapes0 batches.
  set (L0 := mkAADLocals _ _ _ _ _ _). set (w0 := mkWorld _ _ _ _ _ _).
  assert (AadInv prd m r mdl rng p0 tapes0 (numThreads pool) nPath L0 w0) as HI0.
  { subst L0 w0. split_and!;
      cbn [acMdl acRng agaussVecs ainit ares amodels rngs tapes tapePtr];
      rewrite ?length_insert, ?length_app, ?length_replicate; try done; try lia;
      try (by rewrite lookup_total_app_l).
    intros th Hth Hi. destruct (decide (th = 0)) as [->|Hne].
    - exists (length (amodels w)), (length (rngs w)).
      cbn [acMdl acRng agaussVecs ainit ares amodels rngs tapes tapePtr].
      rewrite !list_lookup_total_insert_eq, !lookup_total_snoc, !length_app
        by (rewrite ?length_replicate, ?length_app; lia).
      unfold aadSetupTape. cbn [markPos nodes length]. rewrite length_map.
      split_and!; try done; lia.
    - rewrite list_lookup_total_insert_ne in Hi by done.
      rewrite lookup_total_replicate_2 in Hi by lia. done. }
  destruct (aadSchedule_inv prd antithetic m r mdl rng p0 tapes0 (numThreads pool) nPath
              batches (schedule pool) L0 w0 HI0)
    as (L' & w' & E & Hrun & HI' & Hres & Hinit & HacMdl & Hmodels & Htrace & Hpay & Hskip).
  { apply spawnLoop_bound. }
  { eapply Forall_impl; [by apply valid_schedule_bounds|].
    intros kt [Hk Hth]. split; [done|lia]. }
  sim_step. rewrite Hrun. cbn [fst snd]. rewrite mret_run.
  exists L', w', E. split; [done|]. split; [done|]. split_and!.
  - rewrite Hres. subst L0. cbn [ares]. by apply schedule_result.
  - by rewrite Hinit.
  - rewrite HacMdl.
    + subst L0. cbn [acMdl]. apply list_lookup_total_insert_eq.
      rewrite length_replicate. lia.
    + subst L0. cbn [ainit]. apply list_lookup_total_insert_eq.
      rewrite length_replicate. lia.
  - by rewrite Hmodels.
  - rewrite Htrace. subst w0. cbn [trace]. by rewrite <-app_assoc.
  - done.
  - done.
Qed.

(** *** The end of [mcParallelSimulAAD] *)

Lemma tape_eta (t : Tape D) : mkTape (nodes t) (markPos t) = t.
Proof. by destruct t. Qed.

Lemma adjointAdd_loop (p0 src : nat) (params0 params : list (Number D)) (k : nat)
    (w : World) :
  p0 < length (tapes w) → src ≠ p0 →
  forRange 0 k (λ j (_ : unit),
      adjointAddFrom p0 (params0 !!! j) src (params !!! j)) tt w
  = (tt, mkWorld (models w) (amodels w) (rngs w)
           (<[p0 := mkTape
                      (foldl (λ ns j, addAdjoint (node (params0 !!! j))
                                        (adjointAt (nodes (tapes w !!! src))
                                           (node (params !!! j))) ns)
                         (nodes (tapes w !!! p0)) (seq 0 k))
                      (markPos (tapes w !!! p0))]> (tapes w))
           (tapePtr w)
           (trace w ++ map (λ j, EvAdjointAdd p0 (node (params0 !!! j))) (seq 0 k))).
Proof.
  intros Hp0 Hsrc. induction k as [|k IH].
  - cbn. rewrite mret_run, app_nil_r, tape_eta, list_insert_id; [by destruct w|].
    by apply list_lookup_lookup_total_lt.
  - rewrite forRange_snoc, IH. cbn [fst snd plus]. rewrite adjointAddFrom_run.
    cbn [models amodels rngs tapes tapePtr trace].
    rewrite list_lookup_total_insert_ne by done.
    rewrite list_lookup_total_insert_eq, list_insert_insert_eq by done.
    cbn [nodes markPos]. rewrite (seq_S k 0), foldl_app, map_app, <-app_assoc. done.
Qed.

Lemma propagate_fold_length (init : list bool) (tapes0 n : nat) (ts : list (Tape D)) :
  length (foldl (λ ts i, if (init !!! (i + 1) : bool)
                         then <[tapes0 + i := propagateMarkToStart (ts !!! (tapes0 + i))]> ts
                         else ts) ts (seq 0 n))
  = length ts.
Proof.
  induction n as [|n IH]; [done|].
  rewrite seq_S, foldl_app. cbn [foldl plus].
  destruct (init !!! (n + 1)); by rewrite ?length_insert.
Qed.

Section Finalize.
Variables (L : @AADLocals D) (p0 tapes0 : nat).

Lemma accumulate_loop (params0 : list (Number D)) (n : nat) (w : World) :
  p0 < length (tapes w) → p0 < tapes0 →
  forRange 0 n (λ i (_ : unit),
      if (ainit L !!! (i + 1) : bool) then
        params ← amodelParameters (deref (acMdl L !!! (i + 1)));
        forRange 0 (length params0) (λ j (_ : unit),
          adjointAddFrom p0 (params0 !!! j) (tapes0 + i) (params !!! j)) tt
      else mret tt) tt w
  = (tt, mkWorld (models w) (amodels w) (rngs w)
           (<[p0 := mkTape
                      (finalAccumulate (ainit L) tapes0 n params0
                         (λ th, Model.parameters (M:=MN)
                                  (amodels w !!! deref (acMdl L !!! th)))
                         (tapes w) (nodes (tapes w !!! p0)))
                      (markPos (tapes w !!! p0))]> (tapes w))
           (tapePtr w)
           (trace w ++ finalAccumulateEvents (ainit L) p0 n params0)).
Proof.
  intros Hp0 Hlt. unfold finalAccumulate, finalAccumulateEvents. induction n as [|n IH].
  - cbn. rewrite mret_run, app_nil_r, tape_eta, list_insert_id; [by destruct w|].
    by apply list_lookup_lookup_total_lt.
  - rewrite forRange_snoc, IH. cbn [fst snd plus].
    rewrite (seq_S n 0), foldl_app, flat_map_app. cbn [foldl flat_map plus].
    rewrite app_nil_r.
    destruct (ainit L !!! (n + 1)).
    + rewrite bind_run, amodelParameters_run. cbn [fst snd amodels].
      rewrite adjointAdd_loop by (cbn [tapes]; rewrite ?length_insert; lia).
      cbn [models amodels rngs tapes tapePtr trace].
      rewrite list_lookup_total_insert_ne by lia.
      rewrite list_lookup_total_insert_eq, list_insert_insert_eq by done.
      cbn [nodes markPos]. unfold addParamAdjoints. by rewrite <-app_assoc.
    + by rewrite mret_run, app_nil_r.
Qed.

Lemma propagate_loop (n : nat) (w : World) :
  let o := forRange 0 n (λ i (_ : unit),
             if (ainit L !!! (i + 1) : bool) then
               setCurrentTape mainThread (tapes0 + i);;
               numberPropagateMarkToStart mainThread
             else mret tt) tt w in
  models o.2 = models w ∧ amodels o.2 = amodels w ∧ rngs o.2 = rngs w
  ∧ tapes o.2
    = foldl (λ ts i, if (ainit L !!! (i + 1) : bool)
                     then <[tapes0 + i := propagateMarkToStart (ts !!! (tapes0 + i))]> ts
                     else ts) (tapes w) (seq 0 n)
  ∧ (∀ k, k ≠ mainThread → tapePtr o.2 k = tapePtr w k)
  ∧ trace o.2
    = trace w
      ++ flat_map (λ i, if (ainit L !!! (i + 1) : bool)
                        then [EvSetTape mainThread (tapes0 + i);
                              EvPropagateMarkToStart (tapes0 + i)]
                        else []) (seq 0 n).
Proof.
  induction n as [|n IH]; intros o; subst o.
  - cbn. by rewrite app_nil_r.
  - rewrite forRange_snoc. cbn zeta in IH.
    destruct (forRange 0 n _ tt w) as [[] wn]. cbn [fst snd plus] in *.
    destruct IH as (Hm & Ha & Hr & Ht & Hp & He).
    rewrite (seq_S n 0), foldl_app, flat_map_app. cbn [foldl flat_map plus].
    rewrite app_nil_r.
    destruct (ainit L !!! (n + 1)).
    + rewrite bind_run, setCurrentTape_run. cbn [fst snd].
      rewrite numberPropagateMarkToStart_run.
      cbn [fst snd models amodels rngs tapes tapePtr trace].
      rewrite decide_True by done. rewrite Ht, He, <-!app_assoc.
      split_and!; try done.
      intros k Hk. rewrite decide_False by done. by apply Hp.
    + rewrite mret_run. cbn [snd]. by rewrite app_nil_r.
Qed.

(** What [mcParallelSimulAAD] does once all tasks have completed, with
    the caller's tape [p0] before the worker tapes. *)
Lemma aadFinalize_run (nThread : nat) (w : World) :
  tapePtr w mainThread = p0 →
  p0 < tapes0 →
  p0 < length (tapes w) →
  let o := aadFinalize nThread tapes0 L w in
  let tsP := finalPropagate (ainit L) p0 tapes0 nThread (tapes w) in
  let params0 := Model.parameters (M:=MN) (amodels w !!! deref (acMdl L !!! 0)) in
  models o.2 = models w ∧ amodels o.2 = amodels w ∧ rngs o.2 = rngs w
  ∧ tapes o.2
    = <[p0 := mkTape
                (finalAccumulate (ainit L) tapes0 nThread params0
                   (λ th, Model.parameters (M:=MN) (amodels w !!! deref (acMdl L !!! th)))
                   tsP (nodes (tsP !!! p0)))
                (markPos (tsP !!! p0))]> tsP
  ∧ (∀ k, tapePtr o.2 k = tapePtr w k)
  ∧ trace o.2
    = trace w ++ finalPropagateEvents (ainit L) p0 tapes0 nThread
      ++ finalAccumulateEvents (ainit L) p0 nThread params0.
Proof.
  intros Hp0 Hlt Hlen o tsP params0. subst o. unfold aadFinalize.
  rewrite bind_run, numberPropagateMarkToStart_run. cbn [fst snd].
  rewrite bind_run, currentTape_run. cbn [fst snd tapePtr]. rewrite Hp0.
  rewrite bind_run.
  set (w1 := mkWorld _ _ _ _ _ _).
  pose proof (propagate_loop nThread w1) as Hloop. cbn zeta in Hloop.
  destruct (forRange 0 nThread _ tt w1) as [[] w2]. cbn [fst snd] in *.
  destruct Hloop as (Hm & Ha & Hr & Ht & Hp & He).
  rewrite bind_run, setCurrentTape_run. cbn [fst snd].
  rewrite bind_run, amodelParameters_run. cbn [fst snd amodels].
  assert (length (tapes w2) = length (tapes w)) as Hlen2.
  { rewrite Ht, propagate_fold_length. subst w1. cbn [tapes]. by rewrite length_insert. }
  rewrite accumulate_loop by (cbn [tapes]; lia).
  cbn [fst snd models amodels rngs tapes tapePtr trace].
  rewrite Ha, Ht, He, Hm, Hr. subst w1. cbn [models amodels rngs tapes tapePtr trace].
  split_and!; try done.
  - intros k. destruct (decide (k = mainThread)) as [->|Hne]; [done|].
    rewrite Hp by done. done.
  - unfold finalPropagateEvents. by rewrite <-!app_assoc.
Qed.
End Finalize.

Lemma finalAccumulate_ext (init : list bool) (tapes0 n : nat) (params0 : list (Number D))
    (paramsOf paramsOf' : nat → list (Number D)) (ts : list (Tape D))
    (dst : list (Node D)) :
  (∀ i, i < n → init !!! (i + 1) = true → paramsOf (i + 1) = paramsOf' (i + 1)) →
  finalAccumulate init tapes0 n params0 paramsOf ts dst
  = finalAccumulate init tapes0 n params0 paramsOf' ts dst.
Proof.
  intros Hext. unfold finalAccumulate. induction n as [|n IH]; [done|].
  rewrite seq_S, !foldl_app, IH by (intros; apply Hext; [lia|done]). cbn [foldl plus].
  destruct (init !!! (n + 1)) eqn:Hi; [|done]. by rewrite Hext by (lia || done).
Qed.

Lemma final_events_silent (init : list bool) (p0 tapes0 n : nat)
    (params0 : list (Number D)) :
  payoffIndices (D:=D) (finalPropagateEvents init p0 tapes0 n) = []
  ∧ skipCalls (D:=D) (finalPropagateEvents init p0 tapes0 n) = []
  ∧ payoffIndices (finalAccumulateEvents init p0 n params0) = []
  ∧ skipCalls (finalAccumulateEvents init p0 n params0) = [].
Proof.
  unfold finalPropagateEvents, finalAccumulateEvents.
  rewrite !payoffIndices_app, !skipCalls_app.
  assert (∀ es : list (@Event D), (∀ e, e ∈ es → ∀ j, e ≠ EvPayoff j)
            → payoffIndices es = []) as Hp.
  { intros es. induction es as [|e es IH]; intros He; [done|].
    change (e :: es) with ([e] ++ es).
    rewrite payoffIndices_app, IH by (intros; apply He; by apply list_elem_of_further).
    pose proof (He e (list_elem_of_here _ _)) as He'.
    destruct e; try done. by destruct (He' i). }
  assert (∀ es : list (@Event D), (∀ e, e ∈ es → ∀ g b, e ≠ EvSkipTo g b)
            → skipCalls es = []) as Hs.
  { intros es. induction es as [|e es IH]; intros He; [done|].
    change (e :: es) with ([e] ++ es).
    rewrite skipCalls_app, IH by (intros; apply He; by apply list_elem_of_further).
    pose proof (He e (list_elem_of_here _ _)) as He'.
    destruct e; try done. by destruct (He' r b). }
  assert (∀ e : @Event D,
            e ∈ flat_map (λ i, if (init !!! (i + 1) : bool)
                               then [EvSetTape mainThread (tapes0 + i);
                                     EvPropagateMarkToStart (tapes0 + i)]
                               else []) (seq 0 n)
            → ∃ i, e = EvSetTape mainThread i ∨ e = EvPropagateMarkToStart i) as H1'.
  { intros e He. apply list_elem_of_In, in_flat_map in He as (i & _ & He).
    destruct (init !!! (i + 1)); [|done].
    destruct He as [<-|[<-|[]]]; eauto. }
  assert (∀ e : @Event D,
            e ∈ flat_map (λ i, if (init !!! (i + 1) : bool)
                               then map (λ j, EvAdjointAdd p0 (node (params0 !!! j)))
                                      (seq 0 (length params0))
                               else []) (seq 0 n)
            → ∃ q, e = EvAdjointAdd p0 q) as H2'.
  { intros e He. apply list_elem_of_In, in_flat_map in He as (i & _ & He).
    destruct (init !!! (i + 1)); [|done].
    apply in_map_iff in He as (j & <- & _). eauto. }
  rewrite (Hp (flat_map _ _)), (Hs (flat_map _ _)).
  - rewrite (Hp (flat_map _ _)), (Hs (flat_map _ _)); [done|..].
    + intros e He g b ->. by destruct (H2' _ He).
    + intros e He j ->. by destruct (H2' _ He).
  - intros e He g b ->. by destruct (H1' _ He) as [i [?|?]].
  - intros e He j ->. by destruct (H1' _ He) as [i [?|?]].
Qed.

(** The run of [mcParallelSimulAAD]: the state [(L, w1)] when all tasks
    have completed, and what the end of the driver makes of it. *)
Lemma mcParallelSimulAAD_run (pool : Pool) (prd : Product.t D (Number D) (Recorded D))
    (mdl rng nPath : nat) (antithetic : bool) (w : World) :
  mdl < length (amodels w) →
  rng < length (rngs w) →
  tapePtr w mainThread < length (tapes w) →
  ValidSchedule pool (length (spawnLoop nPath 0 nPath)) →
  let m := amodels w !!! mdl in
  let r := rngs w !!! rng in
  let p0 := tapePtr w mainThread in
  let tapes0 := length (tapes w) in
  let nThread := numThreads pool in
  let batches := spawnLoop nPath 0 nPath in
  let params := Model.parameters (M:=MN) (aadSetupModel prd m) in
  ∃ L w1 E,
    aadRunTasks pool prd mdl rng nPath antithetic w = ((tapes0, L), w1)
    ∧ AadInv prd m r mdl rng p0 tapes0 nThread nPath L w1
    ∧ ainit L = foldl (λ l kt, <[kt.2 := true]> l)
                  (<[0 := true]> (replicate (nThread + 1) false)) (schedule pool)
    ∧ acMdl L !!! 0 = Some (length (amodels w))
    ∧ trace w1
      = trace w
        ++ aadSetupEvents mdl rng (length (amodels w)) (length (rngs w)) p0
             (Model.simDim (aadSetupModel prd m))
        ++ E
    ∧ payoffIndices E = flat_map (λ kt, batchIndices (batches !!! kt.1)) (schedule pool)
    ∧ skipCalls E = map (λ kt, skipArg antithetic (batches !!! kt.1).1) (schedule pool)
    ∧ let o := mcParallelSimulAAD pool prd mdl rng nPath antithetic w in
      let tsP := finalPropagate (ainit L) p0 tapes0 nThread (tapes w1) in
      o.1 = (map (λ j, value (aadTaskPayoff prd m antithetic r (64 * (j / 64)) (j mod 64)))
               (seq 0 nPath),
             length (amodels w))
      ∧ models o.2 = models w ∧ amodels o.2 = amodels w1 ∧ rngs o.2 = rngs w1
      ∧ tapes o.2
        = <[p0 := mkTape
                    (finalAccumulate (ainit L) tapes0 nThread params (λ _, params)
                       tsP (nodes (tsP !!! p0)))
                    (markPos (tsP !!! p0))]> tsP
      ∧ (∀ k, tapePtr o.2 k = tapePtr w1 k)
      ∧ trace o.2
        = trace w1 ++ finalPropagateEvents (ainit L) p0 tapes0 nThread
          ++ finalAccumulateEvents (ainit L) p0 nThread params.
Proof.
  intros Hmdl Hrng Hp0 Hvalid m r p0 tapes0 nThread batches params.
  destruct (aadRunTasks_inv pool prd mdl rng nPath antithetic w Hmdl Hrng Hp0 Hvalid)
    as (L & w1 & E & Hrun & HI & Hres & Hinit & HacMdl & Hmodels & Htrace & Hpay & Hskip).
  fold m r p0 tapes0 nThread batches in Hrun, HI, Hres, Hinit, HacMdl, Htrace, Hpay, Hskip.
  exists L, w1, E. split_and!; try done.
  intros o tsP. subst o. unfold mcParallelSimulAAD.
  rewrite bind_run, Hrun. cbn [fst snd]. rewrite bind_run.
  destruct HI as ((Hl1 & Hl2 & Hl3 & Hl4 & Hl5) & _ & (Hptr & Hp0lt & Htl) & Hready).
  assert (ainit L !!! 0 = true) as Hmain.
  { rewrite Hinit. generalize (schedule pool). intros sched.
    assert (∀ l : list bool, l !!! 0 = true
              → foldl (λ l kt, <[kt.2 := true]> l) l sched !!! 0 = true) as Hgen.
    { induction sched as [|kt sched IH]; intros l Hl; [done|]. cbn [foldl]. apply IH.
      destruct (decide (kt.2 = 0)) as [->|Hne].
      - rewrite list_lookup_total_insert; case_decide; done.
      - by rewrite list_lookup_total_insert_ne. }
    apply Hgen. apply list_lookup_total_insert_eq. rewrite length_replicate. lia. }
  destruct (Hready 0 ltac:(lia) Hmain) as (cm & cr & Hcm & Hcmlt & Hm2 & _).
  subst nThread.
  pose proof (aadFinalize_run L p0 tapes0 (numThreads pool) w1 Hptr Hp0lt ltac:(lia))
    as Hfin.
  cbn zeta in Hfin. fold tsP in Hfin.
  destruct (aadFinalize (numThreads pool) tapes0 L w1) as [[] w2]. cbn [fst snd] in *.
  destruct Hfin as (Hm' & Ha' & Hr' & Ht' & Hp' & He').
  rewrite mret_run. cbn [fst snd]. rewrite Hcm in Ht', He' |- *.
  change (deref (Some cm)) with cm in *. rewrite Hm2 in Ht', He'.
  rewrite HacMdl in Hcm. injection Hcm as <-.
  split_and!; try done.
  - by rewrite Hres, map_map.
  - by rewrite Hm'.
  - rewrite Ht'. do 2 f_equal. apply finalAccumulate_ext. intros i Hi Hth.
    destruct (Hready (i + 1) ltac:(lia) Hth) as (cm' & cr' & -> & _ & Hm2' & _).
    change (deref (Some cm')) with cm'. by rewrite Hm2'.
Qed.

(** *** Which threads are initialised, and what is added where *)

Lemma init_fold_lookup (sched : list (nat * nat)) (l : list bool) (th : nat) :
  th < length l →
  foldl (λ l kt, <[kt.2 := true]> l) l sched !!! th = true
  ↔ l !!! th = true ∨ th ∈ map snd sched.
Proof.
  revert l. induction sched as [|kt sched IH]; intros l Hth; cbn [foldl map].
  - split; [by left|]. intros [?|Hin]; [done|]. by apply elem_of_nil in Hin.
  - rewrite IH by (by rewrite length_insert). rewrite elem_of_cons.
    rewrite list_lookup_total_insert. case_decide as Hd.
    + destruct Hd as [-> _]. tauto.
    + split; [tauto|]. intros [?|[->|?]]; [tauto| |tauto].
      exfalso. apply Hd. done.
Qed.

Lemma addParamAdjoints_length (params0 params : list (Number D)) (src dst : list (Node D)) :
  length (addParamAdjoints params0 params src dst) = length dst.
Proof.
  unfold addParamAdjoints. generalize (length params0). intros k.
  induction k as [|k IH]; [done|].
  by rewrite seq_S, foldl_app; cbn [foldl]; rewrite addAdjoint_length.
Qed.

Lemma addParamAdjoints_at (params : list (Number D)) (src dst : list (Node D)) (j : nat) :
  NoDup (map node params) →
  j < length params →
  node (params !!! j) < length dst →
  adjointAt (addParamAdjoints params params src dst) (node (params !!! j))
  = dadd (adjointAt dst (node (params !!! j))) (adjointAt src (node (params !!! j))).
Proof.
  intros Hnd Hj Hlt. unfold addParamAdjoints.
  assert (∀ k, k ≤ length params →
            adjointAt (foldl (λ ns j', addAdjoint (node (params !!! j'))
                                         (adjointAt src (node (params !!! j'))) ns)
                         dst (seq 0 k)) (node (params !!! j))
            = if decide (j < k)
              then dadd (adjointAt dst (node (params !!! j)))
                     (adjointAt src (node (params !!! j)))
              else adjointAt dst (node (params !!! j))) as Hgen.
  { intros k. induction k as [|k IH]; intros Hk; [done|].
    rewrite seq_S, foldl_app. cbn [foldl plus].
    rewrite adjointAt_addAdjoint, IH by lia.
    pose proof (addParamAdjoints_length (take k params) params src dst) as Hlen.
    assert (length (foldl (λ ns j', addAdjoint (node (params !!! j'))
                                      (adjointAt src (node (params !!! j'))) ns)
                      dst (seq 0 k)) = length dst) as ->.
    { clear. induction k as [|k IH]; [done|].
      by rewrite seq_S, foldl_app; cbn [foldl]; rewrite addAdjoint_length. }
    destruct (decide (j = k)) as [->|Hne].
    - rewrite decide_True by done. rewrite decide_False by lia.
      by rewrite decide_True by lia.
    - rewrite decide_False.
      + destruct (decide (j < k)); [by rewrite decide_True by lia|].
        by rewrite decide_False by lia.
      + intros [Heq _]. apply Hne.
        eapply (NoDup_lookup (map node params) j k (node (params !!! j))); [done|..].
        * rewrite list_lookup_fmap, (list_lookup_lookup_total_lt params j) by done. done.
        * rewrite list_lookup_fmap, (list_lookup_lookup_total_lt params k) by lia.
          cbn. by rewrite Heq. }
  rewrite Hgen by done. by rewrite decide_True.
Qed.

Lemma finalAccumulate_length (init : list bool) (tapes0 n : nat) (params0 : list (Number D))
    (paramsOf : nat → list (Number D)) (ts : list (Tape D)) (dst : list (Node D)) :
  length (finalAccumulate init tapes0 n params0 paramsOf ts dst) = length dst.
Proof.
  unfold finalAccumulate. induction n as [|n IH]; [done|].
  rewrite seq_S, foldl_app. cbn [foldl plus].
  destruct (init !!! (n + 1)); by rewrite ?addParamAdjoints_length.
Qed.

Lemma finalAccumulate_at (init : list bool) (tapes0 n : nat) (params : list (Number D))
    (ts : list (Tape D)) (dst : list (Node D)) (j : nat) :
  NoDup (map node params) →
  j < length params →
  node (params !!! j) < length dst →
  adjointAt (finalAccumulate init tapes0 n params (λ _, params) ts dst)
    (node (params !!! j))
  = foldl (λ acc i, if (init !!! (i + 1) : bool)
                    then dadd acc (adjointAt (nodes (ts !!! (tapes0 + i)))
                                     (node (params !!! j)))
                    else acc)
      (adjointAt dst (node (params !!! j))) (seq 0 n).
Proof.
  intros Hnd Hj Hlt. induction n as [|n IH]; [done|].
  pose proof (finalAccumulate_length init tapes0 n params (λ _, params) ts dst) as Hlen.
  unfold finalAccumulate in *. rewrite seq_S, !foldl_app. cbn [foldl plus].
  destruct (init !!! (n + 1)); [|done].
  rewrite addParamAdjoints_at by (done || lia). by rewrite IH.
Qed.

Lemma finalPropagate_main (init : list bool) (p0 tapes0 n : nat) (ts : list (Tape D)) :
  p0 < tapes0 → p0 < length ts →
  finalPropagate init p0 tapes0 n ts !!! p0 = propagateMarkToStart (ts !!! p0)
  ∧ length (finalPropagate init p0 tapes0 n ts) = length ts.
Proof.
  intros Hlt Hlen. unfold finalPropagate. rewrite propagate_fold_length, length_insert.
  split; [|done]. induction n as [|n IH].
  - by apply list_lookup_total_insert_eq.
  - rewrite seq_S, foldl_app. cbn [foldl plus].
    destruct (init !!! (n + 1)); [|done].
    by rewrite list_lookup_total_insert_ne by lia.
Qed.

(** C5.  The end of [mcParallelSimulAAD], [(L, w1)] being the locals
    and the world when all tasks have completed.  A thread is
    initialised exactly when it is the caller or it ran a batch.
    [propagateMarkToStart] is called on the caller's tape, then, for
    each initialised worker in turn, [Number::tape] is pointed to the
    tape of that worker and [propagateMarkToStart] is called; then
    [Number::tape] is pointed to the caller's tape again.  Then, for
    each initialised worker in turn and each parameter in turn, the
    adjoint of the parameter of the worker's clone is added to the
    adjoint of the parameter of the caller's clone: threads that are
    not initialised add nothing, and when the parameters are distinct
    nodes recorded before the mark, the adjoint of each parameter of the
    caller's clone ends as its own plus those of the initialised
    workers.  The model returned is the clone the caller's thread
    made. *)
Theorem parallel_aad_finalisation (pool : Pool) (prd : Product.t D (Number D) (Recorded D))
    (mdl rng nPath : nat) (antithetic : bool) (w : World) :
  mdl < length (amodels w) →
  rng < length (rngs w) →
  tapePtr w mainThread < length (tapes w) →
  ValidSchedule pool (length (spawnLoop nPath 0 nPath)) →
  let m := amodels w !!! mdl in
  let p0 := tapePtr w mainThread in
  let tapes0 := length (tapes w) in
  let nThread := numThreads pool in
  let params := Model.parameters (M:=MN) (aadSetupModel prd m) in
  let mid := aadRunTasks pool prd mdl rng nPath antithetic w in
  let L := mid.1.2 in
  let w1 := mid.2 in
  let tsP := finalPropagate (ainit L) p0 tapes0 nThread (tapes w1) in
  let o := mcParallelSimulAAD pool prd mdl rng nPath antithetic w in
  (∀ th, th ≤ nThread →
     ainit L !!! th = true ↔ th = 0 ∨ th ∈ map snd (schedule pool))
  ∧ (∀ th, th ≤ nThread → ainit L !!! th = true →
       Model.parameters (M:=MN) (amodels w1 !!! deref (acMdl L !!! th)) = params)
  ∧ trace o.2
    = trace w1
      ++ ([EvPropagateMarkToStart p0]
          ++ flat_map (λ i, if (ainit L !!! (i + 1) : bool)
                            then [EvSetTape mainThread (tapes0 + i);
                                  EvPropagateMarkToStart (tapes0 + i)]
                            else []) (seq 0 nThread)
          ++ [EvSetTape mainThread p0])
      ++ flat_map (λ i, if (ainit L !!! (i + 1) : bool)
                        then map (λ j, EvAdjointAdd p0 (node (params !!! j)))
                               (seq 0 (length params))
                        else []) (seq 0 nThread)
  ∧ tapes o.2
    = <[p0 := mkTape
                (finalAccumulate (ainit L) tapes0 nThread params (λ _, params)
                   tsP (nodes (tsP !!! p0)))
                (markPos (tsP !!! p0))]> tsP
  ∧ tsP !!! p0 = propagateMarkToStart (tapes w1 !!! p0)
  ∧ (NoDup (map node params) →
     Forall (λ q, node q < length (aadSetupNodes prd m)) params →
     ∀ j, j < length params →
       adjointAt (nodes (tapes o.2 !!! p0)) (node (params !!! j))
       = foldl (λ acc i, if (ainit L !!! (i + 1) : bool)
                         then dadd acc (adjointAt (nodes (tsP !!! (tapes0 + i)))
                                          (node (params !!! j)))
                         else acc)
           (adjointAt (nodes (tsP !!! p0)) (node (params !!! j))) (seq 0 nThread))
  ∧ tapePtr o.2 mainThread = p0
  ∧ o.1.2 = length (amodels w)
  ∧ acMdl L !!! 0 = Some o.1.2
  ∧ amodels o.2 !!! o.1.2 = aadSetupModel prd m.
Proof.
  intros Hmdl Hrng Hp0 Hvalid m p0 tapes0 nThread params mid L w1 tsP o.
  destruct (mcParallelSimulAAD_run pool prd mdl rng nPath antithetic w Hmdl Hrng Hp0 Hvalid)
    as (L' & w1' & E & Hrun & HI & Hinit & HacMdl & Htrace & Hpay & Hskip & Hfin).
  cbn zeta in Hfin.
  assert (L = L') as HL by (subst L mid; by rewrite Hrun).
  assert (w1 = w1') as Hw1 by (subst w1 mid; by rewrite Hrun).
  clearbody L w1. subst L' w1'. clear mid Hrun.
  fold m p0 tapes0 nThread params in HI, Hinit, HacMdl, Htrace, Hfin.
  fold tsP o in Hfin.
  destruct Hfin as (Ho1 & Hmodels & Hamodels & Hrngs & Htapes & Hptr & Htr).
  destruct HI as ((Hl1 & Hl2 & Hl3 & Hl4 & Hl5) & _ & (Hptr1 & Hp0lt & Htl) & Hready).
  assert (p0 < length (tapes w1)) as Hp0len by lia.
  destruct (finalPropagate_main (ainit L) p0 tapes0 nThread (tapes w1) Hp0lt Hp0len)
    as [HtsP HtsPlen].
  fold tsP in HtsP, HtsPlen.
  assert (ainit L !!! 0 = true) as Hmain.
  { rewrite Hinit. apply init_fold_lookup.
    - rewrite length_insert, length_replicate. lia.
    - left. apply list_lookup_total_insert_eq. rewrite length_replicate. lia. }
  split_and!.
  - intros th Hth. rewrite Hinit, init_fold_lookup
      by (rewrite length_insert, length_replicate; lia).
    rewrite list_lookup_total_insert. case_decide as Hd.
    + destruct Hd as [<- _]. tauto.
    + rewrite lookup_total_replicate_2 by lia. split; [intros [?|?]; [done|by right]|].
      intros [->|?]; [|by right]. exfalso. apply Hd. rewrite length_replicate. lia.
  - intros th Hth Hi.
    destruct (Hready th Hth Hi) as (cm & cr & -> & _ & Hm2 & _).
    change (deref (Some cm)) with cm. by rewrite Hm2.
  - rewrite Htr. unfold finalPropagateEvents, finalAccumulateEvents.
    by rewrite <-!app_assoc.
  - done.
  - done.
  - intros Hnd Hbound j Hj. rewrite Htapes.
    rewrite list_lookup_total_insert_eq by lia. cbn [nodes].
    apply finalAccumulate_at; [done|done|].
    rewrite HtsP. unfold propagateMarkToStart. cbn [nodes].
    rewrite propagateDown_length.
    destruct (Hready 0 ltac:(lia) Hmain) as (_ & _ & _ & _ & _ & _ & _ & _ & _ & Hlen).
    unfold tapeOf in Hlen. rewrite decide_False in Hlen by lia.
    rewrite Forall_forall in Hbound.
    specialize (Hbound (params !!! j) (list_elem_of_lookup_total_2 _ _ Hj)).
    cbn beta in Hbound. lia.
  - rewrite Hptr. done.
  - by rewrite Ho1.
  - by rewrite Ho1.
  - rewrite Ho1, Hamodels. cbn [snd].
    destruct (Hready 0 ltac:(lia) Hmain) as (cm & cr & Hcm & _ & Hm2 & _).
    rewrite HacMdl in Hcm. injection Hcm as <-. done.
Qed.


Section Frame.
Variables (nm : nat) (base : World).

Lemma keeps_ret {A : Type} (a : A) (post : A → Prop) :
  post a → Keeps nm base (mret a : Sim A) post.
Proof. intros Ha w Hw. by rewrite mret_run. Qed.

Lemma keeps_bind {A B : Type} (c : Sim A) (k : A → Sim B) (P : A → Prop) (Q : B → Prop) :
  Keeps nm base c P → (∀ x, P x → Keeps nm base (k x) Q) → Keeps nm base (c ≫= k) Q.
Proof.
  intros Hc Hk w Hw. rewrite bind_run. destruct (Hc w Hw) as [Hw1 Hx].
  by apply Hk.
Qed.

Lemma keeps_weaken {A : Type} (c : Sim A) (P Q : A → Prop) :
  Keeps nm base c P → (∀ x, P x → Q x) → Keeps nm base c Q.
Proof. intros Hc HPQ w Hw. destruct (Hc w Hw). split; [done|]. by apply HPQ. Qed.

Lemma keeps_forRange {St : Type} (i n : nat) (body : nat → St → Sim St) (s : St) :
  (∀ k s, Keeps nm base (body k s) (λ _, True)) →
  Keeps nm base (forRange i n body s) (λ _, True).
Proof.
  intros Hbody w Hw. split; [|done].
  apply (forRange_inv (λ _ w', Untouched nm base w')); [|done].
  intros k s' w' Hw'. by apply Hbody.
Qed.

Lemma keeps_runSchedule {St : Type} (tasks : list (nat → St → Sim St))
    (sched : list (nat * nat)) (s : St) :
  (∀ task th s, task ∈ tasks → Keeps nm base (task th s) (λ _, True)) →
  Keeps nm base (runSchedule tasks sched s) (λ _, True).
Proof.
  intros Htask w Hw. split; [|done].
  apply (runSchedule_inv (λ _ w', Untouched nm base w')); [|done].
  intros task th s' w' Hin Hw'. by apply Htask.
Qed.

(** The calls one by one. *)

Lemma modelClone_keeps (m : nat) :
  Keeps nm base (modelClone m) (λ x, length (models base) ≤ x).
Proof.
  intros w Hw. rewrite modelClone_run. sim_simpl. split; [untouched_call Hw|].
  by destruct (untouched_length _ _ _ Hw) as (? & ? & ?).
Qed.

Lemma amodelClone_keeps (m : nat) :
  Keeps nm base (amodelClone m) (λ x, length (amodels base) ≤ x).
Proof.
  intros w Hw. rewrite amodelClone_run. sim_simpl. split; [untouched_call Hw|].
  by destruct (untouched_length _ _ _ Hw) as (? & ? & ?).
Qed.

Lemma rngClone_keeps (r : nat) :
  Keeps nm base (rngClone r) (λ x, length (rngs base) ≤ x).
Proof.
  intros w Hw. rewrite rngClone_run. sim_simpl. split; [untouched_call Hw|].
  by destruct (untouched_length _ _ _ Hw) as (? & ? & ?).
Qed.

Lemma modelInit_keeps (m : nat) (tl : list D) :
  nm ≤ m → length (models base) ≤ m → Keeps nm base (modelInit m tl) (λ _, True).
Proof. intros ?? w Hw. rewrite modelInit_run. sim_simpl. split; [untouched_call Hw|done]. Qed.

Lemma modelSimDim_keeps (m : nat) : Keeps nm base (modelSimDim m) (λ _, True).
Proof. intros w Hw. by rewrite modelSimDim_run. Qed.

Lemma modelGeneratePath_keeps (m : nat) (g : list D) :
  Keeps nm base (modelGeneratePath m g) (λ _, True).
Proof.
  intros w Hw. rewrite modelGeneratePath_run. sim_simpl. split; [untouched_call Hw|done].
Qed.

Lemma payoffInto_keeps (prd : Product.t D D Plain) (path : list (scenario D))
    (i : nat) (res : list D) :
  Keeps nm base (payoffInto prd path i res) (λ _, True).
Proof. intros w Hw. rewrite payoffInto_run. sim_simpl. split; [untouched_call Hw|done]. Qed.

Lemma rngInit_keeps (r dim : nat) :
  length (rngs base) ≤ r → Keeps nm base (rngInit r dim) (λ _, True).
Proof. intros ? w Hw. rewrite rngInit_run. sim_simpl. split; [untouched_call Hw|done]. Qed.

Lemma rngNextG_keeps (r : nat) :
  length (rngs base) ≤ r → Keeps nm base (rngNextG r) (λ _, True).
Proof. intros ? w Hw. rewrite rngNextG_run. sim_simpl. split; [untouched_call Hw|done]. Qed.

Lemma rngSkipTo_keeps (r : nat) (b : Z) :
  length (rngs base) ≤ r → Keeps nm base (rngSkipTo r b) (λ _, True).
Proof. intros ? w Hw. rewrite rngSkipTo_run. sim_simpl. split; [untouched_call Hw|done]. Qed.

Lemma negate_keeps (g : list D) : Keeps nm base (negate g) (λ _, True).
Proof. intros w Hw. rewrite negate_run. sim_simpl. split; [untouched_call Hw|done]. Qed.

Lemma currentTape_keeps (th : nat) : Keeps nm base (currentTape th) (λ _, True).
Proof. intros w Hw. by rewrite currentTape_run. Qed.

Lemma setCurrentTape_keeps (th tape : nat) : Keeps nm base (setCurrentTape th tape) (λ _, True).
Proof.
  intros w Hw. rewrite setCurrentTape_run. sim_simpl. split; [untouched_call Hw|done].
Qed.

Lemma allocTapes_keeps (n : nat) : Keeps nm base (allocTapes n) (λ _, True).
Proof.
  intros w Hw. rewrite allocTapes_run. sim_simpl. split; [|done].
  by apply untouched_silent.
Qed.

Lemma tapeRewind_keeps (tape : nat) : Keeps nm base (tapeRewind tape) (λ _, True).
Proof. intros w Hw. rewrite tapeRewind_run. sim_simpl. split; [untouched_call Hw|done]. Qed.

Lemma tapeMark_keeps (tape : nat) : Keeps nm base (tapeMark tape) (λ _, True).
Proof. intros w Hw. rewrite tapeMark_run. sim_simpl. split; [untouched_call Hw|done]. Qed.

Lemma tapeRewindToMark_keeps (tape : nat) : Keeps nm base (tapeRewindToMark tape) (λ _, True).
Proof.
  intros w Hw. rewrite tapeRewindToMark_run. sim_simpl. split; [untouched_call Hw|done].
Qed.

Lemma numberPropagateToMark_keeps (th : nat) (x : Number D) (reset : bool) :
  Keeps nm base (numberPropagateToMark th x reset) (λ _, True).
Proof.
  intros w Hw. rewrite numberPropagateToMark_run. sim_simpl. split; [untouched_call Hw|done].
Qed.

Lemma numberPropagateMarkToStart_keeps (th : nat) :
  Keeps nm base (numberPropagateMarkToStart th) (λ _, True).
Proof.
  intros w Hw. rewrite numberPropagateMarkToStart_run. sim_simpl.
  split; [untouched_call Hw|done].
Qed.

Lemma adjointAddFrom_keeps (tx : nat) (x : Number D) (ty : nat) (y : Number D) :
  Keeps nm base (adjointAddFrom tx x ty y) (λ _, True).
Proof.
  intros w Hw. rewrite adjointAddFrom_run. sim_simpl. split; [untouched_call Hw|done].
Qed.

Lemma amodelPutOnTape_keeps (th m : nat) :
  nm ≤ m → length (amodels base) ≤ m → Keeps nm base (amodelPutOnTape th m) (λ _, True).
Proof.
  intros ?? w Hw. rewrite amodelPutOnTape_run. sim_simpl. split; [untouched_call Hw|done].
Qed.

Lemma amodelInit_keeps (th m : nat) (tl : list D) :
  nm ≤ m → length (amodels base) ≤ m → Keeps nm base (amodelInit th m tl) (λ _, True).
Proof.
  intros ?? w Hw. rewrite amodelInit_run. sim_simpl. split; [untouched_call Hw|done].
Qed.

Lemma amodelSimDim_keeps (m : nat) : Keeps nm base (amodelSimDim m) (λ _, True).
Proof. intros w Hw. by rewrite amodelSimDim_run. Qed.

Lemma amodelParameters_keeps (m : nat) : Keeps nm base (amodelParameters m) (λ _, True).
Proof. intros w Hw. by rewrite amodelParameters_run. Qed.

Lemma amodelGeneratePath_keeps (th m : nat) (g : list D) :
  Keeps nm base (amodelGeneratePath th m g) (λ _, True).
Proof.
  intros w Hw. rewrite amodelGeneratePath_run. sim_simpl. split; [untouched_call Hw|done].
Qed.

Lemma apayoffInto_keeps (th : nat) (prd : Product.t D (Number D) (Recorded D))
    (path : list (scenario (Number D))) (i : nat) (res : list (Number D)) :
  Keeps nm base (apayoffInto th prd path i res) (λ _, True).
Proof.
  intros w Hw. rewrite apayoffInto_run. sim_simpl. split; [untouched_call Hw|done].
Qed.

(** One call of a chain, then the rest of it. *)
Ltac keeps_call :=
  lazymatch goal with
  | |- Keeps _ _ (modelClone _) _ => apply modelClone_keeps
  | |- Keeps _ _ (amodelClone _) _ => apply amodelClone_keeps
  | |- Keeps _ _ (rngClone _) _ => apply rngClone_keeps
  | |- Keeps _ _ (modelInit _ _) _ => apply modelInit_keeps
  | |- Keeps _ _ (modelSimDim _) _ => apply modelSimDim_keeps
  | |- Keeps _ _ (modelGeneratePath _ _) _ => apply modelGeneratePath_keeps
  | |- Keeps _ _ (payoffInto _ _ _ _) _ => apply payoffInto_keeps
  | |- Keeps _ _ (rngInit _ _) _ => apply rngInit_keeps
  | |- Keeps _ _ (rngNextG _) _ => apply rngNextG_keeps
  | |- Keeps _ _ (rngSkipTo _ _) _ => apply rngSkipTo_keeps
  | |- Keeps _ _ (negate _) _ => apply negate_keeps
  | |- Keeps _ _ (currentTape _) _ => apply currentTape_keeps
  | |- Keeps _ _ (setCurrentTape _ _) _ => apply setCurrentTape_keeps
  | |- Keeps _ _ (allocTapes _) _ => apply allocTapes_keeps
  | |- Keeps _ _ (tapeRewind _) _ => apply tapeRewind_keeps
  | |- Keeps _ _ (tapeMark _) _ => apply tapeMark_keeps
  | |- Keeps _ _ (tapeRewindToMark _) _ => apply tapeRewindToMark_keeps
  | |- Keeps _ _ (numberPropagateToMark _ _ _) _ => apply numberPropagateToMark_keeps
  | |- Keeps _ _ (numberPropagateMarkToStart _) _ => apply numberPropagateMarkToStart_keeps
  | |- Keeps _ _ (adjointAddFrom _ _ _ _) _ => apply adjointAddFrom_keeps
  | |- Keeps _ _ (amodelPutOnTape _ _) _ => apply amodelPutOnTape_keeps
  | |- Keeps _ _ (amodelInit _ _ _) _ => apply amodelInit_keeps
  | |- Keeps _ _ (amodelSimDim _) _ => apply amodelSimDim_keeps
  | |- Keeps _ _ (amodelParameters _) _ => apply amodelParameters_keeps
  | |- Keeps _ _ (amodelGeneratePath _ _ _) _ => apply amodelGeneratePath_keeps
  | |- Keeps _ _ (apayoffInto _ _ _ _ _) _ => apply apayoffInto_keeps
  end;
  try (cbn beta in *; lia).

Ltac keeps_chain :=
  repeat lazymatch goal with
    | |- Keeps _ _ (mret _) _ => apply keeps_ret; cbn beta in *; first [done | lia]
    | |- Keeps _ _ (_ ≫= _) _ => eapply keeps_bind; [ keeps_call | intros ? ? ]
    end.

Lemma nextGaussian_keeps (antithetic : bool) (rng : nat) (antiPath : bool) (g : list D) :
  length (rngs base) ≤ rng →
  Keeps nm base (nextGaussian antithetic rng antiPath g) (λ _, True).
Proof.
  intros Hrng. unfold nextGaussian.
  destruct antithetic, antiPath; cbn [negb]; keeps_chain.
Qed.

Lemma mcSimulPath_keeps (prd : Product.t D D Plain) (antithetic : bool)
    (cMdl cRng i : nat) (s : bool * list D * list (scenario D) * list D) :
  length (rngs base) ≤ cRng →
  Keeps nm base (mcSimulPath prd antithetic cMdl cRng i s) (λ _, True).
Proof.
  intros Hrng. destruct s as [[[antiPath gaussVec] path] res]. unfold mcSimulPath.
  eapply keeps_bind; [by apply nextGaussian_keeps|intros ag _].
  keeps_chain.
Qed.

Lemma mcSimul_keeps (prd : Product.t D D Plain) (mdl rng nPath : nat) (antithetic : bool) :
  nm ≤ length (models base) →
  Keeps nm base (mcSimul prd mdl rng nPath antithetic) (λ _, True).
Proof.
  intros Hnm. unfold mcSimul. keeps_chain.
  eapply keeps_bind; [|intros s _; by apply keeps_ret].
  apply keeps_forRange. intros k s. by apply mcSimulPath_keeps.
Qed.

Lemma plainTaskPath_keeps (prd : Product.t D D Plain) (antithetic : bool)
    (cMdl taskRng firstPath threadNum i : nat) (s : bool * ParLocals) :
  length (rngs base) ≤ taskRng →
  Keeps nm base (plainTaskPath prd antithetic cMdl taskRng firstPath threadNum i s)
    (λ _, True).
Proof.
  intros Hrng. destruct s as [antiPath L]. unfold plainTaskPath.
  eapply keeps_bind; [by apply nextGaussian_keeps|intros ag _].
  keeps_chain.
Qed.

Lemma plainTask_keeps (prd : Product.t D D Plain) (cMdl cRng : nat) (antithetic : bool)
    (firstPath pathsInTask threadNum : nat) (L : ParLocals) :
  Keeps nm base (plainTask prd cMdl cRng antithetic firstPath pathsInTask threadNum L)
    (λ _, True).
Proof.
  unfold plainTask. keeps_chain.
  eapply keeps_bind; [|intros s _; by apply keeps_ret].
  apply keeps_forRange. intros k s. by apply plainTaskPath_keeps.
Qed.

Lemma mcParallelSimul_keeps (pool : Pool) (prd : Product.t D D Plain) (mdl rng nPath : nat)
    (antithetic : bool) :
  nm ≤ length (models base) →
  Keeps nm base (mcParallelSimul pool prd mdl rng nPath antithetic) (λ _, True).
Proof.
  intros Hnm. unfold mcParallelSimul. keeps_chain.
  eapply keeps_bind; [|intros s _; by apply keeps_ret].
  apply keeps_runSchedule. intros task th s Hin.
  apply list_elem_of_fmap in Hin as ([fp n] & -> & _). apply plainTask_keeps.
Qed.

Lemma mcSimulAADPath_keeps (prd : Product.t D (Number D) (Recorded D)) (antithetic : bool)
    (tape cMdl cRng i : nat)
    (s : bool * list D * list (scenario (Number D)) * list (Number D)) :
  length (rngs base) ≤ cRng →
  Keeps nm base (mcSimulAADPath prd antithetic tape cMdl cRng i s) (λ _, True).
Proof.
  intros Hrng. destruct s as [[[antiPath gaussVec] path] res]. unfold mcSimulAADPath.
  keeps_chain.
  eapply keeps_bind; [by apply nextGaussian_keeps|intros ag _].
  keeps_chain.
Qed.

Lemma mcSimulAAD_keeps (prd : Product.t D (Number D) (Recorded D)) (mdl rng nPath : nat)
    (antithetic : bool) :
  nm ≤ length (amodels base) →
  Keeps nm base (mcSimulAAD prd mdl rng nPath antithetic) (λ _, True).
Proof.
  intros Hnm. unfold mcSimulAAD. keeps_chain.
  eapply keeps_bind; [|intros s _; keeps_chain].
  apply keeps_forRange. intros k s. by apply mcSimulAADPath_keeps.
Qed.

Lemma initSimul_keeps (th : nat) (prd : Product.t D (Number D) (Recorded D))
    (mdl rng : nat) (gaussVec : list D) (path : list (scenario (Number D))) :
  nm ≤ length (amodels base) →
  Keeps nm base (initSimul th prd mdl rng gaussVec path) (λ _, True).
Proof. intros Hnm. unfold initSimul. keeps_chain. Qed.

Lemma aadTaskPath_keeps (prd : Product.t D (Number D) (Recorded D)) (antithetic : bool)
    (taskRng firstPath threadNum i : nat) (s : bool * AADLocals) :
  length (rngs base) ≤ taskRng →
  Keeps nm base (aadTaskPath prd antithetic taskRng firstPath threadNum i s) (λ _, True).
Proof.
  intros Hrng. destruct s as [antiPath L]. unfold aadTaskPath.
  keeps_chain.
  eapply keeps_bind; [by apply nextGaussian_keeps|intros ag _].
  keeps_chain.
Qed.

Lemma aadTaskInit_keeps (prd : Product.t D (Number D) (Recorded D)) (mdl rng threadNum : nat)
    (L : AADLocals) :
  nm ≤ length (amodels base) →
  Keeps nm base (aadTaskInit prd mdl rng threadNum L) (λ _, True).
Proof.
  intros Hnm. unfold aadTaskInit. destruct (negb _); [|by apply keeps_ret].
  eapply keeps_bind; [by apply initSimul_keeps|].
  intros [[[mdlClone rngClone] gaussVec] path] _. by apply keeps_ret.
Qed.

Lemma aadTask_keeps (prd : Product.t D (Number D) (Recorded D)) (mdl rng : nat)
    (antithetic : bool) (tapes firstPath pathsInTask threadNum : nat) (L : AADLocals) :
  nm ≤ length (amodels base) →
  Keeps nm base (aadTask prd mdl rng antithetic tapes firstPath pathsInTask threadNum L)
    (λ _, True).
Proof.
  intros Hnm. unfold aadTask.
  eapply keeps_bind with (P := λ _, True).
  { destruct (decide _); [apply setCurrentTape_keeps|by apply keeps_ret]. }
  intros _ _.
  eapply keeps_bind; [by apply aadTaskInit_keeps|intros L' _].
  keeps_chain.
  eapply keeps_bind; [|intros s _; by apply keeps_ret].
  apply keeps_forRange. intros k s. by apply aadTaskPath_keeps.
Qed.

Lemma aadFinalize_keeps (nThread tapes : nat) (L : AADLocals) :
  Keeps nm base (aadFinalize nThread tapes L) (λ _, True).
Proof.
  unfold aadFinalize. keeps_chain.
  eapply keeps_bind with (P := λ _, True).
  { apply keeps_forRange. intros k []. destruct (ainit L !!! (k + 1)); keeps_chain.
    apply numberPropagateMarkToStart_keeps. }
  intros _ _. keeps_chain.
  apply keeps_forRange. intros k []. destruct (ainit L !!! (k + 1)); keeps_chain.
  apply keeps_forRange. intros j []. apply adjointAddFrom_keeps.
Qed.

Lemma mcParallelSimulAAD_keeps (pool : Pool) (prd : Product.t D (Number D) (Recorded D))
    (mdl rng nPath : nat) (antithetic : bool) :
  nm ≤ length (amodels base) →
  Keeps nm base (mcParallelSimulAAD pool prd mdl rng nPath antithetic) (λ _, True).
Proof.
  intros Hnm. unfold mcParallelSimulAAD.
  eapply keeps_bind with (P := λ _, True).
  { unfold aadRunTasks. keeps_chain.
    eapply keeps_bind; [by apply initSimul_keeps|].
    intros [[[mdlClone rngClone] gaussVec] path] _.
    eapply keeps_bind; [|intros s _; by apply keeps_ret].
    apply keeps_runSchedule. intros task th s Hin.
    apply list_elem_of_fmap in Hin as ([fp n] & -> & _). by apply aadTask_keeps. }
  intros tl _.
  eapply keeps_bind; [apply aadFinalize_keeps|intros _ _; by apply keeps_ret].
Qed.
End Frame.

(** * Further properties of the drivers *)

(** ** [RNG::skipTo] of the base class *)

(** X1.  Within what its [int] counter can count, the loop of the base
    class makes no turn for [b <= 0]; two calls in a row skip what one
    call with the sum skips; and the skip is relative: on a generator
    that has made [k] draws, [skipTo(n)] leads to draw [k + n], not to
    draw [n].  The counter starts from 0 in every call: two calls whose
    sum is beyond [INT_MAX] both return, where the one call with the sum
    overflows the counter. *)
Theorem skipToBase_relative (r : R) :
  (∀ b, (b ≤ 0)%Z → RNG.skipToBase RNG.nextG r b = RNG.Skipped r)
  ∧ (∀ a b, (0 ≤ a)%Z → (0 ≤ b)%Z → (a + b ≤ RNG.INT_MAX)%Z →
       ∃ ra, RNG.skipToBase RNG.nextG r a = RNG.Skipped ra
             ∧ RNG.skipToBase RNG.nextG ra b = RNG.skipToBase RNG.nextG r (a + b)
             ∧ RNG.skipToBase RNG.nextG r (a + b)
               = RNG.Skipped (RNG.skipLoop RNG.nextG (Z.to_nat (a + b)) r))
  ∧ (∀ k n, (Z.of_nat n ≤ RNG.INT_MAX)%Z →
       ∃ r', RNG.skipToBase RNG.nextG (RNG.skipLoop RNG.nextG k r) (Z.of_nat n)
             = RNG.Skipped r'
             ∧ ∀ j, nthDraw r' j = nthDraw r (k + n + j))
  ∧ (∀ a b, (a ≤ RNG.INT_MAX)%Z → (b ≤ RNG.INT_MAX)%Z → (RNG.INT_MAX < a + b)%Z →
       ∃ ra rb, RNG.skipToBase RNG.nextG r a = RNG.Skipped ra
                ∧ RNG.skipToBase RNG.nextG ra b = RNG.Skipped rb
                ∧ RNG.skipToBase RNG.nextG r (a + b) = RNG.CounterOverflow).
Proof.
  split_and!.
  - intros b Hb. rewrite skipToBase_run by (unfold RNG.INT_MAX; lia).
    by replace (Z.to_nat b) with 0 by lia.
  - intros a b Ha Hb Hab. eexists. split; [apply skipToBase_run; lia|].
    rewrite !skipToBase_run by lia. split; [|done].
    by rewrite Z2Nat.inj_add, skipLoop_add by done.
  - intros k n Hn. eexists. split; [by apply skipToBase_run|].
    intros j. unfold nthDraw. by rewrite Nat2Z.id, !skipLoop_add.
  - intros a b Ha Hb Hab. eexists _, _.
    split; [by apply skipToBase_run|]. split; [by apply skipToBase_run|].
    by apply skipToBase_overflow.
Qed.

(** The Gaussian vectors of a task whose generator is where [skipTo]
    of an exact skip-ahead would leave it. *)
Lemma pathGauss_skip_at (antithetic : bool) (r0 : R) (firstPath i : nat) :
  (∀ j, nthDraw (taskRngState antithetic r0 firstPath) j
        = nthDraw r0 (Z.to_nat (skipArg antithetic firstPath) + j)) →
  Nat.even firstPath = true →
  pathGauss antithetic (taskRngState antithetic r0 firstPath) i
  = pathGauss antithetic r0 (firstPath + i).
Proof.
  intros Hat Hev. unfold pathGauss. rewrite !Hat. unfold skipArg.
  destruct antithetic; rewrite Nat2Z.id; [|done].
  apply Nat.even_spec in Hev as [h ->].
  rewrite Nat.even_add, Nat.even_mul. cbn [Nat.even orb].
  replace ((2 * h + i) / 2) with (h + i / 2).
  - rewrite half_double. by destruct (Nat.even i).
  - pose proof (Nat.div_mod_eq i 2) as Hd. pose proof (Nat.mod_upper_bound i 2) as Hm.
    apply (Nat.div_unique _ 2 _ (i mod 2)); lia.
Qed.

(** X2.  A generator that keeps the [skipTo] of the base class (its
    [skipTo] leaves what the loop of the base class leaves, where that
    loop returns) and whose [clone] copies its state makes
    [mcParallelSimul] return what [mcSimul] returns, as long as the
    number of paths is within what the [int] counter of the loop can
    count. *)
Theorem base_skipTo_parallel (pool : Pool) (prd : Product.t D D Plain)
    (mdl rng nPath : nat) (antithetic : bool) (w : World) :
  (∀ r : R, RNG.clone r = r) →
  (∀ (r : R) b, (0 ≤ b ≤ RNG.INT_MAX)%Z →
     RNG.skipToBase RNG.nextG r b = RNG.Skipped (RNG.skipTo r b)) →
  (Z.of_nat nPath ≤ RNG.INT_MAX)%Z →
  ValidSchedule pool (length (spawnLoop nPath 0 nPath)) →
  (mcParallelSimul pool prd mdl rng nPath antithetic w).1
  = (mcSimul prd mdl rng nPath antithetic w).1.
Proof.
  intros Hclone Hskip Hmax Hvalid.
  rewrite mcParallelSimul_run by done. rewrite mcSimul_run. cbn [fst].
  rewrite schedule_result by done. apply map_ext_in. intros j Hj.
  apply in_seq in Hj.
  pose proof (Nat.div_mod_eq j 64) as Hd. pose proof (Nat.mod_upper_bound j 64) as Hm.
  unfold taskPayoff, pathPayoff. rewrite pathGauss_skip_at.
  - by rewrite <-Nat.div_mod_eq.
  - intros i. unfold taskRngState. rewrite Hclone.
    assert (0 ≤ skipArg antithetic (64 * (j / 64)) ≤ RNG.INT_MAX)%Z as Hb.
    { unfold skipArg. destruct antithetic; [|lia].
      pose proof (Nat.div_mod_eq (64 * (j / 64)) 2) as Hd2.
      pose proof (Nat.mod_upper_bound (64 * (j / 64)) 2) as Hm2. lia. }
    pose proof (Hskip (setupRng prd (models w !!! mdl) (rngs w !!! rng)) _ Hb) as Hs.
    rewrite skipToBase_run in Hs by lia. apply Skipped_inj in Hs. rewrite <-Hs.
    unfold nthDraw. by rewrite skipLoop_add.
  - by rewrite Nat.even_mul.
Qed.

(** ** [mcSimul], as a function of its arguments *)

(** X3.  [mcSimul] returns [nPath] payoffs: the payoff of path [i] is that
    of the path the initialised clone of the model generates from the
    Gaussian vector of path [i].  It writes [res[0]], ..., [res[nPath - 1]]
    in this order, adds one model and one generator, the clones, and
    touches neither a [Model<Number>] nor a tape nor [Number::tape]. *)
Theorem mcSimul_payoffs (prd : Product.t D D Plain) (mdl rng nPath : nat)
    (antithetic : bool) (w : World) :
  let m1 := setupModel prd (models w !!! mdl) in
  let r0 := setupRng prd (models w !!! mdl) (rngs w !!! rng) in
  let o := mcSimul prd mdl rng nPath antithetic w in
  o.1 = map (λ i, Product.payoff prd
                    (Model.generatePath (E:=Plain) m1 (pathGauss antithetic r0 i)))
          (seq 0 nPath)
  ∧ length o.1 = nPath
  ∧ models o.2 = models w ++ [m1]
  ∧ rngs o.2 = rngs w ++ [RNG.skipLoop RNG.nextG (drawsUsed antithetic nPath) r0]
  ∧ amodels o.2 = amodels w ∧ tapes o.2 = tapes w ∧ tapePtr o.2 = tapePtr w
  ∧ ∃ E, trace o.2 = trace w ++ E ∧ payoffIndices E = seq 0 nPath ∧ skipCalls E = [].
Proof.
  intros m1 r0 o. subst o. rewrite mcSimul_run. cbn [fst snd models rngs amodels tapes
    tapePtr trace]. fold m1 r0. split_and!; try done.
  - by rewrite length_map, length_seq.
  - eexists. split; [done|]. rewrite payoffIndices_app, skipCalls_app.
    edestruct (paths_written
                 (λ i, pathEvents antithetic (length (models w)) (length (rngs w)) r0 i i)
                 0 nPath) as [-> ->]; [|done].
    intros i. unfold pathEvents. rewrite payoffIndices_app, skipCalls_app.
    by destruct (gaussEvents_silent antithetic (length (rngs w)) i) as [-> ->].
Qed.

(** ** [mcParallelSimul], as a function of its arguments *)

(** X4.  Whatever the generator and the schedule, [mcParallelSimul] returns
    [nPath] payoffs, and the payoff of path [j] is that of the path the
    initialised clone of the model generates from the Gaussian vector
    number [j mod 64] of a clone of the driver's generator moved by
    [skipTo] to the start of the batch of [j].  The driver's own clone
    of the generator is never drawn from; the run adds one model, and
    one generator for the driver and one per task. *)
Theorem mcParallelSimul_payoffs (pool : Pool) (prd : Product.t D D Plain)
    (mdl rng nPath : nat) (antithetic : bool) (w : World) :
  ValidSchedule pool (length (spawnLoop nPath 0 nPath)) →
  let m1 := setupModel prd (models w !!! mdl) in
  let r0 := setupRng prd (models w !!! mdl) (rngs w !!! rng) in
  let o := mcParallelSimul pool prd mdl rng nPath antithetic w in
  o.1 = map (λ j, Product.payoff prd
                    (Model.generatePath (E:=Plain) m1
                       (pathGauss antithetic
                          (RNG.skipTo (RNG.clone r0)
                             (if antithetic then Z.of_nat (64 * (j / 64) / 2)
                              else Z.of_nat (64 * (j / 64))))
                          (j mod 64))))
          (seq 0 nPath)
  ∧ length o.1 = nPath
  ∧ models o.2 = models w ++ [m1]
  ∧ rngs o.2 !!! length (rngs w) = r0
  ∧ length (rngs o.2) = length (rngs w) + 1 + length (spawnLoop nPath 0 nPath)
  ∧ amodels o.2 = amodels w ∧ tapes o.2 = tapes w ∧ tapePtr o.2 = tapePtr w.
Proof.
  intros Hvalid m1 r0 o. subst o. rewrite mcParallelSimul_run by done.
  cbn [fst snd models rngs amodels tapes tapePtr trace]. fold m1 r0.
  rewrite schedule_result by done. split_and!; try done.
  - by rewrite length_map, length_seq.
  - rewrite lookup_total_app_r by done. by rewrite Nat.sub_diag.
  - rewrite !length_app, length_map. cbn [length].
    destruct Hvalid as [Hperm _]. apply Permutation_length in Hperm.
    rewrite length_map, length_seq in Hperm. lia.
Qed.

(** ** The batches *)

Lemma spawnLoop_lookup_fuel (fuel firstPath pathsLeft k : nat) :
  (pathsLeft + 63) / 64 ≤ fuel →
  spawnLoop fuel firstPath pathsLeft !! k
  = if decide (64 * k < pathsLeft)
    then Some (firstPath + 64 * k, (pathsLeft - 64 * k) `min` 64)
    else None.
Proof.
  revert firstPath pathsLeft k.
  induction fuel as [|fuel IH]; intros fp pl k Hle; cbn [spawnLoop]; unfold BATCHSIZE in *.
  - pose proof (Nat.div_mod_eq (pl + 63) 64) as Hd.
    pose proof (Nat.mod_upper_bound (pl + 63) 64) as Hm.
    destruct (decide (64 * k < pl)); [lia|done].
  - destruct (decide (0 < pl)) as [Hpos|Hz].
    + destruct k as [|k]; cbn [lookup list_lookup].
      * rewrite decide_True by lia. do 2 f_equal; lia.
      * rewrite IH.
        -- destruct (decide (64 * k < pl - pl `min` 64)),
                    (decide (64 * S k < pl)); try lia; [|done].
           do 2 f_equal; lia.
        -- pose proof (Nat.div_mod_eq (pl + 63) 64) as Hd.
           pose proof (Nat.mod_upper_bound (pl + 63) 64) as Hm.
           pose proof (Nat.div_mod_eq (pl - pl `min` 64 + 63) 64) as Hd'.
           pose proof (Nat.mod_upper_bound (pl - pl `min` 64 + 63) 64) as Hm'.
           lia.
    + rewrite decide_False by lia. done.
Qed.

(** X5.  The [while (pathsLeft > 0)] loop of the parallel drivers makes
    [ceil (nPath / 64)] turns, whatever bound above that is put on
    their number; every batch it spawns has between 1 and 64 paths. *)
Theorem spawnLoop_turns (nPath : nat) :
  length (spawnLoop nPath 0 nPath) = (nPath + 63) / 64
  ∧ (∀ fuel, (nPath + 63) / 64 ≤ fuel → spawnLoop fuel 0 nPath = spawnLoop nPath 0 nPath)
  ∧ Forall (λ b, 1 ≤ b.2 ≤ 64) (spawnLoop nPath 0 nPath).
Proof.
  split_and!.
  - apply spawnLoop_length.
  - intros fuel Hfuel. apply list_eq. intros k.
    rewrite spawnLoop_lookup_fuel by done. rewrite spawnLoop_lookup by done. done.
  - apply Forall_lookup. intros k b Hb. rewrite spawnLoop_lookup in Hb by done.
    unfold BATCHSIZE in Hb. destruct (decide (64 * k < nPath)); [|done].
    injection Hb as <-. cbn [snd]. lia.
Qed.

(** X6.  Under antithetic sampling a pair of paths [j], [j + 1] with [j]
    even is never split between two batches: both are in the batch of
    [j], which starts at an even path, and wherever the generator of
    that task stands, the Gaussian vector of the second is the negation
    of that of the first. *)
Theorem antithetic_pairs_not_split (nPath j : nat) :
  Nat.even j = true →
  j + 1 < nPath →
  (∃ b, spawnLoop nPath 0 nPath !! (j / 64) = Some b
        ∧ Nat.even b.1 = true
        ∧ b.1 ≤ j ∧ j + 1 < b.1 + b.2)
  ∧ (j + 1) / 64 = j / 64
  ∧ ∀ (r : R) i, Nat.even i = true →
      pathGauss true r (i + 1) = map dneg (pathGauss true r i).
Proof.
  intros Hev Hj.
  pose proof (Nat.div_mod_eq j 64) as Hd. pose proof (Nat.mod_upper_bound j 64) as Hm.
  apply Nat.even_spec in Hev as [h Hh].
  assert (j mod 64 ≠ 63) as Hodd.
  { intros H63. rewrite H63 in Hd. lia. }
  split_and!.
  - destruct (spawnLoop_batch nPath j) as [Hb Hr]; [lia|].
    eexists. split; [exact Hb|]. cbn [fst snd]. split_and!; [|lia|lia].
    by rewrite Nat.even_mul.
  - symmetry. apply (Nat.div_unique (j + 1) 64 (j / 64) (j mod 64 + 1)); lia.
  - intros r i Hi. unfold pathGauss. rewrite Hi.
    apply Nat.even_spec in Hi as [h' ->].
    rewrite Nat.even_add, Nat.even_mul. cbn [Nat.even orb Bool.eqb].
    by rewrite half_double, half_double_succ.
Qed.

(** ** [mcParallelSimulAAD] against [mcSimulAAD] *)

(** X7.  With a generator whose [skipTo] is an exact skip-ahead,
    [mcParallelSimulAAD] returns the payoffs [mcSimulAAD] returns on the
    same arguments, and the same model, whatever the schedule. *)
Theorem parallel_aad_matches_sequential (pool : Pool)
    (prd : Product.t D (Number D) (Recorded D)) (mdl rng nPath : nat)
    (antithetic : bool) (w : World) :
  ExactSkipAhead →
  mdl < length (amodels w) →
  rng < length (rngs w) →
  tapePtr w mainThread < length (tapes w) →
  ValidSchedule pool (length (spawnLoop nPath 0 nPath)) →
  (mcParallelSimulAAD pool prd mdl rng nPath antithetic w).1
  = (mcSimulAAD prd mdl rng nPath antithetic w).1.
Proof.
  intros Hexact Hmdl Hrng Hp0 Hvalid.
  destruct (mcParallelSimulAAD_run pool prd mdl rng nPath antithetic w Hmdl Hrng Hp0 Hvalid)
    as (L & w1 & E & _ & _ & _ & _ & _ & _ & _ & Hfin).
  cbn zeta in Hfin. destruct Hfin as [-> _].
  rewrite mcSimulAAD_run by done. cbn [fst]. f_equal. rewrite map_map.
  apply map_ext. intros j. f_equal.
  unfold aadTaskPayoff, aadPathNumber, aadPathPay, aadPathGen, aadSetupTape.
  cbn [markPos]. rewrite pathGauss_skip; [|done|].
  - by rewrite <-Nat.div_mod_eq.
  - by rewrite Nat.even_mul.
Qed.

(** ** The size of the tape *)

(** X8.  However many paths [mcSimulAAD] simulates, the tape it leaves
    holds the nodes of the set-up and those of the last path, no more:
    every path starts by a rewind to the mark. *)
Theorem mcSimulAAD_tape_size (prd : Product.t D (Number D) (Recorded D))
    (mdl rng nPath : nat) (antithetic : bool) (w : World) :
  tapePtr w mainThread < length (tapes w) →
  let m := amodels w !!! mdl in
  let m2 := aadSetupModel prd m in
  let mk := length (aadSetupNodes prd m) in
  let r0 := aadSetupRng prd m (rngs w !!! rng) in
  let t := tapes (mcSimulAAD prd mdl rng nPath antithetic w).2 !!! tapePtr w mainThread in
  markPos t = mk
  ∧ length (nodes t)
    = mk + match nPath with
           | 0 => 0
           | S n => length (aadPathNodes prd m2 mk antithetic r0 n)
           end.
Proof.
  intros Hp0 m m2 mk r0 t. subst t. rewrite mcSimulAAD_run by done.
  cbn [snd tapes]. rewrite list_lookup_total_insert_eq by done.
  unfold propagateMarkToStart. cbn [markPos nodes]. rewrite propagateDown_length.
  fold m m2 r0. unfold aadSetupTape. cbn [markPos]. fold mk.
  split.
  - rewrite (aadTapeAfter_markPos prd antithetic m2 r0
               (mkTape (map freshNode (aadSetupNodes prd m)) mk) nPath). done.
  - destruct nPath as [|n].
    + cbn. rewrite length_map. subst mk. lia.
    + cbn [aadTapeAfter]. unfold aadPathTape.
      rewrite propagateToMark_length, recordNodes_length.
      rewrite (aadTapeAfter_rewound prd antithetic m2 r0
                 (mkTape (map freshNode (aadSetupNodes prd m)) mk) n).
      * done.
      * cbn [markPos nodes]. rewrite length_map. subst mk. lia.
Qed.

(** ** What [mcSimulAAD] does to the tapes *)

(** X9.  [mcSimulAAD] starts by rewinding the caller's tape: whatever that
    tape held before the call is lost, and nothing the call returns or
    leaves depends on it.  The call touches no other tape, adds none,
    and leaves [Number::tape] where it was. *)
Theorem mcSimulAAD_wipes_tape (prd : Product.t D (Number D) (Recorded D))
    (mdl rng nPath : nat) (antithetic : bool) (w : World) (t : Tape D) :
  tapePtr w mainThread < length (tapes w) →
  let p0 := tapePtr w mainThread in
  let w' := mkWorld (models w) (amodels w) (rngs w) (<[p0 := t]> (tapes w))
              (tapePtr w) (trace w) in
  let o := mcSimulAAD prd mdl rng nPath antithetic w in
  mcSimulAAD prd mdl rng nPath antithetic w' = o
  ∧ (∀ k, k ≠ p0 → tapes o.2 !!! k = tapes w !!! k)
  ∧ length (tapes o.2) = length (tapes w)
  ∧ tapePtr o.2 = tapePtr w.
Proof.
  intros Hp0 p0 w' o. subst o.
  rewrite (mcSimulAAD_run prd mdl rng nPath antithetic w) by done.
  rewrite (mcSimulAAD_run prd mdl rng nPath antithetic w')
    by (subst w'; cbn [tapePtr tapes]; by rewrite length_insert).
  subst w'. cbn [fst snd models amodels rngs tapes tapePtr trace]. fold p0.
  split_and!; try done.
  - by rewrite list_insert_insert_eq.
  - intros k Hk. by apply list_lookup_total_insert_ne.
  - by rewrite length_insert.
Qed.

(** ** [mcSimulAAD] against [mcSimul] *)

(** X10.  When the [Model<Number>] and the [Product<Number>] compute the
    values their [double] counterparts compute (the relation [rel]
    between the two models is kept by [clone], [putOnTape] and [init],
    related models have the same dimension and generate paths with the
    same values, and the payoffs of paths with the same values have the
    same value), [mcSimulAAD] returns the payoffs [mcSimul] returns:
    recording changes no value, and both drivers consume the same
    Gaussian vectors. *)
Theorem mcSimulAAD_values (prd : Product.t D D Plain)
    (aprd : Product.t D (Number D) (Recorded D)) (rel : MD → MN → Prop)
    (mdl amdl rng nPath : nat) (antithetic : bool) (w : World) :
  (∀ md mn, rel md mn → rel (Model.clone md) (Model.clone mn)) →
  (∀ md mn base, rel md mn → rel md (Model.putOnTape (M:=MN) mn base).1) →
  (∀ md mn tl base, rel md mn →
     rel (Model.init (E:=Plain) md tl) (Model.init (M:=MN) mn tl base).1) →
  (∀ md mn, rel md mn → Model.simDim md = Model.simDim mn) →
  (∀ md mn g base, rel md mn →
     map (λ sc, value (spot sc)) (Model.generatePath (M:=MN) mn g base).1
     = map spot (Model.generatePath (E:=Plain) md g : list (scenario D))) →
  (∀ path apath base, map (λ sc, value (spot sc)) apath = map spot path →
     value (Product.payoff aprd apath base).1 = Product.payoff prd path) →
  Product.timeline aprd = Product.timeline prd →
  rel (models w !!! mdl) (amodels w !!! amdl) →
  tapePtr w mainThread < length (tapes w) →
  (mcSimulAAD aprd amdl rng nPath antithetic w).1.1
  = (mcSimul prd mdl rng nPath antithetic w).1.
Proof.
  intros Hclone Hput Hinit Hdim Hgen Hpay Htl Hrel Hp0.
  rewrite mcSimulAAD_run by done. rewrite mcSimul_run. cbn [fst].
  rewrite map_map. apply map_ext. intros i.
  assert (rel (setupModel prd (models w !!! mdl)) (aadSetupModel aprd (amodels w !!! amdl)))
    as Hrel2.
  { unfold setupModel, aadSetupModel, aadSetupInit, aadSetupPut. rewrite Htl.
    apply Hinit, Hput, Hclone, Hrel. }
  unfold aadPathNumber, aadPathPay, aadPathGen, pathPayoff.
  apply Hpay. rewrite (Hgen _ _ _ _ Hrel2). do 3 f_equal.
  unfold aadSetupRng, setupRng. by rewrite (Hdim _ _ Hrel2).
Qed.

(** ** The adjoints [mcParallelSimulAAD] accumulates *)

Lemma finalPropagate_above (init : list bool) (p0 tapes0 n : nat) (ts : list (Tape D))
    (k : nat) :
  p0 < tapes0 → tapes0 + n ≤ k →
  finalPropagate init p0 tapes0 n ts !!! k = ts !!! k.
Proof.
  intros Hp. unfold finalPropagate. induction n as [|n IH]; intros Hk.
  - cbn [seq foldl]. apply list_lookup_total_insert_ne. lia.
  - rewrite seq_S, foldl_app. cbn [foldl plus].
    destruct (init !!! (n + 1)); [|apply IH; lia].
    rewrite list_lookup_total_insert_ne by lia. apply IH. lia.
Qed.

Lemma finalPropagate_worker (init : list bool) (p0 tapes0 n : nat) (ts : list (Tape D))
    (i : nat) :
  p0 < tapes0 → i < n → tapes0 + i < length ts → init !!! (i + 1) = true →
  finalPropagate init p0 tapes0 n ts !!! (tapes0 + i)
  = propagateMarkToStart (ts !!! (tapes0 + i)).
Proof.
  intros Hp Hi Hlen Hinit. induction n as [|n IH]; [lia|].
  pose proof (finalPropagate_above init p0 tapes0 n ts (tapes0 + n) Hp) as Habove.
  unfold finalPropagate in *. rewrite seq_S, foldl_app. cbn [foldl plus].
  destruct (decide (i = n)) as [->|Hne].
  - rewrite Hinit, list_lookup_total_insert_eq
      by (by rewrite propagate_fold_length, length_insert).
    by rewrite Habove.
  - destruct (init !!! (n + 1)); [|apply IH; lia].
    rewrite list_lookup_total_insert_ne by lia. apply IH. lia.
Qed.

Lemma aadPath_skip (prd : Product.t D (Number D) (Recorded D)) (m2 : MN) (mk : nat)
    (antithetic : bool) (r0 : R) (firstPath i : nat) :
  ExactSkipAhead → Nat.even firstPath = true →
  aadPathNodes prd m2 mk antithetic (taskRngState antithetic r0 firstPath) i
  = aadPathNodes prd m2 mk antithetic r0 (firstPath + i)
  ∧ aadPathNumber prd m2 mk antithetic (taskRngState antithetic r0 firstPath) i
    = aadPathNumber prd m2 mk antithetic r0 (firstPath + i).
Proof.
  intros Hexact Hev. unfold aadPathNodes, aadPathNumber, aadPathPay, aadPathGen.
  by rewrite pathGauss_skip.
Qed.

Section ParallelAdjoints.
(** Exact arithmetic: the laws of a commutative ring. *)
Hypothesis Dring :
  ring_theory dzero dunit dadd dmul (λ x y, dadd x (dneg y)) dneg eq.

Add Ring Dexact2 : Dring.

Lemma sumList_app (l l' : list D) : sumList (l ++ l') = dadd (sumList l) (sumList l').
Proof.
  unfold sumList. induction l as [|x l IH]; cbn [app foldr]; [ring|]. rewrite IH. ring.
Qed.

Lemma sumList_perm (l l' : list D) : l ≡ₚ l' → sumList l = sumList l'.
Proof.
  unfold sumList. induction 1 as [|x l l' _ IH|x y l|l l' l'' _ IH _ IH'];
    cbn [foldr]; [done|by rewrite IH|ring|congruence].
Qed.

Lemma sumList_seq (n : nat) (f : nat → D) : sumList (map f (seq 0 n)) = bigsum n f.
Proof.
  induction n as [|n IH]; [done|].
  rewrite seq_S, map_app, sumList_app, IH. unfold sumList. cbn [map foldr bigsum plus]. ring.
Qed.

(** Summing batch by batch is summing path by path. *)
Lemma bigsum_batches (nPath nb : nat) (d : nat → D) :
  bigsum nb (λ k, bigsum ((nPath - 64 * k) `min` 64) (λ i, d (64 * k + i)))
  = bigsum ((64 * nb) `min` nPath) d.
Proof.
  induction nb as [|nb IH]; [done|]. cbn [bigsum]. rewrite IH.
  destruct (decide (64 * nb < nPath)).
  - replace ((64 * S nb) `min` nPath) with (64 * nb + (nPath - 64 * nb) `min` 64) by lia.
    replace ((64 * nb) `min` nPath) with (64 * nb) by lia.
    by rewrite (bigsum_split Dring).
  - replace ((nPath - 64 * nb) `min` 64) with 0 by lia.
    replace ((64 * S nb) `min` nPath) with nPath by lia.
    replace ((64 * nb) `min` nPath) with nPath by lia. cbn [bigsum]. ring.
Qed.

Lemma foldl_cond_bigsum (c : nat → bool) (g : nat → D) (a0 : D) (n : nat) :
  foldl (λ acc i, if c i then dadd acc (g i) else acc) a0 (seq 0 n)
  = dadd a0 (bigsum n (λ i, if c i then g i else dzero)).
Proof.
  induction n as [|n IH]; [cbn [seq foldl bigsum]; ring|].
  rewrite seq_S, foldl_app. cbn [foldl plus bigsum]. rewrite IH. destruct (c n); ring.
Qed.

(** A tape the set-up has just left holds nothing before the mark. *)
Lemma setupTape_Phi (prd : Product.t D (Number D) (Recorded D)) (m : MN) (q : nat) :
  map nargs (take (length (aadSetupNodes prd m)) (nodes (aadSetupTape prd m)))
  = aadSetupNodes prd m
  ∧ Phi q (aadSetupNodes prd m)
      (take (length (aadSetupNodes prd m)) (nodes (aadSetupTape prd m))) = dzero.
Proof.
  unfold aadSetupTape. cbn [nodes]. generalize (aadSetupNodes prd m). intros P.
  assert (take (length P) (map freshNode P) = map freshNode P) as ->.
  { apply take_ge. by rewrite length_map. }
  split.
  - rewrite <-list_fmap_compose. apply list_fmap_id.
  - unfold Phi. rewrite (bigsum_ext _ _ (λ _, dzero)).
    + by apply bigsum_zero.
    + intros i Hi. replace (adjointAt (map freshNode P) i) with (dzero : D); [ring|].
      unfold adjointAt. rewrite list_lookup_fmap. by destruct (P !! i).
Qed.

(** The paths of a task, from whatever the tape of its thread holds
    when the task starts: what the nodes before the mark hold grows by
    the derivatives of the payoffs of the task. *)
Lemma aadTapeAfter_Phi_from (prd : Product.t D (Number D) (Recorded D)) (m2 : MN)
    (antithetic : bool) (r1 : R) (P : list (NodeArgs D)) (q n : nat) (t : Tape D) :
  markPos t = length P →
  map nargs (take (length P) (nodes t)) = P →
  (∀ i, i < n →
     wfNodesFrom 0 (P ++ aadPathNodes prd m2 (length P) antithetic r1 i) = true
     ∧ length P ≤ node (aadPathNumber prd m2 (length P) antithetic r1 i)
                < length P + length (aadPathNodes prd m2 (length P) antithetic r1 i)) →
  q < length P →
  map nargs (take (length P) (nodes (aadTapeAfter prd m2 (length P) antithetic r1 n t))) = P
  ∧ Phi q P (take (length P) (nodes (aadTapeAfter prd m2 (length P) antithetic r1 n t)))
    = dadd (Phi q P (take (length P) (nodes t)))
        (bigsum n (λ i, derivative (P ++ aadPathNodes prd m2 (length P) antithetic r1 i) q
                          (node (aadPathNumber prd m2 (length P) antithetic r1 i)))).
Proof.
  intros Hmk0 HP Hok Hq. induction n as [|n IH].
  - cbn [aadTapeAfter bigsum]. split; [done|ring].
  - destruct IH as [IHs IHp]; [intros i Hi; apply Hok; lia|].
    destruct (Hok n) as [Hwf Hr]; [lia|].
    cbn [aadTapeAfter bigsum]. unfold aadPathTape.
    unfold propagateToMark, recordNodes, rewindToMark. cbn [nodes markPos].
    pose proof (aadTapeAfter_markPos prd antithetic m2 r1 t n) as Hmk.
    rewrite Hmk0 in Hmk. rewrite !Hmk.
    pose proof (Phi_path Dring q P (aadPathNodes prd m2 (length P) antithetic r1 n)
                  (take (length P) (nodes (aadTapeAfter prd m2 (length P) antithetic r1 n t)))
                  (node (aadPathNumber prd m2 (length P) antithetic r1 n))
                  IHs Hwf Hr Hq) as [Hp Hs].
    split; [done|]. rewrite Hp, IHp. ring.
Qed.

Section Tasks.
Variables (prd : Product.t D (Number D) (Recorded D)) (antithetic : bool).
Variables (m : MN) (r : R) (mdl rng p0 tapes0 nThread nPath q : nat).
Hypothesis Hq : q < length (aadSetupNodes prd m).

(** The tape of its thread when a task has initialised the thread. *)
Lemma aadTask_prepare_tape (th : nat) (L : AADLocals) (w : World) :
  AadInv prd m r mdl rng p0 tapes0 nThread nPath L w →
  th ≤ nThread →
  tapes (((if decide (0 < th)
           then setCurrentTape th (tapes0 + (th - 1))
           else mret tt);;
          aadTaskInit prd mdl rng th L) w).2 !!! tapeOf p0 tapes0 th
  = if (ainit L !!! th : bool) then tapes w !!! tapeOf p0 tapes0 th
    else aadSetupTape prd m.
Proof.
  intros ((Hl1 & Hl2 & Hl3 & Hl4 & Hl5) & (Hmdl & Hm & Hrng & Hr) & (Hp0 & Hp0lt & Htl)
          & Hready) Hth.
  rewrite bind_run, aadTask_setTape_run. cbn [fst snd].
  set (w0 := mkWorld _ _ _ _ _ _).
  assert (tapePtr w0 th = tapeOf p0 tapes0 th) as HT.
  { subst w0. unfold tapeOf. cbn [tapePtr].
    destruct (decide (0 < th)); [by rewrite decide_True|].
    replace th with mainThread by (unfold mainThread; lia). done. }
  assert (tapeOf p0 tapes0 th < length (tapes w)) as HTlt
    by (rewrite Htl; by apply tapeOf_lt).
  rewrite aadTaskInit_run by (by rewrite HT).
  destruct (ainit L !!! th) eqn:Hinit; [done|].
  cbn zeta. subst w0. cbn [snd models amodels rngs tapes tapePtr trace] in *.
  rewrite HT, Hm. by apply list_lookup_total_insert_eq.
Qed.

(** The tape of its thread when a task has completed. *)
Lemma aadTask_tape (firstPath pathsInTask th : nat) (L : AADLocals) (w : World) :
  AadInv prd m r mdl rng p0 tapes0 nThread nPath L w →
  th ≤ nThread →
  firstPath + pathsInTask ≤ nPath →
  tapes (aadTask prd mdl rng antithetic tapes0 firstPath pathsInTask th L w).2
    !!! tapeOf p0 tapes0 th
  = aadTapeAfter prd (aadSetupModel prd m) (length (aadSetupNodes prd m)) antithetic
      (taskRngState antithetic (aadSetupRng prd m r) firstPath) pathsInTask
      (if (ainit L !!! th : bool) then tapes w !!! tapeOf p0 tapes0 th
       else aadSetupTape prd m).
Proof.
  intros HI Hth Hfp.
  pose proof (aadTask_prepare_tape th L w HI Hth) as Htape.
  destruct (aadTask_prepare prd m r mdl rng p0 tapes0 nThread nPath th L w HI Hth)
    as (L1 & w1 & Hrun & HI1 & Hready & HT & _).
  rewrite Hrun in Htape. cbn [snd] in Htape.
  rewrite bind_run in Hrun.
  unfold aadTask. rewrite bind_run, bind_run, Hrun. cbn [fst snd].
  destruct HI1 as ((Hl1 & Hl2 & Hl3 & Hl4 & Hl5) & _ & (Hp0 & Hp0lt & Htl) & _).
  destruct Hready as (cm & cr & Hcm & Hcmlt & Hm2 & Hcr & Hcrlt & Hrs & Hmk & Hlen).
  assert (tapeOf p0 tapes0 th < length (tapes w1)) as HTlt
    by (rewrite Htl; by apply tapeOf_lt).
  rewrite (aadTask_batch prd antithetic m r firstPath pathsInTask th (tapeOf p0 tapes0 th)
             cm cr L1 w1) by (done || lia).
  cbn [snd tapes]. rewrite list_lookup_total_insert_eq by done. by rewrite Htape.
Qed.

(** A task adds the derivatives of its payoffs to what the tapes
    hold, on the tape of its thread. *)
Lemma aadTask_adjoints (firstPath pathsInTask th : nat) (L : AADLocals) (w : World) :
  AadInv prd m r mdl rng p0 tapes0 nThread nPath L w →
  TapesSetUp prd m p0 tapes0 nThread (ainit L) (tapes w) →
  th ≤ nThread →
  firstPath + pathsInTask ≤ nPath →
  TaskRecordingOk prd m antithetic r (firstPath, pathsInTask) →
  let o := aadTask prd mdl rng antithetic tapes0 firstPath pathsInTask th L w in
  TapesSetUp prd m p0 tapes0 nThread (ainit o.1) (tapes o.2)
  ∧ heldAdjoints prd m q p0 tapes0 nThread (ainit o.1) (tapes o.2)
    = dadd (heldAdjoints prd m q p0 tapes0 nThread (ainit L) (tapes w))
        (aadBatchDerivative prd m antithetic r q (firstPath, pathsInTask)).
Proof.
  intros HI HS Hth Hfp Hok o.
  pose proof (aadTask_tape firstPath pathsInTask th L w HI Hth Hfp) as Htape.
  destruct (aadTask_inv prd antithetic m r mdl rng p0 tapes0 nThread nPath
              firstPath pathsInTask th L w HI Hth Hfp)
    as (L' & w' & Hrun & HI' & _ & Hinit & _ & _ & _ & _ & Hothers & _).
  subst o. rewrite Hrun in Htape |- *. cbn [fst snd] in *.
  destruct HI as ((_ & _ & _ & Hl4 & _) & _ & (_ & Hp0lt & _) & Hready).
  assert (markPos (if (ainit L !!! th : bool) then tapes w !!! tapeOf p0 tapes0 th
                   else aadSetupTape prd m) = length (aadSetupNodes prd m)
          ∧ map nargs (take (length (aadSetupNodes prd m))
                         (nodes (if (ainit L !!! th : bool)
                                 then tapes w !!! tapeOf p0 tapes0 th
                                 else aadSetupTape prd m))) = aadSetupNodes prd m
          ∧ (if (ainit L !!! th : bool)
             then Phi q (aadSetupNodes prd m)
                    (take (length (aadSetupNodes prd m))
                       (nodes (tapes w !!! tapeOf p0 tapes0 th)))
             else dzero)
            = Phi q (aadSetupNodes prd m)
                (take (length (aadSetupNodes prd m))
                   (nodes (if (ainit L !!! th : bool)
                           then tapes w !!! tapeOf p0 tapes0 th
                           else aadSetupTape prd m)))) as (Hmk0 & HP0 & Hphi0).
  { destruct (ainit L !!! th) eqn:Hi.
    - destruct (Hready th Hth Hi) as (cm & cr & _ & _ & _ & _ & _ & _ & Hmk & _).
      split_and!; [done|by apply HS|done].
    - destruct (setupTape_Phi prd m q) as [HsP Hs0].
      split_and!; [unfold aadSetupTape; cbn [markPos]; done|done|by rewrite Hs0]. }
  destruct (aadTapeAfter_Phi_from prd (aadSetupModel prd m) antithetic
              (taskRngState antithetic (aadSetupRng prd m r) firstPath)
              (aadSetupNodes prd m) q pathsInTask _ Hmk0 HP0 Hok Hq) as [HsP Hphi].
  rewrite <-Htape in HsP, Hphi.
  split.
  - intros th' Hth' Hi'. destruct (decide (th' = th)) as [->|Hne]; [done|].
    rewrite Hinit, list_lookup_total_insert_ne in Hi' by done.
    rewrite Hothers; [by apply HS|]. intros Heq. apply Hne.
    exact (tapeOf_inj p0 tapes0 th' th Hp0lt Heq).
  - unfold heldAdjoints. apply (bigsum_update Dring _ _ _ th); [lia| |].
    + intros th' Hth' Hne. rewrite Hinit, list_lookup_total_insert_ne by done.
      rewrite Hothers; [done|]. intros Heq. apply Hne.
      exact (tapeOf_inj p0 tapes0 th' th Hp0lt Heq).
    + rewrite Hinit, list_lookup_total_insert_eq by lia. by rewrite Hphi, Hphi0.
Qed.

(** The tasks in the order they run. *)
Lemma aadSchedule_adjoints (batches sched : list (nat * nat)) (L : AADLocals)
    (w : World) :
  AadInv prd m r mdl rng p0 tapes0 nThread nPath L w →
  TapesSetUp prd m p0 tapes0 nThread (ainit L) (tapes w) →
  Forall (λ b, b.1 + b.2 ≤ nPath) batches →
  Forall (TaskRecordingOk prd m antithetic r) batches →
  Forall (λ kt, kt.1 < length batches ∧ kt.2 ≤ nThread) sched →
  let o := runSchedule (map (λ b, aadTask prd mdl rng antithetic tapes0 b.1 b.2) batches)
             sched L w in
  TapesSetUp prd m p0 tapes0 nThread (ainit o.1) (tapes o.2)
  ∧ heldAdjoints prd m q p0 tapes0 nThread (ainit o.1) (tapes o.2)
    = dadd (heldAdjoints prd m q p0 tapes0 nThread (ainit L) (tapes w))
        (sumList (map (λ kt, aadBatchDerivative prd m antithetic r q (batches !!! kt.1))
                    sched)).
Proof.
  intros HI HS Hbatches Hoks Hsched. cbn zeta. revert L w HI HS.
  induction Hsched as [|[k th] sched [Hk Hth] Hsched IH]; intros L w HI HS.
  - cbn [runSchedule map]. rewrite mret_run. cbn [fst snd]. split; [done|].
    unfold sumList. cbn [foldr]. ring.
  - cbn [fst snd] in Hk, Hth. cbn [runSchedule]. rewrite bind_run.
    rewrite list_lookup_fmap, (list_lookup_lookup_total_lt batches k Hk).
    cbn [fmap option_fmap option_map].
    assert ((batches !!! k).1 + (batches !!! k).2 ≤ nPath) as Hb.
    { rewrite Forall_forall in Hbatches. apply Hbatches.
      by apply list_elem_of_lookup_total_2. }
    assert (TaskRecordingOk prd m antithetic r (batches !!! k)) as Hok.
    { rewrite Forall_forall in Hoks. apply Hoks.
      by apply list_elem_of_lookup_total_2. }
    cbn [map fst]. destruct (batches !!! k) as [fp c] eqn:Hbk. cbn [fst snd] in Hb |- *.
    destruct (aadTask_adjoints fp c th L w HI HS Hth Hb Hok) as [HS1 Hheld1].
    destruct (aadTask_inv prd antithetic m r mdl rng p0 tapes0 nThread nPath
                fp c th L w HI Hth Hb) as (L1 & w1 & Hrun & HI1 & _).
    rewrite Hrun in HS1, Hheld1 |- *. cbn [fst snd] in *.
    destruct (IH L1 w1 HI1 HS1) as [HS' Hheld'].
    split; [done|]. rewrite Hheld', Hheld1. unfold sumList. cbn [foldr]. ring.
Qed.
End Tasks.

(** [mcParallelSimulAAD] up to the point where all tasks have
    completed: what the tapes hold is the sum over the tasks, in the
    order they ran, of the derivatives of their payoffs. *)
Lemma aadRunTasks_adjoints (pool : Pool) (prd : Product.t D (Number D) (Recorded D))
    (mdl rng nPath : nat) (antithetic : bool) (q : nat) (w : World) :
  mdl < length (amodels w) →
  rng < length (rngs w) →
  tapePtr w mainThread < length (tapes w) →
  ValidSchedule pool (length (spawnLoop nPath 0 nPath)) →
  let m := amodels w !!! mdl in
  let r := rngs w !!! rng in
  let p0 := tapePtr w mainThread in
  let tapes0 := length (tapes w) in
  let batches := spawnLoop nPath 0 nPath in
  q < length (aadSetupNodes prd m) →
  Forall (TaskRecordingOk prd m antithetic r) batches →
  let mid := aadRunTasks pool prd mdl rng nPath antithetic w in
  TapesSetUp prd m p0 tapes0 (numThreads pool) (ainit mid.1.2) (tapes mid.2)
  ∧ heldAdjoints prd m q p0 tapes0 (numThreads pool) (ainit mid.1.2) (tapes mid.2)
    = sumList (map (λ kt, aadBatchDerivative prd m antithetic r q (batches !!! kt.1))
                 (schedule pool)).
Proof.
  intros Hmdl Hrng Hp0 Hvalid m r p0 tapes0 batches Hq Hoks mid. subst mid.
  unfold aadRunTasks. do 3 sim_step.
  rewrite initSimul_run by (cbn [tapePtr tapes]; rewrite length_app; lia).
  cbn [fst snd amodels rngs tapes tapePtr trace]. fold m r p0 tapes0 batches.
  set (L0 := mkAADLocals _ _ _ _ _ _). set (w0 := mkWorld _ _ _ _ _ _).
  assert (AadInv prd m r mdl rng p0 tapes0 (numThreads pool) nPath L0 w0) as HI0.
  { subst L0 w0. split_and!;
      cbn [acMdl acRng agaussVecs ainit ares amodels rngs tapes tapePtr];
      rewrite ?length_insert, ?length_app, ?length_replicate; try done; try lia;
      try (by rewrite lookup_total_app_l).
    intros th Hth Hi. destruct (decide (th = 0)) as [->|Hne].
    - exists (length (amodels w)), (length (rngs w)).
      cbn [acMdl acRng agaussVecs ainit ares amodels rngs tapes tapePtr].
      rewrite !list_lookup_total_insert_eq, !lookup_total_snoc, !length_app
        by (rewrite ?length_replicate, ?length_app; lia).
      unfold aadSetupTape. cbn [markPos nodes length]. rewrite length_map.
      split_and!; try done; lia.
    - rewrite list_lookup_total_insert_ne in Hi by done.
      rewrite lookup_total_replicate_2 in Hi by lia. done. }
  assert (tapes w0 !!! tapeOf p0 tapes0 0 = aadSetupTape prd m) as Hmain.
  { subst w0. cbn [tapes]. unfold tapeOf. rewrite decide_False by lia.
    apply list_lookup_total_insert_eq. rewrite length_app. fold tapes0. lia. }
  assert (∀ th, th ≤ numThreads pool →
            ainit L0 !!! th = (if decide (th = 0) then true else false)) as Hinit0.
  { intros th Hth. subst L0. cbn [ainit]. destruct (decide (th = 0)) as [->|Hne].
    - apply list_lookup_total_insert_eq. rewrite length_replicate. lia.
    - rewrite list_lookup_total_insert_ne by done.
      apply lookup_total_replicate_2. lia. }
  assert (TapesSetUp prd m p0 tapes0 (numThreads pool) (ainit L0) (tapes w0)) as HS0.
  { intros th Hth Hi. rewrite Hinit0 in Hi by done.
    destruct (decide (th = 0)) as [->|Hne]; [|done].
    rewrite Hmain. apply (setupTape_Phi prd m q). }
  assert (heldAdjoints prd m q p0 tapes0 (numThreads pool) (ainit L0) (tapes w0) = dzero)
    as Hheld0.
  { unfold heldAdjoints. rewrite (bigsum_ext _ _ (λ _, dzero)); [by apply bigsum_zero|].
    intros th Hth. rewrite Hinit0 by lia.
    destruct (decide (th = 0)) as [->|Hne]; [|done].
    rewrite Hmain. apply (setupTape_Phi prd m q). }
  sim_step.
  assert (Forall (λ kt, kt.1 < length batches ∧ kt.2 ≤ numThreads pool) (schedule pool))
    as Hsched.
  { eapply Forall_impl; [by apply valid_schedule_bounds|].
    intros kt [Hk Hth]. split; [done|lia]. }
  destruct (aadSchedule_adjoints prd antithetic m r mdl rng p0 tapes0 (numThreads pool)
              nPath q Hq batches (schedule pool) L0 w0 HI0 HS0 (spawnLoop_bound nPath)
              Hoks Hsched) as [HS Hheld].
  destruct (aadSchedule_inv prd antithetic m r mdl rng p0 tapes0 (numThreads pool) nPath
              batches (schedule pool) L0 w0 HI0 (spawnLoop_bound nPath) Hsched)
    as (L' & w' & E & Hrun & _).
  rewrite Hrun in HS, Hheld |- *. cbn [fst snd] in *. rewrite mret_run. cbn [fst snd].
  split; [done|]. rewrite Hheld, Hheld0. ring.
Qed.

(** What [mcParallelSimulAAD] leaves in the adjoints of the parameters
    of the model it returns. *)
Lemma mcParallelSimulAAD_adjoint_sum (pool : Pool)
    (prd : Product.t D (Number D) (Recorded D))
    (mdl rng nPath : nat) (antithetic : bool) (w : World) :
  ExactSkipAhead →
  mdl < length (amodels w) →
  rng < length (rngs w) →
  tapePtr w mainThread < length (tapes w) →
  ValidSchedule pool (length (spawnLoop nPath 0 nPath)) →
  aadRecordingOk prd (amodels w !!! mdl) antithetic (rngs w !!! rng) nPath = true →
  NoDup (map node (Model.parameters (M:=MN) (aadSetupModel prd (amodels w !!! mdl)))) →
  let m := amodels w !!! mdl in
  let o := mcParallelSimulAAD pool prd mdl rng nPath antithetic w in
  amodels o.2 !!! o.1.2 = aadSetupModel prd m
  ∧ ∀ p, p ∈ Model.parameters (M:=MN) (aadSetupModel prd m) →
      adjointAt (nodes (tapes o.2 !!! tapePtr w mainThread)) (node p)
      = bigsum nPath (aadPathDerivative prd m antithetic (rngs w !!! rng) (node p)).
Proof.
  intros Hexact Hmdl Hrng Hp0 Hvalid Hok Hnd m o.
  set (r := rngs w !!! rng) in *. set (p0 := tapePtr w mainThread) in *.
  set (tapes0 := length (tapes w)). set (nThread := numThreads pool).
  set (batches := spawnLoop nPath 0 nPath).
  set (P := aadSetupNodes prd m). set (params := Model.parameters (aadSetupModel prd m)).
  fold m params in Hnd.
  unfold aadRecordingOk in Hok. fold m P in Hok.
  apply andb_true_iff in Hok as [Hok Hparams].
  apply andb_true_iff in Hok as [Hpaths HP].
  rewrite forallb_forall in Hpaths. rewrite forallb_forall in Hparams.
  assert (∀ k b, batches !! k = Some b → b = (64 * k, (nPath - 64 * k) `min` 64)
                                         ∧ 64 * k < nPath) as Hbatch.
  { intros k b Hb. subst batches. rewrite spawnLoop_lookup in Hb by done.
    unfold BATCHSIZE in Hb. destruct (decide (64 * k < nPath)); [|done].
    injection Hb as <-. split; [f_equal; lia|done]. }
  assert (Forall (TaskRecordingOk prd m antithetic r) batches) as Hoks.
  { apply Forall_lookup. intros k b Hb. destruct (Hbatch k b Hb) as [-> Hk].
    intros i Hi. cbn [fst snd] in *. cbn zeta. fold m P.
    destruct (aadPath_skip prd (aadSetupModel prd m) (length P) antithetic
                (aadSetupRng prd m r) (64 * k) i Hexact) as [-> ->];
      [by rewrite Nat.even_mul|].
    specialize (Hpaths (64 * k + i)). rewrite in_seq in Hpaths.
    specialize (Hpaths ltac:(lia)).
    apply andb_true_iff in Hpaths as [Hpaths Hhi].
    apply andb_true_iff in Hpaths as [Hwf Hlo].
    apply Nat.leb_le in Hlo. apply Nat.ltb_lt in Hhi. done. }
  destruct (mcParallelSimulAAD_run pool prd mdl rng nPath antithetic w Hmdl Hrng Hp0 Hvalid)
    as (L & w1 & E & Hrun & HI & Hinit & HacMdl & _ & _ & _ & Hfin).
  cbn zeta in Hfin. fold m r p0 tapes0 nThread params o in Hrun, HI, Hinit, Hfin.
  destruct Hfin as (Ho1 & _ & Hamodels & _ & Htapes & _).
  destruct HI as ((Hl1 & Hl2 & Hl3 & Hl4 & Hl5) & _ & (Hptr1 & Hp0lt & Htl) & Hready).
  assert (ainit L !!! 0 = true) as Hmain.
  { rewrite Hinit. apply init_fold_lookup.
    - rewrite length_insert, length_replicate. lia.
    - left. apply list_lookup_total_insert_eq. rewrite length_replicate. lia. }
  split.
  { rewrite Ho1, Hamodels. cbn [snd].
    destruct (Hready 0 ltac:(lia) Hmain) as (cm & cr & Hcm & _ & Hm2 & _).
    rewrite HacMdl in Hcm. injection Hcm as <-. done. }
  intros p Hp. apply list_elem_of_lookup_1 in Hp as [j Hj].
  assert (j < length params) as Hjlt by (by eapply lookup_lt_Some).
  assert (params !!! j = p) as Hpj by (by apply list_lookup_total_correct).
  assert (node p < length P) as Hq.
  { apply Nat.ltb_lt, Hparams. apply list_elem_of_In. by eapply list_elem_of_lookup_2. }
  destruct (aadRunTasks_adjoints pool prd mdl rng nPath antithetic (node p) w
              Hmdl Hrng Hp0 Hvalid Hq Hoks) as [HS Hheld].
  rewrite Hrun in HS, Hheld. cbn [fst snd] in HS, Hheld.
  fold m r p0 tapes0 nThread batches in HS, Hheld.
  assert (p0 < length (tapes w1)) as Hp0len by lia.
  destruct (finalPropagate_main (ainit L) p0 tapes0 nThread (tapes w1) Hp0lt Hp0len)
    as [HtsP HtsPlen].
  rewrite Htapes, list_lookup_total_insert_eq by lia. cbn [nodes].
  rewrite <-Hpj.
  rewrite finalAccumulate_at; [|done|done|].
  2:{ rewrite HtsP. unfold propagateMarkToStart. cbn [nodes].
      rewrite propagateDown_length.
      destruct (Hready 0 ltac:(lia) Hmain) as (_ & _ & _ & _ & _ & _ & _ & _ & _ & Hlen).
      unfold tapeOf in Hlen. rewrite decide_False in Hlen by lia.
      rewrite Hpj. fold P in Hlen. lia. }
  rewrite Hpj.
  rewrite (foldl_cond_bigsum (λ i, ainit L !!! (i + 1))
             (λ i, adjointAt (nodes (finalPropagate (ainit L) p0 tapes0 nThread (tapes w1)
                                       !!! (tapes0 + i))) (node p))).
  assert (∀ th, th ≤ nThread → ainit L !!! th = true →
            adjointAt (nodes (propagateMarkToStart (tapes w1 !!! tapeOf p0 tapes0 th)))
              (node p)
            = Phi (node p) P (take (length P) (nodes (tapes w1 !!! tapeOf p0 tapes0 th))))
    as Hwalk.
  { intros th Hth Hi.
    destruct (Hready th Hth Hi) as (_ & _ & _ & _ & _ & _ & _ & _ & Hmk & _).
    unfold propagateMarkToStart. cbn [nodes]. rewrite Hmk. fold P.
    apply (Phi_markToStart Dring); [by apply HS|done|done]. }
  transitivity (heldAdjoints prd m (node p) p0 tapes0 nThread (ainit L) (tapes w1)).
  - unfold heldAdjoints. rewrite (Nat.add_comm nThread 1), (bigsum_split Dring).
    cbn [bigsum]. rewrite Hmain. fold P. f_equal.
    + assert (tapeOf p0 tapes0 0 = p0) as Ht0
        by (unfold tapeOf; by rewrite decide_False by lia).
      pose proof (Hwalk 0 ltac:(lia) Hmain) as Hw0. rewrite Ht0 in Hw0 |- *.
      rewrite HtsP, Hw0. ring.
    + apply bigsum_ext. intros i Hi. rewrite (Nat.add_comm 1 i).
      destruct (ainit L !!! (i + 1)) eqn:Hii; [|done].
      rewrite finalPropagate_worker by (done || lia).
      rewrite <-(Hwalk (i + 1)) by (done || lia).
      unfold tapeOf. rewrite decide_True by lia. do 4 f_equal. lia.
  - rewrite Hheld.
    rewrite <-(map_map fst (λ k, aadBatchDerivative prd m antithetic r (node p)
                                    (batches !!! k))).
    destruct Hvalid as [Hperm _].
    rewrite (sumList_perm _ _ (fmap_Permutation _ _ _ Hperm)).
    rewrite sumList_seq.
    rewrite (bigsum_ext _ _
               (λ k, bigsum ((nPath - 64 * k) `min` 64)
                       (λ i, aadPathDerivative prd m antithetic r (node p) (64 * k + i)))).
    + rewrite bigsum_batches. f_equal.
      subst batches. rewrite spawnLoop_length.
      pose proof (Nat.div_mod_eq (nPath + 63) 64) as Hd.
      pose proof (Nat.mod_upper_bound (nPath + 63) 64) as Hm. lia.
    + intros k Hk.
      destruct (Hbatch k (batches !!! k)) as [-> Hk'].
      { by apply list_lookup_lookup_total_lt. }
      unfold aadBatchDerivative. cbn [fst snd]. apply bigsum_ext. intros i Hi.
      unfold aadTaskDerivative, aadPathDerivative. cbn zeta. fold m P.
      destruct (aadPath_skip prd (aadSetupModel prd m) (length P) antithetic
                  (aadSetupRng prd m r) (64 * k) i Hexact) as [-> ->];
        [by rewrite Nat.even_mul|done].
Qed.

(** What [mcSimulAAD] leaves in the adjoints of the parameters of the
    model it returns. *)
Lemma mcSimulAAD_adjoint_sum (prd : Product.t D (Number D) (Recorded D))
    (mdl rng nPath : nat) (antithetic : bool) (w : World) (p : Number D) :
  tapePtr w mainThread < length (tapes w) →
  aadRecordingOk prd (amodels w !!! mdl) antithetic (rngs w !!! rng) nPath = true →
  p ∈ Model.parameters (M:=MN) (aadSetupModel prd (amodels w !!! mdl)) →
  adjointAt (nodes (tapes (mcSimulAAD prd mdl rng nPath antithetic w).2
                      !!! tapePtr w mainThread)) (node p)
  = bigsum nPath
      (aadPathDerivative prd (amodels w !!! mdl) antithetic (rngs w !!! rng) (node p)).
Proof.
  intros HT Hok Hp. rewrite (mcSimulAAD_run prd mdl rng nPath antithetic w HT).
  cbn [fst snd tapes]. unfold aadRecordingOk in Hok.
  apply andb_true_iff in Hok as [Hok Hparams].
  apply andb_true_iff in Hok as [Hpaths HP].
  rewrite forallb_forall in Hpaths. rewrite forallb_forall in Hparams.
  rewrite list_lookup_total_insert_eq by done.
  assert (node p < length (aadSetupNodes prd (amodels w !!! mdl))) as Hq.
  { apply Nat.ltb_lt, Hparams. by apply list_elem_of_In. }
  unfold propagateMarkToStart. cbn [nodes].
  rewrite (aadTapeAfter_markPos prd antithetic _ _ (aadSetupTape prd (amodels w !!! mdl))
             nPath).
  unfold aadSetupTape. cbn [markPos].
  destruct (aadTapeAfter_Phi Dring prd (aadSetupModel prd (amodels w !!! mdl)) antithetic
              (aadSetupRng prd (amodels w !!! mdl) (rngs w !!! rng))
              (aadSetupNodes prd (amodels w !!! mdl)) (node p) nPath) as [Hs Hphi]; [|done|].
  { intros i Hi. specialize (Hpaths i). rewrite in_seq in Hpaths.
    specialize (Hpaths ltac:(lia)).
    apply andb_true_iff in Hpaths as [Hpaths Hhi].
    apply andb_true_iff in Hpaths as [Hwf Hlo].
    apply Nat.leb_le in Hlo. apply Nat.ltb_lt in Hhi. done. }
  rewrite (Phi_markToStart Dring (node p) (aadSetupNodes prd (amodels w !!! mdl)) _
             Hs HP Hq).
  by rewrite Hphi.
Qed.

(** X11.  In exact arithmetic and with a generator whose [skipTo] is an exact
    skip-ahead, [mcParallelSimulAAD] accumulates the adjoints
    [mcSimulAAD] accumulates, whatever the schedule: after either call,
    the adjoint of every parameter of the model returned holds, on the
    caller's tape, the sum over all the paths of the derivative of the
    payoff of the path with respect to the parameter.  The parameters
    are distinct nodes, and the model and the product keep the recording
    discipline of active numbers. *)
Theorem parallel_aad_adjoints (pool : Pool) (prd : Product.t D (Number D) (Recorded D))
    (mdl rng nPath : nat) (antithetic : bool) (w : World) :
  ExactSkipAhead →
  mdl < length (amodels w) →
  rng < length (rngs w) →
  tapePtr w mainThread < length (tapes w) →
  ValidSchedule pool (length (spawnLoop nPath 0 nPath)) →
  aadRecordingOk prd (amodels w !!! mdl) antithetic (rngs w !!! rng) nPath = true →
  NoDup (map node (Model.parameters (M:=MN) (aadSetupModel prd (amodels w !!! mdl)))) →
  let m := amodels w !!! mdl in
  let par := mcParallelSimulAAD pool prd mdl rng nPath antithetic w in
  let ser := mcSimulAAD prd mdl rng nPath antithetic w in
  amodels par.2 !!! par.1.2 = aadSetupModel prd m
  ∧ amodels ser.2 !!! ser.1.2 = aadSetupModel prd m
  ∧ ∀ p, p ∈ Model.parameters (M:=MN) (aadSetupModel prd m) →
      adjointAt (nodes (tapes par.2 !!! tapePtr w mainThread)) (node p)
      = bigsum nPath (aadPathDerivative prd m antithetic (rngs w !!! rng) (node p))
      ∧ adjointAt (nodes (tapes par.2 !!! tapePtr w mainThread)) (node p)
        = adjointAt (nodes (tapes ser.2 !!! tapePtr w mainThread)) (node p).
Proof.
  intros Hexact Hmdl Hrng Hp0 Hvalid Hok Hnd m par ser. subst par ser.
  destruct (mcParallelSimulAAD_adjoint_sum pool prd mdl rng nPath antithetic w
              Hexact Hmdl Hrng Hp0 Hvalid Hok Hnd) as [Hmodel Hsum].
  split; [exact Hmodel|]. split.
  - rewrite mcSimulAAD_run by done. cbn [fst snd amodels].
    apply lookup_total_snoc.
  - intros p Hp. split; [by apply Hsum|].
    rewrite (Hsum p Hp). symmetry. by apply mcSimulAAD_adjoint_sum.
Qed.
End ParallelAdjoints.

(** ** [Number::tape] on the workers *)

Section WorkerTapes.
Variables (prd : Product.t D (Number D) (Recorded D)) (antithetic : bool).
Variables (m : MN) (r : R) (mdl rng p0 tapes0 nThread nPath : nat).

Lemma aadTask_prepare_ptr (th : nat) (L : AADLocals) (w : World) (k : nat) :
  AadInv prd m r mdl rng p0 tapes0 nThread nPath L w →
  th ≤ nThread →
  tapePtr (((if decide (0 < th)
             then setCurrentTape th (tapes0 + (th - 1))
             else mret tt);;
            aadTaskInit prd mdl rng th L) w).2 k
  = if decide (0 < th ∧ k = th) then tapes0 + (th - 1) else tapePtr w k.
Proof.
  intros ((Hl1 & Hl2 & Hl3 & Hl4 & Hl5) & (Hmdl & Hm & Hrng & Hr) & (Hp0 & Hp0lt & Htl)
          & Hready) Hth.
  rewrite bind_run, aadTask_setTape_run. cbn [fst snd].
  set (w0 := mkWorld _ _ _ _ _ _).
  assert (tapePtr w0 th = tapeOf p0 tapes0 th) as HT.
  { subst w0. unfold tapeOf. cbn [tapePtr].
    destruct (decide (0 < th)); [by rewrite decide_True|].
    replace th with mainThread by (unfold mainThread; lia). done. }
  assert (tapeOf p0 tapes0 th < length (tapes w)) as HTlt
    by (rewrite Htl; by apply tapeOf_lt).
  rewrite aadTaskInit_run by (by rewrite HT).
  assert (tapePtr w0 k = if decide (0 < th ∧ k = th) then tapes0 + (th - 1)
                         else tapePtr w k) as Hk.
  { subst w0. cbn [tapePtr]. destruct (decide (0 < th)) as [Hpos|Hz].
    - destruct (decide (k = th)) as [->|Hne].
      + by rewrite decide_True.
      + by rewrite decide_False by tauto.
    - by rewrite decide_False by tauto. }
  by destruct (ainit L !!! th).
Qed.

(** A task on a worker points [Number::tape] of that worker to the
    worker's tape and leaves it there; it changes no other. *)
Lemma aadTask_ptr (firstPath pathsInTask th : nat) (L : AADLocals) (w : World) (k : nat) :
  AadInv prd m r mdl rng p0 tapes0 nThread nPath L w →
  th ≤ nThread →
  firstPath + pathsInTask ≤ nPath →
  tapePtr (aadTask prd mdl rng antithetic tapes0 firstPath pathsInTask th L w).2 k
  = if decide (0 < th ∧ k = th) then tapes0 + (th - 1) else tapePtr w k.
Proof.
  intros HI Hth Hfp.
  pose proof (aadTask_prepare_ptr th L w k HI Hth) as Hptr.
  destruct (aadTask_prepare prd m r mdl rng p0 tapes0 nThread nPath th L w HI Hth)
    as (L1 & w1 & Hrun & HI1 & Hready & HT & _).
  rewrite Hrun in Hptr. cbn [snd] in Hptr.
  rewrite bind_run in Hrun.
  unfold aadTask. rewrite bind_run, bind_run, Hrun. cbn [fst snd].
  destruct HI1 as ((Hl1 & Hl2 & Hl3 & Hl4 & Hl5) & _ & (Hp0 & Hp0lt & Htl) & _).
  destruct Hready as (cm & cr & Hcm & Hcmlt & Hm2 & Hcr & Hcrlt & Hrs & Hmk & Hlen).
  assert (tapeOf p0 tapes0 th < length (tapes w1)) as HTlt
    by (rewrite Htl; by apply tapeOf_lt).
  rewrite (aadTask_batch prd antithetic m r firstPath pathsInTask th (tapeOf p0 tapes0 th)
             cm cr L1 w1) by (done || lia).
  cbn [snd tapePtr]. done.
Qed.

Lemma aadSchedule_ptr (batches sched : list (nat * nat)) (L : AADLocals) (w : World)
    (k : nat) :
  AadInv prd m r mdl rng p0 tapes0 nThread nPath L w →
  Forall (λ b, b.1 + b.2 ≤ nPath) batches →
  Forall (λ kt, kt.1 < length batches ∧ kt.2 ≤ nThread) sched →
  tapePtr (runSchedule (map (λ b, aadTask prd mdl rng antithetic tapes0 b.1 b.2) batches)
             sched L w).2 k
  = if decide (0 < k ∧ k ∈ map snd sched) then tapes0 + (k - 1) else tapePtr w k.
Proof.
  intros HI Hbatches Hsched. revert L w HI.
  induction Hsched as [|[j th] sched [Hj Hth] Hsched IH]; intros L w HI.
  - cbn [runSchedule map]. rewrite mret_run. cbn [snd].
    rewrite decide_False; [done|]. intros [_ Hin]. by apply elem_of_nil in Hin.
  - cbn [fst snd] in Hj, Hth. cbn [runSchedule]. rewrite bind_run.
    rewrite list_lookup_fmap, (list_lookup_lookup_total_lt batches j Hj).
    cbn [fmap option_fmap option_map].
    assert ((batches !!! j).1 + (batches !!! j).2 ≤ nPath) as Hb.
    { rewrite Forall_forall in Hbatches. apply Hbatches.
      by apply list_elem_of_lookup_total_2. }
    destruct (batches !!! j) as [fp c] eqn:Hbj. cbn [fst snd] in Hb |- *.
    pose proof (aadTask_ptr fp c th L w k HI Hth Hb) as Hptr.
    destruct (aadTask_inv prd antithetic m r mdl rng p0 tapes0 nThread nPath
                fp c th L w HI Hth Hb) as (L1 & w1 & Hrun & HI1 & _).
    rewrite Hrun in Hptr |- *. cbn [fst snd] in *.
    rewrite (IH L1 w1 HI1), Hptr. cbn [map snd].
    destruct (decide (0 < k ∧ k ∈ map snd sched)) as [[Hpos Hin]|Hnot].
    + rewrite decide_True; [done|]. split; [done|]. by apply list_elem_of_further.
    + destruct (decide (0 < th ∧ k = th)) as [[Hpos ->]|Hnot'].
      * rewrite decide_True; [done|]. split; [done|]. apply list_elem_of_here.
      * rewrite decide_False; [done|]. intros [Hpos Hin].
        apply elem_of_cons in Hin as [->|Hin]; tauto.
Qed.

(** The tasks touch the tapes of their threads only. *)
Lemma aadSchedule_tapes (batches sched : list (nat * nat)) (L : AADLocals) (w : World)
    (k : nat) :
  AadInv prd m r mdl rng p0 tapes0 nThread nPath L w →
  Forall (λ b, b.1 + b.2 ≤ nPath) batches →
  Forall (λ kt, kt.1 < length batches ∧ kt.2 ≤ nThread) sched →
  k < tapes0 → k ≠ p0 →
  tapes (runSchedule (map (λ b, aadTask prd mdl rng antithetic tapes0 b.1 b.2) batches)
           sched L w).2 !!! k
  = tapes w !!! k.
Proof.
  intros HI Hbatches Hsched Hk Hne. revert L w HI.
  induction Hsched as [|[j th] sched [Hj Hth] Hsched IH]; intros L w HI.
  - cbn [runSchedule]. by rewrite mret_run.
  - cbn [fst snd] in Hj, Hth. cbn [runSchedule]. rewrite bind_run.
    rewrite list_lookup_fmap, (list_lookup_lookup_total_lt batches j Hj).
    cbn [fmap option_fmap option_map].
    assert ((batches !!! j).1 + (batches !!! j).2 ≤ nPath) as Hb.
    { rewrite Forall_forall in Hbatches. apply Hbatches.
      by apply list_elem_of_lookup_total_2. }
    destruct (batches !!! j) as [fp c] eqn:Hbj. cbn [fst snd] in Hb |- *.
    destruct (aadTask_inv prd antithetic m r mdl rng p0 tapes0 nThread nPath
                fp c th L w HI Hth Hb)
      as (L1 & w1 & Hrun & HI1 & _ & _ & _ & _ & _ & _ & Hothers & _).
    rewrite Hrun. cbn [fst snd]. rewrite (IH L1 w1 HI1). apply Hothers.
    unfold tapeOf. case_decide; lia.
Qed.
End WorkerTapes.

Lemma finalPropagate_below (init : list bool) (p0 tapes0 n : nat) (ts : list (Tape D))
    (k : nat) :
  k ≠ p0 → k < tapes0 →
  finalPropagate init p0 tapes0 n ts !!! k = ts !!! k.
Proof.
  intros Hne Hk. unfold finalPropagate. induction n as [|n IH].
  - cbn [seq foldl]. by apply list_lookup_total_insert_ne.
  - rewrite seq_S, foldl_app. cbn [foldl plus].
    destruct (init !!! (n + 1)); [|done].
    by rewrite list_lookup_total_insert_ne by lia.
Qed.

(** [mcParallelSimulAAD] up to its tasks: the locals and the world the
    tasks start from. *)
Lemma aadRunTasks_start (pool : Pool) (prd : Product.t D (Number D) (Recorded D))
    (mdl rng nPath : nat) (antithetic : bool) (w : World) :
  mdl < length (amodels w) →
  rng < length (rngs w) →
  tapePtr w mainThread < length (tapes w) →
  let m := amodels w !!! mdl in
  let L0 := aadStartLocals prd m (length (amodels w)) (length (rngs w))
              (numThreads pool) nPath in
  let w0 := aadStartWorld prd mdl rng (numThreads pool) w in
  let run := runSchedule (map (λ b, aadTask prd mdl rng antithetic (length (tapes w))
                                      b.1 b.2) (spawnLoop nPath 0 nPath))
               (schedule pool) L0 w0 in
  AadInv prd m (rngs w !!! rng) mdl rng (tapePtr w mainThread) (length (tapes w))
    (numThreads pool) nPath L0 w0
  ∧ aadRunTasks pool prd mdl rng nPath antithetic w = ((length (tapes w), run.1), run.2).
Proof.
  intros Hmdl Hrng Hp0 m L0 w0 run. split.
  - subst L0 w0. unfold aadStartLocals, aadStartWorld. fold m. split_and!;
      cbn [acMdl acRng agaussVecs ainit ares amodels rngs tapes tapePtr];
      rewrite ?length_insert, ?length_app, ?length_replicate; try done; try lia;
      try (by rewrite lookup_total_app_l).
    intros th Hth Hi. destruct (decide (th = 0)) as [->|Hne].
    + exists (length (amodels w)), (length (rngs w)).
      cbn [acMdl acRng agaussVecs ainit ares amodels rngs tapes tapePtr].
      rewrite !list_lookup_total_insert_eq, !lookup_total_snoc, !length_app
        by (rewrite ?length_replicate, ?length_app; lia).
      unfold aadSetupTape. cbn [markPos nodes length]. rewrite length_map.
      split_and!; try done; lia.
    + rewrite list_lookup_total_insert_ne in Hi by done.
      rewrite lookup_total_replicate_2 in Hi by lia. done.
  - unfold aadRunTasks. do 3 sim_step.
    rewrite initSimul_run by (cbn [tapePtr tapes]; rewrite length_app; lia).
    cbn [fst snd amodels rngs tapes tapePtr trace models]. fold m.
    rewrite !lookup_total_replicate_2 by lia.
    sim_step. subst run L0 w0. unfold aadStartLocals, aadStartWorld. fold m.
    destruct (runSchedule _ (schedule pool) _ _) as [L' w'].
    cbn [fst snd]. by rewrite mret_run.
Qed.

(** X12.  [mcParallelSimulAAD] starts by rewinding the caller's tape: what
    that tape held before the call is lost, and nothing the call returns
    or leaves depends on it.  The call records on the caller's tape and
    on the tapes it allocates, and on no other: every other tape there
    was before the call is what it was. *)
Theorem parallel_aad_tape_frame (pool : Pool) (prd : Product.t D (Number D) (Recorded D))
    (mdl rng nPath : nat) (antithetic : bool) (w : World) (t : Tape D) :
  mdl < length (amodels w) →
  rng < length (rngs w) →
  tapePtr w mainThread < length (tapes w) →
  ValidSchedule pool (length (spawnLoop nPath 0 nPath)) →
  let p0 := tapePtr w mainThread in
  let w' := mkWorld (models w) (amodels w) (rngs w) (<[p0 := t]> (tapes w))
              (tapePtr w) (trace w) in
  let o := mcParallelSimulAAD pool prd mdl rng nPath antithetic w in
  mcParallelSimulAAD pool prd mdl rng nPath antithetic w' = o
  ∧ ∀ k, k < length (tapes w) → k ≠ p0 → tapes o.2 !!! k = tapes w !!! k.
Proof.
  intros Hmdl Hrng Hp0 Hvalid p0 w' o.
  destruct (aadRunTasks_start pool prd mdl rng nPath antithetic w Hmdl Hrng Hp0)
    as [HI0 Hrun0].
  split.
  - subst o. unfold mcParallelSimulAAD. rewrite !bind_run. rewrite Hrun0.
    destruct (aadRunTasks_start pool prd mdl rng nPath antithetic w') as [_ ->];
      [done|done|subst w'; cbn [tapes tapePtr]; by rewrite length_insert|].
    assert (aadStartWorld prd mdl rng (numThreads pool) w'
            = aadStartWorld prd mdl rng (numThreads pool) w) as ->.
    { subst w'. unfold aadStartWorld. cbn [models amodels rngs tapes tapePtr trace].
      f_equal. fold p0. rewrite !insert_app_l by (by rewrite ?length_insert).
      by rewrite list_insert_insert_eq. }
    subst w'. cbn [models amodels rngs tapes tapePtr trace]. by rewrite length_insert.
  - intros k Hk Hne.
    destruct (mcParallelSimulAAD_run pool prd mdl rng nPath antithetic w
                Hmdl Hrng Hp0 Hvalid)
      as (L & w1 & E & Hrun & HI & _ & _ & _ & _ & _ & Hfin).
    cbn zeta in Hfin. fold o in Hfin.
    destruct Hfin as (_ & _ & _ & _ & Htapes & _).
    rewrite Hrun0 in Hrun. injection Hrun as _ Hw1.
    rewrite Htapes, list_lookup_total_insert_ne by done.
    rewrite finalPropagate_below by done. rewrite <-Hw1.
    rewrite (aadSchedule_tapes prd antithetic (amodels w !!! mdl) (rngs w !!! rng) mdl rng
               (tapePtr w mainThread) (length (tapes w)) (numThreads pool) nPath).
    + unfold aadStartWorld. cbn [tapes]. fold p0.
      rewrite list_lookup_total_insert_ne by done. by apply lookup_total_app_l.
    + done.
    + apply spawnLoop_bound.
    + eapply Forall_impl; [by apply valid_schedule_bounds|].
      intros kt [Hj Hth]. split; [done|lia].
    + done.
    + done.
Qed.

(** The pointers when the body of [mcParallelSimulAAD] reaches its
    [return] statement. *)
Lemma mcParallelSimulAAD_ptrs (pool : Pool) (prd : Product.t D (Number D) (Recorded D))
    (mdl rng nPath : nat) (antithetic : bool) (w : World) :
  mdl < length (amodels w) →
  rng < length (rngs w) →
  tapePtr w mainThread < length (tapes w) →
  ValidSchedule pool (length (spawnLoop nPath 0 nPath)) →
  let o := mcParallelSimulAAD pool prd mdl rng nPath antithetic w in
  length (tapes o.2) = length (tapes w) + numThreads pool
  ∧ (∀ th, 0 < th → th ∈ map snd (schedule pool) →
       tapePtr o.2 th = length (tapes w) + (th - 1)
       ∧ length (tapes w) ≤ tapePtr o.2 th < length (tapes o.2))
  ∧ (∀ th, th = 0 ∨ th ∉ map snd (schedule pool) → tapePtr o.2 th = tapePtr w th).
Proof.
  intros Hmdl Hrng Hp0 Hvalid o.
  destruct (mcParallelSimulAAD_run pool prd mdl rng nPath antithetic w Hmdl Hrng Hp0 Hvalid)
    as (L & w1 & E & Hrun & HI & _ & _ & _ & _ & _ & Hfin).
  cbn zeta in Hfin. fold o in Hfin.
  destruct Hfin as (_ & _ & _ & _ & Htapes & Hptr & _).
  destruct HI as (_ & _ & (Hptr1 & Hp0lt & Htl) & _).
  destruct (aadRunTasks_start pool prd mdl rng nPath antithetic w Hmdl Hrng Hp0)
    as [HI0 Hrun0].
  rewrite Hrun0 in Hrun. injection Hrun as _ Hw1.
  assert (Forall (λ kt, kt.1 < length (spawnLoop nPath 0 nPath)
                        ∧ kt.2 ≤ numThreads pool) (schedule pool)) as Hsched.
  { eapply Forall_impl; [by apply valid_schedule_bounds|].
    intros kt [Hk Hth]. split; [done|lia]. }
  assert (∀ k, tapePtr w1 k
               = if decide (0 < k ∧ k ∈ map snd (schedule pool))
                 then length (tapes w) + (k - 1) else tapePtr w k) as Hw1'.
  { intros k. rewrite <-Hw1.
    apply (aadSchedule_ptr prd antithetic (amodels w !!! mdl) (rngs w !!! rng) mdl rng
             (tapePtr w mainThread) (length (tapes w)) (numThreads pool) nPath
             (spawnLoop nPath 0 nPath) (schedule pool) _ _ k HI0
             (spawnLoop_bound nPath) Hsched). }
  assert (length (tapes o.2) = length (tapes w) + numThreads pool) as Hlen.
  { rewrite Htapes, length_insert.
    destruct (finalPropagate_main (ainit L) (tapePtr w mainThread) (length (tapes w))
                (numThreads pool) (tapes w1)) as [_ ->]; [done|lia|done]. }
  split_and!.
  - done.
  - intros th Hpos Hin. rewrite Hptr, Hw1', decide_True by done.
    split; [done|]. rewrite Hlen.
    destruct Hvalid as [_ Hth]. rewrite Forall_forall in Hth.
    apply list_elem_of_fmap in Hin as (kt & -> & Hkt). specialize (Hth kt Hkt).
    cbn beta in Hth. lia.
  - intros th Hth. rewrite Hptr, Hw1', decide_False; [done|].
    intros [Hpos Hin]. destruct Hth as [->|Hnot]; [lia|done].
Qed.

(** X13.  [mcParallelSimulAAD] points [Number::tape] of every worker that
    runs a task to a tape of its local vector [tapes], and does not
    point it back.  The vector is destroyed when the call returns: after
    the call there are the tapes there were before it, and
    [Number::tape] of such a worker designates none of them, it dangles
    at place [threadNum - 1] of the vector that is gone.
    [Number::tape] of the caller, and of a thread that ran no task, is
    what it was, and the call returns what the body returns. *)
Theorem worker_tape_pointers (pool : Pool) (prd : Product.t D (Number D) (Recorded D))
    (mdl rng nPath : nat) (antithetic : bool) (w : World) :
  mdl < length (amodels w) →
  rng < length (rngs w) →
  tapePtr w mainThread < length (tapes w) →
  ValidSchedule pool (length (spawnLoop nPath 0 nPath)) →
  let o := mcParallelSimulAADCall pool prd mdl rng nPath antithetic w in
  o.1 = (mcParallelSimulAAD pool prd mdl rng nPath antithetic w).1
  ∧ length (tapes o.2) = length (tapes w)
  ∧ (∀ th, 0 < th → th ∈ map snd (schedule pool) →
       tapePtr o.2 th = length (tapes w) + (th - 1)
       ∧ length (tapes o.2) ≤ tapePtr o.2 th
       ∧ tapes o.2 !! tapePtr o.2 th = None)
  ∧ (∀ th, th = 0 ∨ th ∉ map snd (schedule pool) → tapePtr o.2 th = tapePtr w th).
Proof.
  intros Hmdl Hrng Hp0 Hvalid o.
  destruct (mcParallelSimulAAD_ptrs pool prd mdl rng nPath antithetic w
              Hmdl Hrng Hp0 Hvalid) as (Hlen & Hworkers & Hothers).
  assert (o = ((mcParallelSimulAAD pool prd mdl rng nPath antithetic w).1,
               withTapes (take (length (tapes w)))
                 (mcParallelSimulAAD pool prd mdl rng nPath antithetic w).2)) as Ho.
  { subst o. unfold mcParallelSimulAADCall. rewrite bind_run.
    unfold tapeCount at 1 2. cbn [fst snd]. by rewrite bind_run. }
  destruct (mcParallelSimulAAD pool prd mdl rng nPath antithetic w) as [out w'].
  rewrite Ho. cbn [fst snd] in *. unfold withTapes. cbn [tapes tapePtr].
  assert (length (take (length (tapes w)) (tapes w')) = length (tapes w)) as Hlen'
    by (rewrite length_take; lia).
  split_and!; try done.
  intros th Hpos Hin. destruct (Hworkers th Hpos Hin) as [Hptr _].
  rewrite Hptr, Hlen'. split_and!; [done|lia|].
  apply lookup_ge_None_2. rewrite Hlen'. lia.
Qed.

(** ** The clones [mcParallelSimulAAD] makes *)

Section Clones.
Variables (prd : Product.t D (Number D) (Recorded D)) (antithetic : bool).
Variables (m : MN) (r : R) (mdl rng p0 tapes0 nThread nPath na nr : nat).

Local Abbreviation Counted := (ClonesCounted prd m nThread na nr).

Lemma aadSchedule_clones (batches sched : list (nat * nat)) (ws : list nat) (nt : nat)
    (L : AADLocals) (w : World) :
  AadInv prd m r mdl rng p0 tapes0 nThread nPath L w →
  Counted ws nt L w →
  Forall (λ b, b.1 + b.2 ≤ nPath) batches →
  Forall (λ kt, kt.1 < length batches ∧ kt.2 ≤ nThread) sched →
  let o := runSchedule (map (λ b, aadTask prd mdl rng antithetic tapes0 b.1 b.2) batches)
             sched L w in
  ∃ ws', Counted ws' (nt + length sched) o.1 o.2
         ∧ ∀ th, th ∈ ws' ↔ th ∈ ws ∨ (0 < th ∧ th ∈ map snd sched).
Proof.
  intros HI HC Hbatches Hsched. cbn zeta. revert ws nt L w HI HC.
  induction Hsched as [|[j th] sched [Hj Hth] Hsched IH]; intros ws nt L w HI HC.
  - cbn [runSchedule length map]. rewrite mret_run, Nat.add_0_r. cbn [fst snd].
    exists ws. split; [done|]. intros th. split; [by left|].
    intros [?|[_ Hin]]; [done|]. by apply elem_of_nil in Hin.
  - cbn [fst snd] in Hj, Hth. cbn [runSchedule]. rewrite bind_run.
    rewrite list_lookup_fmap, (list_lookup_lookup_total_lt batches j Hj).
    cbn [fmap option_fmap option_map].
    assert ((batches !!! j).1 + (batches !!! j).2 ≤ nPath) as Hb.
    { rewrite Forall_forall in Hbatches. apply Hbatches.
      by apply list_elem_of_lookup_total_2. }
    destruct (batches !!! j) as [fp c] eqn:Hbj. cbn [fst snd] in Hb |- *.
    destruct (aadTask_inv prd antithetic m r mdl rng p0 tapes0 nThread nPath
                fp c th L w HI Hth Hb)
      as (L1 & w1 & Hrun & HI1 & _ & Hinit & _ & _ & Hamodels & Hrngs & _).
    rewrite Hrun. cbn [fst snd].
    destruct HC as (Hnd & Hws & Hchar & Hla & Hlr & Hall).
    destruct HI as ((_ & _ & _ & Hl4 & _) & _).
    set (ws1 := if (ainit L !!! th : bool) then ws else th :: ws).
    assert (Counted ws1 (S nt) L1 w1) as HC1.
    { subst ws1. destruct (ainit L !!! th) eqn:Hi; cbn [negb] in *.
      - rewrite app_nil_r in Hamodels. rewrite app_nil_l in Hrngs.
        unfold ClonesCounted. rewrite Hamodels, Hrngs, Hinit, length_app. cbn [length].
        split_and!; try done; try lia.
        intros th' Hth'. rewrite <-Hchar by done.
        destruct (decide (th' = th)) as [->|Hne].
        + rewrite list_lookup_total_insert_eq by lia. by rewrite Hi.
        + by rewrite list_lookup_total_insert_ne.
      - assert (th ≠ 0 ∧ th ∉ ws) as [Hth0 Hnotin].
        { split; intros Hx.
          - assert (ainit L !!! th = true) as Ht by (apply Hchar; [done|by left]).
            congruence.
          - assert (ainit L !!! th = true) as Ht by (apply Hchar; [done|by right]).
            congruence. }
        unfold ClonesCounted. rewrite Hamodels, Hrngs, Hinit, !length_app. cbn [length].
        split_and!; try lia.
        + by apply NoDup_cons.
        + intros th' Hin. apply elem_of_cons in Hin as [->|Hin]; [lia|by apply Hws].
        + intros th' Hth'. rewrite elem_of_cons.
          destruct (decide (th' = th)) as [->|Hne].
          * rewrite list_lookup_total_insert_eq by lia. tauto.
          * rewrite list_lookup_total_insert_ne by done.
            rewrite Hchar by done. tauto.
        + intros k Hk. destruct (decide (k < length (amodels w))) as [Hlt|Hge].
          * rewrite lookup_total_app_l by done. apply Hall. lia.
          * replace k with (length (amodels w)) by lia. apply lookup_total_snoc. }
    destruct (IH ws1 (S nt) L1 w1 HI1 HC1) as (ws' & HC' & Hws').
    exists ws'. split.
    + cbn [length]. by replace (nt + S (length sched)) with (S nt + length sched) by lia.
    + intros th'. rewrite Hws'. cbn [map snd]. rewrite elem_of_cons. subst ws1.
      destruct (ainit L !!! th) eqn:Hi.
      * split; [tauto|]. intros [?|[Hpos [->|?]]]; [tauto| |tauto].
        left. apply (Hchar th Hth) in Hi as [->|?]; [lia|done].
      * rewrite elem_of_cons.
        assert (th ≠ 0) as Hth0.
        { intros ->. assert (ainit L !!! 0 = true) as Hx by (apply Hchar; [lia|by left]).
          congruence. }
        split; [|tauto]. intros [[->|?]|?]; [|tauto|tauto].
        right. split; [lia|by left].
Qed.
End Clones.

(** X14.  [mcParallelSimulAAD] clones the model once for the caller and once
    for every worker that runs a task, however many tasks it runs, and
    every clone is the model the set-up leaves; it clones the
    generator as many times, and once more for every task. *)
Theorem parallel_aad_clones (pool : Pool) (prd : Product.t D (Number D) (Recorded D))
    (mdl rng nPath : nat) (antithetic : bool) (w : World) :
  mdl < length (amodels w) →
  rng < length (rngs w) →
  tapePtr w mainThread < length (tapes w) →
  ValidSchedule pool (length (spawnLoop nPath 0 nPath)) →
  let o := mcParallelSimulAAD pool prd mdl rng nPath antithetic w in
  ∃ workers,
    NoDup workers
    ∧ (∀ th, th ∈ workers ↔ 0 < th ∧ th ∈ map snd (schedule pool))
    ∧ length (amodels o.2) = length (amodels w) + 1 + length workers
    ∧ length (rngs o.2)
      = length (rngs w) + 1 + length workers + length (spawnLoop nPath 0 nPath)
    ∧ ∀ k, length (amodels w) ≤ k < length (amodels o.2) →
        amodels o.2 !!! k = aadSetupModel prd (amodels w !!! mdl).
Proof.
  intros Hmdl Hrng Hp0 Hvalid o.
  destruct (mcParallelSimulAAD_run pool prd mdl rng nPath antithetic w Hmdl Hrng Hp0 Hvalid)
    as (L & w1 & E & Hrun & HI & _ & _ & _ & _ & _ & Hfin).
  cbn zeta in Hfin. fold o in Hfin.
  destruct Hfin as (_ & _ & Hamodels & Hrngs & _).
  destruct (aadRunTasks_start pool prd mdl rng nPath antithetic w Hmdl Hrng Hp0)
    as [HI0 Hrun0].
  rewrite Hrun0 in Hrun. injection Hrun as _ Hw1.
  assert (Forall (λ kt, kt.1 < length (spawnLoop nPath 0 nPath)
                        ∧ kt.2 ≤ numThreads pool) (schedule pool)) as Hsched.
  { eapply Forall_impl; [by apply valid_schedule_bounds|].
    intros kt [Hk Hth]. split; [done|lia]. }
  destruct (aadSchedule_clones prd antithetic (amodels w !!! mdl) (rngs w !!! rng) mdl rng
              (tapePtr w mainThread) (length (tapes w)) (numThreads pool) nPath
              (length (amodels w)) (length (rngs w))
              (spawnLoop nPath 0 nPath) (schedule pool) [] 0 _ _ HI0)
    as (ws & (Hnd & Hws & Hchar & Hla & Hlr & Hall) & Hmem);
    [|apply spawnLoop_bound|done|].
  { unfold ClonesCounted, aadStartLocals, aadStartWorld.
    split_and!; cbn [ainit amodels rngs length]; rewrite ?length_app; cbn [length];
      try lia.
    - apply NoDup_nil_2.
    - intros th Hin. by apply elem_of_nil in Hin.
    - intros th Hth. rewrite elem_of_nil. destruct (decide (th = 0)) as [->|Hne].
      + rewrite list_lookup_total_insert_eq by (rewrite length_replicate; lia). tauto.
      + rewrite list_lookup_total_insert_ne by done.
        rewrite lookup_total_replicate_2 by lia. split; [done|tauto].
    - intros k Hk. replace k with (length (amodels w)) by lia. apply lookup_total_snoc. }
  rewrite Hw1 in Hla, Hlr, Hall. exists ws.
  rewrite Hamodels, Hrngs. split_and!; try done.
  - intros th. rewrite Hmem, elem_of_nil. tauto.
  - rewrite Hlr. destruct Hvalid as [Hperm _]. apply Permutation_length in Hperm.
    rewrite length_map, length_seq in Hperm. lia.
Qed.
(** ** Antithetic sampling *)

Lemma spawnLoop_even (nPath : nat) :
  Forall (λ b, Nat.even b.1 = true) (spawnLoop nPath 0 nPath).
Proof.
  apply Forall_lookup. intros k b Hb.
  rewrite spawnLoop_lookup in Hb by done.
  destruct (decide _); [|done].
  assert (b.1 = 0 + BATCHSIZE * k) as -> by (by injection Hb as <-).
  by rewrite Nat.add_0_l, Nat.even_mul.
Qed.

Lemma aadTasks_gauss (aprd : Product.t D (Number D) (Recorded D)) (m : MN) (r : R)
    (mdl rng p0 tapes0 n : nat) (batches sched : list (nat * nat))
    (Es : list (list (@Event D))) :
  Forall2 (λ kt es, ∃ fresh na nr cm cr,
             n ≤ na
             ∧ es = aadTaskEvents aprd m true r mdl rng p0 tapes0 kt.2 fresh
                      na nr cm cr (batches !!! kt.1)) sched Es →
  gaussSteps (concat Es)
  = flat_map (λ kt, antitheticTaskSteps (aadSetupRng aprd m r) (batches !!! kt.1)) sched.
Proof.
  induction 1 as [|kt es sched Es (fresh & na & nr & cm & cr & _ & ->) _ IH]; [done|].
  cbn [concat flat_map]. by rewrite gaussSteps_app, aadTaskEvents_gauss, IH.
Qed.

(** C6.  Under [antithetic], the block at the head of a path is a
    toggle.  On a primary step ([antiPath] false) it calls [nextG],
    takes the vector it writes and sets [antiPath]; on the step after
    ([antiPath] true) it negates the vector it finds element-wise,
    leaves every generator as it is and clears [antiPath].  Every loop
    of every driver starts with [antiPath] false and alternates from
    there.  In [mcSimul] and [mcSimulAAD] paths [2k] and [2k + 1] run
    on draw [k] and its negation, and [nPath] paths take
    [(nPath + 1) / 2] draws: the last path of an odd [nPath] is a
    primary step.  In [mcParallelSimul] and [mcParallelSimulAAD] every
    task moves its generator to [firstPath / 2] and then alternates
    from a primary step in the same way over the paths of its batch; a
    batch starts at an even path, so the pairs of a task are the pairs
    [(2k, 2k + 1)] of the run, and a task of [n] paths takes
    [(n + 1) / 2] draws. *)
Theorem antithetic_toggle (pool : Pool) (prd : Product.t D D Plain)
    (aprd : Product.t D (Number D) (Recorded D)) (mdl rng nPath : nat) (w : World) :
  (∀ c g (w' : World),
     nextGaussian true c false g w'
     = ((true, (RNG.nextG (rngs w' !!! c)).2),
        mkWorld (models w') (amodels w')
          (<[c := (RNG.nextG (rngs w' !!! c)).1]> (rngs w'))
          (tapes w') (tapePtr w') (trace w' ++ [EvNextG c])))
  ∧ (∀ c g (w' : World),
       nextGaussian true c true g w'
       = ((false, map dneg g),
          mkWorld (models w') (amodels w') (rngs w') (tapes w') (tapePtr w')
            (trace w' ++ [EvNegate])))
  ∧ (let m1 := setupModel prd (models w !!! mdl) in
     let r0 := setupRng prd (models w !!! mdl) (rngs w !!! rng) in
     let cMdl := length (models w) in
     let cRng := length (rngs w) in
     let w1 := (mcSimul prd mdl rng nPath true w).2 in
     trace w1
     = trace w
       ++ [EvModelClone mdl cMdl; EvRngClone rng cRng; EvModelInit cMdl;
           EvRngInit cRng (Model.simDim m1)]
       ++ flat_map (λ i,
            if Nat.even i
            then [EvNextG cRng; EvGeneratePath cMdl (nthDraw r0 (i / 2)); EvPayoff i]
            else [EvNegate; EvGeneratePath cMdl (map dneg (nthDraw r0 (i / 2)));
                  EvPayoff i])
            (seq 0 nPath)
     ∧ rngs w1 !!! cRng = RNG.skipLoop RNG.nextG ((nPath + 1) / 2) r0)
  ∧ (tapePtr w mainThread < length (tapes w) →
     let r0 := aadSetupRng aprd (amodels w !!! mdl) (rngs w !!! rng) in
     let o := mcSimulAAD aprd mdl rng nPath true w in
     ∃ E, trace o.2 = trace w ++ E
          ∧ gaussSteps E = antitheticSteps r0 nPath
          ∧ rngs o.2 !!! length (rngs w) = RNG.skipLoop RNG.nextG ((nPath + 1) / 2) r0)
  ∧ (ValidSchedule pool (length (spawnLoop nPath 0 nPath)) →
     let r0 := setupRng prd (models w !!! mdl) (rngs w !!! rng) in
     let batches := spawnLoop nPath 0 nPath in
     let o := mcParallelSimul pool prd mdl rng nPath true w in
     ∃ E, trace o.2 = trace w ++ E
          ∧ gaussSteps E
            = flat_map (λ kt, antitheticTaskSteps r0 (batches !!! kt.1)) (schedule pool)
          ∧ rngs o.2
            = rngs w ++ [r0]
              ++ map (λ kt, RNG.skipLoop RNG.nextG (((batches !!! kt.1).2 + 1) / 2)
                              (RNG.skipTo (RNG.clone r0)
                                 (Z.of_nat ((batches !!! kt.1).1 / 2))))
                   (schedule pool))
  ∧ (mdl < length (amodels w) → rng < length (rngs w) →
     tapePtr w mainThread < length (tapes w) →
     ValidSchedule pool (length (spawnLoop nPath 0 nPath)) →
     let r0 := aadSetupRng aprd (amodels w !!! mdl) (rngs w !!! rng) in
     let batches := spawnLoop nPath 0 nPath in
     let o := mcParallelSimulAAD pool aprd mdl rng nPath true w in
     ∃ E, trace o.2 = trace w ++ E
          ∧ gaussSteps E
            = flat_map (λ kt, antitheticTaskSteps r0 (batches !!! kt.1)) (schedule pool))
  ∧ Forall (λ b, Nat.even b.1 = true) (spawnLoop nPath 0 nPath).
Proof.
  split_and!.
  - intros c g w'. unfold nextGaussian. cbn [negb]. by do 3 sim_step.
  - intros c g w'. unfold nextGaussian. cbn [negb]. by do 3 sim_step.
  - intros m1 r0 cMdl cRng w1. unfold w1.
    rewrite (mcSimul_run prd mdl rng nPath true w). cbn [snd trace rngs].
    split.
    + do 2 f_equal. apply flat_map_ext. intros i.
      unfold pathEvents, gaussEvents, pathGauss. cbn [andb].
      rewrite <-Nat.negb_odd. by destruct (Nat.odd i).
    + apply lookup_total_snoc.
  - intros Hp0 r0 o. subst o.
    rewrite (mcSimulAAD_run aprd mdl rng nPath true w Hp0). cbn [snd trace rngs].
    eexists. split; [done|]. split.
    + rewrite !gaussSteps_app, gaussSteps_flat_map.
      change (gaussSteps (aadSetupEvents _ _ _ _ _ _)) with (@nil (@GaussStep D)).
      change (gaussSteps [EvPropagateMarkToStart _]) with (@nil (@GaussStep D)).
      rewrite app_nil_l, app_nil_r. apply flat_map_ext. intros i.
      apply aadPathEvents_gauss.
    + apply lookup_total_snoc.
  - intros Hvalid r0 batches o. subst o.
    rewrite (mcParallelSimul_run pool prd mdl rng nPath true w Hvalid).
    cbn [snd trace rngs]. eexists. split; [done|]. split.
    + rewrite gaussSteps_app, scheduleEvents_gauss. done.
    + done.
  - intros Hmdl Hrng Hp0 Hvalid r0 batches o.
    destruct (aadRunTasks_start pool aprd mdl rng nPath true w Hmdl Hrng Hp0)
      as [HI0 Hrun0].
    destruct (mcParallelSimulAAD_run pool aprd mdl rng nPath true w Hmdl Hrng Hp0 Hvalid)
      as (L & w1 & E' & Hrun & _ & _ & _ & _ & _ & _ & Hfin).
    cbn zeta in Hfin. fold o in Hfin.
    destruct Hfin as (_ & _ & _ & _ & _ & _ & Htrace).
    rewrite Hrun0 in Hrun. injection Hrun as _ Hw1.
    assert (Forall (λ kt, kt.1 < length (spawnLoop nPath 0 nPath)
                          ∧ kt.2 ≤ numThreads pool) (schedule pool)) as Hsched.
    { eapply Forall_impl; [by apply valid_schedule_bounds|].
      intros kt [Hk Hth]. split; [done|lia]. }
    destruct (aadSchedule_trace aprd true (amodels w !!! mdl) (rngs w !!! rng) mdl rng
                (tapePtr w mainThread) (length (tapes w)) (numThreads pool) nPath
                (spawnLoop nPath 0 nPath) (schedule pool) _ _ HI0
                (spawnLoop_bound nPath) Hsched) as (Es & HEs & HF).
    rewrite Hw1 in HEs. eexists. split.
    + rewrite Htrace, HEs. unfold aadStartWorld. cbn [trace].
      rewrite <-!app_assoc. done.
    + rewrite gaussSteps_app, gaussSteps_app, final_events_gauss, app_nil_r.
      change (gaussSteps (aadSetupEvents _ _ _ _ _ _)) with (@nil (@GaussStep D)).
      rewrite app_nil_l. subst r0 batches.
      exact (aadTasks_gauss aprd _ _ mdl rng (tapePtr w mainThread) (length (tapes w))
               _ _ _ _ HF).
  - apply spawnLoop_even.
Qed.

(** ** The arguments of the drivers *)

Local Abbreviation quiet :=
  (λ e : @Event D, adjointAdd e = None ∧ putOnTapeCall e = None).

Lemma quiet_events (es : list (@Event D)) :
  Forall quiet es → adjointAdds es = [] ∧ putOnTapes es = [].
Proof.
  induction 1 as [|e es [Ha Hp] _ [IHa IHp]]; [done|].
  unfold adjointAdds, putOnTapes in *. cbn [omap list_omap]. by rewrite Ha, Hp.
Qed.

Lemma pathEvents_quiet (antithetic : bool) (cMdl cRng : nat) (r0 : R) (i j : nat) :
  Forall quiet (pathEvents antithetic cMdl cRng r0 i j).
Proof.
  unfold pathEvents, gaussEvents. by destruct (antithetic && Nat.odd i); repeat constructor.
Qed.

Lemma scheduleEvents_quiet (antithetic : bool) (cMdl cRng : nat) (r0 : R)
    (batches : list (nat * nat)) (nr : nat) (sched : list (nat * nat)) :
  Forall quiet (scheduleEvents antithetic cMdl cRng r0 batches nr sched).
Proof.
  unfold scheduleEvents. apply Forall_concat, Forall_forall. intros es Hes.
  apply elem_of_lookup_imap in Hes as (pos & kt & -> & _).
  unfold taskEvents. apply Forall_app. split; [by repeat constructor|].
  apply Forall_flat_map, Forall_forall. intros i _. apply pathEvents_quiet.
Qed.

Lemma aadBatchEvents_quiet (prd : Product.t D (Number D) (Recorded D)) (m : MN)
    (antithetic : bool) (r : R) (tape cMdl cRng taskRng : nat) (b : nat * nat) :
  Forall quiet (aadBatchEvents prd m antithetic r tape cMdl cRng taskRng b).
Proof.
  unfold aadBatchEvents. apply Forall_app. split; [by repeat constructor|].
  apply Forall_flat_map, Forall_forall. intros i _.
  unfold aadPathEvents, gaussEvents.
  by destruct (antithetic && Nat.odd i); repeat constructor.
Qed.

(** A task puts a model on tape when its thread is not initialised,
    and then the clone it has just made, on the tape of its thread. *)
Lemma aadTaskEvents_params (prd : Product.t D (Number D) (Recorded D)) (m : MN)
    (antithetic : bool) (r : R) (mdl rng p0 tapes0 th : nat) (fresh : bool)
    (na nr cMdl cRng : nat) (b : nat * nat) :
  adjointAdds (aadTaskEvents prd m antithetic r mdl rng p0 tapes0 th fresh na nr
                 cMdl cRng b) = []
  ∧ putOnTapes (aadTaskEvents prd m antithetic r mdl rng p0 tapes0 th fresh na nr
                  cMdl cRng b)
    = if fresh then [(na, tapeOf p0 tapes0 th)] else [].
Proof.
  unfold aadTaskEvents, adjointAdds, putOnTapes. rewrite !omap_app.
  assert (omap adjointAdd (if decide (0 < th)
                           then [EvSetTape (D:=D) th (tapes0 + (th - 1))] else []) = []
          ∧ omap putOnTapeCall (if decide (0 < th)
                                then [EvSetTape (D:=D) th (tapes0 + (th - 1))] else [])
            = []) as [-> ->] by (by destruct (decide (0 < th))).
  destruct fresh; rewrite ?omap_app.
  - destruct (quiet_events _ (aadBatchEvents_quiet prd m antithetic r
                                (tapeOf p0 tapes0 th) na nr (S nr) b)) as [Ha Hp].
    unfold adjointAdds, putOnTapes in Ha, Hp. by rewrite Ha, Hp.
  - destruct (quiet_events _ (aadBatchEvents_quiet prd m antithetic r
                                (tapeOf p0 tapes0 th) cMdl cRng nr b)) as [Ha Hp].
    unfold adjointAdds, putOnTapes in Ha, Hp. by rewrite Ha, Hp.
Qed.

Lemma aadTasks_params (prd : Product.t D (Number D) (Recorded D)) (m : MN)
    (antithetic : bool) (r : R) (mdl rng p0 tapes0 n : nat)
    (batches sched : list (nat * nat)) (Es : list (list (@Event D))) :
  Forall2 (λ kt es, ∃ fresh na nr cm cr,
             n ≤ na
             ∧ es = aadTaskEvents prd m antithetic r mdl rng p0 tapes0 kt.2 fresh
                      na nr cm cr (batches !!! kt.1)) sched Es →
  adjointAdds (concat Es) = []
  ∧ Forall (λ mt, n ≤ mt.1 ∧ (mt.2 = p0 ∨ tapes0 ≤ mt.2)) (putOnTapes (concat Es)).
Proof.
  induction 1 as [|kt es sched Es (fresh & na & nr & cm & cr & Hna & ->) _ [IHa IHp]];
    [by split|].
  cbn [concat]. unfold adjointAdds, putOnTapes in *. rewrite !omap_app.
  destruct (aadTaskEvents_params prd m antithetic r mdl rng p0 tapes0 kt.2 fresh na nr
              cm cr (batches !!! kt.1)) as [Ha Hp].
  unfold adjointAdds, putOnTapes in Ha, Hp. rewrite Ha, Hp, IHa. split; [done|].
  apply Forall_app. split; [|done].
  destruct fresh; [|constructor]. constructor; [|constructor].
  cbn [fst snd]. split; [done|].
  unfold tapeOf. destruct (decide (0 < kt.2)); [right; lia|by left].
Qed.

(** The end of [mcParallelSimulAAD] puts nothing on tape, and adds into
    the adjoints of the numbers [params0] on the caller's tape. *)
Lemma final_events_params (init : list bool) (p0 tapes0 n : nat)
    (params0 : list (Number D)) :
  putOnTapes (finalPropagateEvents init p0 tapes0 n
              ++ finalAccumulateEvents init p0 n params0) = []
  ∧ Forall (λ tq, tq.1 = p0 ∧ tq.2 ∈ map node params0)
      (adjointAdds (finalPropagateEvents init p0 tapes0 n
                    ++ finalAccumulateEvents init p0 n params0)).
Proof.
  assert (Forall (λ e : @Event D,
                    putOnTapeCall e = None
                    ∧ ∀ tq, adjointAdd e = Some tq → tq.1 = p0 ∧ tq.2 ∈ map node params0)
            (finalPropagateEvents init p0 tapes0 n
             ++ finalAccumulateEvents init p0 n params0)) as HF.
  { unfold finalPropagateEvents, finalAccumulateEvents.
    rewrite !Forall_app, !Forall_flat_map. split_and!.
    - by repeat constructor.
    - apply Forall_forall. intros i _.
      destruct (init !!! (i + 1)); by repeat constructor.
    - by repeat constructor.
    - apply Forall_forall. intros i _. destruct (init !!! (i + 1)); [|constructor].
      apply Forall_forall. intros e He.
      apply list_elem_of_fmap in He as (j & -> & Hj). split; [done|].
      intros tq [= <-]. cbn [fst snd]. split; [done|].
      apply list_elem_of_fmap_2, list_elem_of_lookup_total_2.
      apply elem_of_seq in Hj. lia. }
  induction HF as [|e es [Hp Ha] _ [IHp IHa]]; [by split|].
  unfold adjointAdds, putOnTapes in *. cbn [omap list_omap]. rewrite Hp, IHp.
  split; [done|]. destruct (adjointAdd e) as [tq|]; [|done].
  constructor; [by apply Ha|done].
Qed.

(** The model [mcParallelSimulAAD] returns is the clone it made first,
    put on tape and initialised. *)
Lemma mcParallelSimulAAD_returned_model (pool : Pool)
    (prd : Product.t D (Number D) (Recorded D)) (mdl rng nPath : nat) (antithetic : bool)
    (w : World) :
  mdl < length (amodels w) →
  rng < length (rngs w) →
  tapePtr w mainThread < length (tapes w) →
  ValidSchedule pool (length (spawnLoop nPath 0 nPath)) →
  let o := mcParallelSimulAAD pool prd mdl rng nPath antithetic w in
  o.1.2 = length (amodels w)
  ∧ amodels o.2 !!! o.1.2 = aadSetupModel prd (amodels w !!! mdl).
Proof.
  intros Hmdl Hrng Hp0 Hvalid o.
  destruct (mcParallelSimulAAD_run pool prd mdl rng nPath antithetic w Hmdl Hrng Hp0 Hvalid)
    as (L & w1 & E & Hrun & HI & Hinit & HacMdl & _ & _ & _ & Hfin).
  cbn zeta in Hfin. fold o in Hfin.
  destruct Hfin as (Hres & _ & Hamodels & _).
  rewrite Hres. cbn [snd]. split; [done|]. rewrite Hamodels.
  destruct HI as (_ & _ & _ & Hready).
  assert (ainit L !!! 0 = true) as Hmain.
  { rewrite Hinit. generalize (schedule pool). intros sched.
    assert (∀ l : list bool, l !!! 0 = true
              → foldl (λ l kt, <[kt.2 := true]> l) l sched !!! 0 = true) as Hgen.
    { induction sched as [|kt sched IH]; intros l Hl; [done|]. cbn [foldl]. apply IH.
      destruct (decide (kt.2 = 0)) as [->|Hne].
      - rewrite list_lookup_total_insert; case_decide; done.
      - by rewrite list_lookup_total_insert_ne. }
    apply Hgen. apply list_lookup_total_insert_eq. rewrite length_replicate. lia. }
  destruct (Hready 0 ltac:(lia) Hmain) as (cm & cr & Hcm & _ & Hm2 & _).
  rewrite HacMdl in Hcm. injection Hcm as <-. done.
Qed.

Lemma aadPaths_quiet (prd : Product.t D (Number D) (Recorded D)) (m2 : MN) (mk : nat)
    (antithetic : bool) (r0 : R) (tape cMdl cRng n : nat) :
  Forall quiet (flat_map (λ i, aadPathEvents prd m2 mk antithetic r0 tape cMdl cRng i i)
                  (seq 0 n)).
Proof.
  apply Forall_flat_map, Forall_forall. intros i _.
  unfold aadPathEvents, gaussEvents.
  by destruct (antithetic && Nat.odd i); repeat constructor.
Qed.


End EngineFacts.

(** * [blackScholesIvol]: the local [pl] *)

Module IvolFacts.
Import QArith Lqa.
Import Analytics.
Local Open Scope Q_scope.

Lemma Qgtb_true (x y : Q) : Qgtb x y = true ↔ y < x.
Proof.
  unfold Qgtb. rewrite negb_true_iff. split.
  - intros Hb. apply Qnot_le_lt. intros Hle. apply Qle_bool_iff in Hle. congruence.
  - intros Hlt. destruct (Qle_bool x y) eqn:Hb; [|done].
    apply Qle_bool_iff in Hb. lra.
Qed.

Lemma Qgtb_false (x y : Q) : Qgtb x y = false ↔ x <= y.
Proof.
  unfold Qgtb. rewrite negb_false_iff. apply Qle_bool_iff.
Qed.

(** [d] halved [k] times. *)
Fixpoint halved (k : nat) (d : Q) : Q :=
  match k with
  | O => d
  | S k' => halved k' (d * (1 # 2))
  end.

Lemma halved_le (k : nat) (d d' : Q) : d <= d' → halved k d <= halved k d'.
Proof.
  revert d d'. induction k as [|k IH]; intros d d' Hle; cbn [halved]; [done|].
  apply IH. lra.
Qed.

Section Stuck.
Variable blackScholes : Q → Q → Q → Q → Q.
Variables spot strike mat : Q.
Hypothesis increasing :
  ∀ v v', v < v' → blackScholes spot strike v mat < blackScholes spot strike v' mat.

Let prem := blackScholes spot strike (1 # 20) mat.

(** As long as the price at the lower bound is the premium, the
    bisection only ever moves the upper bound, and [pl] stays
    unassigned. *)
Lemma bisect_stuck (k fuel : nat) (b : Bracket) :
  (k < fuel)%nat →
  bl b = 1 # 20 →
  bpl b = None →
  1 # 20 < bu b →
  halved k (bu b - (1 # 20)) <= 1 # 1000000000000 →
  ∃ b', bisect blackScholes spot strike prem mat fuel b = Some b' ∧ bpl b' = None.
Proof.
  revert fuel b. induction k as [|k IH]; intros fuel b Hfuel Hl Hpl Hu Hd;
    (destruct fuel as [|fuel]; [lia|]); cbn [bisect halved] in *.
  - rewrite Hl. rewrite (proj2 (Qgtb_false _ _)) by done. by exists b.
  - rewrite Hl. destruct (Qgtb (bu b - (1 # 20)) (1 # 1000000000000)) eqn:Hgap;
      [|by exists b].
    rewrite (proj2 (Qgtb_true _ _)).
    + apply IH; cbn [bl bpl bu]; [lia|done|done|lra|].
      eapply Qle_trans; [|exact Hd]. apply halved_le. lra.
    + apply increasing. lra.
Qed.
End Stuck.

(** C10.  [pl] can be read without ever having been assigned.  Take any
    pricing function that increases with the volatility, and let the
    premium be the price at volatility 0.05 (above the guard of the first
    line).  Then the first loop leaves [u = 0.5], the second leaves
    [l = 0.05], every midpoint of the bisection prices above the premium,
    so only [u] and [pu] are ever assigned, and the [return] statement
    reads [pl], which was never assigned. *)
Theorem ivol_reads_unassigned (blackScholes : Q → Q → Q → Q → Q)
    (EPS spot strike mat : Q) (fuel : nat) :
  (∀ v v', v < v' → blackScholes spot strike v mat < blackScholes spot strike v' mat) →
  Qle_bool (blackScholes spot strike (1 # 20) mat) (Qmaxd 0 (spot - strike) + EPS) = false →
  (40 <= fuel)%nat →
  blackScholesIvol blackScholes EPS spot strike (blackScholes spot strike (1 # 20) mat)
    mat fuel
  = ReadsUnassigned.
Proof.
  intros Hinc Hguard Hfuel. unfold blackScholesIvol. rewrite Hguard.
  destruct fuel as [|fuel]; [lia|]. cbn [growUpper shrinkLower].
  rewrite (proj2 (Qgtb_false _ _)) by (apply Qlt_le_weak, Hinc; lra).
  rewrite (proj2 (Qgtb_false _ _)) by lra.
  destruct (bisect_stuck blackScholes spot strike mat Hinc 39 (S fuel)
              (mkBracket (1 # 2) (1 # 20) (blackScholes spot strike (1 # 2) mat) None))
    as (b' & -> & ->); cbn [bl bpl bu]; try done; try lia; try lra.
Qed.

(** ** [blackScholesIvol]: the bracket *)

Section BracketFacts.
Variable blackScholes : Q → Q → Q → Q → Q.
Variables EPS spot strike prem mat : Q.

Local Abbreviation BS v := (blackScholes spot strike v mat).

Lemma growUpper_spec (fuel : nat) (u0 u : Q) :
  growUpper blackScholes spot strike prem mat fuel u0 = Some u →
  0 < u0 → u0 <= u ∧ prem <= BS u.
Proof.
  revert u0. induction fuel as [|fuel IH]; intros u0 Hg Hpos; cbn [growUpper] in Hg; [done|].
  destruct (Qgtb prem (BS u0)) eqn:Hc.
  - destruct (IH _ Hg) as [Hle Hp]; [lra|]. split; [lra|done].
  - injection Hg as <-. apply Qgtb_false in Hc. split; [lra|done].
Qed.

Lemma shrinkLower_spec (fuel : nat) (l0 l : Q) :
  shrinkLower blackScholes spot strike prem mat fuel l0 = Some l →
  0 < l0 → 0 < l ∧ l <= l0 ∧ BS l <= prem.
Proof.
  revert l0. induction fuel as [|fuel IH]; intros l0 Hs Hpos; cbn [shrinkLower] in Hs; [done|].
  destruct (Qgtb (BS l0) prem) eqn:Hc.
  - assert (l0 / 2 == l0 * (1 # 2)) as Hhalf by (unfold Qdiv; reflexivity).
    destruct (IH _ Hs) as (Hl & Hle & Hp); [lra|]. split_and!; [done|lra|done].
  - injection Hs as <-. apply Qgtb_false in Hc. split_and!; [done|lra|done].
Qed.

Lemma bisect_spec (fuel : nat) (b b' : Bracket) :
  bisect blackScholes spot strike prem mat fuel b = Some b' →
  Bracketed blackScholes spot strike prem mat b →
  Bracketed blackScholes spot strike prem mat b' ∧ bu b' - bl b' <= 1 # 1000000000000
  ∧ bl b <= bl b' ∧ bu b' <= bu b.
Proof.
  revert b. induction fuel as [|fuel IH]; intros b Hb Hinv; cbn [bisect] in Hb; [done|].
  destruct (Qgtb (bu b - bl b) (1 # 1000000000000)) eqn:Hgap.
  - destruct Hinv as (Hl & Hlu & Hpu & Hup & Hlo & Hpl).
    destruct (Qgtb (BS ((1 # 2) * (bu b + bl b))) prem) eqn:Hc.
    + apply Qgtb_true in Hc.
      destruct (IH _ Hb) as (Hinv' & Hd & Hl' & Hu'); cbn [bl bu bpu bpl] in *.
      * split_and!; cbn [bl bu bpu bpl]; [done|lra|done|lra|done|done].
      * split_and!; [done|done|done|lra].
    + apply Qgtb_false in Hc.
      destruct (IH _ Hb) as (Hinv' & Hd & Hl' & Hu'); cbn [bl bu bpu bpl] in *.
      * split_and!; cbn [bl bu bpu bpl]; [lra|lra|done|done|done|].
        intros p [= <-]. done.
      * split_and!; [done|done|lra|done].
  - injection Hb as <-. apply Qgtb_false in Hgap. split_and!; [done|done|lra|lra].
Qed.

(** X15.  A value [blackScholesIvol] returns is either the 0 of the first
    line, for a premium within [EPS] of the intrinsic value, or the
    interpolation between two volatilities [l < u] at most [1e-12]
    apart, that bracket the premium: the price at [l] is not above it,
    the price at [u] not below.  When the two prices differ, the value
    lies between [l] and [u]. *)
Theorem ivol_bracket (fuel : nat) (x : Q) :
  blackScholesIvol blackScholes EPS spot strike prem mat fuel = Returned x →
  (prem <= Qmaxd 0 (spot - strike) + EPS ∧ x = 0)
  ∨ (Qmaxd 0 (spot - strike) + EPS < prem
     ∧ ∃ l u, 0 < l ∧ l < u ∧ u - l <= 1 # 1000000000000
         ∧ BS l <= prem ∧ prem <= BS u
         ∧ x = l + (prem - BS l) / (BS u - BS l) * (u - l)
         ∧ (BS l < BS u → l <= x ∧ x <= u)).
Proof.
  unfold blackScholesIvol. intros Hret.
  destruct (Qle_bool prem (Qmaxd 0 (spot - strike) + EPS)) eqn:Hguard.
  { left. apply Qle_bool_iff in Hguard. by injection Hret as <-. }
  right. split.
  { apply Qnot_le_lt. intros Hle. apply Qle_bool_iff in Hle. congruence. }
  destruct (growUpper _ _ _ _ _ fuel (1 # 2)) as [u0|] eqn:Hgrow; [|done].
  destruct (shrinkLower _ _ _ _ _ fuel (1 # 20)) as [l0|] eqn:Hshrink; [|done].
  destruct (bisect _ _ _ _ _ fuel _) as [b|] eqn:Hbis; [|done].
  destruct (bpl b) as [pl|] eqn:Hpl; [|done].
  injection Hret as <-.
  apply growUpper_spec in Hgrow as [Hu0 Hpu0]; [|lra].
  apply shrinkLower_spec in Hshrink as (Hl0 & Hl0' & Hpl0); [|lra].
  apply bisect_spec in Hbis as ((Hl & Hlu & Hpu & Hup & Hlo & Hpl') & Hd & _).
  2:{ split_and!; cbn [bl bu bpu bpl]; [done|lra|done|done|done|done]. }
  specialize (Hpl' pl Hpl). subst pl. rewrite Hpu.
  exists (bl b), (bu b). split_and!; try done.
  intros Hlt.
  set (c := (prem - BS (bl b)) / (BS (bu b) - BS (bl b))).
  assert (0 <= c ∧ c <= 1) as [Hc0 Hc1].
  { subst c. split.
    - apply Qle_shift_div_l; lra.
    - apply Qle_shift_div_r; lra. }
  assert (0 <= c * (bu b - bl b)) by (apply Qmult_le_0_compat; lra).
  assert (0 <= (1 - c) * (bu b - bl b)) by (apply Qmult_le_0_compat; lra).
  split; lra.
Qed.
End BracketFacts.
End IvolFacts.

(** * [merton]: the factorial *)

Module MertonFacts.
Import Analytics.

Section Facts.
Variable F : Type.
Variables (fadd fsub fmul fdiv : F → F → F) (fneg fsqrt flog fexp normalCdf : F → F).
Variables (fltb fleb : F → F → bool) (ofZ : Z → F) (fhalf EPS : F).
Variables (spot strike vol mat intens meanJmp stdJmp : F).

Local Abbreviation loop :=
  (mertonLoop F fadd fsub fmul fdiv fneg fsqrt flog fexp normalCdf fltb fleb ofZ fhalf EPS
     spot strike vol mat intens meanJmp stdJmp).
Local Abbreviation step :=
  (mertonStep F fadd fsub fmul fdiv fneg fsqrt flog fexp normalCdf fltb fleb ofZ fhalf EPS
     spot strike vol mat intens meanJmp stdJmp).
Local Abbreviation term :=
  (mertonTerm F fadd fsub fmul fdiv fneg fsqrt flog fexp normalCdf fltb fleb ofZ fhalf EPS
     spot strike vol mat intens meanJmp stdJmp).
Local Abbreviation total :=
  (mertonSum F fadd fsub fmul fdiv fneg fsqrt flog fexp normalCdf fltb fleb ofZ fhalf EPS
     spot strike vol mat intens meanJmp stdJmp).

Lemma mertonLoop_succ (n : nat) : loop (S n) = step n (loop n).
Proof. unfold mertonLoop. by rewrite seq_S, foldl_app. Qed.

Lemma factZ_pos (n : nat) : (0 < factZ n)%Z.
Proof. induction n as [|n IH]; cbn [factZ]; lia. Qed.

Lemma factZ_small (n : nat) : n ≤ 12 → (factZ n < 2 ^ 32)%Z.
Proof.
  intros Hn. do 13 (destruct n as [|n]; [by vm_compute|]). lia.
Qed.

(** [fact] is the factorial modulo [2 ^ 32], and [iT] the power. *)
Lemma mertonLoop_fact (n : nat) :
  mfact F (loop n) = (factZ n mod 2 ^ 32)%Z
  ∧ miT F (loop n) = mertonPow F fmul ofZ mat intens n.
Proof.
  induction n as [|n [IHf IHp]]; [done|].
  rewrite mertonLoop_succ. unfold mertonStep. cbn [mfact miT factZ mertonPow].
  rewrite IHf, IHp. split; [|done].
  rewrite Z.mul_mod_idemp_l by lia. f_equal. lia.
Qed.

Lemma mertonLoop_result (cut : nat) : cut ≤ 13 → mresult F (loop cut) = total cut.
Proof.
  induction cut as [|cut IH]; intros Hcut; [done|].
  rewrite mertonLoop_succ. unfold mertonSum. rewrite seq_S, foldl_app. cbn [foldl plus].
  fold (total cut). rewrite <-IH by lia.
  destruct (mertonLoop_fact cut) as [Hf Hp].
  unfold mertonStep, mertonTerm. cbn [mresult]. rewrite Hf, Hp.
  rewrite Z.mod_small; [done|].
  split; [pose proof (factZ_pos cut); lia|apply factZ_small; lia].
Qed.

(** X16.  [merton] sums the first 10 terms of the series, each price
    weighted by [exp (-intensT) * intensT ^ n / n!] with the factorial
    itself: the [unsigned] in which the loop accumulates it holds [n!]
    for [n <= 12], so it has not wrapped where it is used, and would
    not with up to 13 terms.  It wraps at [13!], which a 14th term
    would use. *)
Theorem merton_factorial :
  merton F fadd fsub fmul fdiv fneg fsqrt flog fexp normalCdf fltb fleb ofZ fhalf EPS
    spot strike vol mat intens meanJmp stdJmp
  = total 10
  ∧ (∀ cut, cut ≤ 13 → mresult F (loop cut) = total cut)
  ∧ (∀ n, n ≤ 12 → mfact F (loop n) = factZ n)
  ∧ mfact F (loop 13) ≠ factZ 13.
Proof.
  split_and!.
  - apply mertonLoop_result. lia.
  - apply mertonLoop_result.
  - intros n Hn. destruct (mertonLoop_fact n) as [-> _].
    apply Z.mod_small. split; [pose proof (factZ_pos n); lia|by apply factZ_small].
  - destruct (mertonLoop_fact 13) as [-> _]. by vm_compute.
Qed.
End Facts.
End MertonFacts.

(** * The statements on the small instance *)

Module ToyFacts.
Import Toy.

Lemma Z_ring :
  ring_theory (R:=Z) dzero dunit dadd dmul (λ x y, dadd x (dneg y)) dneg eq.
Proof. constructor; intros; cbn; lia. Qed.

Lemma counter_skipLoop (k : nat) (r : Counter) :
  RNG.skipLoop RNG.nextG k r = mkCounter (pos r + k) (cdim r).
Proof.
  revert r. induction k as [|k IH]; intros [p d]; cbn [RNG.skipLoop].
  - cbn. by rewrite Nat.add_0_r.
  - rewrite IH. cbn. f_equal. lia.
Qed.

Lemma counter_exact : ExactSkipAhead (R:=Counter).
Proof.
  intros r k j. unfold nthDraw. rewrite !counter_skipLoop. cbn.
  rewrite Nat2Z.id. do 3 f_equal. lia.
Qed.

Lemma pool_valid : ValidSchedule pool (length (spawnLoop 70 0 70)).
Proof.
  split.
  - apply perm_swap.
  - repeat constructor; cbn; lia.
Qed.

Lemma pool'_valid : ValidSchedule pool' (length (spawnLoop 70 0 70)).
Proof.
  split.
  - done.
  - repeat constructor; cbn; lia.
Qed.



Lemma parallel_matches_sequential_witness :
  ExactSkipAhead (R:=Counter)
  ∧ ValidSchedule pool (length (spawnLoop 70 0 70))
  ∧ (mcParallelSimul pool square 0 0 70 true world).1
    = (mcSimul square 0 0 70 true world).1.
Proof.
  split; [exact counter_exact|]. split; [exact pool_valid|].
  exact (parallel_matches_sequential pool square 0 0 70 true world counter_exact pool_valid).
Defined.

Lemma aad_setup_protocol_witness :
  tapePtr world 0 < length (tapes world)
  ∧ trace (initSimul 0 asquare 0 0 [] [] world).2
    = [EvModelClone 0 1; EvRngClone 0 1; EvTapeRewind 0; EvPutOnTape 1 0;
       EvModelInit 1; EvTapeMark 0; EvRngInit 1 1].
Proof.
  assert (tapePtr world 0 < length (tapes world)) as Htape by (cbn; lia).
  split; [exact Htape|].
  exact (proj1 (proj1 (aad_setup_protocol (MD:=Lin) 0 asquare 0 0 3 true [] []
                         (mkAADLocals [] [] [] [] [] []) world Htape Htape))).
Defined.

Lemma parallel_aad_finalisation_witness :
  0 < length (amodels world)
  ∧ 0 < length (rngs world)
  ∧ tapePtr world mainThread < length (tapes world)
  ∧ ValidSchedule pool (length (spawnLoop 70 0 70))
  ∧ tapePtr (mcParallelSimulAAD pool asquare 0 0 70 true world).2 mainThread = 0
  ∧ (mcParallelSimulAAD pool asquare 0 0 70 true world).1.2 = 1.
Proof.
  assert (0 < length (amodels world)) as Hm by (cbn; lia).
  assert (0 < length (rngs world)) as Hr by (cbn; lia).
  assert (tapePtr world mainThread < length (tapes world)) as Htape by (cbn; lia).
  split; [exact Hm|]. split; [exact Hr|]. split; [exact Htape|].
  split; [exact pool_valid|].
  pose proof (parallel_aad_finalisation (MD:=Lin) pool asquare 0 0 70 true world
                Hm Hr Htape pool_valid) as Hfin.
  cbn zeta in Hfin.
  destruct Hfin as (_ & _ & _ & _ & _ & _ & Hptr & Hret & _).
  split; [exact Hptr|exact Hret].
Defined.


Lemma ivol_reads_unassigned_witness :
  Analytics.blackScholesIvol price (QArith_base.Qmake 1 100000000)
    (QArith_base.Qmake 100 1) (QArith_base.Qmake 100 1)
    (price (QArith_base.Qmake 100 1) (QArith_base.Qmake 100 1) (QArith_base.Qmake 1 20)
       (QArith_base.Qmake 1 1))
    (QArith_base.Qmake 1 1) 40
  = Analytics.ReadsUnassigned.
Proof.
  apply IvolFacts.ivol_reads_unassigned.
  - intros v v' Hlt. exact Hlt.
  - reflexivity.
  - lia.
Defined.

Lemma counter_clone (r : Counter) : RNG.clone r = r.
Proof. done. Qed.

Lemma counter_skipTo (r : Counter) (b : Z) :
  (0 ≤ b ≤ RNG.INT_MAX)%Z →
  RNG.skipToBase RNG.nextG r b = RNG.Skipped (RNG.skipTo r b).
Proof.
  intros Hb. rewrite skipToBase_run by lia. by rewrite counter_skipLoop.
Qed.

Lemma base_skipTo_parallel_witness :
  (∀ r : Counter, RNG.clone r = r)
  ∧ (∀ (r : Counter) b, (0 ≤ b ≤ RNG.INT_MAX)%Z →
       RNG.skipToBase RNG.nextG r b = RNG.Skipped (RNG.skipTo r b))
  ∧ (Z.of_nat 70 ≤ RNG.INT_MAX)%Z
  ∧ ValidSchedule pool (length (spawnLoop 70 0 70))
  ∧ (mcParallelSimul pool square 0 0 70 true world).1
    = (mcSimul square 0 0 70 true world).1.
Proof.
  assert (Z.of_nat 70 ≤ RNG.INT_MAX)%Z as Hmax by (unfold RNG.INT_MAX; lia).
  split; [exact counter_clone|]. split; [exact counter_skipTo|].
  split; [exact Hmax|]. split; [exact pool_valid|].
  exact (base_skipTo_parallel pool square 0 0 70 true world
           counter_clone counter_skipTo Hmax pool_valid).
Defined.

Lemma mcParallelSimul_payoffs_witness :
  ValidSchedule pool (length (spawnLoop 70 0 70))
  ∧ length (mcParallelSimul pool square 0 0 70 true world).1 = 70
  ∧ rngs (mcParallelSimul pool square 0 0 70 true world).2 !!! 1
    = setupRng square (models world !!! 0) (rngs world !!! 0).
Proof.
  split; [exact pool_valid|].
  pose proof (mcParallelSimul_payoffs pool square 0 0 70 true world pool_valid) as Hp.
  cbn zeta in Hp.
  destruct Hp as (_ & Hlen & _ & Hrng & _).
  split; [exact Hlen|exact Hrng].
Defined.

Lemma antithetic_pairs_not_split_witness :
  Nat.even 62 = true
  ∧ 62 + 1 < 70
  ∧ (62 + 1) / 64 = 62 / 64
  ∧ pathGauss true (mkCounter 0 1) (62 + 1) = map dneg (pathGauss true (mkCounter 0 1) 62).
Proof.
  assert (Nat.even 62 = true) as Hev by reflexivity.
  assert (62 + 1 < 70) as Hlt by lia.
  split; [exact Hev|]. split; [exact Hlt|].
  pose proof (antithetic_pairs_not_split (R:=Counter) 70 62 Hev Hlt) as Hp.
  destruct Hp as (_ & Hdiv & Hneg).
  split; [exact Hdiv|exact (Hneg (mkCounter 0 1) 62 Hev)].
Defined.

Lemma parallel_aad_matches_sequential_witness :
  ExactSkipAhead (R:=Counter)
  ∧ 0 < length (amodels world)
  ∧ 0 < length (rngs world)
  ∧ tapePtr world mainThread < length (tapes world)
  ∧ ValidSchedule pool (length (spawnLoop 70 0 70))
  ∧ (mcParallelSimulAAD pool asquare 0 0 70 true world).1
    = (mcSimulAAD asquare 0 0 70 true world).1.
Proof.
  assert (0 < length (amodels world)) as Hm by (cbn; lia).
  assert (0 < length (rngs world)) as Hr by (cbn; lia).
  assert (tapePtr world mainThread < length (tapes world)) as Htape by (cbn; lia).
  split; [exact counter_exact|]. split; [exact Hm|]. split; [exact Hr|].
  split; [exact Htape|]. split; [exact pool_valid|].
  exact (parallel_aad_matches_sequential (MD:=Lin) pool asquare 0 0 70 true world
           counter_exact Hm Hr Htape pool_valid).
Defined.

Lemma mcSimulAAD_tape_size_witness :
  tapePtr world mainThread < length (tapes world)
  ∧ markPos (tapes (mcSimulAAD asquare 0 0 3 true world).2 !!! tapePtr world mainThread)
    = length (aadSetupNodes asquare (amodels world !!! 0)).
Proof.
  assert (tapePtr world mainThread < length (tapes world)) as Htape by (cbn; lia).
  split; [exact Htape|].
  exact (proj1 (mcSimulAAD_tape_size (MD:=Lin) asquare 0 0 3 true world Htape)).
Defined.

Lemma mcSimulAAD_values_witness :
  lifts (models world !!! 0) (amodels world !!! 0)
  ∧ tapePtr world mainThread < length (tapes world)
  ∧ (mcSimulAAD asquare 0 0 3 true world).1.1 = (mcSimul square 0 0 3 true world).1.
Proof.
  assert (lifts (models world !!! 0) (amodels world !!! 0)) as Hrel by (split; reflexivity).
  assert (tapePtr world mainThread < length (tapes world)) as Htape by (cbn; lia).
  split; [exact Hrel|]. split; [exact Htape|].
  apply (mcSimulAAD_values square asquare lifts 0 0 0 3 true world).
  - intros md mn Hl. exact Hl.
  - intros md mn base [Hs Hf]. split; [exact Hs|exact Hf].
  - intros md mn tl base [Hs Hf]. split; cbn; [exact Hs|by rewrite Hs].
  - reflexivity.
  - intros md mn g base [Hs Hf]. cbn. by rewrite Hs, Hf.
  - intros [|sc path] [|asc apath] base Heq; try done. cbn in *.
    injection Heq as Heq _. by rewrite Heq.
  - reflexivity.
  - exact Hrel.
  - exact Htape.
Defined.

Lemma parallel_aad_adjoints_witness :
  ExactSkipAhead (R:=Counter)
  ∧ 0 < length (amodels world)
  ∧ 0 < length (rngs world)
  ∧ tapePtr world mainThread < length (tapes world)
  ∧ ValidSchedule pool (length (spawnLoop 70 0 70))
  ∧ aadRecordingOk asquare (amodels world !!! 0) true (rngs world !!! 0) 70 = true
  ∧ NoDup (map node (Model.parameters (aadSetupModel asquare (amodels world !!! 0))))
  ∧ adjointAt (nodes (tapes (mcParallelSimulAAD pool asquare 0 0 70 true world).2
                        !!! tapePtr world mainThread)) 0
    = bigsum 70 (aadPathDerivative asquare (amodels world !!! 0) true (rngs world !!! 0) 0).
Proof.
  assert (0 < length (amodels world)) as Hm by (cbn; lia).
  assert (0 < length (rngs world)) as Hr by (cbn; lia).
  assert (tapePtr world mainThread < length (tapes world)) as Htape by (cbn; lia).
  assert (aadRecordingOk asquare (amodels world !!! 0) true (rngs world !!! 0) 70 = true)
    as Hok by (vm_compute; reflexivity).
  assert (NoDup (map node (Model.parameters (aadSetupModel asquare (amodels world !!! 0)))))
    as Hnd by apply NoDup_singleton.
  split; [exact counter_exact|]. split; [exact Hm|]. split; [exact Hr|].
  split; [exact Htape|]. split; [exact pool_valid|]. split; [exact Hok|].
  split; [exact Hnd|].
  apply (proj2 (proj2 (parallel_aad_adjoints (MD:=Lin) Z_ring pool asquare 0 0 70 true world
                         counter_exact Hm Hr Htape pool_valid Hok Hnd)) (mkNumber 5%Z 0)).
  apply list_elem_of_here.
Defined.

Lemma worker_tape_pointers_witness :
  0 < length (amodels world)
  ∧ 0 < length (rngs world)
  ∧ tapePtr world mainThread < length (tapes world)
  ∧ ValidSchedule pool (length (spawnLoop 70 0 70))
  ∧ length (tapes (mcParallelSimulAADCall pool asquare 0 0 70 true world).2) = 1
  ∧ tapePtr (mcParallelSimulAADCall pool asquare 0 0 70 true world).2 2 = 2
  ∧ tapes (mcParallelSimulAADCall pool asquare 0 0 70 true world).2 !! 2 = None
  ∧ tapePtr (mcParallelSimulAADCall pool asquare 0 0 70 true world).2 0 = tapePtr world 0.
Proof.
  assert (0 < length (amodels world)) as Hm by (cbn; lia).
  assert (0 < length (rngs world)) as Hr by (cbn; lia).
  assert (tapePtr world mainThread < length (tapes world)) as Htape by (cbn; lia).
  split; [exact Hm|]. split; [exact Hr|]. split; [exact Htape|].
  split; [exact pool_valid|].
  pose proof (worker_tape_pointers (MD:=Lin) pool asquare 0 0 70 true world
                Hm Hr Htape pool_valid) as Hw.
  cbn zeta in Hw. destruct Hw as (_ & Hlen & Hworker & Hother).
  destruct (Hworker 2) as (Hptr & _ & Hnone); [lia|apply list_elem_of_here|].
  split; [exact Hlen|]. split; [exact Hptr|]. split.
  - rewrite Hptr in Hnone. exact Hnone.
  - apply (Hother 0). by left.
Defined.

Lemma aad_path_order_witness :
  let L := mkAADLocals [Some 0] [Some 0] [[1%Z]] [[]] [true]
             (replicate 3 (mkNumber 0%Z 0)) in
  tapePtr world 0 < length (tapes world)
  ∧ 0 + 1 < length (ares L)
  ∧ length (ares (aadTaskPath asquare true 0 0 0 1 (false, L) world).1.2) = 3.
Proof.
  intros L.
  assert (tapePtr world 0 < length (tapes world)) as Htape by (cbn; lia).
  assert (0 + 1 < length (ares L)) as Hi by (cbn; lia).
  split; [exact Htape|]. split; [exact Hi|].
  pose proof (aad_path_order (MD:=Lin) asquare true 0 0 0 0 0 1 false [] []
                (replicate 3 (mkNumber 0%Z 0)) L world) as Hw.
  cbn zeta in Hw. destruct Hw as (_ & _ & _ & _ & Htask & _).
  specialize (Htask Htape Hi). destruct Htask as (Hres & _ & _).
  rewrite Hres. apply length_insert.
Defined.

Lemma antithetic_toggle_witness :
  tapePtr world mainThread < length (tapes world)
  ∧ ValidSchedule pool (length (spawnLoop 70 0 70))
  ∧ (∃ E, trace (mcSimulAAD asquare 0 0 70 true world).2 = trace world ++ E
          ∧ gaussSteps E
            = antitheticSteps (aadSetupRng asquare (amodels world !!! 0) (rngs world !!! 0))
                70
          ∧ rngs (mcSimulAAD asquare 0 0 70 true world).2 !!! length (rngs world)
            = RNG.skipLoop RNG.nextG ((70 + 1) / 2)
                (aadSetupRng asquare (amodels world !!! 0) (rngs world !!! 0)))
  ∧ (∃ E, trace (mcParallelSimul pool square 0 0 70 true world).2 = trace world ++ E
          ∧ gaussSteps E
            = flat_map (λ kt, antitheticTaskSteps
                                (setupRng square (models world !!! 0) (rngs world !!! 0))
                                (spawnLoop 70 0 70 !!! kt.1)) (schedule pool))
  ∧ (∃ E, trace (mcParallelSimulAAD pool asquare 0 0 70 true world).2 = trace world ++ E
          ∧ gaussSteps E
            = flat_map (λ kt, antitheticTaskSteps
                                (aadSetupRng asquare (amodels world !!! 0)
                                   (rngs world !!! 0))
                                (spawnLoop 70 0 70 !!! kt.1)) (schedule pool)).
Proof.
  assert (0 < length (amodels world)) as Hm by (cbn; lia).
  assert (0 < length (rngs world)) as Hr by (cbn; lia).
  assert (tapePtr world mainThread < length (tapes world)) as Htape by (cbn; lia).
  split; [exact Htape|]. split; [exact pool_valid|].
  pose proof (antithetic_toggle pool square asquare 0 0 70 world) as Hw.
  cbn zeta in Hw. destruct Hw as (_ & _ & _ & Haad & Hpar & Hpaad & _).
  specialize (Haad Htape). specialize (Hpar pool_valid).
  specialize (Hpaad Hm Hr Htape pool_valid).
  split; [exact Haad|]. split; [|exact Hpaad].
  destruct Hpar as (E & HE & Hg & _). exists E. split; [exact HE|exact Hg].
Defined.


Lemma mcSimulAAD_wipes_tape_witness :
  tapePtr world mainThread < length (tapes world)
  ∧ mcSimulAAD asquare 0 0 3 true
      (mkWorld (models world) (amodels world) (rngs world)
         (<[tapePtr world mainThread := mkTape [freshNode []; freshNode []] 1]>
            (tapes world))
         (tapePtr world) (trace world))
    = mcSimulAAD asquare 0 0 3 true world.
Proof.
  assert (tapePtr world mainThread < length (tapes world)) as Htape by (cbn; lia).
  split; [exact Htape|].
  exact (proj1 (mcSimulAAD_wipes_tape (MD:=Lin) asquare 0 0 3 true world
                  (mkTape [freshNode []; freshNode []] 1) Htape)).
Defined.

Lemma parallel_aad_tape_frame_witness :
  0 < length (amodels world2)
  ∧ 0 < length (rngs world2)
  ∧ tapePtr world2 mainThread < length (tapes world2)
  ∧ ValidSchedule pool (length (spawnLoop 70 0 70))
  ∧ mcParallelSimulAAD pool asquare 0 0 70 true
      (mkWorld (models world2) (amodels world2) (rngs world2)
         (<[tapePtr world2 mainThread := mkTape [freshNode []; freshNode []] 1]>
            (tapes world2))
         (tapePtr world2) (trace world2))
    = mcParallelSimulAAD pool asquare 0 0 70 true world2
  ∧ tapes (mcParallelSimulAAD pool asquare 0 0 70 true world2).2 !!! 1
    = tapes world2 !!! 1.
Proof.
  assert (0 < length (amodels world2)) as Hm by (cbn; lia).
  assert (0 < length (rngs world2)) as Hr by (cbn; lia).
  assert (tapePtr world2 mainThread < length (tapes world2)) as Htape by (cbn; lia).
  split; [exact Hm|]. split; [exact Hr|]. split; [exact Htape|].
  split; [exact pool_valid|].
  pose proof (parallel_aad_tape_frame (MD:=Lin) pool asquare 0 0 70 true world2
                (mkTape [freshNode []; freshNode []] 1) Hm Hr Htape pool_valid) as Hf.
  cbn zeta in Hf. destruct Hf as [Hsame Hframe].
  split; [exact Hsame|]. apply (Hframe 1); cbn; lia.
Defined.

Lemma parallel_aad_clones_witness :
  0 < length (amodels world)
  ∧ 0 < length (rngs world)
  ∧ tapePtr world mainThread < length (tapes world)
  ∧ ValidSchedule pool (length (spawnLoop 70 0 70))
  ∧ ∃ workers,
      (∀ th, th ∈ workers ↔ 0 < th ∧ th ∈ map snd (schedule pool))
      ∧ length (amodels (mcParallelSimulAAD pool asquare 0 0 70 true world).2)
        = length (amodels world) + 1 + length workers.
Proof.
  assert (0 < length (amodels world)) as Hm by (cbn; lia).
  assert (0 < length (rngs world)) as Hr by (cbn; lia).
  assert (tapePtr world mainThread < length (tapes world)) as Htape by (cbn; lia).
  split; [exact Hm|]. split; [exact Hr|]. split; [exact Htape|].
  split; [exact pool_valid|].
  destruct (parallel_aad_clones (MD:=Lin) pool asquare 0 0 70 true world
              Hm Hr Htape pool_valid) as (ws & _ & Hmem & Hlen & _).
  exists ws. split; [exact Hmem|exact Hlen].
Defined.

Lemma ivol_bracket_witness :
  ∃ x, Analytics.blackScholesIvol price (QArith_base.Qmake 1 100000000)
         (QArith_base.Qmake 100 1) (QArith_base.Qmake 100 1) (QArith_base.Qmake 1 2)
         (QArith_base.Qmake 1 1) 60
       = Analytics.Returned x
     ∧ ∃ l u, QArith_base.Qlt l u
         ∧ QArith_base.Qle (QArith_base.Qminus u l) (QArith_base.Qmake 1 1000000000000)
         ∧ QArith_base.Qle l x ∧ QArith_base.Qle x u.
Proof.
  assert (∃ x, Analytics.blackScholesIvol price (QArith_base.Qmake 1 100000000)
                 (QArith_base.Qmake 100 1) (QArith_base.Qmake 100 1)
                 (QArith_base.Qmake 1 2) (QArith_base.Qmake 1 1) 60
               = Analytics.Returned x) as [x Hx]
    by (eexists; vm_compute; reflexivity).
  exists x. split; [exact Hx|].
  destruct (IvolFacts.ivol_bracket price (QArith_base.Qmake 1 100000000)
              (QArith_base.Qmake 100 1) (QArith_base.Qmake 100 1) (QArith_base.Qmake 1 2)
              (QArith_base.Qmake 1 1) 60 x Hx)
    as [[Hguard _]|(_ & l & u & _ & Hlu & Hgap & _ & _ & _ & Hbetween)].
  - apply QArith_base.Qle_bool_iff in Hguard. vm_compute in Hguard. discriminate Hguard.
  - exists l, u. split; [exact Hlu|]. split; [exact Hgap|]. exact (Hbetween Hlu).
Defined.
End ToyFacts.
